(* ===== verification/_CoqProject ===== *)
-Q . S2P
Prelude.v
Serde.v
PostcardRef.v
Platform.v
AesCcm.v
AppProtocol.v
DataLink.v
Discovery.v
Update.v
VersionText.v
AppServer.v
OffsetRules.v
AppClient.v
AppSystem.v
AppTime.v
AppResets.v
AppNetwork.v
DiscoveryRun.v
DiscoveryLoss.v
UpdateRun.v
UpdateBroadcast.v
UnitTests.v
DiscoveryAnalysis.v
