(* ===== verification/Prelude.v ===== *)
(** * flip-flop-protocol: a verification development

    The flip-flop protocol connects one client with many servers over a half
    duplex, low bandwidth link.  The repository has two library crates and
    five example programs; this library models all of them.

    ** The program's parts, and the files that model them

    - [src/app/src/lib.rs] -> [AppProtocol.v]: the request of a client
      ([CommandRequest]: the offset of the last event it has, and maybe a
      command), the reply of a server ([EventReply], [EventOf]), their derived
      and hand-written serialisation, and [event_reply].
    - [src/data/src/lib.rs] -> [DataLink.v]: the four-byte [Header] with its
      packing and parsing, the [DataFrame] on the wire, the nonce, and the
      encrypted datagrams ([to_datagram], [from_datagram]).
    - [src/data/src/discovery.rs] -> [Discovery.v]: the bit field of known
      addresses ([Identify], [AddressesIter]) and the choice of a free one
      ([Identified]).
    - [src/data/src/update.rs] -> [Update.v]: versions, their order, printer
      and parser; the messages that announce and carry a software update;
      [VersionText.v]: the grammar that the parser decides.
    - [src/app/examples/server/main.rs] and [common/lib.rs] -> [AppServer.v]:
      the [Server] record is the four variables of [main]; [on_datagram] and
      [on_event] are the two arms of its [select!].
    - [src/app/examples/client/main.rs] -> [AppClient.v]: [Client.t] is the
      loop's variables; a turn is [Client.send], then [Client.receive].
    - [src/offset-rules.md] -> [OffsetRules.v]: the documented table of a
      server's answers, as a specification of its own.
    - [AppSystem.v]: the two together over a network that loses datagrams;
      [AppTime.v]: the task that times the events, and the client's clock;
      [AppResets.v]: the same two when the server also starts anew at times;
      [AppNetwork.v]: over a network that also delays, repeats and reorders
      replies, as a step relation.
    - [src/data/examples/discovery/main.rs] -> [DiscoveryRun.v]: [client_task]
      and [server_task], the loops of [main] ([node_turn], [rounds]);
      [DiscoveryLoss.v]: the loops as a step relation, when requests and
      replies are lost, and which servers a round settles.
    - [src/data/examples/update/main.rs] -> [UpdateRun.v]: the client's loops
      ([prepare_servers_for_update], [update_servers]) and the server's
      ([server_turn]); [UpdateBroadcast.v]: several servers that hear each
      other's datagrams, and [main].
    - [src/data/examples/discovery_analysis/main.rs] ->
      [DiscoveryAnalysis.v]: [main] with its arguments, and the simulation, in
      binary64 arithmetic.
    - the [mod tests] of the library crates -> [UnitTests.v]: each test is a
      computation that panics where an assertion fails.

    A message type of the application travels in a datagram of its own (the
    application examples use UDP); the discovery and update payloads travel in
    the encrypted datagrams of the data link layer.

    ** Code that is not in the repository

    - serde and postcard: [Serde.v] has the calls of serde that the crates
      make ([SerdeFormat]), postcard's entry points ([Postcard]) and its
      documented wire format ([PostcardLaws]).  What a message type promises
      to its users is a class too: [Encoding], [Wire], [WireEnd], [WireEof];
      the components instantiate these and prove their theorems from them.
      [PostcardRef.v] is an instance, for computed examples and witnesses.
    - heapless vectors, the AEAD cipher, random generators and the circular
      queue: the classes of [Platform.v], each with its laws and an instance.
      The AEAD laws say that decryption accepts exactly what the key seals
      under the nonce and the associated data; they do not say that it is hard
      to forge.  [AesCcm.v] is an instance, AES-128 in CCM mode as the
      standards define it: the laws are theorems of it, and it gives the byte
      strings that the data crate's tests expect.
    - Rust's own library is modelled where it is used: [Result], [Option],
      [Iterator], [str], integers.  An integer of [w] bits is a [Z] with
      [uint w] of it; wrapping, truncating and checked operations are written
      out.  A panic is a value ([Panic] of [outcome]), and the theorems say
      when it does not occur.
    - [f64::powi] has no specified precision, and is a parameter; examples
      compute it by repeated squaring.

    ** What the theorems show

    - Messages: what is written to a buffer that has the room is read back as
      it was; sizes fit the datagrams that carry them; a field that does not
      decode is tolerated as the code intends.
    - Data link: round trip of headers and datagrams, exactly when sending
      panics, which errors receiving gives, that what is received was sealed
      with the key under the header that was received, and that a nonce
      determines the direction, address, port, counter and length.
    - Discovery: the bit field is a set of addresses; the choice is free and
      spread over all free addresses; rounds without losses give the servers
      different addresses, and the loop ends only when all have one; a round
      settles exactly the servers whose choice is unlike every other's
      ([round_settles]); requests missed by servers the client takes for
      settled or that never asked, and lost replies that hide no collision,
      do no harm ([discovery_with_losses]).
    - Update: versions print and compare as semantic versions do, and the
      parser accepts exactly the texts of its grammar ([version_parse_iff]);
      the client's chunks cover the update exactly, with the pauses at the ends
      of the flush periods, and no nonce is used twice in an update; a server
      that can read its announcement and then each part once, in order, and
      nothing else, follows the update to its end ([update_reaches_all]), and
      it drops an update it misses a part of; how long the example takes
      ([update_main_completes]).
    - Application examples: the server implements a specification, a history
      that forgets nothing ([server_refines_history], [server_answers]), until
      its offsets wrap around, and again when they have come around to the
      first ([server_wrapped]); as long as the server is not reset, the client
      gets events in order and at most once whatever is lost, and all of them
      if it keeps up; it catches up within eleven exchanges that get through;
      across resets of the server its state is the one its events
      give ([delivery_across_resets]); what it gets is genuine on any network
      ([got_events_are_genuine]); the time it prints for an event is right to
      a second and the time under way ([client_times_events]).
    - Analysis of discovery: [main] reads its arguments as its usage says
      ([main_usage]), and with one time slot the simulation does not end
      ([single_slot_never_ends]).
    - Tests: no assertion of the crates' tests fails ([wire_tests_pass],
      [plain_tests_pass]), whatever follows postcard's and heapless's
      documentation.
    - Where code and documents differ, the theorem states what the code does:
      [parse_error_iff], [update_overhead_exceeded], [offset_rules_kept],
      [server_wrapped], [client_never_commands] and the examples
      next to the witnesses.

    ** Fuel and bounds

    [AddressesIter.for_each] has fuel for 256 items and the end
    ([ITER_FUEL]); [iter_visits_all] shows that it is enough.  [update_loop]
    has one unit of fuel per byte of the update and one more;
    [update_servers_covers] shows that it is enough.  [rounds] and [simulate]
    count rounds, as their loops need not end.  The loops that wait for
    datagrams are recursive over the datagrams received.  The bounds in the
    theorems are those of the code: offsets that have not wrapped around
    (below 2^32), update offsets below 2^28, counters of type [i32], times
    whose seconds fit 64 bits.

    ** What is not modelled

    Sockets, the console, the broadcast channel, sleeping and the spawning of
    tasks: the datagrams received, the instants and the random draws are
    arguments.  Replies that arrive in a later turn are in [AppNetwork.v] and
    not in [AppSystem.v].  In the discovery example the servers reply within
    the client's window; a server that misses a request after it has asked for
    an address the client does not know can end up sharing it
    ([lost_request_duplicates]).  Debug and defmt output is left out.

    ** Plan

    Next: a client that polls several servers in turn; replies of discovery
    that arrive in the window of a later round. *)

From Stdlib Require Export ZArith Lia.
From stdpp Require Export base numbers list list_numbers gmap sets.

#[global] Open Scope Z_scope.

(** ** Rust's [Result], and panics *)

(** [core::result::Result<A, E>]; the error type comes first so that
    [result E] is a monad. *)
Inductive result (E A : Type) : Type :=
  | Ok (a : A)
  | Err (e : E).
Arguments Ok {E A} a.
Arguments Err {E A} e.

(** A computation that may panic ([unwrap] on an error, an index out of
    range, a failed [assert!], an overflow in a checked build). *)
Inductive outcome (A : Type) : Type :=
  | Done (a : A)
  | Panic.
Arguments Done {A} a.
Arguments Panic {A}.

#[export] Instance result_ret E : MRet (result E) := fun A a => Ok a.
#[export] Instance result_bind E : MBind (result E) := fun A B k m =>
  match m with Ok a => k a | Err e => Err e end.
#[export] Instance outcome_ret : MRet outcome := fun A a => Done a.
#[export] Instance outcome_bind : MBind outcome := fun A B k m =>
  match m with Done a => k a | Panic => Panic end.

#[export] Instance result_eq_dec E A `{EqDecision E, EqDecision A} :
  EqDecision (result E A).
Proof. solve_decision. Defined.
#[export] Instance outcome_eq_dec A `{EqDecision A} : EqDecision (outcome A).
Proof. solve_decision. Defined.

(** [Result::map_err], [Result::ok] and [Result::unwrap]. *)
Definition map_err {E E' A} (f : E -> E') (m : result E A) : result E' A :=
  match m with Ok a => Ok a | Err e => Err (f e) end.
Definition ok {E A} (m : result E A) : option A :=
  match m with Ok a => Some a | Err _ => None end.
Definition unwrap {E A} (m : result E A) : outcome A :=
  match m with Ok a => Done a | Err _ => Panic end.

Lemma done_inj {A} (a b : A) : Done a = Done b -> a = b.
Proof. by intros [= ->]. Qed.
Lemma ok_inj {E A} (a b : A) : Ok (E:=E) a = Ok b -> a = b.
Proof. by intros [= ->]. Qed.

(** [Option::ok_or]. *)
Definition ok_or {E A} (o : option A) (e : E) : result E A :=
  match o with Some a => Ok a | None => Err e end.

(** Indexing [a[i]]: a panic out of range. *)
Definition index {A} (l : list A) (i : Z) : outcome A :=
  match l !! Z.to_nat i with
  | Some a => if decide (0 <= i) then Done a else Panic
  | None => Panic
  end.

(** Assignment [a[i] = x]: a panic out of range. *)
Definition index_set {A} (l : list A) (i : Z) (x : A) : outcome (list A) :=
  if decide (0 <= i < Z.of_nat (length l)) then Done (<[Z.to_nat i := x]> l)
  else Panic.

Lemma index_total `{Inhabited A} (l : list A) i :
  0 <= i < Z.of_nat (length l) -> index l i = Done (l !!! Z.to_nat i).
Proof.
  intros Hi. unfold index.
  destruct (lookup_lt_is_Some_2 l (Z.to_nat i)) as [x Hx]; [lia|].
  rewrite Hx, decide_True by lia. by rewrite (list_lookup_total_correct _ _ _ Hx).
Qed.

Lemma index_set_total {A} (l : list A) i x :
  0 <= i < Z.of_nat (length l) -> index_set l i x = Done (<[Z.to_nat i := x]> l).
Proof. intros Hi. unfold index_set. by rewrite decide_True. Qed.

Lemma index_out_of_range {A} (l : list A) i :
  ~ 0 <= i < Z.of_nat (length l) -> index l i = Panic.
Proof.
  intros Hi. unfold index. destruct (l !! Z.to_nat i) eqn:Hl; [|done].
  apply lookup_lt_Some in Hl. by rewrite decide_False by lia.
Qed.

(** ** Machine integers

    A [w]-bit unsigned integer is a [Z] between 0 and [2^w - 1]. *)
Definition uint (w x : Z) : Prop := 0 <= x < 2 ^ w.

#[export] Instance uint_dec w x : Decision (uint w x).
Proof. unfold uint. apply _. Defined.

(** [x as uW]: truncation to the low [w] bits. *)
Definition as_uint (w x : Z) : Z := x mod 2 ^ w.
(** [uW::wrapping_add]. *)
Definition wrapping_add (w x y : Z) : Z := (x + y) mod 2 ^ w.
(** [x << n] at width [w]: the bits shifted out are lost. *)
Definition shl (w x n : Z) : Z := as_uint w (Z.shiftl x n).
(** [x + y] at width [w] in a build with overflow checks. *)
Definition checked_add (w x y : Z) : outcome Z :=
  if decide (x + y < 2 ^ w) then Done (x + y) else Panic.

(** A string of bytes. *)
Abbreviation bytes := (Forall (uint 8)).

(** ** Notations

    The code's bit operators, at its own relative precedences: shifts bind
    tighter than [&], which binds tighter than [|]. *)
Declare Scope ff_scope.
Delimit Scope ff_scope with ff.
Notation "x .<< n" := (Z.shiftl x n) (at level 44, left associativity) : ff_scope.
Notation "x .>> n" := (Z.shiftr x n) (at level 44, left associativity) : ff_scope.
Notation "x .& y" := (Z.land x y) (at level 46, left associativity) : ff_scope.
Notation "x .| y" := (Z.lor x y) (at level 48, left associativity) : ff_scope.

(** ** Lemmas on machine integers *)

Create HintDb ff discriminated.

Lemma as_uint_range w x : 0 <= w -> uint w (as_uint w x).
Proof. intros. unfold uint, as_uint. apply Z.mod_pos_bound. lia. Qed.

Lemma as_uint_small w x : uint w x -> as_uint w x = x.
Proof. apply Z.mod_small. Qed.

Lemma wrapping_add_small w x y :
  0 <= x + y < 2 ^ w -> wrapping_add w x y = x + y.
Proof. apply Z.mod_small. Qed.

Lemma uint_mono w w' x : w <= w' -> uint w x -> uint w' x.
Proof.
  unfold uint. intros Hw [Hx0 Hx]. split; [done|].
  destruct (decide (0 <= w)) as [Hw0|Hw0].
  - pose proof (Z.pow_le_mono_r 2 w w'). lia.
  - rewrite Z.pow_neg_r in Hx by lia. lia.
Qed.

Lemma testbit_as_uint w x i :
  0 <= w -> 0 <= i ->
  Z.testbit (as_uint w x) i = (i <? w) && Z.testbit x i.
Proof.
  intros Hw Hi. unfold as_uint.
  destruct (Z.ltb_spec i w); simpl.
  - apply Z.mod_pow2_bits_low. lia.
  - apply Z.mod_pow2_bits_high. lia.
Qed.

(** Bits of a [w]-bit integer at and above [w] are clear. *)
Lemma testbit_uint_high w x i : uint w x -> w <= i -> Z.testbit x i = false.
Proof.
  unfold uint. intros [Hx0 Hx] Hi.
  destruct (decide (x = 0)) as [->|]; [apply Z.bits_0|].
  apply Z.bits_above_log2; [done|].
  enough (Z.log2 x < w) by lia. apply Z.log2_lt_pow2; lia.
Qed.

Lemma uint_testbit w x :
  0 <= w -> 0 <= x -> (forall i, w <= i -> Z.testbit x i = false) -> uint w x.
Proof.
  intros Hw Hx0 Hx. split; [done|].
  destruct (decide (x = 0)) as [->|]; [lia|].
  apply Z.log2_lt_pow2; [lia|].
  destruct (decide (Z.log2 x < w)) as [|Hge]; [done|].
  exfalso. pose proof (Hx (Z.log2 x)) as Hb.
  rewrite Z.bit_log2 in Hb by lia. discriminate Hb. lia.
Qed.

Lemma uint_land_l w x y : uint w x -> 0 <= w -> uint w (Z.land x y).
Proof.
  intros Hx Hw. apply uint_testbit; [done| |].
  - apply Z.land_nonneg. left. apply Hx.
  - intros i Hi. by rewrite Z.land_spec, (testbit_uint_high w).
Qed.

Lemma uint_lor w x y : 0 <= w -> uint w x -> uint w y -> uint w (Z.lor x y).
Proof.
  intros Hw Hx Hy. apply uint_testbit; [done| |].
  - apply Z.lor_nonneg. split; [apply Hx|apply Hy].
  - intros i Hi. by rewrite Z.lor_spec, !(testbit_uint_high w).
Qed.

#[export] Hint Resolve as_uint_range uint_land_l uint_lor : ff.
#[export] Hint Extern 2 (_ <= _) => lia : ff.
#[export] Hint Extern 2 (_ < _) => lia : ff.

(** Two [w]-bit integers are equal when their low [w] bits are. *)
Lemma uint_bits_inj w x y :
  uint w x -> uint w y ->
  (forall i, 0 <= i < w -> Z.testbit x i = Z.testbit y i) -> x = y.
Proof.
  intros Hx Hy H. apply Z.bits_inj'. intros i Hi.
  destruct (decide (i < w)); [apply H; lia|].
  rewrite !(testbit_uint_high w) by (done || lia). done.
Qed.

(** ** Tactics *)

(** Splits [Hi : 0 <= i < n], [n] a numeral, into its [n] cases. *)
Ltac int_cases i Hi :=
  lazymatch type of Hi with
  | ?a <= i < ?n =>
      tryif (assert (a = n) by reflexivity) then (exfalso; lia)
      else
        let H := fresh in
        let b := eval vm_compute in (a + 1) in
        assert (i = a \/ b <= i < n) as H by lia;
        clear Hi; destruct H as [-> | Hi]; [ | int_cases i Hi ]
  end.

(** Linear arithmetic with division and remainder by numerals. *)
Ltac divmod := Z.to_euclidean_division_equations; lia.

(** Pushes [Z.testbit] at a numeral index through the bit operations. *)
Ltac testbit_step :=
  match goal with
  | |- context [Z.testbit (Z.lor ?x ?y) ?i] => rewrite (Z.lor_spec x y i)
  | |- context [Z.testbit (Z.land ?x ?y) ?i] => rewrite (Z.land_spec x y i)
  | |- context [Z.testbit (Z.shiftl ?x ?n) ?i] =>
      rewrite (Z.shiftl_spec x n i) by lia;
      let k := eval vm_compute in (i - n) in change (i - n) with k
  | |- context [Z.testbit (Z.shiftr ?x ?n) ?i] =>
      rewrite (Z.shiftr_spec x n i) by lia;
      let k := eval vm_compute in (i + n) in change (i + n) with k
  | |- context [Z.testbit (as_uint ?w ?x) ?i] =>
      rewrite (testbit_as_uint w x i) by lia;
      let b := eval vm_compute in (i <? w) in change (i <? w) with b
  | |- context [Z.testbit ?x (Zneg ?p)] =>
      rewrite (Z.testbit_neg_r x (Zneg p)) by lia
  | |- context [Z.testbit (Zpos ?p) ?i] =>
      let b := eval vm_compute in (Z.testbit (Zpos p) i) in
      change (Z.testbit (Zpos p) i) with b
  | |- context [Z.testbit Z0 ?i] => rewrite (Z.bits_0 i)
  | H : uint ?w ?x |- context [Z.testbit ?x ?i] =>
      rewrite (testbit_uint_high w x i H) by lia
  end.

Ltac testbits :=
  repeat testbit_step;
  rewrite ?andb_true_r, ?andb_false_r, ?orb_false_r, ?orb_true_r;
  cbn [andb orb].

(** Equality of two [w]-bit expressions, bit by bit. *)
Ltac bits_eq w :=
  apply (uint_bits_inj w);
  [ | | let i := fresh "i" in let Hi := fresh "Hi" in
        intros i Hi; int_cases i Hi; testbits ].
