(* ===== verification/Serde.v ===== *)
(** * The serde interface

    The crates derive [Serialize] and [Deserialize] and hand the values to
    postcard.  Neither serde nor postcard is part of the repository, so both
    are parameters: [SerdeFormat] lists the serializer and deserializer calls
    that the derived and hand-written code makes, [Postcard] the entry points
    of postcard, and [PostcardLaws] what postcard documents about them (its
    wire format).  [Wire] is what each message type promises to its users:
    an encoding, that [serialize] writes it and [deserialize] reads it back. *)

From S2P Require Import Prelude.

(** ** A data format, as seen by [Serialize] and [Deserialize] code *)

Class SerdeFormat := {
  (** [S], the serializer, and [D], the deserializer: the state both thread. *)
  ser : Type;
  de : Type;
  (** [S::Error] and [D::Error]. *)
  error : Type;
  (** [serde::de::Error::unknown_variant] and its like. *)
  de_error_custom : error;

  serialize_bool : bool -> ser -> result error ser;
  serialize_u8 : Z -> ser -> result error ser;
  serialize_u32 : Z -> ser -> result error ser;
  serialize_u64 : Z -> ser -> result error ser;
  serialize_unit : ser -> result error ser;
  serialize_none : ser -> result error ser;
  serialize_some : (ser -> result error ser) -> ser -> result error ser;
  (** The number of a variant, then its fields. *)
  serialize_variant : Z -> (ser -> result error ser) -> ser -> result error ser;
  (** [serialize_struct] / [serialize_tuple], the given number of
      [serialize_field] calls, and [end]. *)
  serialize_struct : nat -> (ser -> result error ser) -> ser -> result error ser;
  (** The implementations serde has for byte arrays and byte slices, and
      heapless for its vectors. *)
  serialize_array : list Z -> ser -> result error ser;
  serialize_slice : list Z -> ser -> result error ser;

  deserialize_bool : de -> result error bool * de;
  deserialize_u8 : de -> result error Z * de;
  deserialize_u32 : de -> result error Z * de;
  deserialize_u64 : de -> result error Z * de;
  deserialize_unit : de -> result error unit * de;
  deserialize_option : forall A : Type,
    (de -> result error A * de) -> de -> result error (option A) * de;
  (** The number of a variant; its fields are read by the visitor. *)
  deserialize_variant : de -> result error Z * de;
  deserialize_struct : forall A : Type,
    nat -> (de -> result error A * de) -> de -> result error A * de;
  deserialize_array : nat -> de -> result error (list Z) * de;
  (** A borrowed slice [&'de [u8]]. *)
  deserialize_slice : de -> result error (list Z) * de;
  (** heapless's implementation for [Vec<u8, N>]. *)
  deserialize_vec : nat -> de -> result error (list Z) * de;
}.
Arguments deserialize_option {_} {A} _ _.
Arguments deserialize_struct {_} {A} _ _ _.

(** A deserialisation: the result, and the deserializer afterwards. *)
Definition reader `{SerdeFormat} (A : Type) : Type := de -> result error A * de.

#[export] Instance reader_ret `{SerdeFormat} : MRet reader :=
  fun A a d => (Ok a, d).
#[export] Instance reader_bind `{SerdeFormat} : MBind reader :=
  fun A B k m d =>
    match m d with
    | (Ok a, d') => k a d'
    | (Err e, d') => (Err e, d')
    end.
Definition reader_fail `{SerdeFormat} {A} (e : error) : reader A :=
  fun d => (Err e, d).

(** [S::serialize(self, s)] and [D::deserialize(d)]. *)
Class Serialize `{SerdeFormat} (A : Type) :=
  serialize : A -> ser -> result error ser.
Class Deserialize `{SerdeFormat} (A : Type) := deserialize : reader A.

(** ** postcard *)

Class Postcard `{SerdeFormat} := {
  (** Appending bytes to a serializer's buffer. *)
  write : list Z -> ser -> result error ser;
  (** The variable-length encoding of an integer. *)
  varint : Z -> list Z;
  (** A deserializer that has these bytes left. *)
  of_bytes : list Z -> de;

  (** [to_slice(&value, &mut buf)]: the used part of the buffer, and the
      whole buffer afterwards. *)
  to_slice : (ser -> result error ser) -> list Z -> result error (list Z) * list Z;
  (** [to_vec::<T, N>(&value)]: the contents of the vector. *)
  to_vec : nat -> (ser -> result error ser) -> result error (list Z);
  (** [from_bytes::<T>(bytes)]. *)
  from_bytes : forall A : Type,
    (de -> result error A * de) -> list Z -> result error A;
}.
Arguments from_bytes {_ _} {A} _ _.

(** The wire format postcard documents: one byte for a [u8], [0]/[1] for a
    [bool] and for the tag of an option, nothing for [()] and for the
    structure of tuples and structs, a varint for wider integers, variant
    numbers and lengths. *)
Class PostcardLaws `{P : Postcard} : Prop := {
  write_nil s : write [] s = Ok s;
  write_app xs ys s : write (xs ++ ys) s = write xs s ≫= write ys;

  serialize_bool_write b s :
    serialize_bool b s = write [Z.b2z b] s;
  serialize_u8_write x s : serialize_u8 x s = write [x] s;
  serialize_u32_write x s : serialize_u32 x s = write (varint x) s;
  serialize_u64_write x s : serialize_u64 x s = write (varint x) s;
  serialize_unit_write s : serialize_unit s = write [] s;
  serialize_none_write s : serialize_none s = write [0] s;
  serialize_some_write f s :
    serialize_some f s = write [1] s ≫= f;
  serialize_variant_write i f s :
    serialize_variant i f s = write (varint i) s ≫= f;
  serialize_struct_write n f s : serialize_struct n f s = f s;
  serialize_array_write xs s : serialize_array xs s = write xs s;
  serialize_slice_write xs s :
    serialize_slice xs s = write (varint (Z.of_nat (length xs)) ++ xs) s;

  (** Seven bits of the integer to a byte, the least significant first, the
      top bit set on all bytes but the last. *)
  varint_small x : 0 <= x < 128 -> varint x = [x];
  varint_step x : 128 <= x ->
    varint x = (128 + x mod 128) :: varint (x / 128);

  deserialize_bool_read b r :
    deserialize_bool (of_bytes (Z.b2z b :: r)) = (Ok b, of_bytes r);
  deserialize_u8_read x r :
    deserialize_u8 (of_bytes (x :: r)) = (Ok x, of_bytes r);
  deserialize_u8_eof : exists e d, deserialize_u8 (of_bytes []) = (Err e, d);
  deserialize_u32_read x r : uint 32 x ->
    deserialize_u32 (of_bytes (varint x ++ r)) = (Ok x, of_bytes r);
  deserialize_u64_read x r : uint 64 x ->
    deserialize_u64 (of_bytes (varint x ++ r)) = (Ok x, of_bytes r);
  deserialize_unit_read d : deserialize_unit d = (Ok tt, d);
  deserialize_option_none A (g : reader A) r :
    deserialize_option g (of_bytes (0 :: r)) = (Ok None, of_bytes r);
  deserialize_option_some A (g : reader A) r :
    deserialize_option g (of_bytes (1 :: r)) =
    (a ← g; mret (Some a)) (of_bytes r);
  deserialize_variant_read i r : uint 32 i ->
    deserialize_variant (of_bytes (varint i ++ r)) = (Ok i, of_bytes r);
  deserialize_variant_eof :
    exists e d, deserialize_variant (of_bytes []) = (Err e, d);
  deserialize_struct_read A n (g : reader A) d : deserialize_struct n g d = g d;
  deserialize_array_read xs r :
    deserialize_array (length xs) (of_bytes (xs ++ r)) = (Ok xs, of_bytes r);
  deserialize_slice_read xs r : uint 32 (Z.of_nat (length xs)) ->
    deserialize_slice (of_bytes (varint (Z.of_nat (length xs)) ++ xs ++ r)) =
    (Ok xs, of_bytes r);
  deserialize_vec_read n xs r :
    uint 32 (Z.of_nat (length xs)) -> (length xs <= n)%nat ->
    deserialize_vec n (of_bytes (varint (Z.of_nat (length xs)) ++ xs ++ r)) =
    (Ok xs, of_bytes r);

  (** What a successful read consumed. *)
  deserialize_u8_inv bs x d :
    deserialize_u8 (of_bytes bs) = (Ok x, d) ->
    exists r, bs = x :: r /\ d = of_bytes r;
  deserialize_slice_inv bs xs d :
    deserialize_slice (of_bytes bs) = (Ok xs, d) ->
    exists p r, bs = p ++ xs ++ r /\ d = of_bytes r;
  deserialize_array_inv n bs xs d :
    deserialize_array n (of_bytes bs) = (Ok xs, d) ->
    length xs = n /\ exists r, bs = xs ++ r;
  deserialize_vec_length n d xs d' :
    deserialize_vec n d = (Ok xs, d') -> (length xs <= n)%nat;
  deserialize_u32_range d x d' : deserialize_u32 d = (Ok x, d') -> uint 32 x;
  deserialize_u64_range d x d' : deserialize_u64 d = (Ok x, d') -> uint 64 x;

  to_slice_ok f bs buf :
    (forall s, f s = write bs s) -> (length bs <= length buf)%nat ->
    to_slice f buf = (Ok bs, bs ++ drop (length bs) buf);
  to_slice_full f bs buf :
    (forall s, f s = write bs s) -> (length buf < length bs)%nat ->
    exists e buf', to_slice f buf = (Err e, buf');
  to_vec_ok n f bs :
    (forall s, f s = write bs s) -> (length bs <= n)%nat ->
    to_vec n f = Ok bs;
  to_vec_full n f bs :
    (forall s, f s = write bs s) -> (n < length bs)%nat ->
    exists e, to_vec n f = Err e;
  from_bytes_run A (g : reader A) bs :
    from_bytes g bs = fst (g (of_bytes bs));
}.

(** ** What a message type promises *)

(** An encoding of the values that satisfy [wire_ok], written by
    [serialize]. *)
Class Encoding `{Postcard} (A : Type) `{!Serialize A} := {
  wire_ok : A -> Prop;
  encode : A -> list Z;
  serialize_encode a s : wire_ok a -> serialize a s = write (encode a) s;
}.

(** [deserialize] reads it back, whatever follows. *)
Class Wire `{Postcard} (A : Type) `{!Serialize A, !Deserialize A, !Encoding A} : Prop :=
  deserialize_encode a r :
    wire_ok a -> deserialize (of_bytes (encode a ++ r)) = (Ok a, of_bytes r).

(** [deserialize] reads it back from the end of the input. *)
Class WireEnd `{Postcard} (A : Type) `{!Serialize A, !Deserialize A, !Encoding A} : Prop :=
  deserialize_encode_end a :
    wire_ok a -> exists d, deserialize (of_bytes (encode a)) = (Ok a, d).

(** There is no value of the type to read at the end of the input. *)
Class WireEof `{Postcard} (A : Type) `{!Deserialize A} : Prop :=
  deserialize_eof : exists e d, deserialize (of_bytes []) = (Err e, d).

#[export] Instance wire_wire_end `{Wire A} : WireEnd A.
Proof.
  intros a Ha. exists (of_bytes []).
  rewrite <- (app_nil_r (encode a)). by apply deserialize_encode.
Qed.

(** ** Sequencing *)

Lemma result_bind_ext {E A B} (m : result E A) (f g : A -> result E B) :
  (forall a, f a = g a) -> m ≫= f = m ≫= g.
Proof. intros Hfg. by destruct m; cbn. Qed.

Lemma result_bind_assoc {E A B C} (m : result E A)
    (f : A -> result E B) (g : B -> result E C) :
  (m ≫= f) ≫= g = m ≫= fun a => f a ≫= g.
Proof. by destruct m. Qed.

Lemma result_bind_ret {E A} (m : result E A) : m ≫= mret = m.
Proof. by destruct m. Qed.

Lemma reader_bind_ok `{SerdeFormat} {A B} (m : reader A) (k : A -> reader B) a d d' :
  m d = (Ok a, d') -> (m ≫= k) d = k a d'.
Proof. intros Hm. unfold mbind, reader_bind. by rewrite Hm. Qed.

Lemma reader_bind_err `{SerdeFormat} {A B} (m : reader A) (k : A -> reader B) e d d' :
  m d = (Err e, d') -> (m ≫= k) d = (Err e, d').
Proof. intros Hm. unfold mbind, reader_bind. by rewrite Hm. Qed.

(** A successful sequence: both parts succeeded. *)
Lemma reader_bind_inv `{SerdeFormat} {A B} (m : reader A) (k : A -> reader B) b d d' :
  (m ≫= k) d = (Ok b, d') -> exists a d1, m d = (Ok a, d1) /\ k a d1 = (Ok b, d').
Proof.
  unfold mbind, reader_bind. destruct (m d) as [[a|e] d1]; [eauto|done].
Qed.

(** Replaces one call on the serializer by what it writes. *)
Ltac wire_write_one :=
  first
    [ rewrite serialize_bool_write | rewrite serialize_u8_write
    | rewrite serialize_u32_write | rewrite serialize_u64_write
    | rewrite serialize_unit_write | rewrite serialize_none_write
    | rewrite serialize_some_write | rewrite serialize_variant_write
    | rewrite serialize_struct_write | rewrite serialize_array_write
    | rewrite serialize_slice_write | rewrite serialize_encode by done ].

(** Exposes the instance behind the outermost [serialize] or [deserialize]. *)
Ltac open_instance :=
  lazymatch goal with
  | |- @serialize _ _ ?I ?v ?s = ?r => change (I v s = r)
  | |- @deserialize _ _ ?I ?d = ?r => change (I d = r)
  end.

(** Proves [serialize a s = write (encode a) s]: both sides become the same
    sequence of writes. *)
Ltac wire_write :=
  repeat first
    [ reflexivity
    | progress wire_write_one
    | rewrite write_app
    | rewrite write_nil
    | rewrite result_bind_assoc
    | rewrite result_bind_ret
    | apply result_bind_ext; intros
    | progress cbn [mbind mret result_ret result_bind] ].

(** Steps through a deserialisation, one successful read at a time. *)
Ltac wire_read_one :=
  first
    [ apply deserialize_bool_read
    | apply deserialize_u8_read
    | apply deserialize_u32_read; done
    | apply deserialize_u64_read; done
    | apply deserialize_unit_read
    | apply deserialize_option_none
    | apply deserialize_variant_read; done
    | apply deserialize_array_read
    | apply deserialize_slice_read; done
    | apply deserialize_vec_read; done
    | apply deserialize_encode; done ].
Ltac wire_read :=
  repeat first
    [ reflexivity
    | rewrite deserialize_struct_read
    | erewrite reader_bind_ok; [ | solve [ wire_read_one ] ]
    | wire_read_one
    | rewrite <- app_assoc
    | progress cbn [app]
    | progress cbv beta match ].

(** ** The entry points, for a type with an encoding *)

Section entry_points.
Context `{PostcardLaws}.

Lemma to_vec_encode {A} `{!Serialize A, !Encoding A} n a :
  wire_ok a -> (length (encode a) <= n)%nat ->
  to_vec n (serialize a) = Ok (encode a).
Proof.
  intros Ha Hn. apply to_vec_ok; [|done]. intros s. by apply serialize_encode.
Qed.

Lemma to_vec_encode_full {A} `{!Serialize A, !Encoding A} n a :
  wire_ok a -> (n < length (encode a))%nat ->
  exists e, to_vec n (serialize a) = Err e.
Proof.
  intros Ha Hn. eapply to_vec_full; [|done]. intros s. by apply serialize_encode.
Qed.

Lemma to_slice_encode {A} `{!Serialize A, !Encoding A} a buf :
  wire_ok a -> (length (encode a) <= length buf)%nat ->
  to_slice (serialize a) buf = (Ok (encode a), encode a ++ drop (length (encode a)) buf).
Proof.
  intros Ha Hn. apply to_slice_ok; [|done]. intros s. by apply serialize_encode.
Qed.

Lemma from_bytes_encode {A} `{!Serialize A, !Deserialize A, !Encoding A, !Wire A} a r :
  wire_ok a -> from_bytes deserialize (encode a ++ r) = Ok a.
Proof. intros Ha. by rewrite from_bytes_run, deserialize_encode. Qed.

Lemma from_bytes_encode_end {A} `{!Serialize A, !Deserialize A, !Encoding A, !WireEnd A} a :
  wire_ok a -> from_bytes deserialize (encode a) = Ok a.
Proof.
  intros Ha. rewrite from_bytes_run.
  by destruct (deserialize_encode_end a Ha) as [d ->].
Qed.
End entry_points.

(** ** The sizes of varints *)

Section varints.
Context `{PostcardLaws}.

Lemma varint_nonnil x : 0 <= x -> varint x <> [].
Proof.
  intros Hx. destruct (decide (x < 128)).
  - by rewrite varint_small by lia.
  - by rewrite varint_step by lia.
Qed.

(** [k] bytes carry [7 * k] bits. *)
Lemma varint_length_le k x :
  0 <= x < 2 ^ (7 * (Z.of_nat k + 1)) -> (length (varint x) <= k + 1)%nat.
Proof.
  revert x. induction k as [|k IH]; intros x Hx.
  - rewrite varint_small by (cbn in Hx; lia). done.
  - destruct (decide (x < 128)); [rewrite varint_small by lia; cbn; lia|].
    rewrite varint_step by lia. cbn [length].
    enough (length (varint (x / 128)) <= k + 1)%nat by lia.
    apply IH. split; [apply Z.div_pos; lia|].
    apply Z.div_lt_upper_bound; [lia|].
    change 128 with (2 ^ 7). rewrite <- Z.pow_add_r by lia.
    replace (7 + _) with (7 * (Z.of_nat (S k) + 1)) by lia. lia.
Qed.

Lemma varint_length_ge k x :
  2 ^ (7 * Z.of_nat k) <= x -> (k + 1 <= length (varint x))%nat.
Proof.
  revert x. induction k as [|k IH]; intros x Hx.
  - assert (0 <= x) as Hx0 by (cbn in Hx; lia).
    pose proof (varint_nonnil x Hx0). destruct (varint x); cbn; [done|lia].
  - assert (2 ^ (7 * Z.of_nat (S k)) = 128 * 2 ^ (7 * Z.of_nat k)) as Hpow.
    { change 128 with (2 ^ 7). rewrite <- Z.pow_add_r by lia. f_equal. lia. }
    pose proof (Z.pow_pos_nonneg 2 (7 * Z.of_nat k)).
    rewrite varint_step by lia. cbn [length].
    enough (k + 1 <= length (varint (x / 128)))%nat by lia.
    apply IH. apply Z.div_le_lower_bound; lia.
Qed.

Lemma varint_length_u32 x : uint 32 x -> (length (varint x) <= 5)%nat.
Proof. intros [? ?]. apply (varint_length_le 4). cbn in *. lia. Qed.

Lemma varint_length_u64 x : uint 64 x -> (length (varint x) <= 10)%nat.
Proof. intros [? ?]. apply (varint_length_le 9). cbn in *. lia. Qed.

Lemma varint_bytes x : 0 <= x -> bytes (varint x).
Proof.
  induction x as [x IH] using (well_founded_induction (Z.lt_wf 0)). intros Hx.
  destruct (decide (x < 128)) as [Hs|Hs].
  - rewrite varint_small by lia. constructor; [split; lia|done].
  - rewrite varint_step by lia. constructor.
    + pose proof (Z.mod_pos_bound x 128). split; lia.
    + assert (0 <= x / 128 < x) as [? ?].
      { split; [apply Z.div_pos; lia|apply Z.div_lt; lia]. }
      by apply IH.
Qed.
End varints.

(** ** serde's implementation for [Option] *)

Definition serialize_option `{SerdeFormat} {A}
    (f : A -> ser -> result error ser) (o : option A) (s : ser) : result error ser :=
  match o with
  | Some a => serialize_some (f a) s
  | None => serialize_none s
  end.

(** The encoding of an optional value, given that of the value. *)
Definition encode_option {A} (enc : A -> list Z) (o : option A) : list Z :=
  match o with Some a => 1 :: enc a | None => [0] end.

Section options.
Context `{PostcardLaws}.

Lemma serialize_option_write {A} (f : A -> ser -> result error ser) enc o s :
  (forall a s, o = Some a -> f a s = write (enc a) s) ->
  serialize_option f o s = write (encode_option enc o) s.
Proof.
  intros Hf. destruct o as [a|]; cbn; wire_write_one; [|done].
  change (1 :: enc a) with ([1] ++ enc a). rewrite write_app.
  apply result_bind_ext. intros s'. by apply Hf.
Qed.

Lemma deserialize_option_read {A} (g : reader A) enc o r :
  (forall a, o = Some a -> g (of_bytes (enc a ++ r)) = (Ok a, of_bytes r)) ->
  deserialize_option g (of_bytes (encode_option enc o ++ r)) = (Ok o, of_bytes r).
Proof.
  intros Hg. destruct o as [a|]; cbn.
  - rewrite deserialize_option_some. rewrite (reader_bind_ok _ _ a _ (of_bytes r)); [done|by apply Hg].
  - apply deserialize_option_none.
Qed.

Lemma encode_option_length {A} (enc : A -> list Z) o n :
  (forall a, o = Some a -> (length (enc a) <= n)%nat) ->
  (length (encode_option enc o) <= S n)%nat.
Proof. destruct o as [a|]; cbn; [|lia]. intros Hn. specialize (Hn a eq_refl). lia. Qed.
End options.
