(* ===== verification/PostcardRef.v ===== *)
(** * A reference instance of the serde interface

    postcard is not part of the repository; this file instantiates the
    interface of [Serde] with a concrete format that follows postcard's
    documented wire format, to show that [PostcardLaws] can hold and to
    evaluate the development on the byte strings of the crates' tests.  No
    definition of the model depends on this file. *)

From S2P Require Import Prelude Serde.

Module PostcardRef.

(** ** Varints *)

Fixpoint varint_go (fuel : nat) (x : Z) : list Z :=
  match fuel with
  | O => [x]
  | S fuel => if x <? 128 then [x] else (128 + x mod 128) :: varint_go fuel (x / 128)
  end.
Definition varint (x : Z) : list Z := varint_go (Z.to_nat (Z.log2 x)) x.

Fixpoint read_varint (fuel : nat) (bs : list Z) : option (Z * list Z) :=
  match fuel, bs with
  | S fuel, b :: r =>
      if b <? 128 then Some (b, r)
      else match read_varint fuel r with
           | Some (x, r') => Some (b - 128 + 128 * x, r')
           | None => None
           end
  | _, _ => None
  end.

Lemma varint_go_enough n m x :
  Z.log2 x <= Z.of_nat n -> Z.log2 x <= Z.of_nat m -> varint_go n x = varint_go m x.
Proof.
  revert m x. induction n as [|n IH]; intros m x Hn Hm.
  - destruct m; cbn [varint_go]; [done|].
    pose proof (Z.log2_spec x). pose proof (Z.log2_nonneg x).
    destruct (Z.ltb_spec x 128); [done|].
    assert (7 <= Z.log2 x) by (apply Z.log2_le_pow2; lia). lia.
  - destruct m as [|m]; cbn [varint_go].
    + destruct (Z.ltb_spec x 128); [done|].
      assert (7 <= Z.log2 x) by (apply Z.log2_le_pow2; lia). lia.
    + destruct (Z.ltb_spec x 128); [done|]. f_equal.
      assert (Z.log2 (x / 128) = Z.max 0 (Z.log2 x - 7)) as Hlog.
      { change 128 with (2 ^ 7). rewrite <- Z.shiftr_div_pow2 by lia.
        apply Z.log2_shiftr. lia. }
      apply IH; lia.
Qed.

Lemma varint_small x : 0 <= x < 128 -> varint x = [x].
Proof.
  intros Hx. unfold varint. destruct (Z.to_nat _); cbn; [done|].
  by destruct (Z.ltb_spec x 128); [|lia].
Qed.

Lemma varint_step x : 128 <= x ->
  varint x = (128 + x mod 128) :: varint (x / 128).
Proof.
  intros Hx. unfold varint.
  assert (7 <= Z.log2 x) by (apply Z.log2_le_pow2; lia).
  assert (Z.log2 (x / 128) = Z.log2 x - 7) as Hlog.
  { change 128 with (2 ^ 7). rewrite <- Z.shiftr_div_pow2 by lia.
    rewrite Z.log2_shiftr by lia. lia. }
  rewrite (varint_go_enough _ (S (Z.to_nat (Z.log2 x))) x) by lia.
  cbn [varint_go]. destruct (Z.ltb_spec x 128); [lia|]. f_equal.
  apply varint_go_enough; lia.
Qed.

Lemma read_varint_varint n x r :
  0 <= x < 2 ^ (7 * Z.of_nat n) -> (0 < n)%nat ->
  read_varint n (varint x ++ r) = Some (x, r).
Proof.
  revert x. induction n as [|n IH]; intros x Hx Hn; [lia|].
  destruct (decide (x < 128)).
  - rewrite varint_small by lia. cbn. by destruct (Z.ltb_spec x 128); [|lia].
  - rewrite varint_step by lia. cbn -[Z.mul].
    pose proof (Z.mod_pos_bound x 128).
    destruct (Z.ltb_spec (128 + x mod 128) 128); [lia|].
    assert (2 ^ (7 * Z.of_nat (S n)) = 128 * 2 ^ (7 * Z.of_nat n)) as Hpow.
    { change 128 with (2 ^ 7). rewrite <- Z.pow_add_r by lia. f_equal. lia. }
    rewrite IH.
    + f_equal. f_equal. pose proof (Z.div_mod x 128). lia.
    + split; [apply Z.div_pos; lia|apply Z.div_lt_upper_bound; lia].
    + destruct n; [cbn in Hx; lia|lia].
Qed.

Lemma read_varint_inv n bs x r :
  read_varint n bs = Some (x, r) -> exists p, bs = p ++ r.
Proof.
  revert bs x. induction n as [|n IH]; intros [|b bs] x H; cbn -[Z.mul] in H; try done.
  destruct (b <? 128); [injection H as <- <-; by exists [b]|].
  destruct (read_varint n bs) as [[y r']|] eqn:Hy; [|done].
  injection H as <- <-. destruct (IH _ _ Hy) as [p ->]. by exists (b :: p).
Qed.

(** ** The format *)

(** A serializer: the bytes written and the room left. *)
Definition ser : Type := list Z * nat.
Definition write (xs : list Z) (s : ser) : result unit ser :=
  let '(w, n) := s in
  if decide (length xs <= n)%nat then Ok (w ++ xs, (n - length xs)%nat) else Err tt.

Definition read (A : Type) : Type := list Z -> result unit A * list Z.
Definition read_u8 : read Z := fun bs =>
  match bs with b :: r => (Ok b, r) | [] => (Err tt, []) end.
Definition read_bool : read bool := fun bs =>
  match bs with
  | 0 :: r => (Ok false, r)
  | 1 :: r => (Ok true, r)
  | _ => (Err tt, bs)
  end.
(** A varint that fits [w] bits, in at most [n] bytes. *)
Definition read_uint (n : nat) (w : Z) : read Z := fun bs =>
  match read_varint n bs with
  | Some (x, r) => if decide (uint w x) then (Ok x, r) else (Err tt, r)
  | None => (Err tt, bs)
  end.
Definition read_option A (g : read A) : read (option A) := fun bs =>
  match bs with
  | 0 :: r => (Ok None, r)
  | 1 :: r => match g r with
              | (Ok a, r') => (Ok (Some a), r')
              | (Err e, r') => (Err e, r')
              end
  | _ => (Err tt, bs)
  end.
Definition read_array (n : nat) : read (list Z) := fun bs =>
  if decide (n <= length bs)%nat then (Ok (take n bs), drop n bs) else (Err tt, bs).
Definition read_slice : read (list Z) := fun bs =>
  match read_uint 10 64 bs with
  | (Ok n, r) => if decide (n <= Z.of_nat (length r))
                 then read_array (Z.to_nat n) r else (Err tt, r)
  | (Err e, r) => (Err e, r)
  end.
Definition read_vec (n : nat) : read (list Z) := fun bs =>
  match read_slice bs with
  | (Ok xs, r) => if decide (length xs <= n)%nat then (Ok xs, r) else (Err tt, r)
  | (Err e, r) => (Err e, r)
  end.

#[export] Instance format : SerdeFormat := {|
  Serde.ser := ser;
  de := list Z;
  error := unit;
  de_error_custom := tt;
  serialize_bool b := write [Z.b2z b];
  serialize_u8 x := write [x];
  serialize_u32 x := write (varint x);
  serialize_u64 x := write (varint x);
  serialize_unit := write [];
  serialize_none := write [0];
  serialize_some f s := write [1] s ≫= f;
  serialize_variant i f s := write (varint i) s ≫= f;
  serialize_struct n f s := f s;
  serialize_array xs := write xs;
  serialize_slice xs := write (varint (Z.of_nat (length xs)) ++ xs);
  deserialize_bool := read_bool;
  deserialize_u8 := read_u8;
  deserialize_u32 := read_uint 5 32;
  deserialize_u64 := read_uint 10 64;
  deserialize_unit d := (Ok tt, d);
  deserialize_option := read_option;
  deserialize_variant := read_uint 5 32;
  deserialize_struct A n g := g;
  deserialize_array := read_array;
  deserialize_slice := read_slice;
  deserialize_vec := read_vec;
|}.

#[export] Instance postcard : Postcard := {|
  Serde.write := write;
  Serde.varint := varint;
  of_bytes bs := bs;
  to_slice f buf :=
    match f ([], length buf) with
    | Ok (w, _) => (Ok w, w ++ drop (length w) buf)
    | Err e => (Err e, buf)
    end;
  to_vec n f :=
    match f ([], n) with Ok (w, _) => Ok w | Err e => Err e end;
  from_bytes A g bs := fst (g bs);
|}.

(** ** The laws *)

Lemma write_app xs ys s : write (xs ++ ys) s = write xs s ≫= write ys.
Proof.
  destruct s as [w n]. unfold write, mbind, result_bind. rewrite length_app.
  repeat case_decide; try lia; [|done|done].
  rewrite app_assoc. do 2 f_equal. lia.
Qed.

Lemma read_uint_varint n w x r :
  uint w x -> w <= 7 * Z.of_nat n -> (0 < n)%nat ->
  read_uint n w (varint x ++ r) = (Ok x, r).
Proof.
  intros Hx Hn Hn0. unfold read_uint. rewrite read_varint_varint; [|split|done].
  - by rewrite decide_True.
  - apply Hx.
  - apply (uint_mono w _ x Hn Hx).
Qed.

Lemma read_uint_inv n w bs x r :
  read_uint n w bs = (Ok x, r) -> uint w x /\ exists p, bs = p ++ r.
Proof.
  unfold read_uint. destruct (read_varint n bs) as [[y r']|] eqn:Hy; [|done].
  case_decide; [|done]. intros [= <- <-]. split; [done|]. by eapply read_varint_inv.
Qed.

Lemma read_slice_read xs r : uint 32 (Z.of_nat (length xs)) ->
  read_slice (varint (Z.of_nat (length xs)) ++ xs ++ r) = (Ok xs, r).
Proof.
  intros Hx. unfold read_slice. rewrite read_uint_varint; [| |lia|lia].
  - rewrite decide_True by (rewrite length_app; lia). unfold read_array.
    rewrite Nat2Z.id, decide_True by (rewrite length_app; lia).
    by rewrite take_app_length, drop_app_length.
  - by apply (uint_mono 32).
Qed.

Lemma read_slice_inv bs xs r :
  read_slice bs = (Ok xs, r) -> exists p, bs = p ++ xs ++ r.
Proof.
  unfold read_slice. destruct (read_uint 10 64 bs) as [[n|e] r'] eqn:Hn; [|done].
  apply read_uint_inv in Hn as [_ [p ->]]. case_decide; [|done].
  unfold read_array. case_decide; [|done]. intros [= <- <-].
  exists p. by rewrite take_drop.
Qed.

#[export] Instance laws : PostcardLaws.
Proof.
  split; cbn -[varint].
  - intros [w n]. cbn. rewrite app_nil_r. do 2 f_equal. lia.
  - apply write_app.
  - done.
  - done.
  - done.
  - done.
  - done.
  - done.
  - done.
  - done.
  - done.
  - done.
  - done.
  - apply varint_small.
  - apply varint_step.
  - by intros [] r.
  - done.
  - by eexists _, _.
  - intros x r Hx. apply read_uint_varint; [done|lia|lia].
  - intros x r Hx. apply read_uint_varint; [done|lia|lia].
  - done.
  - done.
  - done.
  - intros x r Hx. apply read_uint_varint; [done|lia|lia].
  - by eexists _, _.
  - done.
  - intros xs r. unfold read_array. rewrite length_app, decide_True by lia.
    by rewrite take_app_length, drop_app_length.
  - apply read_slice_read.
  - intros n xs r Hx Hn. unfold read_vec. rewrite read_slice_read by done.
    by rewrite decide_True.
  - intros [|b bs] x d; [done|]. intros [= <- <-]. by exists bs.
  - intros bs xs d H. apply read_slice_inv in H as [p ->]. by exists p, d.
  - intros n bs xs d. unfold read_array. case_decide; [|done].
    intros [= <- <-]. split; [rewrite length_take; lia|].
    exists (drop n bs). by rewrite take_drop.
  - intros n d xs d'. unfold read_vec.
    destruct (read_slice d) as [[ys|e] r]; [|done]. case_decide; [|done].
    by intros [= <- <-].
  - intros d x d' H. by apply read_uint_inv in H as [? _].
  - intros d x d' H. by apply read_uint_inv in H as [? _].
  - intros f bs buf Hf Hl. rewrite Hf. unfold write. by case_decide.
  - intros f bs buf Hf Hl. rewrite Hf. unfold write. case_decide; [lia|eauto].
  - intros n f bs Hf Hl. rewrite Hf. unfold write. by case_decide.
  - intros n f bs Hf Hl. rewrite Hf. unfold write. case_decide; [lia|eauto].
  - done.
Qed.

End PostcardRef.
