(* ===== verification/Platform.v ===== *)
(** * The other libraries the crates use

    Interfaces for heapless's [Vec<u8, N>], the [AeadInPlace] trait of the
    aead crate (with the AES-CCM ciphers the examples build), rand's
    [RngCore] and circular-queue's [CircularQueue].  None of this code is
    in the repository: the development is parametric in it, and each [...Laws]
    class states the documented behaviour that is relied on.  The modules at
    the end instantiate the interfaces, for the witnesses. *)

From S2P Require Import Prelude.

(** ** [heapless::Vec<u8, N>] *)

Class HeaplessVec := {
  vec : nat -> Type;
  vec_new : forall N, vec N;
  (** The elements, by [Deref<Target = [u8]>]. *)
  as_slice : forall {N}, vec N -> list Z;
  (** The result, and the vector afterwards. *)
  extend_from_slice : forall {N}, vec N -> list Z -> result unit unit * vec N;
  vec_from_slice : forall N, list Z -> result unit (vec N);
}.

Class HeaplessVecLaws `{HeaplessVec} : Prop := {
  as_slice_new N : as_slice (vec_new N) = [];
  as_slice_length N (v : vec N) : (length (as_slice v) <= N)%nat;
  extend_fits N (v : vec N) xs :
    (length (as_slice v) + length xs <= N)%nat ->
    exists v', extend_from_slice v xs = (Ok tt, v') /\ as_slice v' = as_slice v ++ xs;
  (** Nothing is appended when there is no room for all of it. *)
  extend_full N (v : vec N) xs :
    (N < length (as_slice v) + length xs)%nat ->
    extend_from_slice v xs = (Err tt, v);
  from_slice_fits N xs :
    (length xs <= N)%nat -> exists v, vec_from_slice N xs = Ok v /\ as_slice v = xs;
  from_slice_full N xs :
    (N < length xs)%nat -> vec_from_slice N xs = Err tt;
}.

(** ** [aead::AeadInPlace], with a tag of 4 bytes (the [U4] of [AesCcm]) *)

Class Aead `{HeaplessVec} := {
  cipher : Type;
  aead_error : Type;
  (** [KeyInit::new]. *)
  cipher_new : list Z -> cipher;
  (** Nonce, associated data, buffer; the buffer afterwards. *)
  encrypt_in_place : forall {N},
    cipher -> list Z -> list Z -> vec N -> result aead_error unit * vec N;
  decrypt_in_place : forall {N},
    cipher -> list Z -> list Z -> vec N -> result aead_error unit * vec N;
  (** What a buffer is encrypted to, tag included. *)
  seal : cipher -> list Z -> list Z -> list Z -> list Z;
}.

Class AeadLaws `{Aead} : Prop := {
  seal_length c n ad m : length (seal c n ad m) = (length m + 4)%nat;
  seal_bytes c n ad m : bytes m -> bytes (seal c n ad m);
  (** Encryption appends the tag, and fails without room for it. *)
  encrypt_fits N c n ad (v : vec N) :
    (length (as_slice v) + 4 <= N)%nat ->
    exists v', encrypt_in_place c n ad v = (Ok tt, v') /\
               as_slice v' = seal c n ad (as_slice v);
  encrypt_full N c n ad (v : vec N) :
    (N < length (as_slice v) + 4)%nat ->
    exists e v', encrypt_in_place c n ad v = (Err e, v');
  decrypt_seal N c n ad (v : vec N) m :
    as_slice v = seal c n ad m ->
    exists v', decrypt_in_place c n ad v = (Ok tt, v') /\ as_slice v' = m;
  (** CCM recomputes the tag: it accepts only what it would itself produce
      for the plaintext, the nonce and the associated data. *)
  decrypt_inv N c n ad (v v' : vec N) :
    decrypt_in_place c n ad v = (Ok tt, v') ->
    as_slice v = seal c n ad (as_slice v');
}.

(** ** [rand::RngCore] *)

(** The tests' generator leaves all but [next_u32] unimplemented: they
    panic. *)
Class RngCore (rng : Type) := {
  next_u32 : rng -> Z * rng;
  next_u64 : rng -> outcome (Z * rng);
  (** [fill_bytes] and [try_fill_bytes] on a buffer of this length. *)
  fill_bytes : rng -> nat -> outcome (list Z * rng);
  try_fill_bytes : rng -> nat -> outcome (result unit (list Z) * rng);
}.

Class RngCoreLaws (rng : Type) `{RngCore rng} : Prop :=
  next_u32_range g : uint 32 (fst (next_u32 g)).

(** For the client of the update example, which draws a key. *)
Class FillBytesLaws (rng : Type) `{RngCore rng} : Prop :=
  fill_bytes_done g n :
    exists bs g', fill_bytes g n = Done (bs, g') /\ length bs = n /\ bytes bs.

(** ** [circular_queue::CircularQueue] *)

Class CircularQueue := {
  queue : Type -> Type;
  with_capacity : forall A, nat -> queue A;
  capacity : forall {A}, queue A -> nat;
  push : forall {A}, A -> queue A -> queue A;
  clear : forall {A}, queue A -> queue A;
  (** [iter()]: from the newest element to the oldest. *)
  iter : forall {A}, queue A -> list A;
}.

Class CircularQueueLaws `{CircularQueue} : Prop := {
  capacity_new A n : capacity (with_capacity A n) = n;
  capacity_push A (x : A) q : capacity (push x q) = capacity q;
  capacity_clear A (q : queue A) : capacity (clear q) = capacity q;
  iter_new A n : iter (with_capacity A n) = [];
  (** A full queue drops its oldest element. *)
  iter_push A (x : A) q : iter (push x q) = take (capacity q) (x :: iter q);
  iter_clear A (q : queue A) : iter (clear q) = [];
}.

(** ** Instances, for the witnesses *)

Module ListVec.
#[export] Instance list_vec : HeaplessVec := {|
  vec N := { xs : list Z | Is_true (bool_decide (length xs <= N)%nat) };
  vec_new N := exist _ [] (bool_decide_pack _ (Nat.le_0_l N));
  as_slice N v := proj1_sig v;
  extend_from_slice N v xs :=
    match decide (length (proj1_sig v ++ xs) <= N)%nat with
    | left H => (Ok tt, exist _ (proj1_sig v ++ xs) (bool_decide_pack _ H))
    | right _ => (Err tt, v)
    end;
  vec_from_slice N xs :=
    match decide (length xs <= N)%nat with
    | left H => Ok (exist _ xs (bool_decide_pack _ H))
    | right _ => Err tt
    end;
|}.

#[export] Instance list_vec_laws : HeaplessVecLaws.
Proof.
  split; cbn.
  - done.
  - intros N [xs H]. exact (bool_decide_unpack _ H).
  - intros N [ys H] xs Hl. cbn in *. destruct (decide _) as [H'|H'].
    + by eexists.
    + exfalso. apply H'. rewrite length_app. lia.
  - intros N [ys H] xs Hl. cbn in *. destruct (decide _) as [H'|H']; [|done].
    exfalso. pose proof (length_app ys xs). lia.
  - intros N xs Hl. destruct (decide _) as [H'|H']; [by eexists|lia].
  - intros N xs Hl. destruct (decide _) as [H'|H']; [lia|done].
Qed.
End ListVec.

(** A checksum in place of a cipher: it leaves the bytes in clear. *)
Module ChecksumAead.
Import ListVec.

Definition checksum (bs : list Z) : Z :=
  foldl (fun h b => (h * 31 + b + 7) mod 2 ^ 32) 17 bs.
Definition tag (k n ad m : list Z) : list Z :=
  let h := checksum (k ++ n ++ ad ++ m) in
  [as_uint 8 (h / 2 ^ 24); as_uint 8 (h / 2 ^ 16); as_uint 8 (h / 2 ^ 8); as_uint 8 h].
Definition seal (k n ad m : list Z) : list Z := m ++ tag k n ad m.

Lemma take_bound {N} (v : vec N) n :
  Is_true (bool_decide (length (take n (as_slice v)) <= N)%nat).
Proof.
  apply bool_decide_pack. pose proof (as_slice_length N v).
  rewrite length_take. lia.
Qed.

#[export] Instance checksum_aead : Aead := {|
  cipher := list Z;
  aead_error := unit;
  cipher_new k := k;
  encrypt_in_place N k n ad v := extend_from_slice v (tag k n ad (as_slice v));
  decrypt_in_place N k n ad v :=
    let m := take (length (as_slice v) - 4) (as_slice v) in
    if decide (as_slice v = seal k n ad m)
    then (Ok tt, exist _ m (take_bound v _))
    else (Err tt, v);
  Platform.seal := seal;
|}.

#[export] Instance checksum_aead_laws : AeadLaws.
Proof.
  assert (forall k n ad m, length (seal k n ad m) = (length m + 4)%nat) as Hlen.
  { intros. unfold seal. by rewrite length_app. }
  split.
  - apply Hlen.
  - intros k n ad m Hm. apply Forall_app. split; [done|].
    repeat constructor; try apply as_uint_range; lia.
  - intros N k n ad v Hl. apply (extend_fits N v (tag k n ad (as_slice v))).
    cbn [length tag]. lia.
  - intros N k n ad v Hl. exists tt, v. apply (extend_full N v).
    cbn [length tag]. lia.
  - intros N k n ad v m Hv. cbn [decrypt_in_place checksum_aead].
    assert (take (length (as_slice v) - 4) (as_slice v) = m) as Hm.
    { change (as_slice v = seal k n ad m) in Hv. rewrite Hv, Hlen.
      unfold seal. rewrite take_app_le by lia. apply take_ge. lia. }
    rewrite decide_True by (by rewrite Hm). by eexists.
  - intros N k n ad v v'. cbn [decrypt_in_place checksum_aead].
    case_decide as Hd; [|done]. by intros [= <-].
Qed.
End ChecksumAead.

(** A generator that always returns the same number. *)
Module ConstRng.
#[export] Instance const_rng : RngCore Z := {|
  next_u32 g := (as_uint 32 g, g);
  next_u64 g := Done (as_uint 64 g, g);
  fill_bytes g n := Done (replicate n (as_uint 8 g), g);
  try_fill_bytes g n := Done (Ok (replicate n (as_uint 8 g)), g);
|}.

#[export] Instance const_rng_laws : RngCoreLaws Z.
Proof. intros g. by apply as_uint_range. Qed.

#[export] Instance const_rng_fill_laws : FillBytesLaws Z.
Proof.
  intros g n. exists (replicate n (as_uint 8 g)), g.
  split_and!; [done|apply length_replicate|apply Forall_replicate; by apply as_uint_range].
Qed.
End ConstRng.

Module ListQueue.
#[export] Instance list_queue : CircularQueue := {|
  queue A := (nat * list A)%type;
  with_capacity A n := (n, []);
  capacity A q := fst q;
  push A x q := (fst q, take (fst q) (x :: snd q));
  clear A q := (fst q, []);
  iter A q := snd q;
|}.

#[export] Instance list_queue_laws : CircularQueueLaws.
Proof. by split. Qed.
End ListQueue.
