(* ===== verification/AesCcm.v ===== *)
(** * AES-128 in counter with CBC-MAC mode

    The cipher of the examples and the tests, [Ccm<Aes128, U4, U7>], comes
    from the aes and ccm crates, which are not in the repository.  This file
    instantiates the cipher's interface ([Aead] of [Platform]) with the
    published algorithms: AES-128 after FIPS 197, and CCM after RFC 3610, with
    a tag of four bytes and a nonce of seven.  The laws that the development
    assumes of a cipher are theorems here, and the byte strings of the data
    crate's tests come out as the tests expect (see [UnitTests]).  No
    definition of the model depends on this file. *)

From S2P Require Import Prelude Platform.

Module AesCcm.

(** ** The field of 256 elements *)

(** A byte, doubled: shifted, and reduced by [x^8 + x^4 + x^3 + x + 1]. *)
Definition xtime (b : Z) : Z :=
  if b <? 128 then 2 * b else Z.lxor (2 * b) 0x11b.

Fixpoint gmul_go (n : nat) (a b : Z) : Z :=
  match n with
  | O => 0
  | S n => let r := xtime (gmul_go n a (b / 2)) in
           if Z.odd b then Z.lxor a r else r
  end.
Definition gmul (a b : Z) : Z := gmul_go 8 a b.

Definition byte_values : list Z := seqZ 0 256.

(** The inverse, and zero for zero. *)
Definition ginv (a : Z) : Z :=
  default 0 (list_find (fun b => gmul a b = 1) byte_values ≫= fun p => Some (snd p)).

Definition rotl8 (b n : Z) : Z :=
  Z.lor (as_uint 8 (Z.shiftl b n)) (Z.shiftr b (8 - n)).

Definition sub_byte (b : Z) : Z :=
  let s := ginv b in
  foldl Z.lxor 0x63 [s; rotl8 s 1; rotl8 s 2; rotl8 s 3; rotl8 s 4].

(** Computed once. *)
Definition SBOX : list Z := Eval vm_compute in map sub_byte byte_values.
Definition sbox (b : Z) : Z := nth (Z.to_nat b) SBOX 0.

(** ** AES-128 *)

(** Blocks of 16 bytes, column by column. *)
Definition block (f : nat -> Z) : list Z := map f (seq 0 16).

Definition xor_block (x y : list Z) : list Z :=
  block (fun i => as_uint 8 (Z.lxor (nth i x 0) (nth i y 0))).

Definition sub_bytes (s : list Z) : list Z := map sbox s.

Definition shift_rows (s : list Z) : list Z :=
  block (fun i => nth ((i + 4 * (i mod 4)) mod 16)%nat s 0).

Definition mix_column (a b c d : Z) : Z :=
  Z.lxor (Z.lxor (xtime a) (Z.lxor (xtime b) b)) (Z.lxor c d).
Fixpoint mix_columns (s : list Z) : list Z :=
  match s with
  | a :: b :: c :: d :: s =>
      mix_column a b c d :: mix_column b c d a ::
      mix_column c d a b :: mix_column d a b c :: mix_columns s
  | _ => []
  end.

(** The next round's key: [rcon] is the round constant. *)
Definition next_key (rcon : Z) (k : list Z) : list Z :=
  let t := [Z.lxor (sbox (nth 13 k 0)) rcon; sbox (nth 14 k 0);
            sbox (nth 15 k 0); sbox (nth 12 k 0)] in
  let column (prev : list Z) (c : nat) := zip_with Z.lxor (take 4 (drop (4 * c) k)) prev in
  let c0 := column t 0%nat in
  let c1 := column c0 1%nat in
  let c2 := column c1 2%nat in
  c0 ++ c1 ++ c2 ++ column c2 3%nat.

Fixpoint key_expansion (n : nat) (rcon : Z) (k : list Z) : list (list Z) :=
  match n with
  | O => [k]
  | S n => k :: key_expansion n (xtime rcon) (next_key rcon k)
  end.

(** The rounds, for the keys that are left; the last has no [mix_columns]. *)
Fixpoint rounds (ks : list (list Z)) (s : list Z) : list Z :=
  match ks with
  | [] => s
  | [k] => xor_block (shift_rows (sub_bytes s)) k
  | k :: ks => rounds ks (xor_block (mix_columns (shift_rows (sub_bytes s))) k)
  end.

Definition aes (ks : list (list Z)) (s : list Z) : list Z :=
  match ks with
  | [] => xor_block s []
  | k :: ks => rounds ks (xor_block s k)
  end.

(** ** CCM *)

(** [n] bytes of [x], the most significant first. *)
Definition be_bytes (n : nat) (x : Z) : list Z :=
  map (fun i => as_uint 8 (Z.shiftr x (8 * Z.of_nat (n - 1 - i)))) (seq 0 n).

(** Cut into blocks, the last padded with zeroes where it is read. *)
Definition blocks (l : list Z) : list (list Z) :=
  map (fun i => take 16 (drop (16 * i) l)) (seq 0 ((length l + 15) / 16)).

Definition encode_ad (ad : list Z) : list Z :=
  let n := Z.of_nat (length ad) in
  if n =? 0 then []
  else if n <? 0xff00 then be_bytes 2 n ++ ad
  else [0xff; 0xfe] ++ be_bytes 4 n ++ ad.

(** The first block: the tag has 4 bytes, the length of the message 8. *)
Definition first_block (n ad m : list Z) : list Z :=
  (if decide (ad = []) then 0x0f else 0x4f) :: n ++ be_bytes 8 (Z.of_nat (length m)).

Definition cbc_mac (ks : list (list Z)) (n ad m : list Z) : list Z :=
  foldl (fun x b => aes ks (xor_block x b)) (replicate 16 0)
    (first_block n ad m :: blocks (encode_ad ad) ++ blocks m).

(** Block [i] of the key stream. *)
Definition stream_block (ks : list (list Z)) (n : list Z) (i : nat) : list Z :=
  aes ks (0x07 :: n ++ be_bytes 8 (Z.of_nat i)).

(** [len] bytes of it, from block 1 on. *)
Definition stream (ks : list (list Z)) (n : list Z) (len : nat) : list Z :=
  take len (mjoin (map (stream_block ks n) (seq 1 ((len + 15) / 16)))).

Definition tag (ks : list (list Z)) (n ad m : list Z) : list Z :=
  zip_with Z.lxor (take 4 (cbc_mac ks n ad m)) (take 4 (stream_block ks n 0)).

(** Encryption and decryption of the message are the same. *)
Definition crypt (ks : list (list Z)) (n m : list Z) : list Z :=
  zip_with Z.lxor m (stream ks n (length m)).

Definition seal (ks : list (list Z)) (n ad m : list Z) : list Z :=
  crypt ks n m ++ tag ks n ad m.

(** ** Its shape *)

Definition is_block (s : list Z) : Prop := length s = 16%nat /\ bytes s.

Lemma uint_lxor w x y : 0 <= w -> uint w x -> uint w y -> uint w (Z.lxor x y).
Proof.
  intros Hw Hx Hy. apply uint_testbit; [done| |].
  - apply Z.lxor_nonneg. split; intros _; [apply Hy|apply Hx].
  - intros i Hi. by rewrite Z.lxor_spec, !(testbit_uint_high w).
Qed.

Lemma bytes_zip_lxor x y : bytes x -> bytes y -> bytes (zip_with Z.lxor x y).
Proof.
  intros Hx. revert y. induction Hx as [|a x Ha Hx IH]; intros [|b y] Hy; cbn; try done.
  apply Forall_cons in Hy as [Hb Hy]. constructor; [by apply uint_lxor|by apply IH].
Qed.

Lemma xor_block_block x y : is_block (xor_block x y).
Proof.
  split; [done|]. unfold xor_block, block. apply Forall_map, Forall_forall.
  intros i _. by apply as_uint_range.
Qed.

Lemma rounds_block ks s : is_block s -> is_block (rounds ks s).
Proof.
  revert s. induction ks as [|k ks IH]; intros s Hs; [done|].
  destruct ks; [apply xor_block_block|apply IH, xor_block_block].
Qed.

Lemma aes_block ks s : is_block (aes ks s).
Proof. destruct ks; [apply xor_block_block|apply rounds_block, xor_block_block]. Qed.

Lemma foldl_aes_block ks bs x :
  is_block x -> is_block (foldl (fun x b => aes ks (xor_block x b)) x bs).
Proof.
  revert x. induction bs as [|b bs IH]; intros x Hx; [done|]. apply IH, aes_block.
Qed.

Lemma cbc_mac_block ks n ad m : is_block (cbc_mac ks n ad m).
Proof. apply foldl_aes_block. split; [done|]. by apply Forall_replicate. Qed.

Lemma stream_blocks_shape ks n idx :
  length (mjoin (map (stream_block ks n) idx)) = (16 * length idx)%nat /\
  bytes (mjoin (map (stream_block ks n) idx)).
Proof.
  induction idx as [|i idx [IHl IHb]]; [done|]. cbn [map].
  change (mjoin (?x :: ?l)) with (x ++ mjoin l).
  destruct (aes_block ks (0x07 :: n ++ be_bytes 8 (Z.of_nat i))) as [Hl Hb].
  split; [|by apply Forall_app]. rewrite length_app. unfold stream_block at 1.
  rewrite Hl, IHl. cbn [length]. lia.
Qed.

Lemma stream_length ks n len : length (stream ks n len) = len.
Proof.
  unfold stream. destruct (stream_blocks_shape ks n (seq 1 ((len + 15) / 16))) as [Hl _].
  rewrite length_take, Hl, length_seq.
  pose proof (Nat.div_mod (len + 15) 16). pose proof (Nat.mod_upper_bound (len + 15) 16).
  lia.
Qed.

Lemma stream_bytes ks n len : bytes (stream ks n len).
Proof. apply Forall_take, stream_blocks_shape. Qed.

Lemma tag_shape ks n ad m : length (tag ks n ad m) = 4%nat /\ bytes (tag ks n ad m).
Proof.
  destruct (cbc_mac_block ks n ad m) as [Hl Hb].
  destruct (aes_block ks (0x07 :: n ++ be_bytes 8 (Z.of_nat 0))) as [Hl' Hb'].
  unfold tag, stream_block. split.
  - rewrite length_zip_with, !length_take, Hl, Hl'. done.
  - by apply bytes_zip_lxor; apply Forall_take.
Qed.

Lemma crypt_length ks n m : length (crypt ks n m) = length m.
Proof. unfold crypt. rewrite length_zip_with, stream_length. lia. Qed.

(** Encrypting twice gives the message back. *)
Lemma crypt_crypt ks n m : crypt ks n (crypt ks n m) = m.
Proof.
  unfold crypt at 1. rewrite crypt_length. unfold crypt.
  pose proof (stream_length ks n (length m)) as Hl.
  generalize dependent (stream ks n (length m)). intros l Hl. revert l Hl.
  induction m as [|a m IH]; intros [|b l] Hl; cbn in *; try done.
  rewrite Z.lxor_assoc, Z.lxor_nilpotent, Z.lxor_0_r. f_equal. apply IH. lia.
Qed.

Lemma seal_split ks n ad m :
  take (length m) (seal ks n ad m) = crypt ks n m /\
  length (seal ks n ad m) = (length m + 4)%nat.
Proof.
  unfold seal. rewrite length_app, crypt_length, (proj1 (tag_shape ks n ad m)).
  split; [|done]. by rewrite <- (crypt_length ks n m), take_app_length.
Qed.

(** ** The interface *)

Section instance.
Context `{HeaplessVecLaws}.

(** A vector of these contents, where there is room for them. *)
Definition store {N} (xs : list Z) (v : vec N) : result unit unit * vec N :=
  match vec_from_slice N xs with
  | Ok v' => (Ok tt, v')
  | Err _ => (Err tt, v)
  end.

Lemma store_fits {N} xs (v : vec N) :
  (length xs <= N)%nat -> exists v', store xs v = (Ok tt, v') /\ as_slice v' = xs.
Proof. intros Hl. unfold store. destruct (from_slice_fits N xs Hl) as (v' & -> & Hv). eauto. Qed.

#[export] Instance aes_ccm : Aead := {|
  cipher := list (list Z);
  aead_error := unit;
  cipher_new := key_expansion 10 1;
  encrypt_in_place N ks n ad v := store (seal ks n ad (as_slice v)) v;
  decrypt_in_place N ks n ad v :=
    let m := crypt ks n (take (length (as_slice v) - 4) (as_slice v)) in
    if decide (as_slice v = seal ks n ad m) then store m v else (Err tt, v);
  Platform.seal := seal;
|}.

#[export] Instance aes_ccm_laws : AeadLaws.
Proof.
  split.
  - intros c n ad m. apply seal_split.
  - intros c n ad m Hm. apply Forall_app. split; [|apply tag_shape].
    apply bytes_zip_lxor; [done|apply stream_bytes].
  - intros N c n ad v Hl. apply (store_fits (seal c n ad (as_slice v)) v).
    pose proof (proj2 (seal_split c n ad (as_slice v))). lia.
  - intros N c n ad v Hl. cbn [encrypt_in_place aes_ccm]. unfold store.
    pose proof (proj2 (seal_split c n ad (as_slice v))).
    rewrite from_slice_full by lia. eauto.
  - intros N c n ad v m Hv. cbn [decrypt_in_place aes_ccm].
    change (as_slice v = seal c n ad m) in Hv.
    destruct (seal_split c n ad m) as [Ht Hl].
    assert (crypt c n (take (length (as_slice v) - 4) (as_slice v)) = m) as Hm.
    { rewrite Hv, Hl, Nat.add_sub, Ht. apply crypt_crypt. }
    rewrite Hm, decide_True by done. apply store_fits.
    pose proof (as_slice_length N v). rewrite Hv, Hl in *. lia.
  - intros N c n ad v v'. cbn [decrypt_in_place aes_ccm]. case_decide as Hd; [|done]. unfold store.
    set (m := crypt _ _ _) in *. intros Hs.
    pose proof (as_slice_length N v) as Hb.
    destruct (from_slice_fits N m) as (w & Hw & Hwm).
    { rewrite Hd, (proj2 (seal_split c n ad m)) in Hb. lia. }
    rewrite Hw in Hs. injection Hs as <-. by rewrite Hwm.
Qed.
End instance.
End AesCcm.
