(* ===== verification/AppProtocol.v ===== *)
(** * The application protocol: [app/src/lib.rs]

    The messages of the command/event exchange, their derived and hand-written
    serialisation, and [event_reply]. *)

From S2P Require Import Prelude Serde PostcardRef.

(** ** Messages *)

Record CommandRequest (C : Type) := {
  last_event_offset : option Z;
  command : option C;
}.
Arguments last_event_offset {C} _.
Arguments command {C} _.
Arguments Build_CommandRequest {C} _ _.

(** [NoEE = ()]. *)
Definition NoEE : Type := unit.

Inductive EventOf (E EE : Type) :=
  | Logged (e : E) (offset : Z)
  | Ephemeral (ee : EE)
  | Recovery (start_offset end_offset : Z).
Arguments Logged {E EE} e offset.
Arguments Ephemeral {E EE} ee.
Arguments Recovery {E EE} start_offset end_offset.

Record EventReply (E : Type) := {
  delta_ticks : Z;
  event : option E;
}.
Arguments delta_ticks {E} _.
Arguments event {E} _.
Arguments Build_EventReply {E} _ _.

#[export] Instance CommandRequest_eq_dec `{EqDecision C} : EqDecision (CommandRequest C).
Proof. solve_decision. Defined.
#[export] Instance EventOf_eq_dec `{EqDecision E, EqDecision EE} : EqDecision (EventOf E EE).
Proof. solve_decision. Defined.
#[export] Instance EventReply_eq_dec `{EqDecision E} : EqDecision (EventReply E).
Proof. solve_decision. Defined.

(** [event_reply]. *)
Definition event_reply {E T} (maybe_event : option (E * T)) (duration_since : T -> Z)
  : EventReply E :=
  match maybe_event with
  | Some (e, t) => {| delta_ticks := duration_since t; event := Some e |}
  | None => {| delta_ticks := 0; event := None |}
  end.

(** ** Serialisation *)

Section serialisation.
Context {F : SerdeFormat}.

(** The last field has no tag: [None] is written as a unit, and any error
    while reading a value is read as [None]. *)
Definition deserialise_last_field {T} `{!Deserialize T} : reader (option T) := fun d =>
  match deserialize d with
  | (Ok v, d') => (Ok (Some v), d')
  | (Err _, d') => (Ok None, d')
  end.

Definition serialise_last_field {T} `{!Serialize T} (o : option T) (s : ser)
  : result error ser :=
  match o with
  | Some o => serialize o s
  | None => serialize_unit s
  end.

#[export] Instance CommandRequest_serialize `{!Serialize C} : Serialize (CommandRequest C) :=
  fun r => serialize_struct 2 (fun s =>
    s ← serialize_option serialize_u32 (last_event_offset r) s;
    serialise_last_field (command r) s).

#[export] Instance CommandRequest_deserialize `{!Deserialize C} :
  Deserialize (CommandRequest C) :=
  deserialize_struct 2 (
    last_event_offset ← deserialize_option deserialize_u32;
    command ← deserialise_last_field;
    mret {| last_event_offset := last_event_offset; command := command |}).

#[export] Instance unit_serialize : Serialize NoEE := fun _ => serialize_unit.
#[export] Instance unit_deserialize : Deserialize NoEE := deserialize_unit.

#[export] Instance EventOf_serialize `{!Serialize E, !Serialize EE} :
  Serialize (EventOf E EE) := fun v =>
  match v with
  | Logged e offset => serialize_variant 0 (fun s =>
      s ← serialize e s; serialize_u32 offset s)
  | Ephemeral ee => serialize_variant 1 (serialize ee)
  | Recovery start_offset end_offset => serialize_variant 2 (fun s =>
      s ← serialize_u32 start_offset s; serialize_u32 end_offset s)
  end.

#[export] Instance EventOf_deserialize `{!Deserialize E, !Deserialize EE} :
  Deserialize (EventOf E EE) :=
  variant ← deserialize_variant;
  match variant with
  | 0 => e ← deserialize; offset ← deserialize_u32; mret (Logged e offset)
  | 1 => ee ← deserialize; mret (Ephemeral ee)
  | 2 => start_offset ← deserialize_u32; end_offset ← deserialize_u32;
         mret (Recovery start_offset end_offset)
  | _ => reader_fail de_error_custom
  end.

#[export] Instance EventReply_serialize `{!Serialize E} : Serialize (EventReply E) :=
  fun r => serialize_struct 2 (fun s =>
    s ← serialize_u64 (delta_ticks r) s;
    serialise_last_field (event r) s).

#[export] Instance EventReply_deserialize `{!Deserialize E} : Deserialize (EventReply E) :=
  deserialize_struct 2 (
    delta_ticks ← deserialize_u64;
    event ← deserialise_last_field;
    mret {| delta_ticks := delta_ticks; event := event |}).
End serialisation.

(** ** Encodings *)

Section encodings.
Context {F : SerdeFormat} {P : Postcard} {L : PostcardLaws}.

Definition encode_last_field {T} `{!Serialize T, !Encoding T} (o : option T) : list Z :=
  match o with Some v => encode v | None => [] end.

Lemma serialise_last_field_write {T} `{!Serialize T, !Encoding T} (o : option T) s :
  (forall v, o = Some v -> wire_ok v) ->
  serialise_last_field o s = write (encode_last_field o) s.
Proof. intros Hv. destruct o; cbn; [apply serialize_encode; auto|wire_write]. Qed.

(** [deserialise_last_field] never fails. *)
Lemma deserialise_last_field_total {T} `{!Deserialize T} d :
  exists o d', deserialise_last_field d = (Ok o, d').
Proof.
  unfold deserialise_last_field. destruct (deserialize d) as [[v|e] d']; eauto.
Qed.

(** At the end of the input it reads back what was written, provided that
    no value is read from nothing. *)
Lemma deserialise_last_field_read {T}
    `{!Serialize T, !Deserialize T, !Encoding T, !WireEnd T, !WireEof T} (o : option T) :
  (forall v, o = Some v -> wire_ok v) ->
  exists d, deserialise_last_field (of_bytes (encode_last_field o)) = (Ok o, d).
Proof.
  intros Hv. unfold deserialise_last_field. destruct o as [v|]; cbn.
  - destruct (deserialize_encode_end v (Hv v eq_refl)) as [d ->]. eauto.
  - destruct (deserialize_eof) as (e & d & ->). eauto.
Qed.

#[export] Program Instance CommandRequest_encoding
    `{!Serialize C, !Encoding C} : Encoding (CommandRequest C) := {|
  wire_ok r :=
    (forall o, last_event_offset r = Some o -> uint 32 o) /\
    (forall c, command r = Some c -> wire_ok c);
  encode r := encode_option varint (last_event_offset r) ++ encode_last_field (command r);
|}.
Next Obligation.
  intros C ? ? r s [Ho Hc]. open_instance; unfold CommandRequest_serialize.
  rewrite serialize_struct_write, write_app.
  rewrite (serialize_option_write _ varint) by (intros; apply serialize_u32_write).
  apply result_bind_ext. intros s'. by apply serialise_last_field_write.
Qed.

#[export] Instance CommandRequest_wire_end
    `{!Serialize C, !Deserialize C, !Encoding C, !WireEnd C, !WireEof C} :
  WireEnd (CommandRequest C).
Proof.
  intros r [Ho Hc]. destruct (deserialise_last_field_read _ Hc) as [d Hd].
  exists d. open_instance; unfold CommandRequest_deserialize.
  rewrite deserialize_struct_read. cbn [encode CommandRequest_encoding].
  erewrite reader_bind_ok; [|apply (deserialize_option_read _ varint)].
  - erewrite reader_bind_ok; [|exact Hd]. by destruct r.
  - intros o Hr. by apply deserialize_u32_read, Ho.
Qed.

#[export] Program Instance unit_encoding : Encoding NoEE := {|
  wire_ok _ := True;
  encode _ := [];
|}.
Next Obligation. intros [] s _. apply serialize_unit_write. Qed.

#[export] Instance unit_wire : Wire NoEE.
Proof. intros [] r _. apply deserialize_unit_read. Qed.

Definition EventOf_ok `{!Serialize E, !Serialize EE, !Encoding E, !Encoding EE}
    (v : EventOf E EE) : Prop :=
  match v with
  | Logged e offset => wire_ok e /\ uint 32 offset
  | Ephemeral ee => wire_ok ee
  | Recovery start_offset end_offset => uint 32 start_offset /\ uint 32 end_offset
  end.

Definition EventOf_encode `{!Serialize E, !Serialize EE, !Encoding E, !Encoding EE}
    (v : EventOf E EE) : list Z :=
  match v with
  | Logged e offset => varint 0 ++ encode e ++ varint offset
  | Ephemeral ee => varint 1 ++ encode ee
  | Recovery start_offset end_offset =>
      varint 2 ++ varint start_offset ++ varint end_offset
  end.

#[export] Program Instance EventOf_encoding
    `{!Serialize E, !Serialize EE, !Encoding E, !Encoding EE} : Encoding (EventOf E EE) := {|
  wire_ok := EventOf_ok;
  encode := EventOf_encode;
|}.
Next Obligation.
  intros E EE ? ? ? ? v s Hv. open_instance; unfold EventOf_serialize.
  destruct v as [e o|ee|a b]; [destruct Hv| |]; cbn [EventOf_encode]; wire_write.
Qed.

#[export] Instance EventOf_wire
    `{!Serialize E, !Deserialize E, !Encoding E, !Wire E}
    `{!Serialize EE, !Deserialize EE, !Encoding EE, !Wire EE} : Wire (EventOf E EE).
Proof.
  intros v r Hv. open_instance; unfold EventOf_deserialize.
  destruct v as [e o|ee|a b]; cbn in Hv |- *; try destruct Hv; wire_read.
Qed.

#[export] Instance EventOf_eof `{!Deserialize E, !Deserialize EE} : WireEof (EventOf E EE).
Proof.
  destruct deserialize_variant_eof as (e & d & Hd). exists e, d.
  open_instance; unfold EventOf_deserialize. by apply reader_bind_err.
Qed.

#[export] Program Instance EventReply_encoding
    `{!Serialize E, !Encoding E} : Encoding (EventReply E) := {|
  wire_ok r := uint 64 (delta_ticks r) /\ (forall e, event r = Some e -> wire_ok e);
  encode r := varint (delta_ticks r) ++ encode_last_field (event r);
|}.
Next Obligation.
  intros E ? ? r s [Ht He]. open_instance; unfold EventReply_serialize.
  rewrite serialize_struct_write, serialize_u64_write, write_app.
  apply result_bind_ext. intros s'. by apply serialise_last_field_write.
Qed.

#[export] Instance EventReply_wire_end
    `{!Serialize E, !Deserialize E, !Encoding E, !WireEnd E, !WireEof E} :
  WireEnd (EventReply E).
Proof.
  intros r [Ht He]. destruct (deserialise_last_field_read _ He) as [d Hd].
  exists d. open_instance; unfold EventReply_deserialize.
  rewrite deserialize_struct_read. cbn [encode EventReply_encoding].
  erewrite reader_bind_ok; [|by apply deserialize_u64_read].
  erewrite reader_bind_ok; [|exact Hd]. by destruct r.
Qed.
End encodings.

(** ** The message types of the crate's tests

    The tests themselves are in [UnitTests]. *)

Module Tests.
Inductive Command := A | B | C.
Inductive Event := EventA | EventB.
Inductive Telemetry := TelemetryA.

#[export] Instance Command_eq_dec : EqDecision Command.
Proof. solve_decision. Defined.
#[export] Instance Event_eq_dec : EqDecision Event.
Proof. solve_decision. Defined.
#[export] Instance Telemetry_eq_dec : EqDecision Telemetry.
Proof. solve_decision. Defined.

Definition Command_variant (c : Command) : Z :=
  match c with A => 0 | B => 1 | C => 2 end.
Definition Event_variant (e : Event) : Z :=
  match e with EventA => 0 | EventB => 1 end.

Section enums.
Context {F : SerdeFormat}.

#[export] Instance Command_serialize : Serialize Command := fun c =>
  serialize_variant (Command_variant c) mret.
#[export] Instance Command_deserialize : Deserialize Command :=
  variant ← deserialize_variant;
  match variant with
  | 0 => mret A
  | 1 => mret B
  | 2 => mret C
  | _ => reader_fail de_error_custom
  end.
#[export] Instance Event_serialize : Serialize Event := fun e =>
  serialize_variant (Event_variant e) mret.
#[export] Instance Event_deserialize : Deserialize Event :=
  variant ← deserialize_variant;
  match variant with
  | 0 => mret EventA
  | 1 => mret EventB
  | _ => reader_fail de_error_custom
  end.
#[export] Instance Telemetry_serialize : Serialize Telemetry := fun e =>
  serialize_variant 0 mret.
#[export] Instance Telemetry_deserialize : Deserialize Telemetry :=
  variant ← deserialize_variant;
  match variant with
  | 0 => mret TelemetryA
  | _ => reader_fail de_error_custom
  end.

Context {P : Postcard} {L : PostcardLaws}.

#[export] Program Instance Command_encoding : Encoding Command := {|
  wire_ok _ := True;
  encode c := varint (Command_variant c);
|}.
Next Obligation.
  intros c s _. open_instance; unfold Command_serialize. wire_write.
Qed.
#[export] Instance Command_wire : Wire Command.
Proof.
  intros c r _. open_instance; unfold Command_deserialize.
  destruct c; cbn [encode Command_encoding]; wire_read.
Qed.
#[export] Instance Command_eof : WireEof Command.
Proof.
  destruct deserialize_variant_eof as (e & d & Hd). exists e, d.
  open_instance; unfold Command_deserialize. by apply reader_bind_err.
Qed.
#[export] Program Instance Event_encoding : Encoding Event := {|
  wire_ok _ := True;
  encode e := varint (Event_variant e);
|}.
Next Obligation.
  intros e s _. open_instance; unfold Event_serialize. wire_write.
Qed.
#[export] Instance Event_wire : Wire Event.
Proof.
  intros e r _. open_instance; unfold Event_deserialize.
  destruct e; cbn [encode Event_encoding]; wire_read.
Qed.
#[export] Program Instance Telemetry_encoding : Encoding Telemetry := {|
  wire_ok _ := True;
  encode e := varint 0;
|}.
Next Obligation.
  intros e s _. open_instance; unfold Telemetry_serialize. wire_write.
Qed.
#[export] Instance Telemetry_wire : Wire Telemetry.
Proof.
  intros e r _. open_instance; unfold Telemetry_deserialize.
  destruct e; cbn [encode Telemetry_encoding]; wire_read.
Qed.
End enums.

End Tests.

(** ** Properties *)

Section properties.
Context {F : SerdeFormat} {P : Postcard} {L : PostcardLaws}.

(** C34: a command request, with or without an offset, with or without a
    command, is written to any buffer that has the room, and the used part
    of the buffer is read back as the same request. *)
Theorem command_request_roundtrip {C}
    `{!Serialize C, !Deserialize C, !Encoding C, !WireEnd C, !WireEof C}
    (r : CommandRequest C) (buf : list Z) :
  (forall o, last_event_offset r = Some o -> uint 32 o) ->
  (forall c, command r = Some c -> wire_ok c) ->
  (length (encode r) <= length buf)%nat ->
  exists bs buf',
    to_slice (serialize r) buf = (Ok bs, buf') /\
    length buf' = length buf /\ take (length bs) buf' = bs /\
    from_bytes deserialize bs = Ok r.
Proof.
  intros Ho Hc Hl. assert (wire_ok r) as Hr by (by split).
  eexists _, _. split; [by apply to_slice_encode|]. split_and!.
  - rewrite length_app, length_drop. lia.
  - apply take_app_length.
  - by apply from_bytes_encode_end.
Qed.

(** C36: a command field that does not decode is not an error: the request is
    read as one with no command, and otherwise with the command that the
    remaining bytes hold. *)
Theorem command_request_tolerant {C} `{!Deserialize C} (o : option Z) (bs : list Z) :
  (forall n, o = Some n -> uint 32 n) ->
  from_bytes (deserialize (A:=CommandRequest C)) (encode_option varint o ++ bs) =
  Ok {| last_event_offset := o; command := ok (from_bytes (deserialize (A:=C)) bs) |}.
Proof.
  intros Ho. rewrite !from_bytes_run.
  change (deserialize (A:=CommandRequest C)) with (CommandRequest_deserialize (C:=C)).
  unfold CommandRequest_deserialize. rewrite deserialize_struct_read.
  erewrite reader_bind_ok.
  2: { apply (deserialize_option_read _ varint). intros n Hn.
       by apply deserialize_u32_read, Ho. }
  unfold mbind, reader_bind, deserialise_last_field.
  by destruct (deserialize (of_bytes bs)) as [[c|e] d].
Qed.

(** C35: the reply made from an event and its time (or from none) is written to
    any buffer that has the room, and read back as the same reply. *)
Theorem event_reply_roundtrip {E EE T}
    `{!Serialize E, !Deserialize E, !Encoding E, !Wire E}
    `{!Serialize EE, !Deserialize EE, !Encoding EE, !Wire EE}
    (maybe_event : option (EventOf E EE * T)) (duration_since : T -> Z) (buf : list Z) :
  let reply := event_reply maybe_event duration_since in
  (forall e t, maybe_event = Some (e, t) -> wire_ok e /\ uint 64 (duration_since t)) ->
  (length (encode reply) <= length buf)%nat ->
  exists bs buf',
    to_slice (serialize reply) buf = (Ok bs, buf') /\
    length buf' = length buf /\ take (length bs) buf' = bs /\
    from_bytes deserialize bs = Ok reply.
Proof.
  intros reply Hev Hl. assert (wire_ok reply) as Hr.
  { subst reply. destruct maybe_event as [[e t]|]; split; cbn; try done.
    - by apply (Hev e t).
    - intros ? [= <-]. by apply (Hev e t). }
  eexists _, _. split; [by apply to_slice_encode|]. split_and!.
  - rewrite length_app, length_drop. lia.
  - apply take_app_length.
  - by apply from_bytes_encode_end.
Qed.
End properties.

(** ** Witnesses *)

Section witnesses.
Import Tests PostcardRef.

Lemma command_request_roundtrip_witness :
  let r := {| last_event_offset := Some 300; command := Some C |} in
  exists bs buf',
    to_slice (serialize r) (replicate 32 0) = (Ok bs, buf') /\
    length buf' = 32%nat /\ take (length bs) buf' = bs /\
    from_bytes deserialize bs = Ok r.
Proof.
  apply (command_request_roundtrip
           {| last_event_offset := Some 300; command := Some C |} (replicate 32 0)).
  - intros o [= <-]. vm_compute. by split.
  - done.
  - vm_compute. lia.
Defined.

Lemma command_request_tolerant_witness :
  from_bytes deserialize (encode_option Serde.varint (Some 7) ++ [9; 9]) =
  Ok {| last_event_offset := Some 7;
        command := ok (from_bytes (deserialize (A:=Command)) [9; 9]) |}.
Proof.
  apply (command_request_tolerant (C:=Command) (Some 7) [9; 9]).
  intros n [= <-]. vm_compute. by split.
Defined.

Lemma event_reply_roundtrip_witness :
  let reply : EventReply (EventOf Event NoEE) :=
    event_reply (Some (Logged EventB 200, 5)) (fun t => 20 - t) in
  exists bs buf',
    to_slice (serialize reply) (replicate 32 0) = (Ok bs, buf') /\
    length buf' = 32%nat /\ take (length bs) buf' = bs /\
    from_bytes deserialize bs = Ok reply.
Proof.
  apply (event_reply_roundtrip (Some (Logged EventB 200, 5)) (fun t => 20 - t)
           (replicate 32 0)).
  - intros e t [= <- <-]. split; [split|]; [done| |]; vm_compute; by split.
  - vm_compute. lia.
Defined.
End witnesses.
