(* ===== verification/DataLink.v ===== *)
(** * The data link layer: [data/src/lib.rs]

    Packed headers, data frames, nonces, and the encrypted datagrams. *)

From S2P Require Import Prelude Serde PostcardRef Platform.

#[local] Open Scope ff_scope.

(** ** Constants *)

Definition HEADER_SIZE : nat := 6.
Definition MIC_SIZE : nat := 4.
Definition NONCE_SIZE : nat := 7.

(** ** Headers *)

Inductive DataSource := Client | Server.
Record HeaderParseError := Build_HeaderParseError {}.

#[export] Instance DataSource_eq_dec : EqDecision DataSource.
Proof. solve_decision. Defined.

Record Header := {
  version : Z;
  source : DataSource;
  server_address : Z;
  server_port : Z;
  frame_counter : Z;
}.

#[export] Instance Header_eq_dec : EqDecision Header.
Proof. solve_decision. Defined.

(** The fields have the widths of their types: [u8], [u8], [u8], [u16]. *)
Definition header_typed (h : Header) : Prop :=
  uint 8 (version h) /\ uint 8 (server_address h) /\ uint 8 (server_port h) /\
  uint 16 (frame_counter h).

(** [(u8, u8, u8, u8)]. *)
Definition quad : Type := Z * Z * Z * Z.
Definition quad_typed (q : quad) : Prop :=
  let '(a, b, c, d) := q in uint 8 a /\ uint 8 b /\ uint 8 c /\ uint 8 d.
Definition quad_list (q : quad) : list Z := let '(a, b, c, d) := q in [a; b; c; d].

Module Header.
(** [Header::to_packed]. *)
Definition to_packed (self : Header) : quad :=
  let source := Z.b2z (bool_decide (source self = Server)) in
  let header := source .<< 2
    .| (server_address self .& 0xFF) .<< 3
    .| (server_port self .& 0x07) .<< 11
    .| (frame_counter self .& 0xFFFF) .<< 16 in
  (as_uint 8 ((header .& 0xff000000) .>> 24),
   as_uint 8 ((header .& 0x00ff0000) .>> 16),
   as_uint 8 ((header .& 0x0000ff00) .>> 8),
   as_uint 8 (header .& 0x000000ff)).

(** [Header::parse]. *)
Definition parse (header : quad) : result HeaderParseError Header :=
  let '(h0, h1, h2, h3) := header in
  let header := h0 .<< 24 .| h1 .<< 16 .| h2 .<< 8 .| h3 in
  let version := header .& 0x02 in
  let source := match header .>> 2 .& 0x01 with
                | 0 => Some Client
                | 1 => Some Server
                | _ => None
                end in
  let server_address := header .>> 3 .& 0xFF in
  let server_port := header .>> 11 .& 0x07 in
  let frame_counter := header .>> 16 .& 0xFFFF in
  match version, source with
  | 0, Some source =>
      Ok {| version := 0;
            source := source;
            server_address := as_uint 8 server_address;
            server_port := as_uint 8 server_port;
            frame_counter := as_uint 16 frame_counter |}
  | _, _ => Err Build_HeaderParseError
  end.
End Header.

(** [new_nonce]. *)
Definition new_nonce (header : quad) (payload_len : Z) : list Z :=
  let '(h0, h1, h2, h3) := header in
  [0x01; h0; h1; h2; h3; as_uint 8 payload_len; 0x00].

(** ** Data frames *)

Record DataFrame := {
  header : quad;
  encrypted_payload : list Z;
}.

Section frames.
Context {F : SerdeFormat}.

Definition serialize_quad (q : quad) : ser -> result error ser :=
  let '(a, b, c, d) := q in
  serialize_struct 4 (fun s =>
    s ← serialize_u8 a s; s ← serialize_u8 b s; s ← serialize_u8 c s;
    serialize_u8 d s).
Definition deserialize_quad : reader quad :=
  deserialize_struct 4 (
    a ← deserialize_u8; b ← deserialize_u8; c ← deserialize_u8; d ← deserialize_u8;
    mret (a, b, c, d) : reader quad).

#[export] Instance DataFrame_serialize : Serialize DataFrame := fun f =>
  serialize_struct 2 (fun s =>
    s ← serialize_quad (header f) s;
    serialize_slice (encrypted_payload f) s).
#[export] Instance DataFrame_deserialize : Deserialize DataFrame :=
  deserialize_struct 2 (
    header ← deserialize_quad;
    encrypted_payload ← deserialize_slice;
    mret {| header := header; encrypted_payload := encrypted_payload |}
    : reader DataFrame).
End frames.

(** ** Datagrams *)

Inductive FromDatagramError (E : Type) :=
  | CannotParseDataFrame (e : E)
  | CannotParseHeader
  | FilterDoesNotMatch
  | CannotDecrypt.
Arguments CannotParseDataFrame {E} e.
Arguments CannotParseHeader {E}.
Arguments FilterDoesNotMatch {E}.
Arguments CannotDecrypt {E}.

Section datagrams.
Context {F : SerdeFormat} {P : Postcard} {V : HeaplessVec} {A : Aead}.

(** [from_datagram]: the [N] of the code is the length of [datagram_buf]. *)
Definition from_datagram (datagram_buf : list Z) (filter : Header -> bool)
    (cipher : cipher)
  : result (FromDatagramError error) (Header * vec (length datagram_buf)) :=
  data_frame ← map_err CannotParseDataFrame (from_bytes deserialize datagram_buf);
  hdr ← map_err (fun _ => CannotParseHeader) (Header.parse (header data_frame));
  if negb (filter hdr) then Err FilterDoesNotMatch else
  let nonce := new_nonce (header data_frame)
    (Z.max (Z.of_nat (length (encrypted_payload data_frame))) (Z.of_nat MIC_SIZE)
     - Z.of_nat MIC_SIZE) in
  let crypt_payload_buf := vec_new (length datagram_buf) in
  let '(_, crypt_payload_buf) :=
    extend_from_slice crypt_payload_buf (encrypted_payload data_frame) in
  let '(res, crypt_payload_buf) :=
    decrypt_in_place cipher nonce (quad_list (header data_frame)) crypt_payload_buf in
  _ ← map_err (fun _ => CannotDecrypt) res;
  mret (hdr, crypt_payload_buf).

(** [to_datagram]: the buffer afterwards, or a panic. *)
Definition to_datagram (cipher : cipher) (hdr : Header) (payload_buf : list Z)
    (datagram_buf : list Z) : outcome (list Z) :=
  let packed_header := Header.to_packed hdr in
  let nonce := new_nonce packed_header (Z.of_nat (length payload_buf)) in
  let crypt_payload_buf := vec_new (length datagram_buf) in
  let '(res, crypt_payload_buf) := extend_from_slice crypt_payload_buf payload_buf in
  _ ← unwrap res;
  let '(res, crypt_payload_buf) :=
    encrypt_in_place cipher nonce (quad_list packed_header) crypt_payload_buf in
  _ ← unwrap res;
  let data_frame := {| header := packed_header;
                       encrypted_payload := as_slice crypt_payload_buf |} in
  let '(res, datagram_buf) := to_slice (serialize data_frame) datagram_buf in
  _ ← unwrap res;
  mret datagram_buf.
End datagrams.

(** ** Packed headers, bit by bit *)

(** The 32-bit word of a packed header. *)
Definition quad_word (q : quad) : Z :=
  let '(h0, h1, h2, h3) := q in h0 .<< 24 .| h1 .<< 16 .| h2 .<< 8 .| h3.

(** The word [to_packed] packs. *)
Definition header_word (h : Header) : Z :=
  Z.b2z (bool_decide (source h = Server)) .<< 2
  .| (server_address h .& 0xFF) .<< 3
  .| (server_port h .& 0x07) .<< 11
  .| (frame_counter h .& 0xFFFF) .<< 16.

Lemma uint_b2z b : uint 1 (Z.b2z b).
Proof. by destruct b. Qed.

Lemma uint_shiftl w n x : 0 <= n -> 0 <= w -> uint w x -> uint (w + n) (x .<< n).
Proof.
  unfold uint. intros Hn Hw [Hx0 Hx]. rewrite Z.shiftl_mul_pow2, Z.pow_add_r by lia.
  pose proof (Z.pow_pos_nonneg 2 n). nia.
Qed.

Lemma uint_land_mask w x m : 0 <= w -> uint w m -> uint w (x .& m).
Proof. intros Hw Hm. rewrite Z.land_comm. by apply uint_land_l. Qed.

(** Bounds the width of a word built from fields. *)
Ltac uint_word :=
  repeat first
    [ assumption
    | apply uint_lor; [lia| |]
    | apply as_uint_range; lia
    | apply uint_b2z
    | apply uint_land_mask; [lia|unfold uint; lia]
    | match goal with
      | |- uint ?w (as_uint ?v ?x) => apply (uint_mono v w); [lia|apply as_uint_range; lia]
      end
    | match goal with
      | |- uint ?w (?x .<< ?n) =>
          let k := eval vm_compute in (w - n) in
          change (uint (k + n) (x .<< n)); apply uint_shiftl; [lia|lia|]
      end
    | match goal with
      | H : uint ?w ?x |- uint ?w' ?x => apply (uint_mono w w'); [lia|exact H]
      end
    | match goal with
      | |- uint ?w (Z.b2z ?b) => apply (uint_mono 1 w); [lia|apply uint_b2z]
      end ].

Lemma header_word_uint h : uint 32 (header_word h).
Proof. unfold header_word. uint_word. Qed.

Lemma quad_word_uint q : quad_typed q -> uint 32 (quad_word q).
Proof.
  destruct q as [[[a b] c] d]. intros (Ha & Hb & Hc & Hd). unfold quad_word. uint_word.
Qed.

Lemma quad_word_to_packed h : quad_word (Header.to_packed h) = header_word h.
Proof.
  change (Header.to_packed h) with
    (as_uint 8 ((header_word h .& 0xff000000) .>> 24),
     as_uint 8 ((header_word h .& 0x00ff0000) .>> 16),
     as_uint 8 ((header_word h .& 0x0000ff00) .>> 8),
     as_uint 8 (header_word h .& 0x000000ff)).
  pose proof (header_word_uint h) as Hw. generalize dependent (header_word h).
  intros w Hw. unfold quad_word. bits_eq 32; try done. uint_word.
Qed.

(** [parse], as a function of the word. *)
Lemma parse_quad_word q :
  Header.parse q =
  match quad_word q .& 2, quad_word q .>> 2 .& 1 with
  | 0, 0 => Ok {| version := 0; source := Client;
                  server_address := as_uint 8 (quad_word q .>> 3 .& 0xFF);
                  server_port := as_uint 8 (quad_word q .>> 11 .& 0x07);
                  frame_counter := as_uint 16 (quad_word q .>> 16 .& 0xFFFF) |}
  | 0, 1 => Ok {| version := 0; source := Server;
                  server_address := as_uint 8 (quad_word q .>> 3 .& 0xFF);
                  server_port := as_uint 8 (quad_word q .>> 11 .& 0x07);
                  frame_counter := as_uint 16 (quad_word q .>> 16 .& 0xFFFF) |}
  | _, _ => Err Build_HeaderParseError
  end.
Proof.
  destruct q as [[[a b] c] d]. unfold Header.parse, quad_word.
  generalize (a .<< 24 .| b .<< 16 .| c .<< 8 .| d). intros w.
  destruct (w .& 2) as [|p|p]; [|done..].
  by destruct (w .>> 2 .& 1) as [|[]|].
Qed.

Section header_fields.
Variable h : Header.
Hypothesis Hh : header_typed h.

Lemma testbit_b2z_0 b : Z.testbit (Z.b2z b) 0 = b.
Proof. by destruct b. Qed.

Ltac header_bits w :=
  destruct Hh as (_ & Ha & Hp & Hc);
  pose proof (uint_b2z (bool_decide (source h = Server))) as Hs;
  unfold header_word; bits_eq w; try done; rewrite ?testbit_b2z_0; try done.

Lemma header_word_version : header_word h .& 2 = 0.
Proof. header_bits 2; uint_word; by unfold uint. Qed.

Lemma header_word_source :
  header_word h .>> 2 .& 1 = Z.b2z (bool_decide (source h = Server)).
Proof. header_bits 1; uint_word. Qed.

Lemma header_word_address : as_uint 8 (header_word h .>> 3 .& 0xFF) = server_address h.
Proof. header_bits 8; uint_word. Qed.

Lemma header_word_port :
  as_uint 8 (header_word h .>> 11 .& 0x07) = server_port h .& 0x07.
Proof. header_bits 8; uint_word. Qed.

Lemma header_word_counter :
  as_uint 16 (header_word h .>> 16 .& 0xFFFF) = frame_counter h.
Proof. header_bits 16; uint_word. Qed.
End header_fields.

(** [parse] after [to_packed]: the version is written as zero and the port
    loses all but its low three bits. *)
Lemma parse_to_packed_gen h :
  header_typed h ->
  Header.parse (Header.to_packed h) =
  Ok {| version := 0; source := source h; server_address := server_address h;
        server_port := server_port h .& 0x07; frame_counter := frame_counter h |}.
Proof.
  intros Hh. rewrite parse_quad_word, quad_word_to_packed.
  rewrite header_word_version, header_word_source, header_word_address,
    header_word_port, header_word_counter by done.
  by destruct (source h).
Qed.

Lemma land_7_small p : 0 <= p < 8 -> p .& 0x07 = p.
Proof. intros Hp. change 0x07 with (Z.ones 3). rewrite Z.land_ones, Z.mod_small; lia. Qed.

Lemma to_packed_typed h : quad_typed (Header.to_packed h).
Proof. unfold Header.to_packed. split_and!; by apply as_uint_range. Qed.

Lemma quad_word_inj q q' :
  quad_typed q -> quad_typed q' -> quad_word q = quad_word q' -> q = q'.
Proof.
  assert (forall r, quad_typed r ->
    r = (as_uint 8 (quad_word r .>> 24), as_uint 8 (quad_word r .>> 16),
         as_uint 8 (quad_word r .>> 8), as_uint 8 (quad_word r))) as Hsplit.
  { intros [[[a b] c] d] (Ha & Hb & Hc & Hd). unfold quad_word.
    repeat apply (f_equal2 pair); bits_eq 8; try done; uint_word. }
  intros Hq Hq' Heq. rewrite (Hsplit q Hq), (Hsplit q' Hq'). by rewrite Heq.
Qed.

(** The bits [parse] keeps: all but the version (0, 1) and the reserved
    bits (14, 15). *)
Definition HEADER_MASK : Z := 0xFFFF3FFC.

Lemma header_word_fields q s :
  quad_typed q -> quad_word q .>> 2 .& 1 = Z.b2z (bool_decide (s = Server)) ->
  header_word {| version := 0; source := s;
                 server_address := as_uint 8 (quad_word q .>> 3 .& 0xFF);
                 server_port := as_uint 8 (quad_word q .>> 11 .& 0x07);
                 frame_counter := as_uint 16 (quad_word q .>> 16 .& 0xFFFF) |} =
  quad_word q .& HEADER_MASK.
Proof.
  intros Hq Hs. pose proof (quad_word_uint q Hq) as Hw.
  unfold header_word, HEADER_MASK.
  cbn [source server_address server_port frame_counter]. rewrite <- Hs.
  generalize dependent (quad_word q). intros w _ Hw. bits_eq 32; try done; uint_word.
Qed.

(** What [parse] accepts: the fields are those of the word. *)
Lemma parse_inv q h :
  quad_typed q -> Header.parse q = Ok h ->
  header_typed h /\ version h = 0 /\ server_port h < 8 /\
  header_word h = quad_word q .& HEADER_MASK.
Proof.
  intros Hq. rewrite parse_quad_word.
  assert (forall s, quad_word q .>> 2 .& 1 = Z.b2z (bool_decide (s = Server)) ->
    let h := {| version := 0; source := s;
                server_address := as_uint 8 (quad_word q .>> 3 .& 0xFF);
                server_port := as_uint 8 (quad_word q .>> 11 .& 0x07);
                frame_counter := as_uint 16 (quad_word q .>> 16 .& 0xFFFF) |} in
    header_typed h /\ version h = 0 /\ server_port h < 8 /\
    header_word h = quad_word q .& HEADER_MASK) as Hfields.
  { intros s Hs h'. refine (conj _ (conj eq_refl (conj _ _))).
    - refine (conj _ (conj _ (conj _ _))); [done|by apply as_uint_range..].
    - assert (uint 3 (quad_word q .>> 11 .& 0x07)) as H3
        by (apply uint_land_mask; [lia|done]).
      cbn [server_port h']. rewrite as_uint_small; [apply H3|by apply (uint_mono 3)].
    - by apply header_word_fields. }
  destruct (quad_word q .& 2); try done.
  destruct (quad_word q .>> 2 .& 1) as [|[]|] eqn:Hs; try done.
  - intros [= <-]. by apply (Hfields Client).
  - intros [= <-]. by apply (Hfields Server).
Qed.

(** The version test sees bit 1 of the last byte only. *)
Lemma parse_err_iff q :
  quad_typed q ->
  (exists e, Header.parse q = Err e) <-> Z.testbit (quad_word q) 1 = true.
Proof.
  intros Hq. rewrite parse_quad_word.
  assert (quad_word q .& 2 = if Z.testbit (quad_word q) 1 then 2 else 0) as ->.
  { generalize (quad_word q). intros w.
    apply (uint_bits_inj 2); [by apply uint_land_mask| |].
    - by destruct (Z.testbit w 1).
    - intros i Hi. int_cases i Hi; testbits; by destruct (Z.testbit w 1). }
  destruct (Z.testbit (quad_word q) 1); [split; eauto|].
  assert (quad_word q .>> 2 .& 1 = if Z.testbit (quad_word q) 2 then 1 else 0) as ->.
  { generalize (quad_word q). intros w.
    apply (uint_bits_inj 1); [by apply uint_land_mask| |].
    - by destruct (Z.testbit w 2).
    - intros i Hi. int_cases i Hi; testbits; by destruct (Z.testbit w 2). }
  destruct (Z.testbit (quad_word q) 2); (split; [by intros [e ?]|done]).
Qed.

(** ** The encoding of frames *)

Section frame_encoding.
Context {F : SerdeFormat} {P : Postcard} {L : PostcardLaws}.

Definition encode_frame (f : DataFrame) : list Z :=
  quad_list (header f) ++
  varint (Z.of_nat (length (encrypted_payload f))) ++ encrypted_payload f.

#[export] Program Instance DataFrame_encoding : Encoding DataFrame := {|
  wire_ok f := uint 32 (Z.of_nat (length (encrypted_payload f)));
  encode := encode_frame;
|}.
Next Obligation.
  intros f s _. open_instance; unfold DataFrame_serialize, encode_frame, serialize_quad.
  destruct (header f) as [[[a b] c] d]. cbn [quad_list].
  change [a; b; c; d] with ([a] ++ [b] ++ [c] ++ [d]). wire_write.
Qed.

#[export] Instance DataFrame_wire : Wire DataFrame.
Proof.
  intros [q ct] r Hf. open_instance; unfold DataFrame_deserialize, deserialize_quad.
  destruct q as [[[a b] c] d]. cbn [encode DataFrame_encoding]. unfold encode_frame.
  cbn [header encrypted_payload quad_list].
  rewrite deserialize_struct_read, <- !app_assoc. cbn [app].
  erewrite reader_bind_ok; [|by wire_read].
  erewrite reader_bind_ok; [done|].
  by apply deserialize_slice_read.
Qed.

(** What a frame was read from. *)
Lemma from_bytes_frame_inv bs f :
  from_bytes (deserialize (A:=DataFrame)) bs = Ok f ->
  exists p r, bs = quad_list (header f) ++ p ++ encrypted_payload f ++ r.
Proof.
  rewrite from_bytes_run. destruct (deserialize (of_bytes bs)) as [res d'] eqn:H.
  intros Hres. cbn in Hres. subst res. revert H.
  change (deserialize (of_bytes bs)) with (DataFrame_deserialize (of_bytes bs)).
  unfold DataFrame_deserialize, deserialize_quad. rewrite deserialize_struct_read.
  intros H. apply reader_bind_inv in H as (q & d4 & Hq & H).
  apply reader_bind_inv in H as (ct & d5 & Hct & H). injection H as <- _.
  rewrite deserialize_struct_read in Hq.
  do 4 (apply reader_bind_inv in Hq as (? & ? & Hx & Hq);
        apply deserialize_u8_inv in Hx as (? & -> & ->); cbv beta in Hq).
  unfold mret, reader_ret in Hq.
  injection Hq as <- <-. apply deserialize_slice_inv in Hct as (p & r & -> & _).
  by exists p, r.
Qed.

Lemma encode_frame_length f :
  length (encode_frame f) =
  (4 + length (varint (Z.of_nat (length (encrypted_payload f)))) +
   length (encrypted_payload f))%nat.
Proof.
  unfold encode_frame. destruct (header f) as [[[a b] c] d].
  rewrite !length_app. cbn [quad_list length]. lia.
Qed.
End frame_encoding.

(** ** Datagrams *)

Section datagram_lemmas.
Context {F : SerdeFormat} {P : Postcard} {L : PostcardLaws}.
Context {V : HeaplessVec} {VL : HeaplessVecLaws} {A : Aead} {AL : AeadLaws}.

(** The room that the frame of an [n]-byte payload takes. *)
Definition frame_size (n : nat) : nat :=
  4 + length (varint (Z.of_nat (n + MIC_SIZE))) + (n + MIC_SIZE).

(** The frame [to_datagram] writes. *)
Definition sealed_frame (cipher : cipher) (q : quad) (payload : list Z) : DataFrame :=
  {| header := q;
     encrypted_payload :=
       seal cipher (new_nonce q (Z.of_nat (length payload))) (quad_list q) payload |}.

Lemma sealed_frame_size c q payload :
  length (encode_frame (sealed_frame c q payload)) = frame_size (length payload).
Proof.
  rewrite encode_frame_length. unfold sealed_frame, frame_size.
  cbn [encrypted_payload]. by rewrite seal_length.
Qed.

Lemma to_datagram_done c h payload buf :
  uint 32 (Z.of_nat (length buf)) -> (frame_size (length payload) <= length buf)%nat ->
  let frame := encode_frame (sealed_frame c (Header.to_packed h) payload) in
  to_datagram c h payload buf = Done (frame ++ drop (length frame) buf).
Proof.
  intros Hbuf Hsize frame. unfold to_datagram. unfold frame_size, MIC_SIZE in Hsize.
  destruct (extend_fits _ (vec_new (length buf)) payload) as (v & -> & Hv).
  { rewrite as_slice_new. cbn [length]. lia. }
  rewrite as_slice_new in Hv. cbn [unwrap mbind outcome_bind app] in Hv |- *.
  destruct (encrypt_fits _ c (new_nonce (Header.to_packed h) (Z.of_nat (length payload)))
              (quad_list (Header.to_packed h)) v) as (v' & -> & Hv').
  { rewrite Hv. lia. }
  cbn [unwrap mbind outcome_bind]. rewrite Hv', Hv.
  change {| header := _; encrypted_payload := _ |}
    with (sealed_frame c (Header.to_packed h) payload).
  rewrite to_slice_encode; [done| |].
  - cbn. rewrite seal_length. unfold uint in *. lia.
  - cbn [encode DataFrame_encoding]. by rewrite sealed_frame_size.
Qed.

Lemma to_datagram_panic c h payload buf :
  uint 32 (Z.of_nat (length buf)) -> (length buf < frame_size (length payload))%nat ->
  to_datagram c h payload buf = Panic.
Proof.
  intros Hbuf Hsize. unfold to_datagram.
  destruct (decide (length payload <= length buf)%nat) as [Hp|Hp].
  2: { rewrite extend_full; [done|]. rewrite as_slice_new. cbn [length]. lia. }
  destruct (extend_fits _ (vec_new (length buf)) payload) as (v & -> & Hv).
  { rewrite as_slice_new. cbn [length]. lia. }
  rewrite as_slice_new in Hv. cbn [unwrap mbind outcome_bind app] in Hv |- *.
  set (nonce := new_nonce _ _). set (ad := quad_list _).
  destruct (decide (length payload + 4 <= length buf)%nat) as [Hp'|Hp'].
  2: { destruct (encrypt_full _ c nonce ad v) as (e & v' & ->); [|done].
       rewrite Hv. lia. }
  destruct (encrypt_fits _ c nonce ad v) as (v' & -> & Hv'); [rewrite Hv; lia|].
  cbn [unwrap mbind outcome_bind]. rewrite Hv', Hv.
  change {| header := _; encrypted_payload := _ |}
    with (sealed_frame c (Header.to_packed h) payload).
  destruct (to_slice_full (serialize (sealed_frame c (Header.to_packed h) payload))
              (encode (sealed_frame c (Header.to_packed h) payload)) buf)
    as (e & buf' & ->); [| |done].
  - intros s. apply serialize_encode. cbn. rewrite seal_length. unfold uint in *. lia.
  - cbn [encode DataFrame_encoding]. by rewrite sealed_frame_size.
Qed.

(** [from_datagram] on a buffer that starts with a frame. *)
Lemma from_datagram_frame c q ct rest filter h :
  uint 32 (Z.of_nat (length ct)) -> Header.parse q = Ok h ->
  let buf := encode_frame {| header := q; encrypted_payload := ct |} ++ rest in
  let nonce := new_nonce q (Z.of_nat (length ct - MIC_SIZE)) in
  exists v, as_slice v = ct /\
    from_datagram buf filter c =
    if filter h then
      match decrypt_in_place c nonce (quad_list q) v with
      | (Ok _, v') => Ok (h, v')
      | (Err _, _) => Err CannotDecrypt
      end
    else Err FilterDoesNotMatch.
Proof.
  intros Hct Hq buf nonce. unfold from_datagram.
  assert (from_bytes deserialize buf =
          Ok {| header := q; encrypted_payload := ct |}) as ->.
  { exact (from_bytes_encode {| header := q; encrypted_payload := ct |} rest Hct). }
  cbn [map_err mbind result_bind header encrypted_payload]. rewrite Hq.
  cbn [map_err mbind result_bind].
  destruct (extend_fits _ (vec_new (length buf)) ct) as (v & Hext & Hv).
  { rewrite as_slice_new. unfold buf. rewrite length_app, encode_frame_length.
    cbn [encrypted_payload length]. lia. }
  rewrite as_slice_new in Hv. cbn [app] in Hv. exists v. split; [done|].
  destruct (filter h); cbn [negb]; [|done].
  rewrite Hext.
  replace (Z.max (Z.of_nat (length ct)) (Z.of_nat MIC_SIZE) - Z.of_nat MIC_SIZE)
    with (Z.of_nat (length ct - MIC_SIZE)) by (unfold MIC_SIZE; lia).
  fold nonce.
  by destruct (decrypt_in_place c nonce (quad_list q) v) as [[[]|e] v'].
Qed.

(** What a received ciphertext decrypts to was sealed under the nonce that
    the receiver computes from its length. *)
Lemma decrypt_received {N} c q ct (v v' : vec N) :
  as_slice v = ct ->
  decrypt_in_place c (new_nonce q (Z.of_nat (length ct - MIC_SIZE))) (quad_list q) v =
    (Ok tt, v') ->
  ct = seal c (new_nonce q (Z.of_nat (length (as_slice v')))) (quad_list q) (as_slice v').
Proof.
  intros Hv Hdec. apply decrypt_inv in Hdec. rewrite Hv in Hdec.
  rewrite Hdec at 1. do 2 f_equal.
  rewrite Hdec, seal_length. unfold MIC_SIZE. f_equal. lia.
Qed.

Lemma from_datagram_sealed c q payload rest filter h :
  uint 32 (Z.of_nat (length payload + 4)) -> Header.parse q = Ok h -> filter h = true ->
  exists v, as_slice v = payload /\
    from_datagram (encode_frame (sealed_frame c q payload) ++ rest) filter c = Ok (h, v).
Proof.
  intros Hlen Hq Hf. set (ct := encrypted_payload (sealed_frame c q payload)).
  assert (length ct = length payload + 4)%nat as Hct by apply seal_length.
  destruct (from_datagram_frame c q ct rest filter h) as (v & Hv & Hd);
    [by rewrite Hct|done|].
  rewrite Hf, Hct in Hd. unfold MIC_SIZE in Hd. rewrite Nat.add_sub in Hd.
  destruct (decrypt_seal _ c (new_nonce q (Z.of_nat (length payload)))
              (quad_list q) v payload Hv) as (v' & Hdec & Hv').
  rewrite Hdec in Hd. by exists v'.
Qed.
End datagram_lemmas.

(** ** Properties *)

Section header_properties.
(** C26: a header survives packing and parsing.  In general the version is
    sent as zero and the port keeps its low three bits; a header of version
    zero with a port below 8 comes back unchanged. *)
Theorem header_roundtrip h :
  header_typed h ->
  Header.parse (Header.to_packed h) =
    Ok {| version := 0; source := source h; server_address := server_address h;
          server_port := server_port h mod 8; frame_counter := frame_counter h |} /\
  (version h = 0 -> server_port h < 8 -> Header.parse (Header.to_packed h) = Ok h).
Proof.
  intros Hh. rewrite parse_to_packed_gen by done.
  assert (server_port h .& 0x07 = server_port h mod 8) as ->
    by exact (Z.land_ones (server_port h) 3 ltac:(lia)).
  split; [done|]. intros Hv Hp. destruct Hh as (_ & _ & [Hp0 _] & _).
  rewrite Z.mod_small by lia. rewrite <- Hv. by destruct h.
Qed.

(** C33: what [parse] accepts it can also pack: packing the parsed header
    gives back the bytes with the version bits (0, 1) and the reserved bits
    (14, 15) cleared, so the very same bytes when these are clear. *)
Theorem parse_canonical q h :
  quad_typed q -> Header.parse q = Ok h ->
  header_typed h /\ version h = 0 /\ server_port h < 8 /\
  quad_word (Header.to_packed h) = quad_word q .& HEADER_MASK /\
  (quad_word q .& HEADER_MASK = quad_word q -> Header.to_packed h = q).
Proof.
  intros Hq Hp. destruct (parse_inv q h Hq Hp) as (Hh & Hv & Hport & Hw).
  rewrite quad_word_to_packed. refine (conj Hh (conj Hv (conj Hport (conj Hw _)))).
  intros Hm. apply quad_word_inj; [apply to_packed_typed|done|].
  by rewrite quad_word_to_packed, Hw.
Qed.

(** C32: [parse] fails exactly when bit 1 of the last byte is set: bit 0 of
    the version and the reserved bits are not looked at. *)
Theorem parse_error_iff a b c d :
  quad_typed (a, b, c, d) ->
  (exists e, Header.parse (a, b, c, d) = Err e) <-> Z.testbit d 1 = true.
Proof.
  intros Hq. rewrite parse_err_iff by done.
  destruct Hq as (Ha & Hb & Hc & Hd).
  assert (Z.testbit (quad_word (a, b, c, d)) 1 = Z.testbit d 1) as ->; [|done].
  unfold quad_word. by testbits.
Qed.

(** C27: two frames of payloads shorter than 256 bytes have the same nonce
    only if they agree on the direction, the address, the port, the frame
    counter and the length of the payload. *)
Theorem nonce_unique h h' n n' :
  header_typed h -> header_typed h' -> 0 <= n < 256 -> 0 <= n' < 256 ->
  new_nonce (Header.to_packed h) n = new_nonce (Header.to_packed h') n' ->
  source h = source h' /\ server_address h = server_address h' /\
  server_port h mod 8 = server_port h' mod 8 /\
  frame_counter h = frame_counter h' /\ n = n'.
Proof.
  intros Hh Hh' Hn Hn' Heq.
  pose proof (parse_to_packed_gen h Hh) as Hp.
  pose proof (parse_to_packed_gen h' Hh') as Hp'.
  destruct (Header.to_packed h) as [[[a b] c] d], (Header.to_packed h') as [[[a' b'] c'] d'].
  cbn [new_nonce] in Heq. injection Heq as -> -> -> -> Hlen.
  rewrite !as_uint_small in Hlen by done. rewrite Hp in Hp'.
  injection Hp' as Hs Ha Hport Hc.
  change 0x07 with (Z.ones 3) in Hport. rewrite !Z.land_ones in Hport by lia. done.
Qed.
End header_properties.

Section datagram_properties.
Context {F : SerdeFormat} {P : Postcard} {L : PostcardLaws}.
Context {V : HeaplessVec} {VL : HeaplessVecLaws} {A : Aead} {AL : AeadLaws}.

(** C21: [to_datagram] panics exactly when the four header bytes, the length
    of the payload with its MIC, the payload and the MIC do not fit the
    datagram; otherwise it fills a datagram of the same size. *)
Theorem to_datagram_panics_iff c h payload buf :
  uint 32 (Z.of_nat (length buf)) ->
  (to_datagram c h payload buf = Panic <->
   (length buf < frame_size (length payload))%nat) /\
  (forall buf', to_datagram c h payload buf = Done buf' -> length buf' = length buf).
Proof.
  intros Hbuf.
  destruct (decide (length buf < frame_size (length payload))%nat) as [Hs|Hs].
  - by rewrite to_datagram_panic.
  - rewrite to_datagram_done by (done || lia). split.
    + split; [done|lia].
    + intros buf' <-%done_inj. rewrite length_app, length_drop, sealed_frame_size. lia.
Qed.

(** C2: a payload that fits is received as it was sent, under the header it
    was sent with, by a receiver that has the key and whose filter accepts
    the header, whatever the datagram buffer held before. *)
Theorem datagram_roundtrip c h payload buf filter :
  header_typed h -> version h = 0 -> server_port h < 8 ->
  uint 32 (Z.of_nat (length buf)) ->
  (frame_size (length payload) <= length buf)%nat ->
  filter h = true ->
  exists buf' v,
    to_datagram c h payload buf = Done buf' /\
    from_datagram buf' filter c = Ok (h, v) /\ as_slice v = payload.
Proof.
  intros Hh Hv Hp Hbuf Hs Hf. eexists.
  destruct (from_datagram_sealed c (Header.to_packed h) payload
              (drop (frame_size (length payload)) buf) filter h)
    as (v & Hpay & Hd); [..|exists v].
  - unfold frame_size, MIC_SIZE, uint in *. lia.
  - rewrite parse_to_packed_gen by done. destruct Hh as (_ & _ & [? _] & _).
    rewrite land_7_small by lia. rewrite <- Hv. by destruct h.
  - done.
  - split; [|split; [exact Hd|done]].
    rewrite to_datagram_done by done. by rewrite sealed_frame_size.
Qed.

(** C7: what [from_datagram] returns was sealed with the receiver's key:
    the datagram is the four header bytes, the length, and the ciphertext
    that the key gives for exactly this payload, with the nonce made of
    these header bytes and the payload's length, and with the header bytes
    as associated data. *)
Theorem from_datagram_authentic c buf filter h (v : vec (length buf)) :
  from_datagram buf filter c = Ok (h, v) ->
  filter h = true /\
  exists q len rest,
    buf = quad_list q ++ len ++
          seal c (new_nonce q (Z.of_nat (length (as_slice v)))) (quad_list q) (as_slice v)
          ++ rest /\
    Header.parse q = Ok h.
Proof.
  unfold from_datagram.
  destruct (from_bytes deserialize buf) as [[q ct]|e] eqn:Hframe; [|done].
  apply from_bytes_frame_inv in Hframe as (len & rest & Hbuf).
  cbn [map_err mbind result_bind header encrypted_payload] in Hbuf |- *.
  destruct (Header.parse q) as [h'|e] eqn:Hq; [|done]. cbn [map_err mbind result_bind].
  destruct (filter h') eqn:Hf; cbn [negb]; [|done].
  destruct (extend_fits _ (vec_new (length buf)) ct) as (v0 & -> & Hv0).
  { rewrite as_slice_new, Hbuf, !length_app. cbn [length]. lia. }
  rewrite as_slice_new in Hv0. cbn [app] in Hv0.
  destruct (decrypt_in_place c _ (quad_list q) v0) as [[[]|e] v'] eqn:Hdec; [|done].
  apply decrypt_inv in Hdec. rewrite Hv0 in Hdec.
  intros [= <- <-]. split; [done|]. exists q, len, rest. split; [|done].
  etrans; [exact Hbuf|].
  enough (ct = seal c (new_nonce q (Z.of_nat (length (as_slice v')))) (quad_list q)
                 (as_slice v')) as <- by done.
  rewrite Hdec at 1. do 2 f_equal. rewrite Hdec, seal_length. unfold MIC_SIZE. lia.
Qed.

(** A frame whose ciphertext the receiver's key does not give, for any
    payload, under the header bytes received, is refused: with
    [FilterDoesNotMatch] when the filter refuses the header, and else with
    [CannotDecrypt]. *)
Theorem from_datagram_rejects c q ct rest filter h :
  uint 32 (Z.of_nat (length ct)) -> Header.parse q = Ok h ->
  (forall m, ct <> seal c (new_nonce q (Z.of_nat (length m))) (quad_list q) m) ->
  let buf := encode_frame {| header := q; encrypted_payload := ct |} ++ rest in
  from_datagram buf filter c =
    Err (if filter h then CannotDecrypt else FilterDoesNotMatch).
Proof.
  intros Hct Hq Hforged buf. unfold buf.
  destruct (from_datagram_frame c q ct rest filter h Hct Hq) as (v & Hv & ->).
  destruct (filter h); [|done].
  destruct (decrypt_in_place c _ (quad_list q) v) as [[[]|e] v'] eqn:Hdec; [|done].
  exfalso. apply (Hforged (as_slice v')). by apply (decrypt_received c q ct v v' Hv).
Qed.
End datagram_properties.

(** ** Examples and witnesses *)

Section witnesses.
Import PostcardRef ListVec ChecksumAead.

Definition example_header : Header :=
  {| version := 0; source := Server; server_address := 255; server_port := 7;
     frame_counter := 1 |}.
Definition example_payload : list Z := [115; 111; 109; 101; 32; 100; 97; 116; 97].
Definition example_cipher : cipher := cipher_new (replicate 16 48).

(** The header bytes of the crate's tests. *)
Example example_header_packed : Header.to_packed example_header = (0, 1, 63, 252).
Proof. done. Qed.
Example example_header_parsed : Header.parse (0, 1, 63, 252) = Ok example_header.
Proof. done. Qed.

(** A header of protocol version 1 is taken for one of version 0. *)
Example parse_accepts_version_one :
  Header.parse (0, 0, 0, 1) =
  Ok {| version := 0; source := Client; server_address := 0; server_port := 0;
        frame_counter := 0 |}.
Proof. done. Qed.

(** So is a header with a reserved bit set. *)
Example parse_ignores_reserved :
  Header.parse (0, 0, 0x40, 0) = Header.parse (0, 0, 0, 0).
Proof. done. Qed.

Lemma example_header_typed : header_typed example_header.
Proof. by repeat split. Qed.

Lemma header_roundtrip_witness :
  Header.parse (Header.to_packed example_header) = Ok example_header.
Proof. by apply (proj2 (header_roundtrip example_header example_header_typed)). Defined.

Lemma parse_canonical_witness :
  quad_word (Header.to_packed example_header) = quad_word (0, 1, 255, 252) .& HEADER_MASK.
Proof.
  apply (parse_canonical (0, 1, 255, 252) example_header); [by repeat split|done].
Defined.

Lemma parse_error_iff_witness :
  (exists e, Header.parse (0, 1, 63, 254) = Err e) <-> Z.testbit 254 1 = true.
Proof. apply (parse_error_iff 0 1 63 254). by repeat split. Defined.

(** Two headers that differ in the version and in the port above its three
    bits have the same nonce; two successive frames have different ones. *)
Definition other_header (port fc : Z) : Header :=
  {| version := 1; source := Server; server_address := 255; server_port := port;
     frame_counter := fc |}.

Lemma other_header_typed port fc : uint 8 port -> uint 16 fc -> header_typed (other_header port fc).
Proof. intros Hport Hfc. split; [by split|split; [by split|by split]]. Qed.

Lemma nonce_unique_witness :
  (let h := {| version := 0; source := Server; server_address := 255; server_port := 7;
               frame_counter := 3 |} in
   h <> other_header 15 3 /\
   new_nonce (Header.to_packed h) 9 = new_nonce (Header.to_packed (other_header 15 3)) 9 /\
   server_port h mod 8 = server_port (other_header 15 3) mod 8) /\
  new_nonce (Header.to_packed (other_header 7 3)) 9 <>
  new_nonce (Header.to_packed (other_header 7 4)) 9.
Proof.
  split; [split; [done|split; [by vm_compute|]]|].
  - apply (nonce_unique {| version := 0; source := Server; server_address := 255;
                           server_port := 7; frame_counter := 3 |} (other_header 15 3) 9 9);
      [by repeat split|by apply other_header_typed|done|done|by vm_compute].
  - intros Heq. apply nonce_unique in Heq as (_ & _ & _ & Hfc & _);
      [done|by apply other_header_typed..|done|done].
Defined.

Lemma to_datagram_panics_iff_witness :
  to_datagram example_cipher example_header example_payload (replicate 17 0) = Panic <->
  (17 < frame_size 9)%nat.
Proof.
  apply (to_datagram_panics_iff example_cipher example_header example_payload
           (replicate 17 0)). by split.
Defined.

Lemma datagram_roundtrip_witness :
  exists buf' v,
    to_datagram example_cipher example_header example_payload (replicate 32 0) = Done buf' /\
    from_datagram buf' (fun h => bool_decide (server_address h = 255)) example_cipher =
      Ok (example_header, v) /\ as_slice v = example_payload.
Proof.
  apply (datagram_roundtrip example_cipher example_header example_payload
           (replicate 32 0) (fun h => bool_decide (server_address h = 255)));
    [apply example_header_typed|done|done|by split|vm_compute; lia|done].
Defined.

Lemma from_datagram_authentic_witness :
  let buf := encode_frame (sealed_frame example_cipher (0, 1, 63, 252) example_payload) in
  match from_datagram buf (fun _ => true) example_cipher with
  | Ok (h, v) => exists q len rest,
      buf = quad_list q ++ len ++
            seal example_cipher (new_nonce q (Z.of_nat (length (as_slice v))))
              (quad_list q) (as_slice v) ++ rest /\
      Header.parse q = Ok h
  | Err _ => False
  end.
Proof.
  intros buf. destruct (from_datagram buf (fun _ => true) example_cipher)
    as [[h v]|e] eqn:Hd.
  - apply (from_datagram_authentic _ _ _ _ _ Hd).
  - vm_compute in Hd. discriminate Hd.
Defined.

Lemma from_datagram_rejects_witness :
  from_datagram
    (encode_frame {| header := (0, 1, 63, 252); encrypted_payload := [1; 0; 0; 0; 0] |} ++ [])
    (fun _ => true) example_cipher = Err CannotDecrypt.
Proof.
  apply (from_datagram_rejects example_cipher (0, 1, 63, 252) [1; 0; 0; 0; 0] []
           (fun _ => true) example_header); [by split|done|].
  intros m Hm. destruct m as [|x [|y m]].
  - apply (f_equal length) in Hm. discriminate Hm.
  - injection Hm as <- H0 H1 H2 H3. vm_compute in H0. discriminate H0.
  - apply (f_equal length) in Hm. rewrite seal_length in Hm. cbn in Hm. lia.
Defined.
End witnesses.
