(* ===== verification/Discovery.v ===== *)
(** * Discovery: [data/src/discovery.rs]

    The bit field of known addresses, its iterator, the choice of a free
    address, and the two discovery payloads. *)

From S2P Require Import Prelude Serde PostcardRef Platform DataLink.

#[local] Open Scope ff_scope.

(** ** Constants *)

Definition ADDRESSES_PER_BYTE : Z := 8.
Definition MAX_ADDRESSES : Z := 256.
Definition MIN_PAYLOAD_SIZE : Z := MAX_ADDRESSES / ADDRESSES_PER_BYTE.
Definition MIN_PACKET_SIZE : Z :=
  Z.of_nat HEADER_SIZE + MIN_PAYLOAD_SIZE + Z.of_nat MIC_SIZE.

(** ** The iterator over known addresses *)

Module AddressesIter.

(** [i: usize], [j: u8] and the borrowed bytes. *)
Record t := { i : Z; j : Z; addresses : list Z }.

(** [Iterator::next]: the item, and the iterator afterwards. *)
Definition next (self : t) : outcome (option bool * t) :=
  if decide (i self < MIN_PAYLOAD_SIZE) then
    byte ← index (addresses self) (i self);
    let item := bool_decide (byte .& j self <> 0) in
    let j' := shl 8 (j self) 1 in
    let self' :=
      if decide (j' = 0)
      then {| i := i self + 1; j := 1; addresses := addresses self |}
      else {| i := i self; j := j'; addresses := addresses self |} in
    mret (Some item, self')
  else mret (None, self).

(** A [for (n, item) in iter.enumerate()] loop that threads a state, for at
    most [fuel] calls of [next]; [n] is the number of the next item. *)
Fixpoint for_each {S} (fuel : nat) (body : Z -> bool -> S -> outcome S)
    (n : Z) (self : t) (s : S) : outcome S :=
  match fuel with
  | O => Panic
  | Datatypes.S fuel =>
      '(item, self) ← next self;
      match item with
      | None => mret s
      | Some x => s ← body n x s; for_each fuel body (n + 1) self s
      end
  end.

End AddressesIter.

(** The fuel of a loop over all addresses: one call of [next] for each, and
    one that finds the end. *)
Definition ITER_FUEL : nat := S (Z.to_nat MAX_ADDRESSES).

(** ** The identify payload *)

Module Identify.

Record t := { addresses : list Z }.

(** [[u8; MIN_PAYLOAD_SIZE]]. *)
Definition typed (self : t) : Prop :=
  length (addresses self) = Z.to_nat MIN_PAYLOAD_SIZE /\ bytes (addresses self).

(** [Identify::is_address_set]. *)
Definition is_address_set (self : t) (address : Z) : outcome bool :=
  if decide (address < MAX_ADDRESSES) then
    byte ← index (addresses self) (address / ADDRESSES_PER_BYTE);
    mret (bool_decide (byte .& shl 8 1 (address mod ADDRESSES_PER_BYTE) <> 0))
  else Panic.

(** [Identify::iter]. *)
Definition iter (self : t) : AddressesIter.t :=
  {| AddressesIter.i := 0; AddressesIter.j := 1;
     AddressesIter.addresses := addresses self |}.

(** [Identify::set_address]. *)
Definition set_address (self : t) (address : Z) : outcome t :=
  if decide (address < MAX_ADDRESSES) then
    byte ← index (addresses self) (address / 8);
    bs ← index_set (addresses self) (address / 8)
           (byte .| shl 8 1 (address mod ADDRESSES_PER_BYTE));
    mret {| addresses := bs |}
  else Panic.

#[global] Instance identify_serialize `{SerdeFormat} : Serialize t := fun self =>
  serialize_struct 1 (serialize_array (addresses self)).
#[global] Instance identify_deserialize `{SerdeFormat} : Deserialize t :=
  deserialize_struct 1 (
    addresses ← deserialize_array (Z.to_nat MIN_PAYLOAD_SIZE);
    mret {| addresses := addresses |} : reader t).

End Identify.

(** ** The reply of a server *)

Module Identified.

Record t := { server_address : Z; server_ports : Z }.

#[global] Instance identified_eq_dec : EqDecision t.
Proof. solve_decision. Defined.

(** The loop of [with_random_address]: the addresses that are not taken are
    collected at the front of [spare_addresses]; [j] counts them. *)
Definition collect_spare (i : Z) (taken : bool) (s : list Z * Z) : outcome (list Z * Z) :=
  let '(spare_addresses, j) := s in
  if negb taken then
    spare_addresses ← index_set spare_addresses j i;
    mret (spare_addresses, j + 1)
  else mret (spare_addresses, j).

(** [Identified::with_random_address]. *)
Definition with_random_address `{RngCore rng} (iter : AddressesIter.t) (g : rng)
    (server_ports : Z) : outcome (option t * rng) :=
  let spare_addresses := replicate (Z.to_nat MAX_ADDRESSES) 0 in
  '(spare_addresses, j) ←
    AddressesIter.for_each ITER_FUEL collect_spare 0 iter (spare_addresses, 0);
  if decide (j > 0) then
    let '(r, g) := next_u32 g in
    let j := r mod as_uint 32 j in
    a ← index spare_addresses j;
    mret (Some {| server_address := as_uint 8 a; server_ports := server_ports |}, g)
  else mret (None, g).

#[global] Instance identified_serialize `{SerdeFormat} : Serialize t := fun self =>
  serialize_struct 2 (fun s =>
    s ← serialize_u8 (server_address self) s;
    serialize_u8 (server_ports self) s).
#[global] Instance identified_deserialize `{SerdeFormat} : Deserialize t :=
  deserialize_struct 2 (
    server_address ← deserialize_u8;
    server_ports ← deserialize_u8;
    mret {| server_address := server_address; server_ports := server_ports |}
    : reader t).

End Identified.

(** ** The bit field as a set of addresses *)

Lemma uint_8_cases a : uint 8 a <-> 0 <= a < 256.
Proof. done. Qed.

(** Whether the bit of an address is set. *)
Definition address_bit (id : Identify.t) (a : Z) : bool :=
  Z.testbit (Identify.addresses id !!! Z.to_nat (a / 8)) (a mod 8).

(** The set that the bit field represents. *)
Definition known (id : Identify.t) : gset Z :=
  list_to_set (filter (fun a => address_bit id a = true) (seqZ 0 256)).

Lemma elem_of_known id a : a ∈ known id <-> 0 <= a < 256 /\ address_bit id a = true.
Proof.
  unfold known. rewrite elem_of_list_to_set, list_elem_of_filter, elem_of_seqZ.
  split; [intros [? ?]|intros [? ?]]; split; (done || lia).
Qed.

Lemma shl_1 k : 0 <= k < 8 -> shl 8 1 k = 2 ^ k.
Proof.
  intros Hk. unfold shl, as_uint. rewrite Z.shiftl_1_l. apply Z.mod_small.
  split; [apply Z.pow_nonneg; lia|apply Z.pow_lt_mono_r; lia].
Qed.

Lemma land_pow2_nonzero b k :
  0 <= k -> bool_decide (b .& 2 ^ k <> 0) = Z.testbit b k.
Proof.
  intros Hk. destruct (Z.testbit b k) eqn:Hb.
  - apply bool_decide_eq_true. intros H0.
    assert (Z.testbit (b .& 2 ^ k) k = true) as Ht
      by (rewrite Z.land_spec, Hb, Z.pow2_bits_true by lia; done).
    rewrite H0, Z.bits_0 in Ht. done.
  - apply bool_decide_eq_false. intros H0. apply H0. apply Z.bits_inj'. intros i Hi.
    rewrite Z.land_spec, Z.bits_0, Z.pow2_bits_eqb by lia.
    destruct (Z.eqb_spec k i) as [<-|]; [by rewrite Hb|apply andb_false_r].
Qed.

(** ** Operations on single bits *)

Section bits.

Variable id : Identify.t.
Hypothesis Hid : Identify.typed id.

Lemma address_byte a : 0 <= a < 256 -> 0 <= a / 8 < Z.of_nat (length (Identify.addresses id)).
Proof.
  intros Ha. destruct Hid as [-> _].
  change (Z.of_nat (Z.to_nat MIN_PAYLOAD_SIZE)) with 32.
  split; [apply Z.div_pos; lia|apply Z.div_lt_upper_bound; lia].
Qed.

Lemma byte_uint k : 0 <= k < 32 -> uint 8 (Identify.addresses id !!! Z.to_nat k).
Proof.
  intros Hk. destruct Hid as [Hl Hb].
  apply Forall_lookup_total_1; [done|]. rewrite Hl. change (Z.to_nat MIN_PAYLOAD_SIZE) with 32%nat. lia.
Qed.

Lemma is_address_set_bit a :
  0 <= a < 256 -> Identify.is_address_set id a = Done (address_bit id a).
Proof.
  intros Ha. unfold Identify.is_address_set, ADDRESSES_PER_BYTE, MAX_ADDRESSES.
  rewrite decide_True, index_total by (lia || by apply address_byte).
  cbn [mbind outcome_bind]. pose proof (Z.mod_pos_bound a 8).
  rewrite shl_1, land_pow2_nonzero by lia. done.
Qed.

Lemma set_address_spec a :
  0 <= a < 256 ->
  exists id', Identify.set_address id a = Done id' /\ Identify.typed id' /\
    forall b, 0 <= b < 256 ->
      address_bit id' b = bool_decide (b = a) || address_bit id b.
Proof.
  intros Ha. unfold Identify.set_address, ADDRESSES_PER_BYTE, MAX_ADDRESSES.
  pose proof (address_byte a Ha) as Hbyte. pose proof (Z.mod_pos_bound a 8) as Hmod.
  rewrite decide_True, index_total by (done || lia). cbn [mbind outcome_bind].
  rewrite index_set_total by done. cbn [mbind outcome_bind mret outcome_ret].
  rewrite shl_1 by lia. eexists. split; [done|].
  set (byte := Identify.addresses id !!! Z.to_nat (a / 8)).
  assert (uint 8 (byte .| 2 ^ (a mod 8))) as Hnew.
  { apply uint_lor; [lia|apply byte_uint; destruct Hid as [Hl _]|].
    - rewrite Hl in Hbyte. apply Hbyte.
    - rewrite <- shl_1 by lia. by apply as_uint_range. }
  split; [split; cbn [Identify.addresses]|].
  - rewrite length_insert. apply Hid.
  - apply Forall_insert; [apply Hid|done].
  - intros b Hb. unfold address_bit. cbn [Identify.addresses].
    pose proof (address_byte b Hb) as Hbyte'. pose proof (Z.mod_pos_bound b 8).
    destruct (decide (a / 8 = b / 8)) as [Heq|Hne].
    + rewrite Heq, list_lookup_total_insert_eq by lia.
      rewrite Z.lor_spec, Z.pow2_bits_eqb, orb_comm by lia.
      unfold byte. rewrite Heq. f_equal.
      pose proof (Z.div_mod a 8). pose proof (Z.div_mod b 8).
      destruct (Z.eqb_spec (a mod 8) (b mod 8)); case_bool_decide; (done || lia).
    + rewrite list_lookup_total_insert_ne by lia.
      rewrite bool_decide_eq_false_2; [done|]. by intros ->.
Qed.

End bits.

(** ** Loops over the iterator *)

(** The iterator that has returned the items for the addresses below [n]. *)
Definition iter_at (id : Identify.t) (n : Z) : AddressesIter.t :=
  {| AddressesIter.i := n / 8; AddressesIter.j := 2 ^ (n mod 8);
     AddressesIter.addresses := Identify.addresses id |}.

(** The loop body, run on each of the given addresses in order. *)
Fixpoint visit {S} (body : Z -> bool -> S -> outcome S) (f : Z -> bool)
    (l : list Z) (s : S) : outcome S :=
  match l with
  | [] => mret s
  | n :: l => s ← body n (f n) s; visit body f l s
  end.

Lemma shl_pow2 k : 0 <= k < 8 -> shl 8 (2 ^ k) 1 = if decide (k = 7) then 0 else 2 ^ (k + 1).
Proof.
  intros Hk. unfold shl, as_uint. rewrite Z.shiftl_mul_pow2 by lia.
  rewrite <- Z.pow_add_r by lia. case_decide as H7; [by subst|].
  apply Z.mod_small. split; [apply Z.pow_nonneg; lia|apply Z.pow_lt_mono_r; lia].
Qed.

Section iteration.

Variable id : Identify.t.
Hypothesis Hid : Identify.typed id.

Lemma next_at n :
  0 <= n < 256 ->
  AddressesIter.next (iter_at id n) = Done (Some (address_bit id n), iter_at id (n + 1)).
Proof.
  intros Hn. pose proof (address_byte id Hid n Hn) as Hbyte.
  pose proof (Z.mod_pos_bound n 8) as Hmod. pose proof (Z.div_mod n 8) as Hdiv.
  unfold AddressesIter.next, iter_at.
  cbn [AddressesIter.i AddressesIter.j AddressesIter.addresses].
  rewrite decide_True by (change MIN_PAYLOAD_SIZE with 32; lia).
  rewrite index_total by done. cbn [mbind outcome_bind mret outcome_ret].
  rewrite land_pow2_nonzero, shl_pow2 by lia. do 2 f_equal.
  pose proof (Z.pow_pos_nonneg 2 (n mod 8 + 1)).
  destruct (decide (n mod 8 = 7)) as [H7|H7].
  - rewrite decide_True by done.
    replace ((n + 1) / 8) with (n / 8 + 1) by divmod.
    by replace ((n + 1) mod 8) with 0 by divmod.
  - rewrite decide_False by lia.
    replace ((n + 1) / 8) with (n / 8) by divmod.
    by replace ((n + 1) mod 8) with (n mod 8 + 1) by divmod.
Qed.

Lemma next_at_end : AddressesIter.next (iter_at id 256) = Done (None, iter_at id 256).
Proof. done. Qed.

Lemma for_each_at {S} (body : Z -> bool -> S -> outcome S) m n s :
  0 <= n -> n + Z.of_nat m = 256 ->
  AddressesIter.for_each (Datatypes.S m) body n (iter_at id n) s =
  visit body (address_bit id) (seqZ n (Z.of_nat m)) s.
Proof.
  revert n s. induction m as [|m IH]; intros n s Hn Hm.
  - replace n with 256 by lia. done.
  - cbn [AddressesIter.for_each]. rewrite next_at by lia.
    cbn [mbind outcome_bind]. rewrite seqZ_cons by lia. cbn [visit mbind outcome_bind].
    destruct (body n (address_bit id n) s) as [s'|]; [|done]. cbn [mbind outcome_bind].
    specialize (IH (n + 1) s'). cbn [AddressesIter.for_each] in IH |- *.
    rewrite IH by lia. f_equal. f_equal; lia.
Qed.

Lemma for_each_iter {S} (body : Z -> bool -> S -> outcome S) s :
  AddressesIter.for_each ITER_FUEL body 0 (Identify.iter id) s =
  visit body (address_bit id) (seqZ 0 256) s.
Proof. exact (for_each_at body 256 0 s ltac:(lia) ltac:(lia)). Qed.

End iteration.

Lemma visit_ext {S} (body : Z -> bool -> S -> outcome S) f g l s :
  (forall n, n ∈ l -> f n = g n) -> visit body f l s = visit body g l s.
Proof.
  revert s. induction l as [|n l IH]; intros s Hfg; [done|]. cbn [visit].
  rewrite (Hfg n) by apply list_elem_of_here.
  destruct (body n (g n) s); [|done]. cbn [mbind outcome_bind].
  apply IH. intros m Hm. apply Hfg. by apply list_elem_of_further.
Qed.

(** ** The choice of a free address *)

(** The addresses that are not known, in increasing order. *)
Definition free_addresses (id : Identify.t) : list Z :=
  filter (fun a => address_bit id a = false) (seqZ 0 256).

Lemma elem_of_free id a : a ∈ free_addresses id <-> 0 <= a < 256 /\ a ∉ known id.
Proof.
  unfold free_addresses. rewrite list_elem_of_filter, elem_of_seqZ, elem_of_known.
  destruct (address_bit id a); intuition (done || lia).
Qed.

Lemma free_addresses_length id : (length (free_addresses id) <= 256)%nat.
Proof.
  unfold free_addresses. etrans; [apply length_filter|]. by rewrite length_seqZ.
Qed.

Lemma collect_spare_visit f l spare j :
  0 <= j ->
  let free := filter (fun a => f a = false) l in
  j + Z.of_nat (length free) <= Z.of_nat (length spare) ->
  exists spare',
    visit Identified.collect_spare f l (spare, j) =
      Done (spare', j + Z.of_nat (length free)) /\
    length spare' = length spare /\
    take (Z.to_nat j + length free) spare' = take (Z.to_nat j) spare ++ free.
Proof.
  revert spare j. induction l as [|a l IH]; intros spare j Hj free Hlen.
  - exists spare. cbn. split_and!; [do 2 f_equal; lia|done|].
    by rewrite Nat.add_0_r, app_nil_r.
  - cbn [visit Identified.collect_spare]. subst free. rewrite filter_cons in Hlen |- *.
    destruct (f a) eqn:Hf; cbn [negb]; cbn [mbind outcome_bind mret outcome_ret].
    + rewrite decide_False in Hlen |- * by done. by apply IH.
    + rewrite decide_True in Hlen |- * by done. cbn [length] in Hlen |- *.
      rewrite index_set_total by lia. cbn [mbind outcome_bind mret outcome_ret].
      destruct (IH (<[Z.to_nat j := a]> spare) (j + 1)) as (spare' & -> & Hl & Ht);
        [lia|rewrite length_insert; lia|].
      exists spare'. rewrite Hl, length_insert. split_and!; [do 2 f_equal; lia|done|].
      replace (Z.to_nat j + S _)%nat
        with (Z.to_nat (j + 1) + length (filter (fun a => f a = false) l))%nat by lia.
      rewrite Ht. replace (Z.to_nat (j + 1)) with (S (Z.to_nat j)) by lia.
      rewrite (take_S_r _ _ a) by (apply list_lookup_insert_eq; lia).
      rewrite take_insert_ge by lia. by rewrite <- app_assoc.
Qed.

(** What [with_random_address] returns: an element of the free addresses,
    picked by the generator. *)
Lemma with_random_address_spec `{RngCoreLaws rng} id (g : rng) ports :
  Identify.typed id ->
  Identified.with_random_address (Identify.iter id) g ports =
  Done (if decide (free_addresses id = []) then (None, g)
        else (Some {| Identified.server_address :=
                        free_addresses id !!! Z.to_nat
                          (fst (next_u32 g) mod Z.of_nat (length (free_addresses id)));
                      Identified.server_ports := ports |},
              snd (next_u32 g))).
Proof.
  intros Hid. unfold Identified.with_random_address.
  rewrite for_each_iter by done.
  pose proof (free_addresses_length id) as Hle.
  destruct (collect_spare_visit (address_bit id) (seqZ 0 256)
              (replicate (Z.to_nat MAX_ADDRESSES) 0) 0) as (spare & -> & Hl & Ht).
  - lia.
  - rewrite length_replicate. unfold free_addresses in Hle.
    change (Z.to_nat MAX_ADDRESSES) with 256%nat. lia.
  - fold (free_addresses id) in Ht |- *.
    change (take (length (free_addresses id)) spare = free_addresses id) in Ht.
    cbn [mbind outcome_bind]. rewrite Z.add_0_l.
    case_decide as Hj; case_decide as Hf; [by rewrite Hf in Hj| | |].
    + destruct (next_u32 g) as [r g'] eqn:Hg. cbn [fst snd].
      pose proof (next_u32_range g) as [Hr0 _]. rewrite Hg in Hr0. cbn in Hr0.
      rewrite as_uint_small by (unfold uint; lia).
      pose proof (Z.mod_pos_bound r (Z.of_nat (length (free_addresses id)))) as Hm.
      set (k := r mod _) in Hm |- *.
      rewrite index_total.
      2: { rewrite Hl, length_replicate. change (Z.to_nat MAX_ADDRESSES) with 256%nat. lia. }
      cbn [mbind outcome_bind mret outcome_ret].
      assert (spare !!! Z.to_nat k = free_addresses id !!! Z.to_nat k) as ->.
      { transitivity (take (length (free_addresses id)) spare !!! Z.to_nat k);
          [|by rewrite Ht].
        by rewrite !list_lookup_total_alt, lookup_take_lt by lia. }
      rewrite as_uint_small; [done|].
      apply uint_8_cases. apply (elem_of_free id).
      apply list_elem_of_lookup. exists (Z.to_nat k).
      apply list_lookup_lookup_total_lt. lia.
    + done.
    + destruct (free_addresses id); [done|]. cbn [length] in Hj. lia.
Qed.

(** ** The set of known addresses *)

Lemma set_address_known id a :
  Identify.typed id -> uint 8 a ->
  exists id', Identify.set_address id a = Done id' /\ Identify.typed id' /\
              known id' = {[a]} ∪ known id.
Proof.
  intros Hid Ha. destruct (set_address_spec id Hid a Ha) as (id' & Hset & Hid' & Hbits).
  exists id'. refine (conj Hset (conj Hid' _)). apply set_eq. intros b.
  rewrite elem_of_union, elem_of_singleton, !elem_of_known.
  destruct (decide (0 <= b < 256)) as [Hb|Hb].
  - rewrite Hbits, orb_true_iff, bool_decide_eq_true by done. tauto.
  - unfold uint in Ha. cbn in Ha. intuition lia.
Qed.

Lemma is_address_set_elem id a :
  Identify.typed id -> uint 8 a ->
  Identify.is_address_set id a = Done (bool_decide (a ∈ known id)).
Proof.
  intros Hid Ha. rewrite is_address_set_bit by done. f_equal.
  pose proof (elem_of_known id a) as Hk. unfold uint in Ha. cbn in Ha.
  destruct (address_bit id a); symmetry;
    [apply bool_decide_eq_true|apply bool_decide_eq_false]; intuition congruence.
Qed.

Lemma free_plus_known id : (length (free_addresses id) + size (known id))%nat = 256%nat.
Proof.
  unfold known. rewrite size_list_to_set by apply NoDup_filter, NoDup_seqZ.
  pose proof (length_seqZ 0 256) as Hs. change (Z.to_nat 256) with 256%nat in Hs.
  rewrite <- Hs. unfold free_addresses. clear. induction (seqZ 0 256) as [|n l IH]; [done|].
  rewrite !filter_cons. cbn [length].
  destruct (address_bit id n); repeat case_decide; try done; cbn [length]; lia.
Qed.

(** The address that a generator picks. *)
Definition choice `{RngCore rng} (id : Identify.t) (g : rng) : Z :=
  free_addresses id !!! Z.to_nat (fst (next_u32 g) mod Z.of_nat (length (free_addresses id))).

Lemma with_random_address_free `{RngCoreLaws rng} id (g : rng) ports :
  Identify.typed id ->
  exists res g',
    Identified.with_random_address (Identify.iter id) g ports = Done (res, g') /\
    match res with
    | Some r => uint 8 (Identified.server_address r) /\
                (Identified.server_address r ∉ known id) /\
                Identified.server_ports r = ports /\
                Identified.server_address r = choice id g
    | None => forall a, uint 8 a -> a ∈ known id
    end.
Proof.
  intros Hid. rewrite with_random_address_spec by done.
  case_decide as Hf; eexists _, _; (split; [done|]).
  - intros a Ha. destruct (decide (a ∈ known id)) as [|Hk]; [done|].
    exfalso. assert (a ∈ free_addresses id) as Hin by by apply elem_of_free.
    rewrite Hf in Hin. by apply not_elem_of_nil in Hin.
  - cbn [Identified.server_address Identified.server_ports].
    unfold choice. set (k := fst _ mod _).
    assert (free_addresses id !!! Z.to_nat k ∈ free_addresses id) as Hin.
    { apply list_elem_of_lookup. exists (Z.to_nat k).
      apply list_lookup_lookup_total_lt.
      assert (length (free_addresses id) <> 0%nat) by (by destruct (free_addresses id)).
      pose proof (Z.mod_pos_bound (fst (next_u32 g)) (Z.of_nat (length (free_addresses id)))).
      lia. }
    apply elem_of_free in Hin as [Hr Hk]. by split_and!.
Qed.

(** ** Payloads on the wire *)

Section wire.

Context {F : SerdeFormat} {P : Postcard} {L : PostcardLaws}.

#[export] Program Instance identify_encoding : Encoding Identify.t := {|
  wire_ok id := length (Identify.addresses id) = Z.to_nat MIN_PAYLOAD_SIZE;
  encode := Identify.addresses;
|}.
Next Obligation.
  intros id s _. open_instance; unfold Identify.identify_serialize. wire_write.
Qed.

#[global] Instance identify_wire : Wire Identify.t.
Proof.
  intros [bs] r Hbs. open_instance; unfold Identify.identify_deserialize.
  cbn [wire_ok identify_encoding Identify.addresses] in Hbs.
  cbn [encode identify_encoding Identify.addresses]. rewrite <- Hbs. wire_read.
Qed.

#[export] Program Instance identified_encoding : Encoding Identified.t := {|
  wire_ok _ := True;
  encode r := [Identified.server_address r; Identified.server_ports r];
|}.
Next Obligation.
  intros r s _. open_instance; unfold Identified.identified_serialize.
  change [Identified.server_address r; Identified.server_ports r]
    with ([Identified.server_address r] ++ [Identified.server_ports r]). wire_write.
Qed.

#[global] Instance identified_wire : Wire Identified.t.
Proof.
  intros [a p] r _. open_instance; unfold Identified.identified_deserialize. wire_read.
Qed.

(** A received identify payload has the length of the bit field. *)
Lemma from_bytes_identify_inv bs id :
  from_bytes (deserialize (A:=Identify.t)) bs = Ok id -> bytes bs -> Identify.typed id.
Proof.
  rewrite from_bytes_run. destruct (deserialize (of_bytes bs)) as [res d] eqn:Hd.
  intros Hres Hbs. cbn in Hres. subst res. revert Hd.
  change (deserialize (of_bytes bs)) with (Identify.identify_deserialize (of_bytes bs)).
  unfold Identify.identify_deserialize. rewrite deserialize_struct_read.
  intros Hd. apply reader_bind_inv in Hd as (xs & d' & Hxs & Hd).
  unfold mret, reader_ret in Hd. injection Hd as <- _.
  apply deserialize_array_inv in Hxs as (Hl & r & ->).
  apply Forall_app in Hbs as [Hbs _]. by split.
Qed.

(** A payload of at most [MIN_PAYLOAD_SIZE] bytes leaves a byte of a packet
    unused. *)
Lemma frame_size_min n : (n <= 32)%nat -> frame_size n = (n + 9)%nat.
Proof.
  intros Hn. unfold frame_size, MIC_SIZE. rewrite varint_small by lia. cbn [length]. lia.
Qed.

(** A payload that fits a packet is received under its header, whatever the
    packet held before. *)
Lemma packet_roundtrip {V : HeaplessVec} {VL : HeaplessVecLaws} {A : Aead} {AL : AeadLaws}
    c h payload filter buf :
  header_typed h -> version h = 0 -> server_port h < 8 -> (length payload <= 32)%nat ->
  filter h = true -> Z.of_nat (length buf) = MIN_PACKET_SIZE ->
  exists buf' v,
    to_datagram c h payload buf = Done buf' /\
    from_datagram buf' filter c = Ok (h, v) /\ as_slice v = payload /\
    length buf' = length buf.
Proof.
  change MIN_PACKET_SIZE with 42. intros Hh Hv Hp Hl Hf Hbuf. eexists.
  destruct (from_datagram_sealed c (Header.to_packed h) payload
              (drop (frame_size (length payload)) buf) filter h)
    as (v & Hpay & Hd); [..|exists v].
  - unfold uint. lia.
  - rewrite parse_to_packed_gen by done. destruct Hh as (_ & _ & [? _] & _).
    rewrite land_7_small by lia. rewrite <- Hv. by destruct h.
  - done.
  - pose proof (frame_size_min (length payload) Hl) as Hs.
    split; [|split; [exact Hd|split; [done|]]].
    + rewrite to_datagram_done; [by rewrite sealed_frame_size|unfold uint; lia|lia].
    + rewrite length_app, length_drop, sealed_frame_size. lia.
Qed.

End wire.

(** ** Properties *)

Section properties.

(** Setting an address never panics, keeps the bit field well formed, and
    adds exactly this address to the set of known addresses. *)
Theorem set_address_adds id a :
  Identify.typed id -> uint 8 a ->
  exists id', Identify.set_address id a = Done id' /\ Identify.typed id' /\
              known id' = {[a]} ∪ known id.
Proof. apply set_address_known. Qed.

(** An address is reported as set exactly when it is known; the test
    never panics. *)
Theorem is_address_set_known id a :
  Identify.typed id -> uint 8 a ->
  Identify.is_address_set id a = Done (bool_decide (a ∈ known id)).
Proof. apply is_address_set_elem. Qed.

(** A loop over the iterator ends, and runs its body once for each of the
    256 addresses in increasing order, with true for the known ones. *)
Theorem iter_visits_all {S} id (body : Z -> bool -> S -> outcome S) s :
  Identify.typed id ->
  AddressesIter.for_each ITER_FUEL body 0 (Identify.iter id) s =
  visit body (fun a => bool_decide (a ∈ known id)) (seqZ 0 256) s.
Proof.
  intros Hid. rewrite for_each_iter by done. apply visit_ext. intros a Ha.
  apply elem_of_seqZ in Ha. pose proof (elem_of_known id a) as Hk.
  destruct (address_bit id a); symmetry;
    [apply bool_decide_eq_true|apply bool_decide_eq_false]; intuition (congruence || lia).
Qed.

(** C20: [with_random_address] never panics; it returns an address that is not
    known, with the ports it was given, and returns none only when all 256
    addresses are known. *)
Theorem with_random_address_fresh `{RngCoreLaws rng} id (g : rng) ports :
  Identify.typed id ->
  exists res g',
    Identified.with_random_address (Identify.iter id) g ports = Done (res, g') /\
    match res with
    | Some r => uint 8 (Identified.server_address r) /\
                (Identified.server_address r ∉ known id) /\
                Identified.server_ports r = ports
    | None => forall a, uint 8 a -> a ∈ known id
    end.
Proof.
  intros Hid. destruct (with_random_address_free id g ports Hid) as (res & g' & Heq & Hres).
  exists res, g'. split; [done|]. destruct res; [by destruct Hres as (? & ? & ? & _)|done].
Qed.

(** The choice is spread over all free addresses: there are 256 less the
    number of known addresses of them, and the one at position [i] (in
    increasing order) is returned exactly for the random numbers that are [i]
    modulo their number. *)
Theorem with_random_address_spread `{RngCoreLaws rng} id (g : rng) ports i a :
  Identify.typed id -> free_addresses id !! i = Some a ->
  (length (free_addresses id) + size (known id))%nat = 256%nat /\
  (fst (next_u32 g) mod Z.of_nat (length (free_addresses id)) = Z.of_nat i <->
   Identified.with_random_address (Identify.iter id) g ports =
   Done (Some {| Identified.server_address := a; Identified.server_ports := ports |},
         snd (next_u32 g))).
Proof.
  intros Hid Hi. pose proof (lookup_lt_Some _ _ _ Hi) as Hlt. split.
  - apply free_plus_known.
  - rewrite with_random_address_spec by done.
    rewrite decide_False by (intros Hn; by rewrite Hn in Hi).
    pose proof (Z.mod_pos_bound (fst (next_u32 g)) (Z.of_nat (length (free_addresses id)))) as Hm.
    set (k := _ mod _) in Hm |- *. split.
    + intros ->. rewrite Nat2Z.id. by rewrite (list_lookup_total_correct _ _ _ Hi).
    + intros Heq%done_inj. injection Heq as Ha.
      assert (Z.to_nat k = i) as <-; [|lia].
      apply (NoDup_lookup (free_addresses id) _ _ a).
      * apply NoDup_filter, NoDup_seqZ.
      * rewrite <- Ha. apply list_lookup_lookup_total_lt. lia.
      * done.
Qed.

End properties.

Section wire_properties.

Context {F : SerdeFormat} {P : Postcard} {L : PostcardLaws}.

(** Both discovery payloads fit [MIN_PAYLOAD_SIZE] and are read back as
    they were; the identify payload fills it. *)
Theorem discovery_payloads_roundtrip id r :
  Identify.typed id ->
  (exists bs, to_vec (Z.to_nat MIN_PAYLOAD_SIZE) (serialize id) = Ok bs /\
              Z.of_nat (length bs) = MIN_PAYLOAD_SIZE /\
              from_bytes deserialize bs = Ok id) /\
  (exists bs, to_vec (Z.to_nat MIN_PAYLOAD_SIZE) (serialize r) = Ok bs /\
              length bs = 2%nat /\
              from_bytes (deserialize (A:=Identified.t)) bs = Ok r).
Proof.
  intros [Hl Hb]. split; eexists; (split; [apply to_vec_encode; [done|]|split]).
  - cbn [encode identify_encoding]. by rewrite Hl.
  - cbn [encode identify_encoding]. by rewrite Hl.
  - by apply from_bytes_encode_end.
  - change (Z.to_nat MIN_PAYLOAD_SIZE) with 32%nat. cbn. lia.
  - done.
  - by apply from_bytes_encode_end.
Qed.

(** A packet of [MIN_PACKET_SIZE] bytes holds any payload of up to
    [MIN_PAYLOAD_SIZE] bytes: [to_datagram] does not panic, and at least one
    byte of the packet is not used. *)
Theorem min_packet_fits `{HeaplessVecLaws, !Aead, !AeadLaws} c h payload buf :
  Z.of_nat (length payload) <= MIN_PAYLOAD_SIZE ->
  Z.of_nat (length buf) = MIN_PACKET_SIZE ->
  exists frame, to_datagram c h payload buf = Done (frame ++ drop (length frame) buf) /\
                Z.of_nat (length frame) < MIN_PACKET_SIZE.
Proof.
  change MIN_PAYLOAD_SIZE with 32. change MIN_PACKET_SIZE with 42. intros Hp Hbuf.
  exists (encode_frame (sealed_frame c (Header.to_packed h) payload)).
  rewrite sealed_frame_size, frame_size_min by lia. split; [|lia].
  rewrite to_datagram_done; [by rewrite sealed_frame_size, frame_size_min by lia| |].
  - rewrite Hbuf. by split.
  - rewrite frame_size_min by lia. lia.
Qed.

End wire_properties.

(** ** Examples and witnesses *)

Section witnesses.

Import PostcardRef ListVec ChecksumAead ConstRng.

Definition empty_identify : Identify.t := {| Identify.addresses := replicate 32 0 |}.

Lemma empty_identify_typed : Identify.typed empty_identify.
Proof. split; [done|]. by apply Forall_replicate. Qed.

(** With no bit set, as the documentation describes a first run, the choice
    can fall on address 0, the client's own. *)
Example address_zero_can_be_chosen :
  Identified.with_random_address (Identify.iter empty_identify) 0 2 =
  Done (Some {| Identified.server_address := 0; Identified.server_ports := 2 |}, 0).
Proof. by vm_compute. Qed.

Lemma set_address_adds_witness :
  exists id', Identify.set_address empty_identify 9 = Done id' /\ Identify.typed id' /\
              known id' = {[9]} ∪ known empty_identify.
Proof. apply (set_address_adds empty_identify 9 empty_identify_typed). by split. Defined.

Lemma is_address_set_known_witness :
  Identify.is_address_set empty_identify 255 =
  Done (bool_decide (255 ∈ known empty_identify)).
Proof. apply (is_address_set_known empty_identify 255 empty_identify_typed). by split. Defined.

Lemma iter_visits_all_witness :
  AddressesIter.for_each ITER_FUEL (fun n b s => Done (s + n + Z.b2z b)) 0
    (Identify.iter empty_identify) 0 =
  visit (fun n b s => Done (s + n + Z.b2z b))
    (fun a => bool_decide (a ∈ known empty_identify)) (seqZ 0 256) 0.
Proof.
  apply (iter_visits_all empty_identify (fun n b s => Done (s + n + Z.b2z b)) 0
           empty_identify_typed).
Defined.

Lemma with_random_address_fresh_witness :
  exists res g',
    Identified.with_random_address (Identify.iter empty_identify) 300 2 = Done (res, g') /\
    match res with
    | Some r => uint 8 (Identified.server_address r) /\
                (Identified.server_address r ∉ known empty_identify) /\
                Identified.server_ports r = 2
    | None => forall a, uint 8 a -> a ∈ known empty_identify
    end.
Proof. apply (with_random_address_fresh empty_identify 300 2 empty_identify_typed). Defined.

Lemma with_random_address_spread_witness :
  (length (free_addresses empty_identify) + size (known empty_identify))%nat = 256%nat.
Proof.
  apply (with_random_address_spread empty_identify 300 2 44 44 empty_identify_typed).
  by vm_compute.
Defined.

Lemma discovery_payloads_roundtrip_witness :
  exists bs, to_vec (Z.to_nat MIN_PAYLOAD_SIZE) (serialize empty_identify) = Ok bs /\
             Z.of_nat (length bs) = MIN_PAYLOAD_SIZE /\
             from_bytes deserialize bs = Ok empty_identify.
Proof.
  apply (discovery_payloads_roundtrip empty_identify
           {| Identified.server_address := 1; Identified.server_ports := 2 |}
           empty_identify_typed).
Defined.

Lemma min_packet_fits_witness :
  exists frame,
    to_datagram example_cipher example_header (replicate 32 7) (replicate 42 0) =
      Done (frame ++ drop (length frame) (replicate 42 0)) /\
    Z.of_nat (length frame) < MIN_PACKET_SIZE.
Proof.
  apply (min_packet_fits example_cipher example_header (replicate 32 7) (replicate 42 0));
    by vm_compute.
Defined.

End witnesses.
