(* ===== verification/Update.v ===== *)
(** * Software update messages: [data/src/update.rs]

    Versions, their order, their textual form and its parser; the messages
    that announce and carry an update. *)

From Stdlib Require Import Ascii String.
From S2P Require Import Prelude Serde PostcardRef.

(** ** Strings

    A [&str] is a list of characters.  All the patterns the parser looks for
    are ASCII, so that the bytes of the UTF-8 form can be taken one by one. *)

Definition str : Type := list ascii.
Definition lit (s : string) : str := list_ascii_of_string s.

#[export] Instance ascii_eq_dec : EqDecision ascii := ascii_dec.

(** [s.starts_with(pat)]. *)
Fixpoint starts_with (pat s : str) : bool :=
  match pat, s with
  | [], _ => true
  | p :: pat, c :: s => bool_decide (p = c) && starts_with pat s
  | _ :: _, [] => false
  end.

(** [s.split_once(pat)]: around the first occurrence. *)
Fixpoint split_once (s pat : str) : option (str * str) :=
  if starts_with pat s then Some ([], drop (length pat) s)
  else match s with
       | [] => None
       | c :: s => '(l, r) ← split_once s pat; Some (c :: l, r)
       end.

(** [char::to_digit(10)]. *)
Definition to_digit (c : ascii) : option Z :=
  let n := Z.of_nat (nat_of_ascii c) in
  if decide (48 <= n <= 57) then Some (n - 48) else None.

Record ParseIntError := Build_ParseIntError {}.

(** The digits of a [u8], most significant first; an overflow is an error. *)
Fixpoint parse_digits (acc : Z) (s : str) : result ParseIntError Z :=
  match s with
  | [] => Ok acc
  | c :: s =>
      d ← ok_or (to_digit c) Build_ParseIntError;
      let acc := acc * 10 + d in
      if decide (acc < 256) then parse_digits acc s else Err Build_ParseIntError
  end.

(** [s.parse::<u8>()]: an optional plus sign and at least one digit. *)
Definition parse_u8 (s : str) : result ParseIntError Z :=
  match s with
  | [] => Err Build_ParseIntError
  | c :: s' =>
      if decide (c = "+"%char) then
        match s' with [] => Err Build_ParseIntError | _ => parse_digits 0 s' end
      else parse_digits 0 s
  end.

Definition digit (n : Z) : ascii := ascii_of_nat (Z.to_nat (48 + n)).

(** [Display] for [u8]: the decimal form without leading zeros. *)
Definition fmt_u8 (n : Z) : str :=
  if decide (n < 10) then [digit n]
  else if decide (n < 100) then [digit (n / 10); digit (n mod 10)]
  else [digit (n / 100); digit (n / 10 mod 10); digit (n mod 10)].

(** ** Versions *)

Inductive PreRelease :=
  | Alpha (ident : Z)
  | Beta (ident : Z).

#[export] Instance PreRelease_eq_dec : EqDecision PreRelease.
Proof. solve_decision. Defined.

(** [Ordering::then]. *)
Definition ordering_then (a b : comparison) : comparison :=
  match a with Eq => b | _ => a end.

Module PreRelease.

(** [Ord::cmp]; [Less], [Equal] and [Greater] are [Lt], [Eq] and [Gt]. *)
Definition cmp (self other : PreRelease) : comparison :=
  match self, other with
  | Alpha self_ident, Alpha other_ident => self_ident ?= other_ident
  | Alpha _, Beta _ => Lt
  | Beta _, Alpha _ => Gt
  | Beta self_ident, Beta other_ident => self_ident ?= other_ident
  end.

(** [PartialOrd::partial_cmp]. *)
Definition partial_cmp (self other : PreRelease) : option comparison :=
  Some (cmp self other).

End PreRelease.

Record Version := {
  major : Z;
  minor : Z;
  patch : Z;
  pre : option PreRelease;
}.

#[export] Instance Version_eq_dec : EqDecision Version.
Proof. solve_decision. Defined.

Record ParseVersionErr := Build_ParseVersionErr {}.

Module Version.

(** [Display::fmt]: what is written to the formatter. *)
Definition fmt (self : Version) : str :=
  fmt_u8 (major self) ++ lit "." ++ fmt_u8 (minor self) ++ lit "." ++ fmt_u8 (patch self) ++
  match pre self with
  | Some (Alpha ident) => lit "-alpha." ++ fmt_u8 ident
  | Some (Beta ident) => lit "-beta." ++ fmt_u8 ident
  | None => []
  end.

(** [FromStr::from_str]. *)
Definition from_str (s : str) : result ParseVersionErr Version :=
  '(l, r) ← ok_or (split_once s (lit ".")) Build_ParseVersionErr;
  major ← map_err (fun _ => Build_ParseVersionErr) (parse_u8 l);
  '(l, r) ← ok_or (split_once r (lit ".")) Build_ParseVersionErr;
  minor ← map_err (fun _ => Build_ParseVersionErr) (parse_u8 l);
  let r := match split_once r (lit "+") with
           | Some (l, _) => l
           | None => r
           end in
  let '(l, r) := match split_once r (lit "-") with
                 | Some (l, r) => (l, r)
                 | None => (r, lit "")
                 end in
  patch ← map_err (fun _ => Build_ParseVersionErr) (parse_u8 l);
  pre ← match split_once r (lit "alpha.") with
        | Some (_, r) =>
            ident ← map_err (fun _ => Build_ParseVersionErr) (parse_u8 r);
            mret (Some (Alpha ident))
        | None =>
            match split_once r (lit "beta.") with
            | Some (_, r) =>
                ident ← map_err (fun _ => Build_ParseVersionErr) (parse_u8 r);
                mret (Some (Beta ident))
            | None => mret None
            end
        end;
  mret {| major := major; minor := minor; patch := patch; pre := pre |}.

(** [Ord::cmp]. *)
Definition cmp (self other : Version) : comparison :=
  ordering_then
    (ordering_then
       (ordering_then (major self ?= major other) (minor self ?= minor other))
       (patch self ?= patch other))
    match pre self, pre other with
    | None, None => Eq
    | None, Some _ => Gt
    | Some _, None => Lt
    | Some self_pre, Some other_pre => PreRelease.cmp self_pre other_pre
    end.

(** [PartialOrd::partial_cmp], and the [>] and [<] it gives. *)
Definition partial_cmp (self other : Version) : option comparison :=
  Some (cmp self other).
Definition gt (self other : Version) : bool :=
  bool_decide (partial_cmp self other = Some Gt).
Definition lt (self other : Version) : bool :=
  bool_decide (partial_cmp self other = Some Lt).

End Version.

(** ** Update messages *)

(** [UpdateKey([u8; 16])]. *)
Record UpdateKey := { key_bytes : list Z }.

Record PrepareForUpdate := {
  version : Version;
  server_ports : Z;
  update_key : UpdateKey;
  update_byte_len : Z;
  signed : bool;
}.

(** [Update<N>]: the contents of the vector, at most [N] bytes. *)
Record Update := {
  byte_offset : Z;
  update_bytes : list Z;
}.

Definition UPDATE_BYTES_OVERHEAD : Z := 4 + 1.

Section serialisation.

Context {F : SerdeFormat}.

#[export] Instance PreRelease_serialize : Serialize PreRelease := fun p =>
  match p with
  | Alpha ident => serialize_variant 0 (serialize_u8 ident)
  | Beta ident => serialize_variant 1 (serialize_u8 ident)
  end.
#[export] Instance PreRelease_deserialize : Deserialize PreRelease :=
  variant ← deserialize_variant;
  match variant with
  | 0 => ident ← deserialize_u8; mret (Alpha ident)
  | 1 => ident ← deserialize_u8; mret (Beta ident)
  | _ => reader_fail de_error_custom
  end.

#[export] Instance Version_serialize : Serialize Version := fun v =>
  serialize_struct 4 (fun s =>
    s ← serialize_u8 (major v) s;
    s ← serialize_u8 (minor v) s;
    s ← serialize_u8 (patch v) s;
    serialize_option serialize (pre v) s).
#[export] Instance Version_deserialize : Deserialize Version :=
  deserialize_struct 4 (
    major ← deserialize_u8;
    minor ← deserialize_u8;
    patch ← deserialize_u8;
    pre ← deserialize_option deserialize;
    mret {| major := major; minor := minor; patch := patch; pre := pre |}
    : reader Version).

#[export] Instance UpdateKey_serialize : Serialize UpdateKey := fun k =>
  serialize_struct 1 (serialize_array (key_bytes k)).
#[export] Instance UpdateKey_deserialize : Deserialize UpdateKey :=
  deserialize_struct 1 (
    bs ← deserialize_array 16; mret {| key_bytes := bs |} : reader UpdateKey).

#[export] Instance PrepareForUpdate_serialize : Serialize PrepareForUpdate := fun p =>
  serialize_struct 5 (fun s =>
    s ← serialize (version p) s;
    s ← serialize_u8 (server_ports p) s;
    s ← serialize (update_key p) s;
    s ← serialize_u32 (update_byte_len p) s;
    serialize_bool (signed p) s).
#[export] Instance PrepareForUpdate_deserialize : Deserialize PrepareForUpdate :=
  deserialize_struct 5 (
    version ← deserialize;
    server_ports ← deserialize_u8;
    update_key ← deserialize;
    update_byte_len ← deserialize_u32;
    signed ← deserialize_bool;
    mret {| version := version; server_ports := server_ports; update_key := update_key;
            update_byte_len := update_byte_len; signed := signed |}
    : reader PrepareForUpdate).

#[export] Instance Update_serialize : Serialize Update := fun u =>
  serialize_struct 2 (fun s =>
    s ← serialize_u32 (byte_offset u) s;
    serialize_slice (update_bytes u) s).
(** The [N] of the type is the capacity of the vector read. *)
Definition Update_deserialize (N : nat) : reader Update :=
  deserialize_struct 2 (
    byte_offset ← deserialize_u32;
    bytes ← deserialize_vec N;
    mret {| byte_offset := byte_offset; update_bytes := bytes |} : reader Update).

End serialisation.

(** ** Splitting and numbers *)

Lemma starts_with_not_head p pat c s : p <> c -> starts_with (p :: pat) (c :: s) = false.
Proof. intros Hp. cbn. by rewrite bool_decide_eq_false_2. Qed.

Lemma starts_with_self pat s : starts_with pat (pat ++ s) = true.
Proof.
  induction pat as [|p pat IH]; [by destruct s|]. cbn.
  by rewrite bool_decide_eq_true_2, IH.
Qed.

(** A prefix without the first character of the pattern is skipped. *)
Lemma split_once_skip p pat l s :
  hd_error pat = Some p -> Forall (fun c => p <> c) l ->
  split_once (l ++ s) pat =
  match split_once s pat with
  | Some (a, b) => Some (l ++ a, b)
  | None => None
  end.
Proof.
  intros Hpat. destruct pat as [|? pat]; [done|]. injection Hpat as ->.
  induction 1 as [|c l Hc Hl IH].
  - cbn [app]. by destruct (split_once s (p :: pat)) as [[a b]|].
  - cbn [app split_once]. rewrite starts_with_not_head, IH by done.
    by destruct (split_once s (p :: pat)) as [[a b]|].
Qed.

Lemma split_once_none p pat l :
  hd_error pat = Some p -> Forall (fun c => p <> c) l -> split_once l pat = None.
Proof.
  intros Hpat Hl. rewrite <- (app_nil_r l), (split_once_skip p) by done.
  by destruct pat.
Qed.

Lemma split_once_here pat s : pat <> [] -> split_once (pat ++ s) pat = Some ([], s).
Proof.
  intros Hpat. pose proof (starts_with_self pat s) as Hs.
  pose proof (drop_app_length pat s) as Hd.
  destruct (pat ++ s); cbn [split_once]; by rewrite Hs, Hd.
Qed.

(** The facts about the decimal form of a byte, checked one by one. *)
Definition fmt_u8_check (n : Z) : bool :=
  bool_decide (forallb (fun c => bool_decide (is_Some (to_digit c))) (fmt_u8 n) = true) &&
  match parse_u8 (fmt_u8 n) with Ok m => m =? n | Err _ => false end.

Lemma fmt_u8_checked n : uint 8 n -> fmt_u8_check n = true.
Proof.
  intros Hn. assert (forallb fmt_u8_check (seqZ 0 256) = true) as Hall by by vm_compute.
  rewrite forallb_forall in Hall. apply Hall, list_elem_of_In, elem_of_seqZ. exact Hn.
Qed.

Lemma parse_fmt_u8 n : uint 8 n -> parse_u8 (fmt_u8 n) = Ok n.
Proof.
  intros Hn. pose proof (fmt_u8_checked n Hn) as Hc.
  apply andb_true_iff in Hc as [_ Hp]. destruct (parse_u8 (fmt_u8 n)) as [m|]; [|done].
  apply Z.eqb_eq in Hp. by subst.
Qed.

(** Only digits occur in it. *)
Lemma fmt_u8_avoids p n :
  uint 8 n -> to_digit p = None -> Forall (fun c => p <> c) (fmt_u8 n).
Proof.
  intros Hn Hp. pose proof (fmt_u8_checked n Hn) as Hc.
  apply andb_true_iff in Hc as [Hd _]. apply bool_decide_eq_true in Hd.
  rewrite forallb_forall in Hd. apply Forall_forall. intros c Hin ->.
  apply list_elem_of_In, Hd, bool_decide_eq_true in Hin.
  rewrite Hp in Hin. by destruct Hin.
Qed.

(** ** Versions *)

Definition pre_typed (p : PreRelease) : Prop :=
  match p with Alpha i | Beta i => uint 8 i end.
Definition version_typed (v : Version) : Prop :=
  uint 8 (major v) /\ uint 8 (minor v) /\ uint 8 (patch v) /\
  (forall p, pre v = Some p -> pre_typed p).

(** What [from_str] reads of a pre-release designator. *)
Definition parse_pre (r : str) : result ParseVersionErr (option PreRelease) :=
  match split_once r (lit "alpha.") with
  | Some (_, r) =>
      ident ← map_err (fun _ => Build_ParseVersionErr) (parse_u8 r);
      mret (Some (Alpha ident))
  | None =>
      match split_once r (lit "beta.") with
      | Some (_, r) =>
          ident ← map_err (fun _ => Build_ParseVersionErr) (parse_u8 r);
          mret (Some (Beta ident))
      | None => mret None
      end
  end.

Definition designator (p : option PreRelease) : str :=
  match p with
  | Some (Alpha ident) => lit "alpha." ++ fmt_u8 ident
  | Some (Beta ident) => lit "beta." ++ fmt_u8 ident
  | None => []
  end.

Lemma parse_pre_designator p :
  (forall q, p = Some q -> pre_typed q) -> parse_pre (designator p) = Ok p.
Proof.
  intros Hp. destruct p as [[i|i]|]; [specialize (Hp _ eq_refl)..|done]; cbn in Hp.
  - unfold parse_pre, designator.
    rewrite split_once_here, parse_fmt_u8 by done.
    done.
  - unfold parse_pre. cbn [designator].
    assert (split_once (lit "beta." ++ fmt_u8 i) (lit "alpha.") = None) as ->.
    { cbn. by rewrite (split_once_none "a"%char) by (done || by apply fmt_u8_avoids). }
    rewrite split_once_here, parse_fmt_u8 by done.
    done.
Qed.

Lemma designator_no_plus p :
  pre_typed p -> Forall (fun ch => "+"%char <> ch) (designator (Some p)).
Proof.
  intros Hp. destruct p as [i|i]; cbn [designator]; apply Forall_app;
    (split; [by repeat constructor|by apply fmt_u8_avoids]).
Qed.

(** Parsing a version by its parts: the three numbers, an optional designator
    [x] and an optional build identifier. *)
Lemma from_str_texts ta tb tc a b c (x build : option str) :
  parse_u8 ta = Ok a -> parse_u8 tb = Ok b -> parse_u8 tc = Ok c ->
  Forall (fun ch => "."%char <> ch) ta -> Forall (fun ch => "."%char <> ch) tb ->
  Forall (fun ch => "-"%char <> ch) tc -> Forall (fun ch => "+"%char <> ch) tc ->
  (forall s, x = Some s -> Forall (fun ch => "+"%char <> ch) s) ->
  Version.from_str
    (ta ++ lit "." ++ tb ++ lit "." ++ tc ++
     match x with Some s => lit "-" ++ s | None => [] end ++
     match build with Some s => lit "+" ++ s | None => [] end) =
  pre ← parse_pre (default [] x);
  mret {| major := a; minor := b; patch := c; pre := pre |}.
Proof.
  intros Ha Hb Hc Hta Htb Htc Htc' Hx. unfold Version.from_str.
  rewrite (split_once_skip "."%char), split_once_here by done.
  cbn [ok_or mbind result_bind]. rewrite app_nil_r, Ha. cbn [map_err mbind result_bind].
  rewrite (split_once_skip "."%char), split_once_here by done.
  cbn [ok_or mbind result_bind]. rewrite app_nil_r, Hb. cbn [map_err mbind result_bind].
  set (t := tc ++ match x with Some s => lit "-" ++ s | None => [] end).
  assert (Forall (fun ch => "+"%char <> ch) t) as Ht.
  { apply Forall_app. split; [done|].
    destruct x as [s|]; [|done]. constructor; [done|by apply Hx]. }
  assert (match split_once (t ++ match build with Some s => lit "+" ++ s | None => [] end)
                  (lit "+") with Some (l, _) => l | None =>
            t ++ match build with Some s => lit "+" ++ s | None => [] end end = t) as Hcut.
  { rewrite (split_once_skip "+"%char) by done.
    destruct build as [s|]; [|by rewrite app_nil_r].
    rewrite split_once_here by done. by rewrite app_nil_r. }
  rewrite app_assoc. fold t. rewrite Hcut. unfold t.
  rewrite (split_once_skip "-"%char) by done.
  destruct x as [s|].
  - rewrite split_once_here by done. by rewrite app_nil_r, Hc.
  - rewrite (split_once_none "-"%char (lit "-") []) by done. by rewrite app_nil_r, Hc.
Qed.

Lemma from_str_parts a b c (x build : option str) :
  uint 8 a -> uint 8 b -> uint 8 c ->
  (forall s, x = Some s -> Forall (fun ch => "+"%char <> ch) s) ->
  Version.from_str
    (fmt_u8 a ++ lit "." ++ fmt_u8 b ++ lit "." ++ fmt_u8 c ++
     match x with Some s => lit "-" ++ s | None => [] end ++
     match build with Some s => lit "+" ++ s | None => [] end) =
  pre ← parse_pre (default [] x);
  mret {| major := a; minor := b; patch := c; pre := pre |}.
Proof.
  intros Ha Hb Hc Hx.
  apply from_str_texts; by first [apply parse_fmt_u8 | apply fmt_u8_avoids | apply Hx].
Qed.

(** What a split string was. *)
Lemma starts_with_inv pat s : starts_with pat s = true -> s = pat ++ drop (length pat) s.
Proof.
  revert s. induction pat as [|p pat IH]; intros s; [done|].
  destruct s as [|c s]; cbn; [done|].
  intros [Hp Hs]%andb_true_iff. apply bool_decide_eq_true in Hp as ->.
  by rewrite <- IH.
Qed.

Lemma split_once_inv s pat l r : split_once s pat = Some (l, r) -> s = l ++ pat ++ r.
Proof.
  revert l. induction s as [|c s IH]; intros l; cbn [split_once];
    destruct (starts_with pat _) eqn:Hp;
    try (intros [= <- <-]; by apply starts_with_inv in Hp).
  destruct (split_once s pat) as [[l' r']|]; [|done]. cbn.
  intros [= <- <-]. cbn. by rewrite <- (IH l').
Qed.

(** ** The order of versions *)

Definition pre_rank (p : option PreRelease) : Z :=
  match p with
  | Some (Alpha ident) => ident
  | Some (Beta ident) => 256 + ident
  | None => 512
  end.

(** The position of a version in the order: the numbers most significant
    first, then the alphas, the betas, and the release. *)
Definition rank (v : Version) : Z :=
  ((major v * 256 + minor v) * 256 + patch v) * 513 + pre_rank (pre v).

Lemma ordering_then_lex k a a' b b' :
  0 <= b < k -> 0 <= b' < k ->
  ordering_then (a ?= a') (b ?= b') = (a * k + b ?= a' * k + b').
Proof.
  intros Hb Hb'. symmetry. destruct (Z.compare_spec a a') as [->|Ha|Ha]; cbn.
  - destruct (Z.compare_spec b b') as [->|Hlt|Hgt];
      [apply Z.compare_refl|apply Z.compare_lt_iff; nia|apply Z.compare_gt_iff; nia].
  - apply Z.compare_lt_iff. nia.
  - apply Z.compare_gt_iff. nia.
Qed.

Lemma pre_rank_range v : version_typed v -> 0 <= pre_rank (pre v) < 513.
Proof.
  intros (_ & _ & _ & Hp). destruct (pre v) as [[i|i]|]; cbn; [| |lia];
    specialize (Hp _ eq_refl); unfold pre_typed, uint in Hp; cbn in Hp; lia.
Qed.

Lemma pre_compare p q :
  (forall x, p = Some x -> pre_typed x) -> (forall x, q = Some x -> pre_typed x) ->
  match p, q with
  | None, None => Eq
  | None, Some _ => Gt
  | Some _, None => Lt
  | Some self_pre, Some other_pre => PreRelease.cmp self_pre other_pre
  end = (pre_rank p ?= pre_rank q).
Proof.
  intros Hp Hq. symmetry.
  destruct p as [[i|i]|], q as [[j|j]|]; cbn [pre_rank PreRelease.cmp];
    try specialize (Hp _ eq_refl); try specialize (Hq _ eq_refl);
    unfold pre_typed, uint in *; cbn in Hp, Hq;
    first [ reflexivity
          | apply Z.compare_lt_iff; lia
          | apply Z.compare_gt_iff; lia
          | apply Z.add_compare_mono_l ].
Qed.

Lemma cmp_rank u v :
  version_typed u -> version_typed v -> Version.cmp u v = (rank u ?= rank v).
Proof.
  intros Hu Hv. pose proof (pre_rank_range u Hu). pose proof (pre_rank_range v Hv).
  destruct Hu as (Hu1 & Hu2 & Hu3 & Hu4), Hv as (Hv1 & Hv2 & Hv3 & Hv4).
  unfold Version.cmp. rewrite pre_compare by done.
  rewrite !ordering_then_lex with (k := 256) by done.
  by rewrite ordering_then_lex with (k := 513) by done.
Qed.

Lemma rank_inj u v : version_typed u -> version_typed v -> rank u = rank v -> u = v.
Proof.
  intros Hu Hv Heq. pose proof (pre_rank_range u Hu). pose proof (pre_rank_range v Hv).
  destruct Hu as (Hu1 & Hu2 & Hu3 & Hu4), Hv as (Hv1 & Hv2 & Hv3 & Hv4).
  unfold rank, uint in *. cbn in *.
  destruct u as [a b c p], v as [a' b' c' p']; cbn [major minor patch pre] in *.
  assert (pre_rank p = pre_rank p') as Hpre by lia.
  f_equal; try lia.
  destruct p as [[i|i]|], p' as [[j|j]|]; cbn [pre_rank] in *;
    try specialize (Hu4 _ eq_refl); try specialize (Hv4 _ eq_refl);
    unfold pre_typed, uint in *; cbn in *; first [done | lia | do 2 f_equal; lia].
Qed.

(** ** Messages on the wire *)

Section wire.

Context {F : SerdeFormat} {P : Postcard} {L : PostcardLaws}.

Definition PreRelease_encode (p : PreRelease) : list Z :=
  match p with
  | Alpha ident => varint 0 ++ [ident]
  | Beta ident => varint 1 ++ [ident]
  end.

#[export] Program Instance PreRelease_encoding : Encoding PreRelease := {|
  wire_ok _ := True;
  encode := PreRelease_encode;
|}.
Next Obligation.
  intros p s _. open_instance; unfold PreRelease_serialize.
  destruct p; cbn [PreRelease_encode]; wire_write.
Qed.

#[export] Instance PreRelease_wire : Wire PreRelease.
Proof.
  intros p r _. open_instance; unfold PreRelease_deserialize.
  destruct p; cbn [encode PreRelease_encoding PreRelease_encode]; wire_read.
Qed.

#[export] Program Instance Version_encoding : Encoding Version := {|
  wire_ok _ := True;
  encode v := [major v] ++ [minor v] ++ [patch v] ++ encode_option encode (pre v);
|}.
Next Obligation.
  intros v s _. open_instance; unfold Version_serialize.
  rewrite serialize_struct_write. wire_write.
  apply serialize_option_write. intros p s' _. by apply serialize_encode.
Qed.

#[export] Instance Version_wire : Wire Version.
Proof.
  intros v r _. open_instance; unfold Version_deserialize.
  cbn [encode Version_encoding]. rewrite deserialize_struct_read, <- !app_assoc. cbn [app].
  do 3 (erewrite reader_bind_ok; [|by wire_read]).
  erewrite reader_bind_ok.
  2: { apply (deserialize_option_read _ encode). intros p _. by apply deserialize_encode. }
  by destruct v.
Qed.

Definition PrepareForUpdate_ok (p : PrepareForUpdate) : Prop :=
  length (key_bytes (update_key p)) = 16%nat /\ uint 32 (update_byte_len p).

#[export] Program Instance PrepareForUpdate_encoding : Encoding PrepareForUpdate := {|
  wire_ok := PrepareForUpdate_ok;
  encode p :=
    encode (version p) ++ [server_ports p] ++ key_bytes (update_key p) ++
    varint (update_byte_len p) ++ [Z.b2z (signed p)];
|}.
Next Obligation.
  intros p s _. open_instance; unfold PrepareForUpdate_serialize.
  rewrite serialize_struct_write, write_app, serialize_encode by done.
  apply result_bind_ext. intros s1. rewrite serialize_u8_write, write_app.
  apply result_bind_ext. intros s2. rewrite write_app.
  change (serialize (update_key p) s2) with (UpdateKey_serialize (update_key p) s2).
  unfold UpdateKey_serialize. rewrite serialize_struct_write, serialize_array_write.
  apply result_bind_ext. intros s3. wire_write.
Qed.

#[export] Instance PrepareForUpdate_wire : Wire PrepareForUpdate.
Proof.
  intros p r [Hk Hl]. open_instance; unfold PrepareForUpdate_deserialize.
  cbn [encode PrepareForUpdate_encoding].
  rewrite deserialize_struct_read, <- !app_assoc.
  erewrite reader_bind_ok; [|by apply deserialize_encode].
  erewrite reader_bind_ok; [|apply deserialize_u8_read].
  erewrite reader_bind_ok.
  2: { change (deserialize (A:=UpdateKey)) with UpdateKey_deserialize.
       unfold UpdateKey_deserialize. rewrite deserialize_struct_read.
       erewrite reader_bind_ok; [done|]. rewrite <- Hk. apply deserialize_array_read. }
  erewrite reader_bind_ok; [|by apply deserialize_u32_read].
  erewrite reader_bind_ok; [|apply deserialize_bool_read].
  destruct p as [? ? [] ? ?]. done.
Qed.

#[export] Program Instance Update_encoding : Encoding Update := {|
  wire_ok u := uint 32 (byte_offset u) /\ uint 32 (Z.of_nat (length (update_bytes u)));
  encode u :=
    varint (byte_offset u) ++
    varint (Z.of_nat (length (update_bytes u))) ++ update_bytes u;
|}.
Next Obligation.
  intros u s _. open_instance; unfold Update_serialize. wire_write.
Qed.

Lemma Update_read N u r :
  wire_ok u -> (length (update_bytes u) <= N)%nat ->
  Update_deserialize N (of_bytes (encode u ++ r)) = (Ok u, of_bytes r).
Proof.
  intros [Ho Hl] HN. unfold Update_deserialize.
  cbn [encode Update_encoding]. rewrite deserialize_struct_read, <- !app_assoc.
  erewrite reader_bind_ok; [|by apply deserialize_u32_read].
  erewrite reader_bind_ok; [|by apply deserialize_vec_read]. by destruct u.
Qed.

(** A received update has an offset of 32 bits and at most [N] bytes. *)
Lemma Update_read_inv N bs u :
  from_bytes (Update_deserialize N) bs = Ok u ->
  uint 32 (byte_offset u) /\ (length (update_bytes u) <= N)%nat.
Proof.
  rewrite from_bytes_run. destruct (Update_deserialize N (of_bytes bs)) as [res d] eqn:Hd.
  intros Hres. cbn in Hres. subst res. revert Hd. unfold Update_deserialize.
  rewrite deserialize_struct_read. unfold mbind, reader_bind.
  destruct (deserialize_u32 (of_bytes bs)) as [[o|e] d1] eqn:Ho; [|done].
  destruct (deserialize_vec N d1) as [[xs|e] d2] eqn:Hx; [|done].
  intros [= <- <-]. split; [by eapply deserialize_u32_range|].
  by eapply deserialize_vec_length.
Qed.

Lemma pre_length p : length (PreRelease_encode p) = 2%nat.
Proof. by destruct p; cbn [PreRelease_encode]; rewrite varint_small by lia. Qed.

Lemma prepare_length p :
  wire_ok p -> (length (encode (A:=PrepareForUpdate) p) <= 29)%nat.
Proof.
  intros [Hk Hl]. cbn [encode PrepareForUpdate_encoding Version_encoding].
  rewrite !length_app, Hk. cbn [length].
  pose proof (varint_length_u32 _ Hl).
  assert (length (encode_option encode (pre (version p))) <= 3)%nat as Hp; [|lia].
  apply encode_option_length. intros q _. cbn [encode PreRelease_encoding].
  by rewrite pre_length.
Qed.

Lemma update_length u :
  length (encode (A:=Update) u) =
  (length (varint (byte_offset u)) +
   (length (varint (Z.of_nat (length (update_bytes u)))) + length (update_bytes u)))%nat.
Proof. cbn [encode Update_encoding]. by rewrite !length_app. Qed.

End wire.

(** ** Properties *)

Section version_properties.

(** C29: a version is read back from its printed form, and a build identifier
    appended to it is ignored. *)
Theorem version_roundtrip v (build : option str) :
  version_typed v ->
  Version.from_str
    (Version.fmt v ++ match build with Some s => lit "+" ++ s | None => [] end) = Ok v.
Proof.
  intros (Ha & Hb & Hc & Hp).
  pose proof (from_str_parts (major v) (minor v) (patch v)
    (match pre v with Some p => Some (designator (Some p)) | None => None end) build
    Ha Hb Hc) as Hparts.
  unfold Version.fmt. destruct v as [a b c p]. cbn [major minor patch pre] in *.
  rewrite <- !app_assoc. destruct p as [[i|i]|]; cbn [from_option id] in Hparts.
  1,2: specialize (Hp _ eq_refl).
  - rewrite parse_pre_designator in Hparts by (by intros q [= <-]).
    apply Hparts. intros s [= <-]. by apply (designator_no_plus (Alpha i)).
  - rewrite parse_pre_designator in Hparts by (by intros q [= <-]).
    apply Hparts. intros s [= <-]. by apply (designator_no_plus (Beta i)).
  - by apply Hparts.
Qed.

(** A pre-release designator with neither ["alpha."] nor ["beta."] in it
    is dropped: the text is read as the release itself. *)
Theorem version_unknown_designator a b c x :
  uint 8 a -> uint 8 b -> uint 8 c ->
  Forall (fun ch => "+"%char <> ch) x ->
  split_once x (lit "alpha.") = None -> split_once x (lit "beta.") = None ->
  Version.from_str
    (fmt_u8 a ++ lit "." ++ fmt_u8 b ++ lit "." ++ fmt_u8 c ++ lit "-" ++ x) =
  Ok {| major := a; minor := b; patch := c; pre := None |}.
Proof.
  intros Ha Hb Hc Hx Halpha Hbeta.
  pose proof (from_str_parts a b c (Some x) None Ha Hb Hc) as Hparts.
  rewrite app_nil_r in Hparts. rewrite Hparts by (by intros s [= <-]).
  unfold parse_pre. cbn [from_option id]. by rewrite Halpha, Hbeta.
Qed.

(** C30: versions are ordered as their positions [rank]: by the major, minor
    and patch numbers, then alphas by number before betas by number before the
    release. *)
Theorem version_cmp_rank u v :
  version_typed u -> version_typed v ->
  Version.cmp u v = (rank u ?= rank v) /\
  (Version.gt u v = true <-> rank v < rank u).
Proof.
  intros Hu Hv. split; [by apply cmp_rank|].
  unfold Version.gt, Version.partial_cmp. rewrite bool_decide_eq_true, cmp_rank by done.
  rewrite <- Z.compare_gt_iff. split; [by intros [= ->]|by intros ->].
Qed.

(** The order is total, and agrees with equality. *)
Theorem version_total_order u v w :
  version_typed u -> version_typed v -> version_typed w ->
  (Version.cmp u v = Eq <-> u = v) /\
  Version.cmp v u = CompOpp (Version.cmp u v) /\
  (Version.cmp u v = Lt -> Version.cmp v w = Lt -> Version.cmp u w = Lt).
Proof.
  intros Hu Hv Hw. rewrite !cmp_rank by done. split_and!.
  - rewrite Z.compare_eq_iff. split; [by apply rank_inj|by intros ->].
  - apply Z.compare_antisym.
  - rewrite !Z.compare_lt_iff. lia.
Qed.

End version_properties.

Section message_properties.

Context {F : SerdeFormat} {P : Postcard} {L : PostcardLaws}.

(** Any announcement of an update takes at most 29 bytes, so that it fits
    the smallest payload (32 bytes), and is read back as it was. *)
Theorem prepare_roundtrip (p : PrepareForUpdate) (n : nat) :
  length (key_bytes (update_key p)) = 16%nat -> uint 32 (update_byte_len p) ->
  (29 <= n)%nat ->
  exists bs, to_vec n (serialize p) = Ok bs /\ (length bs <= 29)%nat /\
             from_bytes deserialize bs = Ok p.
Proof.
  intros Hk Hl Hn. assert (wire_ok p) as Hp by (by split).
  pose proof (prepare_length p Hp). eexists.
  split; [apply to_vec_encode; [done|lia]|]. split; [done|by apply from_bytes_encode_end].
Qed.

(** An update of up to [n - UPDATE_BYTES_OVERHEAD] bytes fits a payload of
    [n] bytes (at most 132) and is read back as it was, as long as its offset
    is below 2^28. *)
Theorem update_roundtrip (u : Update) (n N : nat) :
  0 <= byte_offset u < 2 ^ 28 -> Z.of_nat n <= 132 ->
  Z.of_nat (length (update_bytes u)) <= Z.of_nat n - UPDATE_BYTES_OVERHEAD ->
  (length (update_bytes u) <= N)%nat ->
  exists bs, to_vec n (serialize u) = Ok bs /\
             from_bytes (Update_deserialize N) bs = Ok u.
Proof.
  unfold UPDATE_BYTES_OVERHEAD. intros Ho Hn Hl HN.
  assert (wire_ok u) as Hu by (split; unfold uint; cbn in *; lia).
  eexists. split; [apply to_vec_encode; [done|]|].
  - rewrite update_length, (varint_small (Z.of_nat _)) by lia.
    pose proof (varint_length_le 3 (byte_offset u)) as Hv. cbn [length] in *. cbn in Hv. lia.
  - rewrite from_bytes_run, <- (app_nil_r (encode u)). by rewrite Update_read.
Qed.

(** C38: from an offset of 2^28 on, an update that uses all the room that
    [UPDATE_BYTES_OVERHEAD] leaves does not fit: the offset takes five bytes,
    and not the four that the constant counts. *)
Theorem update_overhead_exceeded (u : Update) (n : nat) :
  2 ^ 28 <= byte_offset u < 2 ^ 32 -> 5 <= Z.of_nat n < 2 ^ 32 ->
  Z.of_nat (length (update_bytes u)) = Z.of_nat n - UPDATE_BYTES_OVERHEAD ->
  exists e, to_vec n (serialize u) = Err e.
Proof.
  unfold UPDATE_BYTES_OVERHEAD. intros Ho Hn Hl.
  apply to_vec_encode_full.
  - split; unfold uint; cbn in *; lia.
  - rewrite update_length. pose proof (varint_length_ge 4 (byte_offset u)) as Hv.
    assert (varint (Z.of_nat (length (update_bytes u))) <> []) as Hne
      by (apply varint_nonnil; lia).
    destruct (varint (Z.of_nat (length (update_bytes u)))); [done|]. cbn [length].
    cbn in Hv, Ho. lia.
Qed.

End message_properties.

(** ** Examples and witnesses *)

Section witnesses.

Import PostcardRef.

Definition v123 (p : option PreRelease) : Version :=
  {| major := 1; minor := 2; patch := 3; pre := p |}.

Lemma v123_typed p : (forall q, p = Some q -> pre_typed q) -> version_typed (v123 p).
Proof. intros Hp. by refine (conj _ (conj _ (conj _ Hp))). Qed.

(** A pre-release without an identifier, and one of another kind, are read as
    the release; a designator is found in the middle of a word. *)
Example pre_release_without_ident :
  map (fun s => Version.from_str (lit s)) ["1.2.3-alpha"; "1.2.3-rc.1"]%string =
  [Ok (v123 None); Ok (v123 None)].
Proof. by vm_compute. Qed.
Example pre_release_inside_word :
  Version.from_str (lit "1.2.3-notalpha.4") = Ok (v123 (Some (Alpha 4))).
Proof. by vm_compute. Qed.

Lemma version_roundtrip_witness :
  Version.from_str (Version.fmt (v123 (Some (Beta 200))) ++ lit "+" ++ lit "b.1-x") =
  Ok (v123 (Some (Beta 200))).
Proof.
  apply (version_roundtrip (v123 (Some (Beta 200))) (Some (lit "b.1-x"))).
  apply v123_typed. by intros q [= <-].
Defined.

Lemma version_unknown_designator_witness :
  Version.from_str (lit "1.2.3-rc.1") = Ok (v123 None).
Proof. by apply (version_unknown_designator 1 2 3 (lit "rc.1")); repeat constructor. Defined.

Lemma version_cmp_rank_witness :
  Version.cmp (v123 None) (v123 (Some (Beta 1))) =
  (rank (v123 None) ?= rank (v123 (Some (Beta 1)))).
Proof.
  apply (version_cmp_rank (v123 None) (v123 (Some (Beta 1))));
    apply v123_typed; by intros q [= <-].
Defined.

Lemma version_total_order_witness :
  Version.cmp (v123 (Some (Alpha 1))) (v123 None) = Lt.
Proof.
  apply (version_total_order (v123 (Some (Alpha 1))) (v123 (Some (Beta 1))) (v123 None));
    solve [apply v123_typed; by intros q [= <-] | done].
Defined.

Definition example_prepare : PrepareForUpdate :=
  {| version := v123 None; server_ports := 4;
     update_key := {| key_bytes := replicate 16 7 |};
     update_byte_len := 102400; signed := false |}.

Lemma prepare_roundtrip_witness :
  exists bs, to_vec 32 (serialize example_prepare) = Ok bs /\ (length bs <= 29)%nat /\
             from_bytes deserialize bs = Ok example_prepare.
Proof. apply (prepare_roundtrip example_prepare 32); [done|by split|lia]. Defined.

Definition example_update (o : Z) : Update :=
  {| byte_offset := o; update_bytes := replicate 27 1 |}.

Lemma update_roundtrip_witness :
  exists bs, to_vec 32 (serialize (example_update 27)) = Ok bs /\
             from_bytes (Update_deserialize 27) bs = Ok (example_update 27).
Proof.
  apply (update_roundtrip (example_update 27) 32 27); [by split|done|done|done].
Defined.

Lemma update_overhead_exceeded_witness :
  exists e, to_vec 32 (serialize (example_update (2 ^ 28))) = Err e.
Proof.
  apply (update_overhead_exceeded (example_update (2 ^ 28)) 32); [by split|by split|done].
Defined.

End witnesses.
