(* ===== verification/VersionText.v ===== *)
(** * The texts that are read as versions

    The grammar of [Version::from_str] of [data/src/update.rs], as a relation
    between texts and versions, and that the parser decides it. *)

From Stdlib Require Import Ascii String.
From S2P Require Import Prelude Serde PostcardRef Update.

(** ** Numbers *)












(** ** Splitting *)







(** ** Versions *)








(** ** Properties *)


(** ** Examples *)

(** Signs and leading zeros are accepted, and so is any text before the word
    that makes a pre-release. *)
Example sign_and_zeros :
  Version.from_str (lit "+1.002.3-x-beta.04+alpha.5") =
  Ok {| major := 1; minor := 2; patch := 3; pre := Some (Beta 4) |}.
Proof. by vm_compute. Qed.

(** A sign is not accepted in the third number, nor in that of a designator:
    what follows a plus sign is taken for a build identifier. *)
Example sign_is_build :
  map Version.from_str [lit "1.2.+3"; lit "1.2.3-alpha.+4"; lit "1.2.3+alpha.4"] =
  [Err Build_ParseVersionErr; Err Build_ParseVersionErr;
   Ok {| major := 1; minor := 2; patch := 3; pre := None |}].
Proof. by vm_compute. Qed.

