(* ===== verification/AppServer.v ===== *)
(** * The example server: [app/examples/server/main.rs]

    The server's event history, its answer to a request, and the two arms of
    its main loop. *)

From S2P Require Import Prelude Serde Platform AppProtocol.

(** ** [app/examples/common/lib.rs] *)

Inductive Command := SomeCommand.
Inductive Event := SomeEvent.

#[export] Instance Command_eq_dec : EqDecision Command.
Proof. solve_decision. Defined.
#[export] Instance Event_eq_dec : EqDecision Event.
Proof. solve_decision. Defined.

Section enums.

Context {F : SerdeFormat}.

#[export] Instance Command_serialize : Serialize Command := fun _ =>
  serialize_variant 0 mret.
#[export] Instance Command_deserialize : Deserialize Command :=
  variant ← deserialize_variant;
  match variant with
  | 0 => mret SomeCommand
  | _ => reader_fail de_error_custom
  end.
#[export] Instance Event_serialize : Serialize Event := fun _ =>
  serialize_variant 0 mret.
#[export] Instance Event_deserialize : Deserialize Event :=
  variant ← deserialize_variant;
  match variant with
  | 0 => mret SomeEvent
  | _ => reader_fail de_error_custom
  end.

Context {P : Postcard} {L : PostcardLaws}.

#[export] Program Instance Command_encoding : Encoding Command := {|
  wire_ok _ := True;
  encode _ := varint 0;
|}.
Next Obligation.
  intros c s _. open_instance; unfold Command_serialize. wire_write.
Qed.
#[export] Instance Command_wire : Wire Command.
Proof. intros [] r _. open_instance; unfold Command_deserialize. wire_read. Qed.
#[export] Instance Command_eof : WireEof Command.
Proof.
  destruct deserialize_variant_eof as (e & d & Hd). exists e, d.
  open_instance; unfold Command_deserialize. by apply reader_bind_err.
Qed.

#[export] Program Instance Event_encoding : Encoding Event := {|
  wire_ok _ := True;
  encode _ := varint 0;
|}.
Next Obligation.
  intros c s _. open_instance; unfold Event_serialize. wire_write.
Qed.
#[export] Instance Event_wire : Wire Event.
Proof. intros [] r _. open_instance; unfold Event_deserialize. wire_read. Qed.

End enums.

(** ** Standard library pieces *)

(** A [tokio::time::Instant], in nanoseconds since some origin. *)
Definition Instant : Type := Z.
(** [a.duration_since(b).as_secs()]. *)
Definition secs_since (a b : Instant) : Z := Z.max 0 (a - b) / 10 ^ 9.

(** [Iterator::skip_while]. *)
Fixpoint skip_while {A} (p : A -> bool) (l : list A) : list A :=
  match l with
  | [] => []
  | x :: l' => if p x then skip_while p l' else l
  end.

(** [a <= b] on [Option<u32>]: [None] is below every [Some]. *)
Definition option_le (a b : option Z) : bool :=
  match a, b with
  | None, _ => true
  | Some _, None => false
  | Some a, Some b => bool_decide (a <= b)
  end.

(** ** The server *)

Definition MAX_DATAGRAM_SIZE : nat := 32.
Definition MAX_EVENTS : nat := 10.

Definition entry : Type := Event * Z * Instant.
Definition entry_offset (x : entry) : Z := x.1.2.

Section server.

Context {Q : CircularQueue}.

Record Server := {
  events : queue entry;
  start : option Z;
  end_ : option Z;
  event_offset : Z;
}.

(** The state before the loop; [r] is the random first offset. *)
Definition init_server (r : Z) : Server :=
  {| events := with_capacity entry MAX_EVENTS; start := None; end_ := None;
     event_offset := as_uint 32 r |}.

(** The event that answers a request. *)
Definition find_event (s : Server) (request : CommandRequest Command) (now : Instant)
  : option (EventOf Event NoEE * Instant) :=
  let last_event_offset := last_event_offset request in
  match start s, end_ s with
  | Some start, Some end_ =>
      if bool_decide (last_event_offset = None)
         || (option_le (Some start) last_event_offset
             && option_le last_event_offset (Some end_)) then
        let next_event_offset := (fun o => wrapping_add 32 o 1) <$> last_event_offset in
        let events_iter :=
          skip_while (fun x => bool_decide (Some (entry_offset x) <> next_event_offset)
                            && bool_decide (Some (entry_offset x) <> last_event_offset))
            (iter (events s)) in
        let next_e := head events_iter in
        let last_e := head (tail events_iter) in
        let e :=
          if bool_decide (is_Some next_e /\ entry_offset <$> next_e = next_event_offset)
          then next_e
          else if bool_decide (is_Some last_e /\ entry_offset <$> last_e = last_event_offset)
          then None
          else if bool_decide (is_Some next_e /\ entry_offset <$> next_e = last_event_offset)
          then None
          else last (iter (events s)) in
        (fun '(e, o, t) => (Logged e o, t)) <$> e
      else Some (Recovery start end_, now)
  | _, _ => None
  end.

(** The reply to a request; the two times are those of the two calls of
    [Instant::now]. *)
Definition reply_to (s : Server) (request : CommandRequest Command) (now now' : Instant)
  : EventReply (EventOf Event NoEE) :=
  event_reply (find_event s request now) (secs_since now').

(** The first arm of the loop: a datagram is received, and maybe a reply is
    sent.  The state does not change. *)
Definition on_datagram `{Postcard} (s : Server) (datagram : list Z) (now now' : Instant)
  : option (list Z) :=
  let recv_buf := take MAX_DATAGRAM_SIZE datagram in
  match from_bytes (deserialize (A:=CommandRequest Command)) recv_buf with
  | Ok request =>
      let reply := reply_to s request now now' in
      ok (fst (to_slice (serialize reply) (replicate MAX_DATAGRAM_SIZE 0)))
  | Err _ => None
  end.

(** The second arm: an event is due.  [reset] is the draw from [0..40],
    [r] the draw of a new first offset. *)
Definition on_event (s : Server) (event_instant : Instant) (reset r : Z) : Server :=
  if bool_decide (reset = 0) then
    let event_offset := as_uint 32 r in
    {| events := clear (events s);
       start := Some event_offset;
       end_ := Some event_offset;
       event_offset := event_offset |}
  else
    {| events := push ((SomeEvent, event_offset s, event_instant) : entry) (events s);
       start := match start s with None => Some (event_offset s) | Some _ => start s end;
       end_ := Some (event_offset s);
       event_offset := wrapping_add 32 (event_offset s) 1 |}.

(** The states the loop can reach. *)
Inductive reachable : Server -> Prop :=
  | reachable_init r :
      0 <= r < Z.of_nat MAX_EVENTS -> reachable (init_server r)
  | reachable_event s t reset r :
      reachable s -> 0 <= reset < 40 -> 0 <= r < Z.of_nat MAX_EVENTS ->
      reachable (on_event s t reset r).

End server.

(** ** The log behind the history *)

(** A log, the newest entry first, whose offsets count up from [n0] modulo
    2^32. *)
Fixpoint numbered (n0 : Z) (log : list entry) : Prop :=
  match log with
  | [] => True
  | x :: log => entry_offset x = as_uint 32 (n0 + Z.of_nat (length log)) /\ numbered n0 log
  end.

Section history.

Context {Q : CircularQueue}.

(** The server holds the last ten entries of [log], every event since the
    first start or the last reset; [n0] is the offset it started from. *)
Record holds (s : Server) (n0 : Z) (log : list entry) : Prop := {
  holds_n0 : uint 32 n0;
  holds_capacity : capacity (events s) = MAX_EVENTS;
  holds_events : iter (events s) = take MAX_EVENTS log;
  holds_numbered : numbered n0 log;
  holds_next : event_offset s = as_uint 32 (n0 + Z.of_nat (length log));
  holds_start : log <> [] -> start s = Some n0;
  holds_end : log <> [] -> end_ s = Some (as_uint 32 (n0 + Z.of_nat (length log) - 1));
  holds_empty : log = [] -> start s = end_ s /\ (start s = None \/ start s = Some n0);
}.

Context {QL : CircularQueueLaws}.

Lemma holds_init r :
  0 <= r < Z.of_nat MAX_EVENTS -> holds (init_server r) r [].
Proof.
  intros Hr. assert (uint 32 r) as Hr32 by (unfold uint, MAX_EVENTS in *; cbn in *; lia).
  split; cbn [init_server events start end_ event_offset length]; try done.
  - apply capacity_new.
  - by rewrite iter_new.
  - f_equal. lia.
  - split; [done|by left].
Qed.

Lemma holds_reset s n0 log t r :
  0 <= r < Z.of_nat MAX_EVENTS -> holds s n0 log -> holds (on_event s t 0 r) r [].
Proof.
  intros Hr Hs. assert (uint 32 r) as Hr32 by (unfold uint, MAX_EVENTS in *; cbn in *; lia).
  unfold on_event. rewrite bool_decide_eq_true_2 by done.
  rewrite as_uint_small by done.
  split; cbn [events start end_ event_offset length]; try done.
  - by rewrite capacity_clear, (holds_capacity _ _ _ Hs).
  - by rewrite iter_clear.
  - rewrite as_uint_small by (by rewrite Z.add_0_r). lia.
  - split; [done|by right].
Qed.

Lemma holds_push s n0 log t reset r :
  reset <> 0 -> holds s n0 log ->
  holds (on_event s t reset r) n0 ((SomeEvent, event_offset s, t) :: log).
Proof.
  intros Hreset Hs. unfold on_event. rewrite bool_decide_eq_false_2 by done.
  pose proof (holds_n0 _ _ _ Hs) as Hn0. pose proof (holds_next _ _ _ Hs) as Hnext.
  split; cbn [events start end_ event_offset length]; try done.
  - by rewrite capacity_push, (holds_capacity _ _ _ Hs).
  - rewrite iter_push, (holds_capacity _ _ _ Hs), (holds_events _ _ _ Hs).
    unfold MAX_EVENTS. cbn [take]. f_equal. rewrite take_take. done.
  - split; [done|]. apply (holds_numbered _ _ _ Hs).
  - rewrite Hnext. unfold wrapping_add, as_uint. rewrite Zplus_mod_idemp_l. f_equal. lia.
  - intros _. destruct (start s) eqn:Hstart.
    + destruct log as [|x log].
      * destruct (holds_empty _ _ _ Hs eq_refl) as [_ [|]]; congruence.
      * rewrite <- Hstart. by apply (holds_start _ _ _ Hs).
    + destruct log as [|x log].
      * rewrite Hnext. cbn [length]. rewrite Z.add_0_r. by rewrite as_uint_small.
      * rewrite (holds_start _ _ _ Hs) in Hstart by done. done.
  - intros _. rewrite Hnext. do 2 f_equal. lia.
Qed.

(** Every reachable server holds the tail of some log. *)
Lemma reachable_holds s : reachable s -> exists n0 log, holds s n0 log.
Proof.
  induction 1 as [r Hr|s t reset r Hs [n0 [log IH]] Hreset Hr].
  - exists r, []. by apply holds_init.
  - destruct (decide (reset = 0)) as [->|Hne].
    + exists r, []. by eapply holds_reset.
    + eexists n0, _. by apply holds_push.
Qed.

(** ** Searching the history *)

Section search.

Variables (n0 : Z) (log : list entry).
Hypothesis Hn0 : uint 32 n0.
Hypothesis Hlog : numbered n0 log.
(** The offsets have not wrapped around. *)
Hypothesis Hwrap : n0 + Z.of_nat (length log) <= 2 ^ 32.

(** Without wrap-around, the entry at position [i] is the one whose offset is
    [i] below the newest. *)
Lemma log_lookup i x :
  log !! i = Some x -> entry_offset x = n0 + Z.of_nat (length log) - 1 - Z.of_nat i.
Proof using Hn0 Hlog Hwrap.
  revert i Hlog Hwrap. induction log as [|y l IH]; intros i Hl Hw Hi; [done|].
  destruct Hl as [Hy Hl]. destruct i as [|i]; cbn in Hi.
  - injection Hi as <-. rewrite Hy, as_uint_small by (unfold uint in *; cbn [length] in *; lia).
    cbn [length]. lia.
  - rewrite (IH i Hl) by (done || cbn [length] in *; lia). cbn [length]. lia.
Qed.

End search.

(** Skipping stops at the entry whose offset comes next after [n]. *)
Lemma skip_to_next hi n (w : list entry) :
  (forall i x, w !! i = Some x -> entry_offset x = hi - Z.of_nat i) ->
  n < hi -> hi - n <= Z.of_nat (length w) ->
  exists x,
    w !! Z.to_nat (hi - n - 1) = Some x /\ entry_offset x = n + 1 /\
    skip_while (fun x => bool_decide (Some (entry_offset x) <> Some (n + 1))
                      && bool_decide (Some (entry_offset x) <> Some n)) w =
    drop (Z.to_nat (hi - n - 1)) w.
Proof.
  revert hi. induction w as [|x w IH]; intros hi Hw Hn Hlen; [cbn in Hlen; lia|].
  pose proof (Hw 0%nat x eq_refl) as Hx. cbn in Hx.
  destruct (decide (hi = n + 1)) as [->|Hne].
  - exists x. replace (n + 1 - n - 1) with 0 by lia. cbn.
    split_and!; [done|lia|]. by rewrite bool_decide_eq_false_2 by (intros H; apply H; f_equal; lia).
  - destruct (IH (hi - 1)) as (y & Hy & Hoff & Hskip).
    + intros i z Hz. rewrite (Hw (S i) z Hz). lia.
    + lia.
    + cbn [length] in Hlen. lia.
    + replace (Z.to_nat (hi - n - 1)) with (S (Z.to_nat (hi - 1 - n - 1))) by lia.
      exists y. cbn [lookup list_lookup drop skip_while]. split_and!; [done|done|].
      rewrite !bool_decide_eq_true_2 by (intros [=]; lia). cbn. done.
Qed.

(** Nothing is found when all offsets are above [n + 1]. *)
Lemma skip_all n n' (w : list entry) :
  (forall x, x ∈ w -> entry_offset x <> n /\ entry_offset x <> n') ->
  skip_while (fun x => bool_decide (Some (entry_offset x) <> Some n')
                    && bool_decide (Some (entry_offset x) <> Some n)) w = [].
Proof.
  induction w as [|x w IH]; intros Hw; [done|]. cbn.
  destruct (Hw x) as [Hx Hx']; [apply list_elem_of_here|].
  rewrite !bool_decide_eq_true_2 by congruence. cbn. apply IH.
  intros y Hy. apply Hw. by apply list_elem_of_further.
Qed.

(** A request without an offset skips everything. *)
Lemma skip_none (w : list entry) :
  skip_while (fun x => bool_decide (Some (entry_offset x) <> None)
                    && bool_decide (Some (entry_offset x) <> None)) w = [].
Proof. induction w as [|x w IH]; [done|]. cbn. done. Qed.

End history.

(** ** The answer to a request *)

(** The event sent for a log entry. *)
Definition logged (x : entry) : EventOf Event NoEE * Instant :=
  let '(e, o, t) := x in (Logged e o, t).

(** The part of a log the history still has, and its newest and oldest
    offsets. *)
Definition window (log : list entry) : list entry := take MAX_EVENTS log.
Definition newest (n0 : Z) (log : list entry) : Z := n0 + Z.of_nat (length log) - 1.
Definition oldest (n0 : Z) (log : list entry) : Z :=
  n0 + Z.of_nat (length log) - Z.of_nat (length log `min` MAX_EVENTS).

Section answers.

Context {Q : CircularQueue} {QL : CircularQueueLaws}.
Variables (s : Server) (n0 : Z) (log : list entry) (now : Instant).
Hypothesis Hs : holds s n0 log.
Hypothesis Hne : log <> [].
Hypothesis Hwrap : n0 + Z.of_nat (length log) <= 2 ^ 32.

#[local] Abbreviation W := (window log).

Lemma log_length_pos : (0 < length log)%nat.
Proof. apply Nat.neq_0_lt_0. intros Hl. by apply Hne, nil_length_inv. Qed.

Lemma W_length : length W = (length log `min` MAX_EVENTS)%nat.
Proof. unfold window. rewrite length_take. lia. Qed.

Lemma W_lookup i x : W !! i = Some x -> x ∈ log /\ entry_offset x = newest n0 log - Z.of_nat i.
Proof.
  intros Hi. unfold window in Hi. apply lookup_take_Some in Hi as [Hi _].
  split; [by eapply list_elem_of_lookup_2|].
  unfold newest. rewrite (log_lookup n0 log (holds_n0 _ _ _ Hs) (holds_numbered _ _ _ Hs) Hwrap i x Hi).
  lia.
Qed.

Lemma holds_bounds :
  start s = Some n0 /\ end_ s = Some (newest n0 log) /\ uint 32 (newest n0 log).
Proof.
  pose proof log_length_pos. pose proof (holds_n0 _ _ _ Hs) as Hn0.
  assert (uint 32 (newest n0 log)) by (unfold uint, newest in *; lia).
  split; [by apply (holds_start _ _ _ Hs)|split; [|done]].
  rewrite (holds_end _ _ _ Hs Hne). f_equal. by apply as_uint_small.
Qed.

Lemma last_W : exists x, last W = Some x /\ x ∈ log /\ entry_offset x = oldest n0 log.
Proof.
  pose proof log_length_pos. pose proof W_length as Hl.
  rewrite last_lookup. destruct (W !! pred (length W)) as [x|] eqn:Hx.
  - exists x. destruct (W_lookup _ _ Hx) as [Hin Hoff]. split_and!; [done|done|].
    rewrite Hoff, Hl. unfold newest, oldest, MAX_EVENTS. lia.
  - apply lookup_ge_None in Hx. unfold MAX_EVENTS in *. lia.
Qed.

Definition in_range (n : Z) : bool := option_le (Some n0) (Some n) && option_le (Some n) (Some (newest n0 log)).

Lemma find_event_none c :
  exists x, x ∈ log /\ entry_offset x = oldest n0 log /\
    find_event s {| last_event_offset := None; command := c |} now = Some (logged x).
Proof.
  destruct holds_bounds as (Hstart & Hend & _).
  destruct last_W as (x & Hx & Hin & Hoff). exists x. split_and!; [done|done|].
  unfold find_event. rewrite Hstart, Hend. cbn [last_event_offset fmap option_fmap option_map].
  rewrite bool_decide_eq_true_2 by done. cbn [orb].
  rewrite skip_none, (holds_events _ _ _ Hs). fold W.
  rewrite !bool_decide_eq_false_2 by (intros [[? ?] _]; done).
  rewrite Hx. by destruct x as [[e o] t].
Qed.

Lemma find_event_out n c :
  n < n0 \/ newest n0 log < n ->
  find_event s {| last_event_offset := Some n; command := c |} now =
  Some (Recovery n0 (newest n0 log), now).
Proof.
  intros Hn. destruct holds_bounds as (Hstart & Hend & _).
  unfold find_event. rewrite Hstart, Hend. cbn [last_event_offset].
  rewrite bool_decide_eq_false_2 by done. cbn [orb option_le].
  destruct Hn; [rewrite (bool_decide_eq_false_2 (n0 <= n)) by lia; done|].
  rewrite (bool_decide_eq_false_2 (n <= _)) by lia. by rewrite andb_false_r.
Qed.

(** Within the range of offsets, the answer is decided by the search. *)
Lemma find_event_in n c :
  n0 <= n <= newest n0 log ->
  find_event s {| last_event_offset := Some n; command := c |} now =
  let found := skip_while (fun x =>
    bool_decide (Some (entry_offset x) <> Some (wrapping_add 32 n 1)) &&
    bool_decide (Some (entry_offset x) <> Some n)) W in
  logged <$>
  (if bool_decide (is_Some (head found) /\
                   entry_offset <$> head found = Some (wrapping_add 32 n 1)) then head found
   else if bool_decide (is_Some (head (tail found)) /\
                        entry_offset <$> head (tail found) = Some n) then None
   else if bool_decide (is_Some (head found) /\ entry_offset <$> head found = Some n) then None
   else last W).
Proof.
  intros Hn. destruct holds_bounds as (Hstart & Hend & _).
  unfold find_event. rewrite Hstart, Hend.
  cbn [last_event_offset fmap option_fmap option_map].
  rewrite bool_decide_eq_false_2 by done. cbn [orb option_le].
  rewrite !(bool_decide_eq_true_2 (_ <= _)) by lia. cbn [andb].
  by rewrite (holds_events _ _ _ Hs).
Qed.

Lemma find_event_next n c :
  n0 <= n < newest n0 log ->
  exists x, x ∈ log /\ entry_offset x = Z.max (n + 1) (oldest n0 log) /\
    find_event s {| last_event_offset := Some n; command := c |} now = Some (logged x).
Proof.
  intros Hn. rewrite find_event_in by lia.
  destruct holds_bounds as (_ & _ & Hhi). pose proof (holds_n0 _ _ _ Hs) as Hn0.
  rewrite wrapping_add_small by (unfold uint in *; lia).
  pose proof W_length as Hl.
  destruct (decide (newest n0 log - n <= Z.of_nat (length W))) as [Hin|Hout].
  - destruct (skip_to_next (newest n0 log) n W) as (x & Hx & Hoff & ->); [|lia|done|].
    { intros i y Hy. by destruct (W_lookup i y Hy). }
    rewrite (drop_S _ _ _ Hx). cbn [head hd_error].
    exists x. destruct (W_lookup _ _ Hx) as [Hlog _].
    split_and!; [done|unfold oldest, newest, MAX_EVENTS in *; lia|].
    rewrite bool_decide_eq_true_2; [done|]. cbn. by rewrite Hoff.
  - destruct last_W as (x & Hx & Hin & Hoff).
    rewrite skip_all.
    + cbn [head tail hd_error]. rewrite !bool_decide_eq_false_2 by (intros [[? ?] _]; done).
      exists x. rewrite Hx. split_and!; [done| |done].
      unfold oldest, newest, MAX_EVENTS in *. lia.
    + intros y Hy. apply list_elem_of_lookup in Hy as [i Hi].
      pose proof (lookup_lt_Some _ _ _ Hi). destruct (W_lookup i y Hi) as [_ ->]. lia.
Qed.

Lemma find_event_current c :
  find_event s {| last_event_offset := Some (newest n0 log); command := c |} now = None.
Proof.
  pose proof log_length_pos. destruct holds_bounds as (_ & _ & Hhi).
  pose proof (holds_n0 _ _ _ Hs) as Hn0.
  rewrite find_event_in by (unfold newest; lia).
  destruct W as [|x w] eqn:HW; [pose proof W_length as Hl; rewrite HW in Hl; cbn in Hl; unfold MAX_EVENTS in *; lia|].
  assert (entry_offset x = newest n0 log) as Hx.
  { destruct (W_lookup 0 x) as [_ ->]; [by rewrite HW|]. lia. }
  assert (wrapping_add 32 (newest n0 log) 1 <> newest n0 log) as Hnext.
  { unfold wrapping_add, uint in *. destruct (decide (newest n0 log + 1 = 2 ^ 32)) as [He|].
    - rewrite He, Z.mod_same; lia.
    - rewrite Z.mod_small; lia. }
  cbn [skip_while]. rewrite Hx.
  rewrite (bool_decide_eq_false_2 (Some (newest n0 log) <> Some (newest n0 log))) by (intros Hn; by apply Hn).
  rewrite andb_false_r. cbn [head tail hd_error fmap option_fmap option_map]. rewrite Hx.
  rewrite bool_decide_eq_false_2 by (intros [_ [= ?]]; congruence).
  case_bool_decide; [done|]. by rewrite bool_decide_eq_true_2.
Qed.

End answers.

(** ** The specification: a history that forgets nothing *)

(** The first offset, and the log of all events since, the newest first. *)
Definition history : Type := Z * list entry.

(** What the event loop draws for an event: its time, the draw that decides
    on a reset, and the draw of a new first offset. *)
Definition draws : Type := Instant * Z * Z.
Definition draws_ok (d : draws) : Prop :=
  let '(_, reset, r) := d in 0 <= reset < 40 /\ 0 <= r < Z.of_nat MAX_EVENTS.

Definition history_event (h : history) (d : draws) : history :=
  let '(t, reset, r) := d in
  if bool_decide (reset = 0) then (r, [])
  else (h.1, (SomeEvent, as_uint 32 (h.1 + Z.of_nat (length h.2)), t) :: h.2).

Definition history_after (r : Z) (ds : list draws) : history :=
  fold_left history_event ds (r, []).

(** The entry at an offset. *)
Definition entry_at (h : history) (o : Z) : option entry :=
  h.2 !! Z.to_nat (newest h.1 h.2 - o).

(** The answer to a request that reports the offset [last], [started] being
    whether the server has announced a range of offsets. *)
Definition answer (h : history) (started : bool) (now : Instant) (last : option Z)
  : option (EventOf Event NoEE * Instant) :=
  let lo := h.1 in
  let hi := if bool_decide (h.2 = []) then h.1 else newest h.1 h.2 in
  if negb started then None
  else match last with
  | None => logged <$> entry_at h (oldest h.1 h.2)
  | Some n =>
      if bool_decide (n < lo) || bool_decide (hi < n) then Some (Recovery lo hi, now)
      else if bool_decide (n = hi) then None
      else logged <$> entry_at h (Z.max (n + 1) (oldest h.1 h.2))
  end.

Section refinement.

Context {Q : CircularQueue}.

(** The server after the given draws. *)
Definition server_after (r : Z) (ds : list draws) : Server :=
  fold_left (fun s '(t, reset, r) => on_event s t reset r) ds (init_server r).

Context {QL : CircularQueueLaws}.

Lemma server_after_reachable r ds :
  0 <= r < Z.of_nat MAX_EVENTS -> Forall draws_ok ds -> reachable (server_after r ds).
Proof.
  intros Hr Hds. unfold server_after.
  assert (reachable (init_server r)) as Hs by (by constructor).
  revert Hs. generalize (init_server r). induction Hds as [|[[t reset] r'] ds [] _ IH];
    intros s Hs; [done|]. apply IH. by constructor.
Qed.

Lemma holds_history s h d :
  draws_ok d -> holds s h.1 h.2 ->
  let '(t, reset, r) := d in
  holds (on_event s t reset r) (history_event h d).1 (history_event h d).2.
Proof.
  destruct d as [[t reset] r]. intros [_ Hr] Hs. unfold history_event.
  destruct (decide (reset = 0)) as [->|Hne].
  - rewrite bool_decide_eq_true_2 by done. by eapply holds_reset.
  - rewrite bool_decide_eq_false_2 by done. cbn [fst snd].
    rewrite <- (holds_next _ _ _ Hs). by apply holds_push.
Qed.

Lemma entry_at_correct s n0 log x :
  holds s n0 log -> n0 + Z.of_nat (length log) <= 2 ^ 32 ->
  x ∈ log -> entry_at (n0, log) (entry_offset x) = Some x.
Proof.
  intros Hs Hw Hx. apply list_elem_of_lookup in Hx as [i Hi]. unfold entry_at. cbn [fst snd].
  rewrite (log_lookup n0 log (holds_n0 _ _ _ Hs) (holds_numbered _ _ _ Hs) Hw i x Hi).
  unfold newest. replace (Z.to_nat _) with i by lia. done.
Qed.

Lemma holds_after r ds :
  0 <= r < Z.of_nat MAX_EVENTS -> Forall draws_ok ds ->
  holds (server_after r ds) (history_after r ds).1 (history_after r ds).2.
Proof.
  intros Hr Hds. unfold history_after, server_after.
  assert (holds (init_server r) (r, [] : list entry).1 (r, [] : list entry).2) as Hs
    by (by apply holds_init).
  revert Hs. generalize (init_server r), (r, [] : list entry).
  induction Hds as [|d ds Hd _ IH]; intros s h Hs; [done|]. cbn [fold_left].
  apply (holds_history _ _ d Hd) in Hs. destruct d as [[t reset] r']. by apply IH.
Qed.

(** The server without events: it has not announced any offset, or it was
    reset. *)
Lemma find_event_empty s n0 request now :
  holds s n0 [] ->
  find_event s request now =
  answer (n0, []) (bool_decide (is_Some (start s))) now (last_event_offset request).
Proof.
  intros Hs. unfold find_event, answer.
  destruct (holds_empty _ _ _ Hs eq_refl) as [<- [->| ->]]; [done|].
  rewrite (bool_decide_eq_true_2 (is_Some (Some n0))) by done.
  rewrite (bool_decide_eq_true_2 (([] : list entry) = [])) by done.
  cbn [negb fst snd]. rewrite (holds_events _ _ _ Hs).
  destruct (last_event_offset request) as [n|]; cbn [option_le]; [|done].
  repeat case_bool_decide; cbn; try done; lia.
Qed.

(** The server answers as its history specifies. *)
Lemma find_event_answer s n0 log request now :
  holds s n0 log -> n0 + Z.of_nat (length log) <= 2 ^ 32 ->
  find_event s request now =
  answer (n0, log) (bool_decide (is_Some (start s))) now (last_event_offset request).
Proof.
  intros Hs Hw. destruct (decide (log = [])) as [->|Hne]; [by apply find_event_empty|].
  unfold answer. rewrite (holds_start _ _ _ Hs Hne).
  rewrite (bool_decide_eq_true_2 (is_Some _)), (bool_decide_eq_false_2 (snd _ = [])) by done.
  cbn [negb fst snd]. destruct request as [[n|] c]; cbn [last_event_offset].
  - destruct (decide (n < n0 \/ newest n0 log < n)) as [Hout|Hin].
    { rewrite (find_event_out s n0 log) by done.
      by destruct Hout; repeat case_bool_decide; try lia. }
    rewrite !(bool_decide_eq_false_2 (_ < _)) by lia. cbn [orb].
    destruct (decide (n = newest n0 log)) as [->|].
    { rewrite bool_decide_eq_true_2 by done. by apply find_event_current. }
    rewrite bool_decide_eq_false_2 by done.
    destruct (find_event_next s n0 log now Hs Hne Hw n c) as (x & Hx & <- & ->); [lia|].
    by erewrite entry_at_correct.
  - destruct (find_event_none s n0 log now Hs Hne Hw c) as (x & Hx & <- & ->).
    by erewrite entry_at_correct.
Qed.

End refinement.

(** ** After the offsets have wrapped around *)

Section wrapped.

Context {Q : CircularQueue} {QL : CircularQueueLaws}.

(** Outside the announced range the answer is a recovery, wrapped or not. *)
Lemma find_event_outside s n0 log n c now :
  holds s n0 log -> log <> [] ->
  let hi := as_uint 32 (n0 + Z.of_nat (length log) - 1) in
  n < n0 \/ hi < n ->
  find_event s {| last_event_offset := Some n; command := c |} now =
  Some (Recovery n0 hi, now).
Proof.
  intros Hs Hne hi Hn. unfold find_event.
  rewrite (holds_start _ _ _ Hs Hne), (holds_end _ _ _ Hs Hne). fold hi.
  cbn [last_event_offset]. rewrite bool_decide_eq_false_2 by done. cbn [orb option_le].
  repeat case_bool_decide; try done; lia.
Qed.

Lemma as_uint_turn x : as_uint 32 (x - 2 ^ 32) = as_uint 32 x.
Proof. unfold as_uint. replace (x - 2 ^ 32) with (x + (-1) * 2 ^ 32) by lia. apply Z_mod_plus_full. Qed.

(** The newest entries of a log that is longer than 2^32 are numbered as a
    log of their own. *)
Lemma numbered_come_around n0 log k :
  numbered n0 log -> Z.of_nat (length log) = Z.of_nat k + 2 ^ 32 -> numbered n0 (take k log).
Proof.
  revert k. induction log as [|x log IH]; intros [|k] Hlog Hl; try done.
  destruct Hlog as [Hx Hlog]. cbn [take numbered]. cbn [length] in Hl.
  split; [|apply IH; [done|lia]]. rewrite Hx, length_take, <- as_uint_turn. f_equal. lia.
Qed.

(** A server whose whole window lies after the wrap cannot be told from one
    that holds the events since then only. *)
Lemma holds_come_around s n0 log :
  holds s n0 log -> 2 ^ 32 + Z.of_nat MAX_EVENTS <= Z.of_nat (length log) ->
  holds s n0 (take (Z.to_nat (Z.of_nat (length log) - 2 ^ 32)) log).
Proof.
  intros Hs Hl. set (k := Z.to_nat _).
  assert (Z.of_nat k = Z.of_nat (length log) - 2 ^ 32) as Hk by (subst k; lia).
  assert (length (take k log) = k) as Hlk by (rewrite length_take; lia).
  assert (log <> []) as Hne by (intros ->; unfold MAX_EVENTS in *; cbn in Hl; lia).
  destruct Hs as [Hn0 Hcap Hev Hnum Hnext Hstart Hend _].
  split; [done|done| |by apply numbered_come_around; [|lia]| |by auto| |].
  - rewrite Hev, take_take. f_equal. lia.
  - rewrite Hnext, Hlk, Hk, <- as_uint_turn. f_equal. lia.
  - intros _. rewrite Hend, Hlk, Hk, <- as_uint_turn by done. do 2 f_equal. lia.
  - intros Hnil. rewrite Hnil in Hlk. unfold MAX_EVENTS in *. cbn [length] in Hlk. lia.
Qed.

(** The server after [k] events without a reset. *)
Definition after_events (r : Z) (k : nat) : Server := server_after r (replicate k (0, 1, 0)).

Lemma after_events_holds r k :
  0 <= r < Z.of_nat MAX_EVENTS ->
  exists log, holds (after_events r k) r log /\ length log = k.
Proof.
  intros Hr. exists (history_after r (replicate k (0, 1, 0))).2.
  assert (forall h, (fold_left history_event (replicate k (0, 1, 0)) h).1 = h.1 /\
    length (fold_left history_event (replicate k (0, 1, 0)) h).2 = (k + length h.2)%nat) as Hh.
  { induction k as [|k IH]; intros h; [done|]. cbn [replicate fold_left].
    destruct (IH (history_event h (0, 1, 0))) as [-> ->]. unfold history_event.
    rewrite bool_decide_eq_false_2 by done. cbn [fst snd length]. split; [done|lia]. }
  destruct (Hh (r, [])) as [Hh1 Hh2]. unfold history_after. rewrite Hh2. split; [|cbn; lia].
  rewrite <- Hh1 at 2. apply holds_after; [done|]. apply Forall_replicate.
  unfold draws_ok, MAX_EVENTS. lia.
Qed.

End wrapped.

(** ** Properties *)

Section properties.

Context {Q : CircularQueue} {QL : CircularQueueLaws}.

(** C13: whatever the event times and the random draws, the server holds
    exactly the last ten events of the history since the start or the last
    reset, in order, numbered from the first offset modulo 2^32, and the
    range of offsets it announces is the one from the first event to the
    newest. *)
Theorem server_refines_history (r : Z) (ds : list draws) :
  0 <= r < Z.of_nat MAX_EVENTS -> Forall draws_ok ds ->
  let h := history_after r ds in
  let s := server_after r ds in
  holds s h.1 h.2 /\ (length (iter (events s)) <= MAX_EVENTS)%nat.
Proof.
  intros Hr Hds h s. pose proof (holds_after r ds Hr Hds) as Hs.
  split; [done|]. subst s. rewrite (holds_events _ _ _ Hs), length_take. lia.
Qed.

(** C3: until the offsets wrap around, the server answers every request as
    the full history specifies: its oldest event to a client that has none,
    a recovery to a client whose offset is outside the announced range,
    nothing to a client that has the newest event, and else the successor of
    the client's event, or the oldest event held if that one is gone. *)
Theorem server_answers (s : Server) (n0 : Z) (log : list entry)
    (request : CommandRequest Command) (now : Instant) :
  holds s n0 log -> n0 + Z.of_nat (length log) <= 2 ^ 32 ->
  find_event s request now =
  answer (n0, log) (bool_decide (is_Some (start s))) now (last_event_offset request).
Proof.
  apply find_event_answer.
Qed.

(** C31: once the offsets have wrapped around modulo 2^32, a request that
    reports an offset below the first or above the (wrapped) newest one is
    answered with a recovery of that range, although the server may still hold
    the event asked for: any offset at all while fewer than 2^32 events have
    been logged, and later on still the last offset before the wrap.  Ten
    events after the offsets have come around to the first, the server is in
    a state of a history that holds only the events since then, and until they
    wrap around again it answers every request as that shorter history
    specifies. *)
Theorem server_wrapped (s : Server) (n0 : Z) (log : list entry) :
  let len := Z.of_nat (length log) in
  let hi := as_uint 32 (n0 + len - 1) in
  holds s n0 log -> 2 ^ 32 < n0 + len ->
  (forall n c now, n < n0 \/ hi < n ->
     find_event s {| last_event_offset := Some n; command := c |} now =
     Some (Recovery n0 hi, now)) /\
  (len < 2 ^ 32 -> hi < n0) /\
  (2 ^ 32 + Z.of_nat MAX_EVENTS <= len -> n0 + len <= 2 ^ 33 ->
   let log' := take (Z.to_nat (len - 2 ^ 32)) log in
   holds s n0 log' /\
   forall request now,
     find_event s request now = answer (n0, log') true now (last_event_offset request)).
Proof.
  intros len hi Hs Hw. pose proof (holds_n0 _ _ _ Hs) as Hn0.
  assert (log <> []) as Hne by (intros ->; unfold uint in *; cbn in *; lia).
  split_and!.
  - intros n c now Hn. by apply find_event_outside.
  - intros Hl. unfold hi, as_uint, uint in *. divmod.
  - intros Hl Hl2 log'. assert (holds s n0 log') as Hs' by by apply holds_come_around.
    split; [done|].
    intros request now.
    assert (Z.of_nat (length log') = len - 2 ^ 32) as Hl' by (unfold log'; rewrite length_take; lia).
    rewrite (find_event_answer s n0 log') by (done || lia).
    rewrite (holds_start _ _ _ Hs'); [done|]. intros Hnil.
    rewrite Hnil in Hl'. unfold MAX_EVENTS in *. cbn [length] in Hl'. lia.
Qed.

(** A client that fell behind by more than the history holds is not told:
    it gets the oldest event held, a gap it can see only in the offsets. *)
Lemma overrun_skips (s : Server) (n0 : Z) (log : list entry) (n : Z) (c : option Command)
    (now : Instant) :
  holds s n0 log -> n0 + Z.of_nat (length log) <= 2 ^ 32 ->
  n0 <= n -> n + 1 < oldest n0 log ->
  exists x, x ∈ log /\ entry_offset x = oldest n0 log /\ n + 1 < entry_offset x /\
    find_event s {| last_event_offset := Some n; command := c |} now = Some (logged x).
Proof.
  intros Hs Hw Hn Ho.
  assert (log <> []) as Hne by (intros ->; unfold oldest in Ho; cbn in Ho; lia).
  destruct (find_event_next s n0 log now Hs Hne Hw n c) as (x & Hx & Hoff & He).
  { unfold oldest, newest, MAX_EVENTS in *. lia. }
  exists x. split_and!; [done|lia|lia|done].
Qed.

End properties.

(** ** Witnesses *)

Section witnesses.

Import ListQueue.

(** Seventeen events, the third of them a reset. *)
Definition example_draws : list draws :=
  [(0, 1, 0); (10, 2, 0); (20, 0, 4)] ++ map (fun i => (30 + Z.of_nat i, 1, 0)) (seq 0 14).

Lemma example_draws_ok : Forall draws_ok example_draws.
Proof. repeat constructor; cbn; unfold MAX_EVENTS; lia. Qed.

Lemma server_refines_history_witness :
  let h := history_after 7 example_draws in
  let s := server_after 7 example_draws in
  (holds s h.1 h.2 /\ (length (iter (events s)) <= MAX_EVENTS)%nat) /\
  h.1 = 4 /\ map entry_offset (iter (events s)) = [17; 16; 15; 14; 13; 12; 11; 10; 9; 8].
Proof.
  split; [|by vm_compute].
  apply (server_refines_history 7 example_draws); [unfold MAX_EVENTS; lia|].
  apply example_draws_ok.
Defined.

(** A client that has offset 12 is sent the event at 13. *)
Lemma server_answers_witness :
  let request := {| last_event_offset := Some 12; command := Some SomeCommand |} in
  let s := server_after 7 example_draws in
  let h := history_after 7 example_draws in
  find_event s request 99 =
    answer (h.1, h.2) (bool_decide (is_Some (start s))) 99 (last_event_offset request) /\
  answer (h.1, h.2) (bool_decide (is_Some (start s))) 99 (last_event_offset request) =
    Some (Logged SomeEvent 13, 39).
Proof.
  split; [|by vm_compute]. apply server_answers.
  - apply (holds_after 7 example_draws); [unfold MAX_EVENTS; lia|apply example_draws_ok].
  - vm_compute. discriminate.
Defined.

(** A server that started at 7: after 2^32 - 5 events its offsets have wrapped
    around to 1, and after 2^32 + 20 it has come around to 26. *)
Lemma server_wrapped_witness :
  (forall n c now,
     find_event (after_events 7 (Z.to_nat (2 ^ 32 - 5)))
       {| last_event_offset := Some n; command := c |} now = Some (Recovery 7 1, now)) /\
  (forall c now,
     find_event (after_events 7 (Z.to_nat (2 ^ 32 + 20)))
       {| last_event_offset := Some (2 ^ 32 - 1); command := c |} now =
     Some (Recovery 7 26, now)) /\
  exists log, length log = 20%nat /\ holds (after_events 7 (Z.to_nat (2 ^ 32 + 20))) 7 log.
Proof.
  assert (0 <= 7 < Z.of_nat MAX_EVENTS) as H7 by (unfold MAX_EVENTS; lia).
  destruct (after_events_holds 7 (Z.to_nat (2 ^ 32 - 5)) H7) as (log1 & Hs1 & Hl1).
  destruct (after_events_holds 7 (Z.to_nat (2 ^ 32 + 20)) H7) as (log2 & Hs2 & Hl2).
  apply (f_equal Z.of_nat) in Hl1, Hl2. rewrite Z2Nat.id in Hl1, Hl2 by lia.
  destruct (server_wrapped _ _ _ Hs1) as (Hout1 & Hhi1 & _); [lia|].
  destruct (server_wrapped _ _ _ Hs2) as (Hout2 & _ & Haround); [lia|].
  rewrite Hl1 in Hout1, Hhi1. rewrite Hl2 in Hout2, Haround.
  change (as_uint 32 (7 + (2 ^ 32 - 5) - 1)) with 1 in Hout1, Hhi1.
  change (as_uint 32 (7 + (2 ^ 32 + 20) - 1)) with 26 in Hout2.
  split_and!.
  - intros n c now. apply Hout1. lia.
  - intros c now. apply Hout2. lia.
  - destruct Haround as [Hs _]; [unfold MAX_EVENTS; lia|lia|].
    eexists. split; [|exact Hs]. rewrite length_take. lia.
Defined.

End witnesses.
