(* ===== verification/OffsetRules.v ===== *)
(** * The documented rules for event offsets

    [offset-rules.md] says which event a server must send to a client that
    reports an offset.  Here the rules are a definition of their own, and
    the theorem says for exactly which offsets the example server keeps
    them. *)

From S2P Require Import Prelude Platform AppProtocol AppServer.

Section rules.
Context {Q : CircularQueue}.

(** The event in a server's history with a given offset. *)
Definition event_with (s : Server) (o : Z) : option entry :=
  snd <$> list_find (fun x => entry_offset x = o) (iter (events s)).

(** The start and end offsets available. *)
Definition available (s : Server) : Z * Z :=
  (default 0 (entry_offset <$> last (iter (events s))),
   default 0 (entry_offset <$> head (iter (events s)))).

(** The successor [s(n)], and the table of the section "Event Delivery". *)
Definition successor (n : Z) : Z := (n + 1) mod 2 ^ 32.
Definition offset_rules (s : Server) (n : Z) (now : Instant)
  : option (EventOf Event NoEE * Instant) :=
  match event_with s (successor n), event_with s n with
  | Some x, _ => Some (logged x)
  | None, Some _ => None
  | None, None => Some (Recovery (available s).1 (available s).2, now)
  end.

Context {QL : CircularQueueLaws}.
Variables (s : Server) (n0 : Z) (log : list entry).
Hypothesis Hs : holds s n0 log.
Hypothesis Hne : log <> [].
Hypothesis Hwrap : n0 + Z.of_nat (length log) <= 2 ^ 32.

Lemma event_with_in o :
  oldest n0 log <= o <= newest n0 log ->
  exists x, event_with s o = Some x /\ entry_at (n0, log) o = Some x.
Proof.
  intros Ho. pose proof (W_length log) as Hl. unfold event_with.
  rewrite (holds_events _ _ _ Hs). fold (window log).
  destruct (window log !! Z.to_nat (newest n0 log - o)) as [x|] eqn:Hx.
  2: { apply lookup_ge_None in Hx. unfold oldest, newest, MAX_EVENTS in *. lia. }
  destruct (W_lookup s n0 log Hs Hwrap _ _ Hx) as [Hin Hoff].
  exists x. split.
  - apply fmap_Some. exists (Z.to_nat (newest n0 log - o), x). split; [|done].
    apply list_find_Some. split_and!; [done|lia|].
    intros i y Hy Hi. destruct (W_lookup s n0 log Hs Hwrap _ _ Hy) as [_ ->]. lia.
  - rewrite <- (entry_at_correct s n0 log x Hs Hwrap Hin). f_equal. lia.
Qed.

Lemma event_with_out o : ~ oldest n0 log <= o <= newest n0 log -> event_with s o = None.
Proof.
  intros Ho. unfold event_with. apply fmap_None, list_find_None, Forall_forall.
  rewrite (holds_events _ _ _ Hs). fold (window log). intros x Hx.
  apply list_elem_of_lookup in Hx as [i Hi]. pose proof (lookup_lt_Some _ _ _ Hi) as Hlt.
  rewrite W_length in Hlt. destruct (W_lookup s n0 log Hs Hwrap _ _ Hi) as [_ ->].
  unfold oldest, newest in *. lia.
Qed.

Lemma available_range : available s = (oldest n0 log, newest n0 log).
Proof.
  unfold available. rewrite (holds_events _ _ _ Hs). fold (window log).
  destruct (last_W s n0 log Hs Hne Hwrap) as (x & -> & _ & Hx).
  pose proof (W_length log) as Hl. pose proof (log_length_pos log Hne).
  destruct (window log) as [|y w] eqn:Hw; [unfold MAX_EVENTS in *; cbn in Hl; lia|].
  destruct (W_lookup s n0 log Hs Hwrap 0 y) as [_ Hy]; [by rewrite Hw|]. cbn.
  rewrite Hx, Hy. f_equal. lia.
Qed.

(** What the rules ask for, by the place of the offset in the history. *)
Lemma offset_rules_cases n now :
  uint 32 n ->
  offset_rules s n now =
  if decide (oldest n0 log <= successor n <= newest n0 log)
  then logged <$> entry_at (n0, log) (successor n)
  else if decide (n = newest n0 log) then None
  else Some (Recovery (oldest n0 log) (newest n0 log), now).
Proof.
  intros Hn. unfold offset_rules. rewrite available_range. cbn [fst snd].
  pose proof (log_length_pos log Hne) as Hpos. pose proof (holds_n0 _ _ _ Hs) as Hn0.
  case_decide as Hsucc.
  { by destruct (event_with_in _ Hsucc) as (x & -> & ->). }
  rewrite (event_with_out _ Hsucc). case_decide as Hnew.
  - destruct (event_with_in n) as (x & -> & _); [|done].
    unfold oldest, newest, MAX_EVENTS in *. lia.
  - rewrite event_with_out; [done|]. intros Hin. apply Hsucc.
    unfold successor, oldest, newest, uint, MAX_EVENTS in *. rewrite Z.mod_small; lia.
Qed.

Lemma entry_at_some o :
  oldest n0 log <= o <= newest n0 log ->
  exists e t, logged <$> entry_at (n0, log) o = Some (Logged e o, t).
Proof.
  intros Ho. destruct (event_with_in o Ho) as (x & Hx & ->).
  apply fmap_Some in Hx as ([i y] & Hy & ->). apply list_find_Some in Hy as (_ & Hy & _).
  destruct y as [[e o'] t]. cbn in *. subst o'. by exists e, t.
Qed.

(** C10: while the offsets have not wrapped around, the server's answer to a
    client that reports the offset [n] is the one [offset-rules.md] asks for
    exactly in two cases: [n] is in the announced range and the history still
    has its successor, or [n] itself as its newest; or no event was dropped yet,
    [n] is outside the range, and the first event is not its successor. *)
Theorem offset_rules_kept (n : Z) (c : option Command) (now : Instant) :
  uint 32 n ->
  find_event s {| last_event_offset := Some n; command := c |} now = offset_rules s n now <->
  (n0 <= n /\ oldest n0 log - 1 <= n <= newest n0 log) \/
  (oldest n0 log = n0 /\ (n < n0 \/ newest n0 log < n) /\ successor n <> n0).
Proof.
  intros Hn. rewrite (find_event_answer s n0 log) by done.
  rewrite offset_rules_cases by done. unfold answer. cbn [last_event_offset fst snd].
  rewrite (holds_start _ _ _ Hs Hne), (bool_decide_eq_true_2 (is_Some _)) by done.
  rewrite (bool_decide_eq_false_2 (log = [])) by done. cbn [negb].
  pose proof (log_length_pos log Hne) as Hpos. pose proof (holds_n0 _ _ _ Hs) as Hn0.
  assert (oldest n0 log <= newest n0 log /\ n0 <= oldest n0 log /\
          (newest n0 log = 2 ^ 32 - 1 -> 0 < oldest n0 log)) as (Hon & Hno & Htop).
  { unfold oldest, newest, MAX_EVENTS, uint in *. lia. }
  assert (newest n0 log < 2 ^ 32) as Htop' by (unfold newest; lia).
  destruct (decide (n < n0 \/ newest n0 log < n)) as [Hout|Hin].
  - assert (bool_decide (n < n0) || bool_decide (newest n0 log < n) = true) as ->.
    { by destruct Hout; repeat case_bool_decide. }
    destruct (decide (oldest n0 log <= successor n <= newest n0 log)) as [Hsucc|Hsucc].
    + destruct (entry_at_some _ Hsucc) as (e & t & ->). split; [done|].
      intros [?|(Ho & _ & Hne')]; [lia|]. exfalso. unfold successor, uint in *.
      destruct (decide (n = 2 ^ 32 - 1)) as [->|]; [|rewrite Z.mod_small in *; lia].
      change ((2 ^ 32 - 1 + 1) mod 2 ^ 32) with 0 in *. lia.
    + rewrite decide_False by lia. split.
      * intros [= Ho]. right. split_and!; [done|done|]. intros Hs0. apply Hsucc. lia.
      * intros [?|(-> & _)]; [lia|done].
  - rewrite !(bool_decide_eq_false_2 (_ < _)) by lia. cbn [orb].
    destruct (decide (n = newest n0 log)) as [Heq|Hneq].
    + rewrite bool_decide_eq_true_2 by done. rewrite decide_False.
      * split; [intros _; left; lia|done].
      * unfold successor. destruct (decide (n = 2 ^ 32 - 1)) as [->|].
        { change ((2 ^ 32 - 1 + 1) mod 2 ^ 32) with 0. lia. }
        unfold uint in Hn. rewrite Z.mod_small by lia. lia.
    + rewrite bool_decide_eq_false_2 by done.
      assert (successor n = n + 1) as -> by (unfold successor, uint in *; rewrite Z.mod_small; lia).
      destruct (decide (oldest n0 log <= n + 1)) as [Ho|Ho].
      * rewrite Z.max_l, decide_True by lia. split; [intros _; left; lia|done].
      * rewrite Z.max_r by lia.
        rewrite (decide_False (P := oldest n0 log <= n + 1 <= newest n0 log)) by lia.
        destruct (entry_at_some (oldest n0 log)) as (e & t & ->); [lia|].
        split; [done|]. intros [?|(_ & ? & _)]; lia.
Qed.

End rules.

(** ** Witness *)

Section witnesses.
Import ListQueue.

(** The history of [AppServer]'s examples: offsets 4 to 17, of which 8 to 17
    are kept.  The rules are kept for a client at 7, the last for which the
    next event is there, and not for one at 6. *)
Lemma offset_rules_kept_witness :
  let s := server_after 7 example_draws in
  find_event s {| last_event_offset := Some 7; command := None |} 99 = offset_rules s 7 99 /\
  find_event s {| last_event_offset := Some 6; command := None |} 99 <> offset_rules s 6 99.
Proof.
  assert (holds (server_after 7 example_draws) 4 (history_after 7 example_draws).2) as Hs.
  { apply (holds_after 7 example_draws); [unfold MAX_EVENTS; lia|apply example_draws_ok]. }
  assert (4 + Z.of_nat (length (history_after 7 example_draws).2) <= 2 ^ 32) as Hw
    by (vm_compute; discriminate).
  split.
  - apply (offset_rules_kept _ _ _ Hs ltac:(done) Hw 7); [by split|].
    left. vm_compute. by split.
  - intros Heq%(offset_rules_kept _ _ _ Hs ltac:(done) Hw 6); [|by split].
    vm_compute in Heq. by destruct Heq as [(_ & [] & _)|(? & _)].
Defined.
End witnesses.
