(* ===== verification/AppClient.v ===== *)
(** * The example client: [app/examples/client/main.rs]

    One turn of the client's loop builds a request from its state, sends it,
    and handles the reply or the timeout. *)

From S2P Require Import Prelude Serde PostcardRef Platform AppProtocol AppServer.

(** The state of the loop. *)
Module Client.

Record t := {
  last_event_offset : option Z;
  event_count : Z;
  init_mode : bool;
  recovery_event_offset : option Z;
}.

(** The state before the loop. *)
Definition init : t :=
  {| last_event_offset := None; event_count := 0; init_mode := true;
     recovery_event_offset := None |}.

(** The request of a turn. *)
Definition request (c : t) : CommandRequest Command :=
  {| AppProtocol.last_event_offset := last_event_offset c;
     command := if init_mode c then None else Some SomeCommand |}.

(** The datagram sent, if the request fits one. *)
Definition send `{Postcard} (c : t) : option (list Z) :=
  ok (fst (to_slice (serialize (request c)) (replicate MAX_DATAGRAM_SIZE 0))).

(** What is done with a reply. *)
Definition handle_reply (c : t) (reply : EventReply (EventOf Event NoEE)) : t :=
  match event reply with
  | Some (Recovery start end_) =>
      {| last_event_offset := Some start;
         event_count := 0;
         init_mode := true;
         recovery_event_offset := if bool_decide (start <> end_) then Some end_ else None |}
  | Some (Logged _ offset) =>
      {| last_event_offset := Some offset;
         event_count := wrapping_add 32 (event_count c) 1;
         init_mode :=
           if bool_decide (Some offset = recovery_event_offset c) then true else init_mode c;
         recovery_event_offset := recovery_event_offset c |}
  | _ => c
  end.

(** The reply in a received datagram; [None] is the timeout. *)
Definition receive_reply `{Postcard} (datagram : option (list Z))
  : option (EventReply (EventOf Event NoEE)) :=
  datagram ← datagram;
  ok (from_bytes deserialize (take MAX_DATAGRAM_SIZE datagram)).

(** The receiving half of a turn. *)
Definition receive `{Postcard} (c : t) (datagram : option (list Z)) : t :=
  match receive_reply datagram with
  | Some reply => handle_reply c reply
  | None => c
  end.

(** ** What holds of the client whatever it receives *)

Record valid (c : t) : Prop := {
  valid_last o : last_event_offset c = Some o -> uint 32 o;
  valid_count : uint 32 (event_count c);
  valid_recovery o : recovery_event_offset c = Some o -> uint 32 o;
  valid_init : init_mode c = true;
}.

Lemma valid_init_client : valid init.
Proof. by split; cbn. Qed.

(** The offsets of a reply are 32-bit integers. *)
Definition reply_ok (reply : EventReply (EventOf Event NoEE)) : Prop :=
  match event reply with
  | Some (Logged _ o) => uint 32 o
  | Some (Recovery a b) => uint 32 a /\ uint 32 b
  | _ => True
  end.

Lemma handle_reply_valid c reply : reply_ok reply -> valid c -> valid (handle_reply c reply).
Proof.
  intros Hr [Hl Hc Hrec Hi]. unfold reply_ok, handle_reply in *.
  destruct (event reply) as [[e o|ee|a b]|]; [..|by split]; [| |].
  - split; cbn; [by intros ? [= <-]| |done|by case_bool_decide].
    apply as_uint_range. lia.
  - by split.
  - destruct Hr as [Ha Hb]. split; cbn; [by intros ? [= <-]|done| |done].
    intros o. case_bool_decide; [|done]. by intros [= <-].
Qed.

Section receiving.

Context {F : SerdeFormat} {P : Postcard} {L : PostcardLaws}.

Lemma EventOf_read_ok d (v : EventOf Event NoEE) d' :
  deserialize d = (Ok v, d') ->
  match v with
  | Logged _ o => uint 32 o
  | Ephemeral _ => True
  | Recovery a b => uint 32 a /\ uint 32 b
  end.
Proof.
  intros Hd. change (EventOf_deserialize d = (Ok v, d')) in Hd.
  apply reader_bind_inv in Hd as (i & d1 & _ & Hd).
  destruct i as [|[| [| |]|]|]; try discriminate Hd.
  - apply reader_bind_inv in Hd as (e & d2 & _ & Hd).
    apply reader_bind_inv in Hd as (o & d3 & Ho & [= <- _]).
    by eapply deserialize_u32_range.
  - apply reader_bind_inv in Hd as (a & d2 & Ha & Hd).
    apply reader_bind_inv in Hd as (b & d3 & Hb & [= <- _]).
    split; by eapply deserialize_u32_range.
  - by apply reader_bind_inv in Hd as (ee & d2 & _ & [= <- _]).
Qed.

Lemma receive_reply_ok datagram reply :
  receive_reply datagram = Some reply -> reply_ok reply.
Proof.
  unfold receive_reply. destruct datagram as [bs|]; [|done]. cbn [mbind option_bind].
  rewrite from_bytes_run. intros Hr.
  destruct (deserialize (of_bytes (take MAX_DATAGRAM_SIZE bs))) as [[r|] d] eqn:Hd; [|done].
  injection Hr as ->.
  change (EventReply_deserialize (of_bytes (take MAX_DATAGRAM_SIZE bs)) = (Ok reply, d)) in Hd.
  unfold EventReply_deserialize in Hd. rewrite deserialize_struct_read in Hd.
  apply reader_bind_inv in Hd as (t & d1 & _ & Hd).
  apply reader_bind_inv in Hd as (o & d2 & Ho & [= <- _]).
  unfold reply_ok. cbn [event]. unfold deserialise_last_field in Ho.
  destruct (deserialize d1) as [[v|e] d3] eqn:Hv; injection Ho as <- <-; [|done].
  by apply EventOf_read_ok in Hv.
Qed.

Lemma receive_valid c datagram : valid c -> valid (receive c datagram).
Proof.
  intros Hc. unfold receive. destruct (receive_reply datagram) as [reply|] eqn:Hr; [|done].
  apply handle_reply_valid; [|done]. by eapply receive_reply_ok.
Qed.

(** C25: whatever datagrams arrive and whichever are lost, the client stays in
    its initial mode: no request it sends carries a command, so the command
    the loop is built around is never given. *)
Theorem client_never_commands (datagrams : list (option (list Z))) :
  let c := fold_left receive datagrams init in
  valid c /\ command (request c) = None.
Proof.
  intros c. assert (valid c) as Hc.
  { subst c. generalize valid_init_client. generalize init.
    induction datagrams as [|d ds IH]; intros c Hc; [done|]. by apply IH, receive_valid. }
  split; [done|]. unfold request. by rewrite (valid_init _ Hc).
Qed.

(** After a recovery the client
    restarts at the first offset, counts from zero, and notes the offset at
    which it has recovered exactly when there is anything to recover. *)
Lemma handle_recovery c delta start end_ :
  let c' := handle_reply c {| delta_ticks := delta; event := Some (Recovery start end_) |} in
  last_event_offset c' = Some start /\ event_count c' = 0 /\
  (recovery_event_offset c' = Some end_ <-> start <> end_).
Proof. cbn. split_and!; [done..|]. by case_bool_decide. Qed.

End receiving.

Section witnesses.

Import PostcardRef.

(** A recovery from 4 to 6, a timeout, garbage, and the event at 6. *)
Lemma client_never_commands_witness :
  let c := fold_left receive [Some [0; 2; 4; 6]; None; Some [255]; Some [3; 0; 0; 6]] init in
  (valid c /\ command (request c) = None) /\
  c = {| last_event_offset := Some 6; event_count := 1; init_mode := true;
         recovery_event_offset := Some 6 |}.
Proof. split; [apply client_never_commands|by vm_compute]. Defined.

End witnesses.

End Client.
