(* ===== verification/AppSystem.v ===== *)
(** * The example client and server together

    One exchange of the half duplex protocol, over a network that may lose
    the request or the reply, and the sequences of exchanges and events. *)

From stdpp Require Import sorting.
From S2P Require Import Prelude Serde PostcardRef Platform AppProtocol AppServer AppClient.

(** ** Messages fit their buffers *)

Section messages.

Context {F : SerdeFormat} {P : Postcard} {L : PostcardLaws}.

Lemma varint32_length x : uint 32 x -> (length (varint x) <= 5)%nat.
Proof. intros Hx. apply (varint_length_le 4). unfold uint in *. lia. Qed.

Lemma varint64_length x : uint 64 x -> (length (varint x) <= 10)%nat.
Proof. intros Hx. apply (varint_length_le 9). unfold uint in *. lia. Qed.

Lemma request_length (r : CommandRequest Command) :
  wire_ok r -> (length (encode r) <= MAX_DATAGRAM_SIZE)%nat.
Proof.
  destruct r as [o c]. intros [Ho _]. unfold MAX_DATAGRAM_SIZE.
  cbn [encode CommandRequest_encoding AppProtocol.last_event_offset command].
  rewrite length_app.
  assert (length (encode_last_field c) <= 1)%nat.
  { destruct c; cbn; [|lia]. by rewrite varint_small by lia. }
  enough (length (encode_option varint o) <= 6)%nat by lia.
  destruct o as [n|]; cbn; [|lia]. pose proof (varint32_length n (Ho n eq_refl)). lia.
Qed.

Lemma reply_length (r : EventReply (EventOf Event NoEE)) :
  wire_ok r -> (length (encode r) <= MAX_DATAGRAM_SIZE)%nat.
Proof.
  destruct r as [t e]. intros [Ht He]. unfold MAX_DATAGRAM_SIZE.
  cbn [encode EventReply_encoding delta_ticks event] in *.
  rewrite length_app. pose proof (varint64_length t Ht).
  enough (length (encode_last_field e) <= 12)%nat by lia.
  destruct e as [v|]; [|cbn; lia]. specialize (He v eq_refl).
  destruct v as [e o|ee|a b]; cbn in He |- *; rewrite ?length_app.
  - destruct He as [_ Ho]. rewrite !(varint_small 0) by lia. cbn [length].
    pose proof (varint32_length o Ho). lia.
  - rewrite varint_small by lia. cbn. lia.
  - destruct He as [Ha Hb]. rewrite varint_small by lia. cbn [length].
    pose proof (varint32_length a Ha). pose proof (varint32_length b Hb). lia.
Qed.

(** What the server reads is the client's request. *)
Lemma send_request c :
  Client.valid c ->
  exists bs, Client.send c = Some bs /\
    from_bytes deserialize (take MAX_DATAGRAM_SIZE bs) = Ok (Client.request c).
Proof.
  intros Hc. assert (wire_ok (Client.request c)) as Hr.
  { split; [apply (Client.valid_last _ Hc)|done]. }
  pose proof (request_length _ Hr) as Hl.
  exists (encode (Client.request c)). unfold Client.send.
  rewrite to_slice_encode by (done || by rewrite length_replicate).
  split; [done|]. rewrite take_ge by done. by apply from_bytes_encode_end.
Qed.

(** What the client reads is the server's reply. *)
Lemma receive_sent_reply (reply : EventReply (EventOf Event NoEE)) :
  wire_ok reply ->
  Client.receive_reply
    (ok (fst (to_slice (serialize reply) (replicate MAX_DATAGRAM_SIZE 0)))) = Some reply.
Proof.
  intros Hr. pose proof (reply_length _ Hr) as Hl.
  rewrite to_slice_encode by (done || by rewrite length_replicate).
  unfold Client.receive_reply. cbn [fst ok mbind option_bind].
  rewrite take_ge by done. by rewrite from_bytes_encode_end.
Qed.

End messages.

(** ** An exchange *)

(** A time since the origin that the seconds of a [Duration] can count. *)
Definition instant (t : Instant) : Prop := 0 <= t < 2 ^ 64 * 10 ^ 9.

Inductive fate := Delivered | RequestLost | ReplyLost.

#[export] Instance fate_eq_dec : EqDecision fate.
Proof. solve_decision. Defined.

Inductive step :=
  | EventDue (t : Instant) (reset r : Z)
  | Exchange (f : fate) (now now' : Instant).

Section exchange.

Context {F : SerdeFormat} {P : Postcard} {Q : CircularQueue}.

(** The datagram the client receives within its turn. *)
Definition reply_datagram (s : Server) (c : Client.t) (f : fate) (now now' : Instant)
  : option (list Z) :=
  match f, Client.send c with
  | Delivered, Some datagram => on_datagram s datagram now now'
  | _, _ => None
  end.

(** The two states after a step, and the event the client got. *)
Definition exec (sc : Server * Client.t) (x : step)
  : Server * Client.t * option (EventOf Event NoEE) :=
  let '(s, c) := sc in
  match x with
  | EventDue t reset r => (on_event s t reset r, c, None)
  | Exchange f now now' =>
      let datagram := reply_datagram s c f now now' in
      (s, Client.receive c datagram, Client.receive_reply datagram ≫= event)
  end.

(** The states after a sequence of steps, and the events the client got. *)
Fixpoint exec_all (sc : Server * Client.t) (xs : list step)
  : Server * Client.t * list (EventOf Event NoEE) :=
  match xs with
  | [] => (sc, [])
  | x :: xs =>
      let '(sc, got) := exec sc x in
      let '(sc, gots) := exec_all sc xs in
      (sc, option_list got ++ gots)
  end.

End exchange.

(** ** Both sides understand each other *)

Section faithful.

Context {Q : CircularQueue}.

(** The times of a log. *)
Definition timed (log : list entry) : Prop := Forall (fun x => instant x.2) log.

Lemma secs_since_range now' t : instant now' -> instant t -> uint 64 (secs_since now' t).
Proof.
  unfold instant, secs_since, uint. intros Hn Ht. split; [apply Z.div_pos; lia|].
  apply Z.div_lt_upper_bound; lia.
Qed.

Lemma skip_while_head {A} (p : A -> bool) l x : head (skip_while p l) = Some x -> x ∈ l.
Proof.
  induction l as [|y l IH]; cbn; [done|].
  destruct (p y); [intros Hx; apply list_elem_of_further; auto|].
  cbn. intros [= ->]. apply list_elem_of_here.
Qed.

(** Where the answer to a request comes from. *)
Lemma find_event_inv s request now e t :
  find_event s request now = Some (e, t) ->
  (exists x, x ∈ iter (events s) /\ (e, t) = logged x) \/
  (exists a b, start s = Some a /\ end_ s = Some b /\ e = Recovery a b /\ t = now).
Proof.
  unfold find_event. destruct (start s) as [a|], (end_ s) as [b|]; try done.
  destruct (_ || _); [|intros [= <- <-]; right; eauto 10].
  intros He. left. apply fmap_Some in He as (x & Hx & He). exists x.
  split; [|by destruct x as [[? ?] ?]].
  destruct (bool_decide _); [by eapply skip_while_head|].
  do 2 (destruct (bool_decide _); [done|]). by apply last_Some_elem_of.
Qed.

Lemma numbered_range n0 log x : numbered n0 log -> x ∈ log -> uint 32 (entry_offset x).
Proof.
  induction log as [|y log IH]; intros Hl Hx; [by apply elem_of_nil in Hx|].
  destruct Hl as [Hy Hl]. apply elem_of_cons in Hx as [->|Hx]; [|by apply IH].
  rewrite Hy. apply as_uint_range. lia.
Qed.

Context {F : SerdeFormat} {P : Postcard} {L : PostcardLaws}.

Lemma reply_to_wire s n0 log request now now' :
  holds s n0 log -> timed log -> instant now -> instant now' ->
  wire_ok (reply_to s request now now').
Proof.
  intros Hs Ht Hnow Hnow'. unfold reply_to.
  destruct (find_event s request now) as [[e t]|] eqn:He; [|by split; cbn].
  enough (instant t /\ wire_ok e) as [Hi Hwe].
  { split; cbn; [by apply secs_since_range|]. by intros ? [= <-]. }
  apply find_event_inv in He as [(x & Hx & He)|(a & b & Ha & Hb & -> & ->)].
  - rewrite (holds_events _ _ _ Hs) in Hx. apply elem_of_take in Hx as (i & Hi & _).
    apply list_elem_of_lookup_2 in Hi.
    pose proof (numbered_range _ _ _ (holds_numbered _ _ _ Hs) Hi) as Ho.
    unfold timed in Ht. rewrite Forall_forall in Ht. specialize (Ht x Hi).
    destruct x as [[e' o] t']. injection He as -> ->. done.
  - split; [done|]. destruct log as [|x log].
    + destruct (holds_empty _ _ _ Hs eq_refl) as [Heq [H0|H0]]; [congruence|].
      pose proof (holds_n0 _ _ _ Hs). rewrite Heq in *. split; congruence.
    + pose proof (holds_start _ _ _ Hs). pose proof (holds_end _ _ _ Hs).
      pose proof (holds_n0 _ _ _ Hs).
      rewrite H in Ha by done. rewrite H0 in Hb by done.
      injection Ha as <-. injection Hb as <-. split; [done|]. apply as_uint_range. lia.
Qed.

Lemma exchange_reply s n0 log c now now' :
  holds s n0 log -> timed log -> Client.valid c -> instant now -> instant now' ->
  Client.receive_reply (reply_datagram s c Delivered now now') =
  Some (reply_to s (Client.request c) now now').
Proof.
  intros Hs Ht Hc Hnow Hnow'. unfold reply_datagram.
  destruct (send_request c Hc) as (bs & -> & Hbs). unfold on_datagram. rewrite Hbs.
  apply receive_sent_reply. by eapply reply_to_wire.
Qed.

(** An exchange that is not lost, by the answer the server finds. *)
Lemma exec_delivered s n0 log c now now' :
  holds s n0 log -> timed log -> Client.valid c -> instant now -> instant now' ->
  let reply := reply_to s (Client.request c) now now' in
  exec (s, c) (Exchange Delivered now now') =
  (s, Client.handle_reply c reply, fst <$> find_event s (Client.request c) now).
Proof.
  intros Hs Ht Hc Hnow Hnow' reply. unfold exec, Client.receive.
  rewrite (exchange_reply s n0 log) by done. fold reply. f_equal.
  subst reply. unfold reply_to. by destruct (find_event _ _ _) as [[e t]|].
Qed.

End faithful.

(** ** Delivery *)

Section delivery.

Context {Q : CircularQueue}.

(** The client has every event from [n0] on up to, and without, the offset
    [e]; the server has events up to [n0 + length log]. *)
Record synced (s : Server) (c : Client.t) (n0 : Z) (log : list entry) (e : Z) : Prop := {
  synced_holds : holds s n0 log;
  synced_fresh : log = [] -> start s = None;
  synced_timed : timed log;
  synced_client : Client.valid c;
  synced_wrap : n0 + Z.of_nat (length log) <= 2 ^ 32;
  synced_next : n0 <= e <= n0 + Z.of_nat (length log);
  synced_last :
    match Client.last_event_offset c with
    | None => e = n0
    | Some n => e = n + 1 /\ n0 <= n
    end;
}.

Context {F : SerdeFormat} {P : Postcard} {QL : CircularQueueLaws} {L : PostcardLaws}.

(** What a synchronised client is sent. *)
Lemma find_event_synced s c n0 log e now :
  synced s c n0 log e ->
  if decide (e < n0 + Z.of_nat (length log)) then
    exists x, x ∈ log /\ entry_offset x = Z.max e (oldest n0 log) /\
      find_event s (Client.request c) now = Some (logged x)
  else find_event s (Client.request c) now = None.
Proof.
  intros [Hs Hf _ _ Hw Hn Hl]. unfold Client.request.
  destruct (decide (log = [])) as [->|Hne].
  { rewrite decide_False by (cbn in *; lia). unfold find_event. by rewrite Hf. }
  pose proof (log_length_pos log Hne) as Hpos.
  destruct (Client.last_event_offset c) as [n|].
  - destruct Hl as [-> Hl]. case_decide.
    + apply (find_event_next s n0 log now Hs Hne Hw). unfold newest. lia.
    + replace n with (newest n0 log) by (unfold newest; lia).
      by apply find_event_current.
  - subst e. rewrite decide_True by lia.
    destruct (find_event_none s n0 log now Hs Hne Hw
                (if Client.init_mode c then None else Some SomeCommand)) as (x & Hx & Hoff & He).
    exists x. split_and!; [done| |done]. rewrite Hoff. unfold oldest. lia.
Qed.

Lemma synced_deliver s c n0 log e o delta :
  synced s c n0 log e -> e <= o < n0 + Z.of_nat (length log) ->
  synced s (Client.handle_reply c
              {| delta_ticks := delta; event := Some (Logged SomeEvent o) |}) n0 log (o + 1).
Proof.
  intros [Hs Hf Ht Hc Hw Hn Hl] Ho. split; try done.
  - apply Client.handle_reply_valid; [|done].
    pose proof (holds_n0 _ _ _ Hs). cbn. unfold uint in *. lia.
  - lia.
  - cbn. lia.
Qed.

(** One exchange with a synchronised client: the next event it lacks and the
    server still has, if there is one and nothing is lost. *)
Lemma exchange_synced s c n0 log e f now now' :
  synced s c n0 log e -> instant now -> instant now' ->
  let o := Z.max e (oldest n0 log) in
  let '(s', c', got) := exec (s, c) (Exchange f now now') in
  s' = s /\
  if decide (f = Delivered /\ e < n0 + Z.of_nat (length log))
  then got = Some (Logged SomeEvent o) /\ synced s c' n0 log (o + 1) /\
       Client.last_event_offset c' = Some o
  else got = None /\ c' = c.
Proof.
  intros Hsync Hnow Hnow' o.
  destruct (decide (f = Delivered)) as [->|Hf].
  - pose proof Hsync as [Hs _ Ht Hc _ _ _].
    rewrite (exec_delivered s n0 log) by done. cbn [fst snd]. split; [done|].
    pose proof (find_event_synced _ _ _ _ _ now Hsync) as He. unfold reply_to.
    destruct (decide (e < _)) as [Hlt|Hge].
    + destruct He as (x & Hx & Hoff & ->). rewrite decide_True by done.
      destruct x as [[[] o'] t]. cbn in Hoff. subst o'. cbn [logged fmap option_fmap option_map].
      split_and!; [done| |done]. apply (synced_deliver _ _ _ _ e); [done|].
      pose proof (synced_next _ _ _ _ _ Hsync). subst o. unfold oldest, MAX_EVENTS. lia.
    + rewrite He, decide_False by tauto. done.
  - unfold exec. split; [done|]. rewrite decide_False by tauto. by destruct f.
Qed.

Lemma synced_event s c n0 log e t reset r :
  synced s c n0 log e -> reset <> 0 -> instant t ->
  n0 + Z.of_nat (length log) + 1 <= 2 ^ 32 ->
  synced (on_event s t reset r) c n0 ((SomeEvent, event_offset s, t) :: log) e.
Proof.
  intros [Hs Hf Ht Hc Hw Hn Hl] Hr Hi Hw'.
  split; cbn [length]; try done; [by apply holds_push|by constructor|lia..].
Qed.

(** ** Sequences of steps *)

(** A step at times that can be counted. *)
Definition step_timed (x : step) : Prop :=
  match x with
  | EventDue t _ _ => instant t
  | Exchange _ now now' => instant now /\ instant now'
  end.

(** The server is not reset in this step: of 40 draws, 39 do not reset it. *)
Definition no_reset (x : step) : Prop :=
  match x with
  | EventDue _ reset _ => reset <> 0
  | Exchange _ _ _ => True
  end.

(** A step without a reset, at times that can be counted. *)
Definition step_ok (x : step) : Prop :=
  match x with
  | EventDue t reset _ => instant t /\ reset <> 0
  | Exchange _ now now' => instant now /\ instant now'
  end.

Lemma steps_ok xs : Forall step_timed xs -> Forall no_reset xs -> Forall step_ok xs.
Proof.
  rewrite !Forall_forall. intros Ht Hr x Hx. specialize (Ht x Hx). specialize (Hr x Hx).
  by destruct x.
Qed.

Definition is_event_due (x : step) : bool :=
  match x with EventDue _ _ _ => true | Exchange _ _ _ => false end.
Definition events_due (xs : list step) : nat := length (filter (fun x => is_event_due x) xs).

(** Offsets in order from [e] on; the next one would be [e'] or later. *)
Fixpoint ascending (e : Z) (os : list Z) (e' : Z) : Prop :=
  match os with
  | [] => e' = e
  | o :: os => e <= o /\ ascending (o + 1) os e'
  end.

Lemma ascending_sorted e os e' :
  ascending e os e' -> StronglySorted Z.lt os /\ Forall (fun o => e <= o < e') os /\ e <= e'.
Proof.
  revert e. induction os as [|o os IH]; intros e; cbn.
  - intros ->. split_and!; [constructor..|lia].
  - intros [Ho Hos]. destruct (IH _ Hos) as (Hsort & Hall & He).
    split_and!; [|constructor; [lia|]|lia].
    + constructor; [done|]. eapply Forall_impl; [exact Hall|]. cbn. lia.
    + eapply Forall_impl; [exact Hall|]. cbn. lia.
Qed.

Lemma exec_all_synced xs s c n0 log e :
  synced s c n0 log e -> Forall step_ok xs ->
  n0 + Z.of_nat (length log + events_due xs) <= 2 ^ 32 ->
  let '(s', c', got) := exec_all (s, c) xs in
  exists log' os e',
    got = map (Logged SomeEvent) os /\ ascending e os e' /\
    synced s' c' n0 (log' ++ log) e' /\ length log' = events_due xs.
Proof.
  revert s c log e. induction xs as [|x xs IH]; intros s c log e Hs Hxs Hw.
  { exists [], [], e. done. }
  apply Forall_cons in Hxs as [Hx Hxs]. destruct x as [t reset r|f now now'].
  - destruct Hx as [Ht Hreset]. cbn [exec_all exec].
    change (events_due (_ :: xs)) with (S (events_due xs)) in *.
    apply (synced_event _ _ _ _ _ t reset r) in Hs; [|done|done|lia].
    specialize (IH _ _ _ _ Hs Hxs). destruct (exec_all _ xs) as [[s' c'] got].
    destruct IH as (log' & os & e' & Hgot & Hos & Hs' & Hl); [cbn [length]; lia|].
    exists (log' ++ [(SomeEvent, event_offset s, t)]), os, e'.
    rewrite <- app_assoc, length_app. split_and!; [done..|cbn; lia].
  - destruct Hx as [Hnow Hnow']. cbn [exec_all].
    change (events_due (_ :: xs)) with (events_due xs) in *.
    pose proof (exchange_synced _ _ _ _ _ f now now' Hs Hnow Hnow') as Hex.
    destruct (exec (s, c) (Exchange f now now')) as [[s1 c1] got1].
    destruct Hex as [-> Hex]. case_decide.
    + destruct Hex as (-> & Hs1 & _). specialize (IH _ _ _ _ Hs1 Hxs Hw).
      destruct (exec_all _ xs) as [[s' c'] got].
      destruct IH as (log' & os & e' & -> & Hos & Hs' & Hl).
      exists log', (Z.max e (oldest n0 log) :: os), e'. split_and!; [done| |done..].
      cbn. split; [lia|done].
    + destruct Hex as [-> ->]. specialize (IH _ _ _ _ Hs Hxs Hw).
      by destruct (exec_all _ xs) as [[s' c'] got].
Qed.

(** The server has not dropped the event at [e] from its history. *)
Definition still_has (s : Server) (e : Z) : Prop :=
  match last (iter (events s)) with
  | Some x => entry_offset x <= e
  | None => True
  end.

(** The server never drops an event the client is yet to get. *)
Definition keeps_up (sc : Server * Client.t) (xs : list step) (e : Z) : Prop :=
  forall pre post, xs = pre ++ post ->
    still_has (exec_all sc pre).1.1 (e + Z.of_nat (length (exec_all sc pre).2)).

Lemma still_has_oldest s c n0 log e :
  synced s c n0 log e -> still_has s e -> oldest n0 log <= e.
Proof.
  intros [Hs _ _ _ Hw Hn _]. destruct (decide (log = [])) as [->|Hne].
  { intros _. unfold oldest. cbn. lia. }
  destruct (last_W s n0 log Hs Hne Hw) as (x & Hx & _ & Hoff).
  unfold still_has. rewrite (holds_events _ _ _ Hs). fold (window log). rewrite Hx. lia.
Qed.

(** What [keeps_up] says of the steps after the first. *)
Lemma keeps_up_tail sc x xs e :
  keeps_up sc (x :: xs) e ->
  keeps_up (exec sc x).1 xs (e + Z.of_nat (length (option_list (exec sc x).2))).
Proof.
  intros Hk pre post ->. specialize (Hk (x :: pre) post eq_refl). cbn [exec_all] in Hk.
  destruct (exec sc x) as [sc1 got1]. cbn [fst snd] in *.
  destruct (exec_all sc1 pre) as [sc2 got2]. cbn [fst snd] in *.
  rewrite length_app in Hk. by replace (e + _ + _) with
    (e + Z.of_nat (length (option_list got1) + length got2)) by lia.
Qed.

Lemma exec_all_gapless xs s c n0 log e :
  synced s c n0 log e -> Forall step_ok xs ->
  n0 + Z.of_nat (length log + events_due xs) <= 2 ^ 32 ->
  keeps_up (s, c) xs e ->
  let got := (exec_all (s, c) xs).2 in
  got = map (Logged SomeEvent) (seqZ e (Z.of_nat (length got))).
Proof.
  revert s c log e. induction xs as [|x xs IH]; intros s c log e Hs Hxs Hw Hk; [done|].
  pose proof (keeps_up_tail _ _ _ _ Hk) as Hk'.
  apply Forall_cons in Hxs as [Hx Hxs]. destruct x as [t reset r|f now now'].
  - destruct Hx as [Ht Hreset]. cbn [exec_all exec fst snd option_list length] in *.
    change (events_due (_ :: xs)) with (S (events_due xs)) in *.
    apply (synced_event _ _ _ _ _ t reset r) in Hs; [|done|done|lia].
    rewrite Z.add_0_r in Hk'.
    specialize (IH _ _ _ _ Hs Hxs). destruct (exec_all _ xs) as [[s' c'] got].
    apply IH; [cbn [length]; lia|done].
  - destruct Hx as [Hnow Hnow']. cbn [exec_all].
    change (events_due (_ :: xs)) with (events_due xs) in *.
    pose proof (still_has_oldest _ _ _ _ _ Hs) as Ho.
    specialize (Hk [] _ eq_refl). cbn [exec_all fst snd length] in Hk.
    rewrite Z.add_0_r in Hk. specialize (Ho Hk).
    pose proof (exchange_synced _ _ _ _ _ f now now' Hs Hnow Hnow') as Hex.
    destruct (exec (s, c) (Exchange f now now')) as [[s1 c1] got1].
    cbn [fst snd] in Hk'. destruct Hex as [-> Hex]. case_decide.
    + destruct Hex as (-> & Hs1 & _). rewrite Z.max_l in Hs1 by done.
      specialize (IH _ _ _ _ Hs1 Hxs Hw Hk'). rewrite Z.max_l by done.
      destruct (exec_all _ xs) as [[s' c'] got].
      change (option_list (Some (Logged SomeEvent e))) with [Logged (EE:=NoEE) SomeEvent e].
      cbn [fst snd app length] in *.
      rewrite (seqZ_cons e (Z.of_nat (S (length got)))) by lia. cbn [map]. f_equal. rewrite IH at 1.
      replace (Z.pred _) with (Z.of_nat (length got)) by lia. done.
    + destruct Hex as [-> ->]. cbn [option_list length] in Hk'. rewrite Z.add_0_r in Hk'.
      specialize (IH _ _ _ _ Hs Hxs Hw Hk').
      by destruct (exec_all _ xs) as [[s' c'] got].
Qed.

(** ** Catching up *)

Definition delivered (x : step) : Prop :=
  exists now now', x = Exchange Delivered now now' /\ instant now /\ instant now'.

(** A synchronised client needs one exchange per event it lacks and the
    server has. *)
Lemma catch_up_synced xs s c n0 log e :
  synced s c n0 log e -> log <> [] -> Forall delivered xs ->
  Z.min (n0 + Z.of_nat (length log) - e) (Z.of_nat MAX_EVENTS) <= Z.of_nat (length xs) ->
  Client.last_event_offset (exec_all (s, c) xs).1.2 = Some (newest n0 log).
Proof.
  revert c e. induction xs as [|x xs IH]; intros c e Hs Hne Hxs Hl.
  - pose proof (log_length_pos log Hne). destruct Hs as [_ _ _ _ _ Hn Hlast].
    cbn [length] in Hl. unfold MAX_EVENTS, newest in *. cbn [exec_all fst snd].
    destruct (Client.last_event_offset c); [f_equal|]; lia.
  - apply Forall_cons in Hxs as [(now & now' & -> & Hnow & Hnow') Hxs].
    pose proof (exchange_synced _ _ _ _ _ Delivered now now' Hs Hnow Hnow') as Hex.
    cbn [exec_all]. destruct (exec (s, c) _) as [[s1 c1] got1]. destruct Hex as [-> Hex].
    case_decide as He.
    + destruct Hex as (_ & Hs1 & _). specialize (IH _ _ Hs1 Hne Hxs).
      destruct (exec_all _ xs) as [[s' c'] got]. apply IH.
      cbn [length] in Hl. unfold oldest, MAX_EVENTS in *. lia.
    + destruct Hex as [_ ->]. specialize (IH _ _ Hs Hne Hxs).
      destruct (exec_all _ xs) as [[s' c'] got]. apply IH.
      unfold MAX_EVENTS in *. apply not_and_l in He as [He|He]; [done|]. lia.
Qed.

(** A client whose offset is out of range is sent back to the first one. *)
Lemma exchange_recovery s c n0 log n now now' :
  holds s n0 log -> log <> [] -> timed log -> Client.valid c ->
  n0 + Z.of_nat (length log) <= 2 ^ 32 ->
  Client.last_event_offset c = Some n -> n < n0 \/ newest n0 log < n ->
  instant now -> instant now' ->
  exists c', exec (s, c) (Exchange Delivered now now') =
             (s, c', Some (Recovery n0 (newest n0 log))) /\
             synced s c' n0 log (n0 + 1).
Proof.
  intros Hs Hne Ht Hc Hw Hn Hout Hnow Hnow'. rewrite (exec_delivered s n0 log) by done.
  pose proof (log_length_pos log Hne). pose proof (holds_n0 _ _ _ Hs).
  unfold reply_to, Client.request. rewrite Hn, (find_event_out s n0 log) by done.
  eexists. split; [done|]. split; try done.
  - apply Client.handle_reply_valid; [|done]. cbn. unfold uint, newest in *. lia.
  - lia.
Qed.

(** An exchange, whatever becomes of it, and whether it gets through. *)
Definition quiet (x : step) : Prop :=
  match x with
  | EventDue _ _ _ => False
  | Exchange _ now now' => instant now /\ instant now'
  end.
Definition through (x : step) : bool :=
  match x with
  | Exchange Delivered _ _ => true
  | _ => false
  end.

Lemma quiet_delivered xs :
  Forall quiet xs -> Forall delivered (filter (fun x => through x = true) xs).
Proof.
  intros Hxs. apply Forall_forall. intros x [Hx Hin]%list_elem_of_filter.
  rewrite Forall_forall in Hxs. specialize (Hxs x Hin).
  destruct x as [|[] now now']; try done. by exists now, now'.
Qed.

(** The exchanges that do not get through change nothing. *)
Lemma exec_all_through xs sc :
  Forall quiet xs -> exec_all sc xs = exec_all sc (filter (fun x => through x = true) xs).
Proof.
  intros Hxs. revert sc. induction Hxs as [|x xs Hx _ IH]; intros [s c]; [done|].
  rewrite filter_cons. case_decide as Ht.
  - cbn [exec_all]. destruct (exec (s, c) x) as [sc1 got1]. by rewrite IH.
  - cbn [exec_all]. assert (exec (s, c) x = (s, c, None)) as ->.
    { destruct x as [|[] now now']; done. }
    rewrite IH. by destruct (exec_all (s, c) _) as [sc1 got].
Qed.

Lemma catch_up_delivered (s : Server) (c : Client.t) (n0 : Z) (log : list entry) (xs : list step) :
  holds s n0 log -> log <> [] -> timed log -> Client.valid c ->
  n0 + Z.of_nat (length log) <= 2 ^ 32 ->
  Forall delivered xs -> (MAX_EVENTS < length xs)%nat ->
  Client.last_event_offset (exec_all (s, c) xs).1.2 = Some (newest n0 log).
Proof.
  intros Hs Hne Ht Hc Hw Hxs Hl.
  assert (forall e, synced s c n0 log e ->
    Client.last_event_offset (exec_all (s, c) xs).1.2 = Some (newest n0 log)) as Hsync.
  { intros e He. apply (catch_up_synced xs _ _ _ _ e); try done. lia. }
  destruct (Client.last_event_offset c) as [n|] eqn:Hn.
  - destruct (decide (n < n0 \/ newest n0 log < n)) as [Hout|Hin].
    + destruct xs as [|x xs]; [cbn in Hl; lia|].
      apply Forall_cons in Hxs as [(now & now' & -> & Hnow & Hnow') Hxs].
      destruct (exchange_recovery s c n0 log n now now') as (c' & Hex & Hs'); try done.
      cbn [exec_all]. rewrite Hex.
      pose proof (catch_up_synced xs _ _ _ _ _ Hs' Hne Hxs) as Hcatch.
      destruct (exec_all _ xs) as [[s2 c2] got]. apply Hcatch.
      cbn [length] in Hl. unfold MAX_EVENTS in *. lia.
    + apply (Hsync (n + 1)). split; try done; [unfold newest in *; lia|].
      rewrite Hn. split; lia.
  - pose proof (log_length_pos log Hne). apply (Hsync n0). split; try done; [lia|by rewrite Hn].
Qed.

End delivery.

(** ** Properties *)

Section properties.

Context {Q : CircularQueue} {F : SerdeFormat} {P : Postcard}.
Context {QL : CircularQueueLaws} {L : PostcardLaws}.

(** The client and the server as they start, [r] being the first offset. *)
Definition start_of (r : Z) : Server * Client.t := (init_server r, Client.init).

Lemma synced_start r :
  0 <= r < Z.of_nat MAX_EVENTS -> synced (init_server r) Client.init r [] r.
Proof.
  intros Hr. unfold MAX_EVENTS in Hr.
  split; [by apply holds_init|done|constructor|apply Client.valid_init_client|..];
    cbn in *; lia || done.
Qed.

(** C24: every request the client builds fits its buffer and is read by the
    server as it was built, and every reply the server builds fits its
    buffer and is read by the client as it was built. *)
Theorem exchange_faithful (s : Server) (n0 : Z) (log : list entry) (c : Client.t)
    (now now' : Instant) :
  holds s n0 log -> timed log -> Client.valid c -> instant now -> instant now' ->
  exists datagram reply,
    Client.send c = Some datagram /\ (length datagram <= MAX_DATAGRAM_SIZE)%nat /\
    on_datagram s datagram now now' = Some reply /\ (length reply <= MAX_DATAGRAM_SIZE)%nat /\
    from_bytes deserialize datagram = Ok (Client.request c) /\
    Client.receive c (Some reply) =
      Client.handle_reply c (reply_to s (Client.request c) now now').
Proof.
  intros Hs Ht Hc Hnow Hnow'.
  assert (wire_ok (Client.request c)) as Hr by (split; [apply (Client.valid_last _ Hc)|done]).
  pose proof (reply_to_wire s n0 log (Client.request c) now now' Hs Ht Hnow Hnow') as Hw.
  pose proof (request_length _ Hr) as Hlr. pose proof (reply_length _ Hw) as Hlw.
  exists (encode (Client.request c)), (encode (reply_to s (Client.request c) now now')).
  unfold Client.send, on_datagram, Client.receive, Client.receive_reply.
  cbn [mbind option_bind]. rewrite (take_ge (encode (Client.request c))) by done.
  rewrite (take_ge (encode (reply_to _ _ _ _))) by done.
  rewrite !from_bytes_encode_end by done. cbn [ok].
  rewrite !to_slice_encode by (done || by rewrite length_replicate). done.
Qed.

(** C1: as long as the server is not reset and its offsets have not wrapped
    around, whichever requests and replies are lost, and however the events
    and the exchanges interleave, a client that starts with the server gets
    events only, each at most once and in the order of their offsets, and its
    position is always within the server's history. *)
Theorem delivery_in_order (r : Z) (xs : list step) :
  0 <= r < Z.of_nat MAX_EVENTS -> Forall step_timed xs -> Forall no_reset xs ->
  r + Z.of_nat (events_due xs) <= 2 ^ 32 ->
  let '(s', c', got) := exec_all (start_of r) xs in
  exists os log e,
    got = map (Logged SomeEvent) os /\ StronglySorted Z.lt os /\
    Forall (fun o => r <= o < e) os /\
    synced s' c' r log e /\ length log = events_due xs.
Proof.
  intros Hr Htimed Hreset Hw. pose proof (steps_ok xs Htimed Hreset) as Hxs. unfold start_of.
  pose proof (exec_all_synced xs _ _ _ _ _ (synced_start r Hr) Hxs Hw) as Hex.
  destruct (exec_all _ xs) as [[s' c'] got].
  destruct Hex as (log & os & e & Hgot & Hos & Hs & Hl). rewrite app_nil_r in Hs.
  apply ascending_sorted in Hos as (? & ? & ?). by exists os, log, e.
Qed.

(** C19: as long as the server is not reset and its offsets have not wrapped
    around, if its history never drops an event that the client is yet to get,
    then the client gets all events, from the first one on, without a gap,
    whichever requests and replies are lost. *)
Theorem delivery_without_gaps (r : Z) (xs : list step) :
  0 <= r < Z.of_nat MAX_EVENTS -> Forall step_timed xs -> Forall no_reset xs ->
  r + Z.of_nat (events_due xs) <= 2 ^ 32 ->
  keeps_up (start_of r) xs r ->
  let got := (exec_all (start_of r) xs).2 in
  got = map (Logged SomeEvent) (seqZ r (Z.of_nat (length got))).
Proof.
  intros Hr Htimed Hreset Hw Hk. pose proof (steps_ok xs Htimed Hreset).
  by apply (exec_all_gapless xs _ _ r [] r); [apply synced_start|..].
Qed.

(** C12: whatever the client believes, eleven exchanges that get through bring
    it to the newest event, as long as no new event is due; any number of
    exchanges may be lost before, between and after them. *)
Theorem catch_up (s : Server) (c : Client.t) (n0 : Z) (log : list entry) (xs : list step) :
  holds s n0 log -> log <> [] -> timed log -> Client.valid c ->
  n0 + Z.of_nat (length log) <= 2 ^ 32 ->
  Forall quiet xs -> (MAX_EVENTS < length (filter (fun x => through x = true) xs))%nat ->
  Client.last_event_offset (exec_all (s, c) xs).1.2 = Some (newest n0 log).
Proof.
  intros Hs Hne Ht Hc Hw Hxs Hl. rewrite exec_all_through by done.
  apply (catch_up_delivered s c n0 log); try done. by apply quiet_delivered.
Qed.

(** The event at the first offset is not sent after a recovery: the client
    takes that offset for one it already has. *)
Lemma recovery_loses_first (s : Server) (c : Client.t) (n0 : Z) (log : list entry) (n : Z)
    (now now' : Instant) (xs : list step) :
  holds s n0 log -> log <> [] -> timed log -> Client.valid c ->
  n0 + Z.of_nat (length log) + Z.of_nat (events_due xs) <= 2 ^ 32 ->
  Client.last_event_offset c = Some n -> n < n0 \/ newest n0 log < n ->
  instant now -> instant now' -> Forall step_ok xs ->
  exists os,
    (exec_all (s, c) (Exchange Delivered now now' :: xs)).2 =
      Recovery n0 (newest n0 log) :: map (Logged SomeEvent) os /\
    ~ n0 ∈ os.
Proof.
  intros Hs Hne Ht Hc Hw Hn Hout Hnow Hnow' Hxs.
  destruct (exchange_recovery s c n0 log n now now') as (c' & Hex & Hs'); try done; [lia|].
  pose proof (exec_all_synced xs _ _ _ _ _ Hs' Hxs) as Hall.
  cbn [exec_all]. rewrite Hex. destruct (exec_all _ xs) as [[s2 c2] got].
  destruct Hall as (log' & os & e & -> & Hos & _); [lia|].
  exists os. split; [done|]. apply ascending_sorted in Hos as (_ & Hall & _).
  intros Hin. rewrite Forall_forall in Hall. specialize (Hall _ Hin). lia.
Qed.

End properties.

(** ** Witnesses *)

Section witnesses.

Import ListQueue PostcardRef.

Definition example_server : Server := server_after 7 example_draws.
Definition example_log : list entry := (history_after 7 example_draws).2.

Lemma example_holds : holds example_server 4 example_log.
Proof.
  apply (holds_after 7 example_draws); [unfold MAX_EVENTS; lia|apply example_draws_ok].
Qed.

Lemma example_timed : timed example_log.
Proof. repeat constructor; cbn; lia. Qed.

(** A client that has the event at 12. *)
Definition example_client : Client.t :=
  {| Client.last_event_offset := Some 12; Client.event_count := 3;
     Client.init_mode := true; Client.recovery_event_offset := None |}.

Lemma example_client_valid : Client.valid example_client.
Proof. split; cbn; try done. by intros o [= <-]. Qed.

Lemma exchange_faithful_witness :
  exists datagram reply,
    Client.send example_client = Some datagram /\ (length datagram <= MAX_DATAGRAM_SIZE)%nat /\
    on_datagram example_server datagram 99 100 = Some reply /\
    (length reply <= MAX_DATAGRAM_SIZE)%nat /\
    from_bytes deserialize datagram = Ok (Client.request example_client) /\
    Client.receive example_client (Some reply) =
      Client.handle_reply example_client
        (reply_to example_server (Client.request example_client) 99 100).
Proof.
  apply (exchange_faithful example_server 4 example_log example_client 99 100).
  - apply example_holds.
  - apply example_timed.
  - apply example_client_valid.
  - split; lia.
  - split; lia.
Defined.

(** Three events and some exchanges, of which two are lost. *)
Definition example_steps : list step :=
  [Exchange Delivered 1 1; EventDue 10 1 0; EventDue 20 2 0; Exchange RequestLost 21 21;
   Exchange Delivered 22 23; EventDue 30 1 0; Exchange ReplyLost 31 31;
   Exchange Delivered 32 33; Exchange Delivered 42 43; Exchange Delivered 52 53].

Lemma example_steps_timed : Forall step_timed example_steps.
Proof. repeat constructor; cbn; unfold instant; lia. Qed.

Lemma example_steps_no_reset : Forall no_reset example_steps.
Proof. by repeat constructor. Qed.

Lemma delivery_in_order_witness :
  (let '(s', c', got) := exec_all (start_of 7) example_steps in
   exists os log e,
     got = map (Logged SomeEvent) os /\ StronglySorted Z.lt os /\
     Forall (fun o => 7 <= o < e) os /\
     synced s' c' 7 log e /\ length log = events_due example_steps) /\
  (exec_all (start_of 7) example_steps).2 = map (Logged SomeEvent) [7; 8; 9].
Proof.
  split; [|by vm_compute].
  apply (delivery_in_order 7 example_steps); [unfold MAX_EVENTS; lia|apply example_steps_timed|apply example_steps_no_reset|].
  vm_compute. discriminate.
Defined.

(** The condition on every prefix of the steps, as a test. *)
Fixpoint keeps_up_test (sc : Server * Client.t) (xs : list step) (e : Z) : bool :=
  match last (iter (events sc.1)) with
  | Some x => bool_decide (entry_offset x <= e)
  | None => true
  end &&
  match xs with
  | [] => true
  | x :: xs =>
      let '(sc, got) := exec sc x in
      keeps_up_test sc xs (e + Z.of_nat (length (option_list got)))
  end.

Lemma keeps_up_test_sound xs sc e : keeps_up_test sc xs e = true -> keeps_up sc xs e.
Proof.
  revert sc e. induction xs as [|x xs IH]; intros sc e Ht pre post Hxs.
  - symmetry in Hxs. apply app_nil in Hxs as [-> _]. cbn [exec_all fst snd length].
    unfold still_has. cbn [keeps_up_test] in Ht. rewrite Z.add_0_r.
    destruct (last _); [|done]. rewrite andb_true_r in Ht. by apply bool_decide_eq_true_1 in Ht.
  - cbn [keeps_up_test] in Ht. apply andb_true_iff in Ht as [Hh Ht].
    destruct pre as [|y pre].
    + cbn [exec_all fst snd length]. unfold still_has. rewrite Z.add_0_r.
      destruct (last _); [|done]. by apply bool_decide_eq_true_1 in Hh.
    + injection Hxs as <- Hxs. cbn [exec_all]. destruct (exec sc x) as [sc1 got1].
      specialize (IH _ _ Ht pre post Hxs).
      destruct (exec_all sc1 pre) as [sc2 got2]. cbn [fst snd] in *.
      rewrite length_app. by replace (e + Z.of_nat (_ + _)) with
        (e + Z.of_nat (length (option_list got1)) + Z.of_nat (length got2)) by lia.
Qed.

Lemma delivery_without_gaps_witness :
  let got := (exec_all (start_of 7) example_steps).2 in
  got = map (Logged SomeEvent) (seqZ 7 (Z.of_nat (length got))).
Proof.
  apply (delivery_without_gaps 7 example_steps); [unfold MAX_EVENTS; lia|apply example_steps_timed|apply example_steps_no_reset| |].
  - vm_compute. discriminate.
  - apply keeps_up_test_sound. by vm_compute.
Defined.

(** A client whose offset is out of range. *)
Definition lost_client : Client.t :=
  {| Client.last_event_offset := Some 1000; Client.event_count := 3;
     Client.init_mode := true; Client.recovery_event_offset := None |}.

Lemma catch_up_witness :
  Client.last_event_offset
    (exec_all (example_server, lost_client)
       (Exchange ReplyLost 98 98 :: replicate 11 (Exchange Delivered 99 100))).1.2 =
  Some (newest 4 example_log).
Proof.
  apply (catch_up example_server lost_client 4 example_log).
  - apply example_holds.
  - done.
  - apply example_timed.
  - split; cbn; try done. by intros o [= <-].
  - vm_compute. discriminate.
  - repeat constructor; cbn; lia.
  - vm_compute. lia.
Defined.

End witnesses.
