(* ===== verification/AppTime.v ===== *)
(** * Time in the application examples

    The server's task that times the events, the age of an event in a reply,
    the time that the client makes of it, and the pace of the client. *)

From S2P Require Import Prelude Serde PostcardRef Platform AppProtocol AppServer AppClient AppSystem.

(** A second, in nanoseconds. *)
Definition SECOND : Z := 10 ^ 9.

(** ** The server's event task *)

(** A turn of the task's loop that begins at [event_time] and draws the delay
    [secs]: when it wakes, if that instant can be represented ([limit] is the
    first that cannot), and the event that it then sends. *)
Definition event_turn (limit event_time secs : Z) : option (Instant * Instant) :=
  if decide (event_time + secs * SECOND < limit)
  then Some (event_time + secs * SECOND, event_time) else None.

(** The turns, by their beginnings and draws: the events sent, in order. *)
Fixpoint event_task (limit : Z) (turns : list (Instant * Z)) : list Instant :=
  match turns with
  | [] => []
  | (event_time, secs) :: turns =>
      option_list (snd <$> event_turn limit event_time secs) ++ event_task limit turns
  end.

(** The clock does not go back: a turn begins when the one before has ended. *)
Fixpoint clocked (limit now : Z) (turns : list (Instant * Z)) : Prop :=
  match turns with
  | [] => True
  | (event_time, secs) :: turns =>
      now <= event_time /\ 0 <= secs < 3 /\
      clocked limit (default event_time (fst <$> event_turn limit event_time secs)) turns
  end.

(** ** The client's clock *)

Section client_clock.

(** [chrono::Duration::from_std] of whole seconds, and
    [DateTime::checked_sub_signed]. *)
Variable from_std : Z -> result unit Z.
Variable checked_sub_signed : Instant -> Z -> option Instant.

(** The time that the client prints for a reply received at [now]. *)
Definition local_time (now : Instant) (delta_ticks : Z) : option Instant :=
  checked_sub_signed now
    match from_std delta_ticks with Ok d => d | Err _ => 0 end.

End client_clock.

(** The instants at which the client sends: at [next_send_time], or when the
    turn before has ended, [duration] after its own sending. *)
Fixpoint send_times (now next_send_time : Instant) (durations : list Z) : list Instant :=
  let now := Z.max now next_send_time in
  now ::
  match durations with
  | [] => []
  | duration :: durations => send_times (now + duration) (next_send_time + SECOND) durations
  end.

(** ** Properties *)

(** The events of the task go up in time. *)
Lemma event_task_ascending limit now turns :
  clocked limit now turns ->
  forall i j t u, event_task limit turns !! i = Some t -> event_task limit turns !! j = Some u ->
    (i <= j)%nat -> now <= t <= u.
Proof.
  revert now. induction turns as [|[event_time secs] turns IH]; intros now Hc i j t u Hi Hj Hij;
    [done|].
  destruct Hc as (Hnow & Hsecs & Hc). cbn [event_task] in *. unfold event_turn in *.
  case_decide as Hlim; cbn in *.
  - destruct i as [|i], j as [|j]; cbn in Hi, Hj.
    + injection Hi as <-. injection Hj as <-. lia.
    + injection Hi as <-. destruct (IH _ Hc j j u u Hj Hj); unfold SECOND in *; lia.
    + lia.
    + destruct (IH _ Hc i j t u Hi Hj); unfold SECOND in *; lia.
  - destruct (IH _ Hc i j t u Hi Hj Hij). lia.
Qed.

(** The times in a log are the last ones of those due, the latest first. *)
Lemma history_times r ds :
  let log := (history_after r ds).2 in
  map snd log = take (length log) (reverse (map (fun d : draws => d.1.1) ds)).
Proof.
  induction ds as [|d ds IH] using rev_ind; [done|]. cbn zeta in *.
  unfold history_after in *. rewrite fold_left_app, map_app, reverse_app. cbn [fold_left map].
  destruct (fold_left history_event ds (r, [])) as [n0 log]. cbn [snd] in IH.
  destruct d as [[t reset] r']. unfold history_event. case_bool_decide; [done|].
  cbn [snd length map fst]. rewrite IH. by destruct (reverse _).
Qed.

(** The server's event task feeds its history in the order of time: of two
    events in the history, the one with the larger offset is not older. *)
Theorem history_in_time_order `{CircularQueueLaws} (limit r : Z) (ds : list draws)
    (turns : list (Instant * Z)) :
  0 <= r < Z.of_nat MAX_EVENTS -> Forall draws_ok ds -> clocked limit 0 turns ->
  map (fun d : draws => d.1.1) ds = event_task limit turns ->
  forall i j x y, iter (events (server_after r ds)) !! i = Some x ->
    iter (events (server_after r ds)) !! j = Some y -> (i <= j)%nat -> y.2 <= x.2.
Proof.
  intros Hr Hds Hclock Htimes i j x y Hx Hy Hij.
  pose proof (holds_after r ds Hr Hds) as Hs. rewrite (holds_events _ _ _ Hs) in Hx, Hy.
  apply lookup_take_Some in Hx as [Hx _], Hy as [Hy _].
  pose proof (history_times r ds) as Hlog. cbn zeta in Hlog. rewrite Htimes in Hlog.
  assert (forall k z, (history_after r ds).2 !! k = Some z ->
    event_task limit turns !! (length (event_task limit turns) - 1 - k)%nat = Some z.2 /\
    (k < length (event_task limit turns))%nat) as Hlook.
  { intros k z Hz. assert (map snd (history_after r ds).2 !! k = Some z.2) as Hz'.
    { rewrite list_lookup_fmap. apply fmap_Some. by exists z. }
    rewrite Hlog in Hz'. apply lookup_take_Some in Hz' as [Hz' _].
    apply reverse_lookup_Some in Hz' as [Hz' ?]. split; [|done].
    by replace (_ - 1 - k)%nat with (length (event_task limit turns) - S k)%nat by lia. }
  destruct (Hlook i x Hx) as [Hxi ?], (Hlook j y Hy) as [Hyj ?].
  apply (event_task_ascending limit 0 turns Hclock _ _ _ _ Hyj Hxi). lia.
Qed.

(** A client whose turns take no more than a second sends every second. *)
Theorem send_times_regular (now next : Instant) (durations : list Z) :
  now <= next -> Forall (fun d => 0 <= d <= SECOND) durations ->
  send_times now next durations =
  map (fun i => next + Z.of_nat i * SECOND) (seq 0 (S (length durations))).
Proof.
  intros Hnow Hd. revert now next Hnow. induction Hd as [|d ds Hd _ IH]; intros now next Hnow.
  { cbn. f_equal. lia. }
  cbn [send_times length]. rewrite (IH (Z.max now next + d) (next + SECOND)) by lia.
  change (seq 0 (S (S (length ds)))) with (0%nat :: seq 1 (S (length ds))).
  rewrite <- (fmap_S_seq 0). cbn [map]. f_equal; [lia|]. rewrite map_map.
  apply map_ext. intros i. lia.
Qed.

Section properties.

Context {Q : CircularQueue} {F : SerdeFormat} {P : Postcard} {L : PostcardLaws}.
Variable from_std : Z -> result unit Z.
Variable checked_sub_signed : Instant -> Z -> option Instant.
(** A duration of chrono counts up to [2^63 - 1] milliseconds. *)
Hypothesis from_std_ok : forall secs, 0 <= secs < 2 ^ 63 / 1000 -> from_std secs = Ok (secs * SECOND).
Hypothesis checked_sub_ok : forall now d, 0 <= d <= now -> checked_sub_signed now d = Some (now - d).

(** C37: the time that the client prints for an event it is sent is the time at
    which the server's task made the event, later by the time that the reply
    was under way, and by less than a second. *)
Theorem client_times_events (s : Server) (n0 : Z) (log : list entry) (c : Client.t)
    (now now' received t : Instant) (e : Event) (o : Z) :
  holds s n0 log -> timed log -> Client.valid c -> instant now -> instant now' ->
  find_event s (Client.request c) now = Some (Logged e o, t) ->
  0 <= t <= now' -> now' <= received -> now' < 2 ^ 63 / 1000 * SECOND ->
  exists reply printed,
    Client.receive_reply (reply_datagram s c Delivered now now') = Some reply /\
    event reply = Some (Logged e o) /\
    local_time from_std checked_sub_signed received (delta_ticks reply) = Some printed /\
    t + (received - now') <= printed < t + (received - now') + SECOND.
Proof.
  intros Hs Ht Hc Hnow Hnow' He Hage Hrec Hlim.
  rewrite (exchange_reply s n0 log) by done. unfold reply_to. rewrite He. cbn [event_reply].
  set (secs := secs_since now' t).
  assert (secs * SECOND <= now' - t < secs * SECOND + SECOND) as Hsecs.
  { unfold secs, secs_since, SECOND. rewrite Z.max_r by lia. divmod. }
  assert (0 <= secs < 2 ^ 63 / 1000 /\ 0 <= secs * SECOND) as [Hrange Hpos]
    by (unfold SECOND in *; lia).
  eexists _, (received - secs * SECOND). split; [done|]. split; [done|].
  cbn [delta_ticks]. unfold local_time. rewrite from_std_ok, checked_sub_ok by (done || lia).
  split; [done|]. lia.
Qed.

End properties.

(** ** Witnesses *)

Section witnesses.

Import ListQueue PostcardRef.

(** The task draws delays of 2, 0 and 1 seconds. *)
Lemma history_in_time_order_witness :
  forall i j x y,
    iter (events (server_after 7 [(0, 1, 0); (2 * SECOND, 3, 0); (5 * SECOND, 9, 0)])) !! i = Some x ->
    iter (events (server_after 7 [(0, 1, 0); (2 * SECOND, 3, 0); (5 * SECOND, 9, 0)])) !! j = Some y ->
    (i <= j)%nat -> y.2 <= x.2.
Proof.
  apply (history_in_time_order (2 ^ 63) 7 [(0, 1, 0); (2 * SECOND, 3, 0); (5 * SECOND, 9, 0)]
           [(0, 2); (2 * SECOND, 0); (5 * SECOND, 1)]).
  - unfold MAX_EVENTS. lia.
  - repeat constructor; unfold MAX_EVENTS; lia.
  - vm_compute. repeat split; discriminate.
  - by vm_compute.
Defined.

Lemma send_times_regular_witness :
  send_times 3 5 [SECOND; 7] = [5; 5 + SECOND; 5 + 2 * SECOND].
Proof.
  apply (send_times_regular 3 5 [SECOND; 7]); [lia|].
  repeat constructor; unfold SECOND; lia.
Defined.

(** The event at 9, made 2.5 seconds before the reply, which takes 0.1
    seconds. *)
Definition timed_server : Server :=
  on_event (on_event (init_server 8) 0 1 0) (3 * SECOND) 1 0.

Lemma client_times_events_witness :
  let c := {| Client.last_event_offset := Some 8; Client.event_count := 1;
              Client.init_mode := true; Client.recovery_event_offset := None |} in
  exists reply printed,
    Client.receive_reply (reply_datagram timed_server c Delivered
      (5500 * 10 ^ 6) (5500 * 10 ^ 6)) = Some reply /\
    event reply = Some (Logged SomeEvent 9) /\
    local_time (fun secs => Ok (secs * SECOND)) (fun now d => Some (now - d))
      (5600 * 10 ^ 6) (delta_ticks reply) = Some printed /\
    3 * SECOND + (5600 * 10 ^ 6 - 5500 * 10 ^ 6) <= printed <
      3 * SECOND + (5600 * 10 ^ 6 - 5500 * 10 ^ 6) + SECOND.
Proof.
  apply (client_times_events (fun secs => Ok (secs * SECOND)) (fun now d => Some (now - d))
           ltac:(done) ltac:(done) timed_server 8
           [(SomeEvent, 9, 3 * SECOND); (SomeEvent, 8, 0)]).
  - apply (holds_push (on_event (init_server 8) 0 1 0) 8 [(SomeEvent, 8, 0)] (3 * SECOND) 1 0);
      [done|]. apply (holds_push (init_server 8) 8 [] 0 1 0); [done|].
    apply holds_init. unfold MAX_EVENTS. lia.
  - repeat constructor; unfold instant, SECOND; cbn; lia.
  - split; cbn; try done. by intros o [= <-].
  - split; lia.
  - split; lia.
  - by vm_compute.
  - unfold SECOND. lia.
  - lia.
  - by vm_compute.
Defined.

End witnesses.
