(* ===== verification/AppResets.v ===== *)
(** * The example client and server across resets

    The server forgets its events now and then, and starts again from an
    offset that the client may know from before.  What the client then gets,
    over the network of [AppSystem], which loses requests and replies. *)

From S2P Require Import Prelude Serde PostcardRef Platform AppProtocol AppServer AppClient AppSystem.

Section resets.

Context {Q : CircularQueue}.

(** ** What a client may see *)

(** From the position [pos], a client that gets [got] ends at [pos']: the
    offsets go up between two recoveries, and a recovery comes only when the
    position is outside the range it carries, and restarts at its start. *)
Fixpoint follows (pos : option Z) (got : list (EventOf Event NoEE)) (pos' : option Z) : Prop :=
  match got with
  | [] => pos' = pos
  | Logged _ o :: got => (forall n, pos = Some n -> n < o) /\ follows (Some o) got pos'
  | Recovery a b :: got =>
      a <= b /\ (exists n, pos = Some n /\ (n < a \/ b < n)) /\ follows (Some a) got pos'
  | Ephemeral _ :: _ => False
  end.

(** The events since the last recovery, on top of [n] before it. *)
Fixpoint count_since (n : Z) (got : list (EventOf Event NoEE)) : Z :=
  match got with
  | [] => n
  | Recovery _ _ :: got => count_since 0 got
  | _ :: got => count_since (n + 1) got
  end.

(** Where the client recovers to: the end of the last recovery's range, if
    that has more than one offset. *)
Fixpoint recovering (target : option Z) (got : list (EventOf Event NoEE)) : option Z :=
  match got with
  | [] => target
  | Recovery a b :: got => recovering (if bool_decide (a <> b) then Some b else None) got
  | _ :: got => recovering target got
  end.

(** A step at times that can be counted, with draws in their ranges. *)
Definition step_draws_ok (x : step) : Prop :=
  match x with
  | EventDue t reset r => instant t /\ draws_ok (t, reset, r)
  | Exchange _ now now' => instant now /\ instant now'
  end.

(** ** One exchange *)

(** The server's events lie ahead of the client, and its ranges elsewhere. *)
Definition ahead (pos : option Z) (v : EventOf Event NoEE) : Prop :=
  match v with
  | Logged _ o => uint 32 o /\ forall n, pos = Some n -> n < o
  | Recovery a b => a <= b /\ exists n, pos = Some n /\ (n < a \/ b < n)
  | Ephemeral _ => False
  end.

Context {QL : CircularQueueLaws}.

Lemma find_event_ahead s n0 log request now v t :
  holds s n0 log -> n0 + Z.of_nat (length log) <= 2 ^ 32 ->
  find_event s request now = Some (v, t) -> ahead (last_event_offset request) v.
Proof.
  intros Hs Hw. destruct (decide (log = [])) as [->|Hne].
  - rewrite (find_event_empty s n0) by done. unfold answer. cbn [fst snd].
    destruct (bool_decide (is_Some _)); [|done]. cbn [negb].
    destruct (last_event_offset request) as [n|]; [|done].
    rewrite (bool_decide_eq_true_2 ([] = [])) by done.
    repeat case_bool_decide; cbn [orb]; try done; intros [= <- _]; cbn; eauto with lia.
  - pose proof (holds_n0 _ _ _ Hs) as Hn0. pose proof (log_length_pos log Hne).
    assert (forall x, x ∈ log -> uint 32 (entry_offset x)) as Hlog.
    { intros x Hx. by apply (numbered_range n0 log), Hx; destruct Hs. }
    destruct request as [[n|] c]; cbn [last_event_offset].
    + destruct (decide (n < n0 \/ newest n0 log < n)) as [Hout|Hin].
      { rewrite (find_event_out s n0 log) by done. intros [= <- _]. cbn.
        unfold newest in *. split; [lia|]. eauto. }
      destruct (decide (n = newest n0 log)) as [->|].
      { by rewrite (find_event_current s n0 log). }
      destruct (find_event_next s n0 log now Hs Hne Hw n c) as ([[e o] t'] & Hx & Ho & ->);
        [lia|].
      intros [= <- _]. split; [by apply (Hlog _ Hx)|]. cbn in Ho. intros ? [= <-]. lia.
    + destruct (find_event_none s n0 log now Hs Hne Hw c) as ([[e o] t'] & Hx & Ho & ->).
      intros [= <- _]. split; [by apply (Hlog _ Hx)|done].
Qed.

Context {F : SerdeFormat} {P : Postcard} {L : PostcardLaws}.

(** The states a sequence of steps goes through: the server holds the end of
    a log that has not wrapped around. *)
Record tracked (s : Server) (c : Client.t) (n0 : Z) (log : list entry) : Prop := {
  tracked_holds : holds s n0 log;
  tracked_timed : timed log;
  tracked_client : Client.valid c;
  tracked_first : n0 < Z.of_nat MAX_EVENTS;
}.

Lemma tracked_event s c n0 log t reset r :
  tracked s c n0 log -> instant t -> draws_ok (t, reset, r) ->
  exists n0' log', tracked (on_event s t reset r) c n0' log' /\
    (length log' <= S (length log))%nat.
Proof.
  intros [Hs Ht Hc Hn] Hi [Hreset Hr]. destruct (decide (reset = 0)) as [->|Hne].
  - exists r, []. split; [|cbn; lia]. split; [by eapply holds_reset|constructor|done|lia].
  - exists n0, ((SomeEvent, event_offset s, t) :: log). split; [|cbn; lia].
    split; [by apply holds_push|by constructor|done|done].
Qed.

(** What an exchange does to the client, whatever is lost. *)
Lemma exchange_tracked s c n0 log f now now' :
  tracked s c n0 log -> n0 + Z.of_nat (length log) <= 2 ^ 32 -> instant now -> instant now' ->
  exists c' got,
    exec (s, c) (Exchange f now now') = (s, c', got) /\ tracked s c' n0 log /\
    match got with
    | None => c' = c
    | Some v => ahead (Client.last_event_offset c) v /\
                exists delta, c' = Client.handle_reply c {| delta_ticks := delta; event := Some v |}
    end.
Proof.
  intros Htr Hw Hnow Hnow'. destruct (decide (f = Delivered)) as [->|Hf].
  2: { exists c, None. split_and!; [|done|done]. by destruct f. }
  pose proof Htr as [Hs Ht Hc Hn].
  rewrite (exec_delivered s n0 log) by done. unfold reply_to.
  destruct (find_event s (Client.request c) now) as [[v t]|] eqn:He.
  2: { by exists c, None. }
  pose proof (find_event_ahead _ _ _ _ _ _ _ Hs Hw He) as Hv.
  cbn [event_reply fmap option_fmap option_map fst].
  eexists _, (Some v). split; [done|]. split; [|by eauto].
  split; try done. apply Client.handle_reply_valid; [|done].
  pose proof (reply_to_wire s n0 log (Client.request c) now now' Hs Ht Hnow Hnow') as [_ Hok].
  unfold reply_to in Hok. rewrite He in Hok. specialize (Hok v eq_refl).
  by destruct v as [[] o|ee|a b]; [apply Hok|..].
Qed.

Lemma count_since_mod n n' got :
  as_uint 32 n = as_uint 32 n' ->
  as_uint 32 (count_since n got) = as_uint 32 (count_since n' got).
Proof.
  revert n n'. induction got as [|v got IH]; intros n n' Hn; [done|].
  destruct v as [e o|ee|a b]; cbn [count_since]; [apply IH| apply IH|done];
    unfold as_uint in *; rewrite <- (Zplus_mod_idemp_l n), <- (Zplus_mod_idemp_l n'); by rewrite Hn.
Qed.

(** ** Sequences of steps *)

Lemma exec_all_tracked xs s c n0 log :
  tracked s c n0 log -> Forall step_draws_ok xs ->
  Z.of_nat MAX_EVENTS + Z.of_nat (length log + events_due xs) <= 2 ^ 32 ->
  let '(s', c', got) := exec_all (s, c) xs in
  follows (Client.last_event_offset c) got (Client.last_event_offset c') /\
  Client.event_count c' = as_uint 32 (count_since (Client.event_count c) got) /\
  Client.recovery_event_offset c' = recovering (Client.recovery_event_offset c) got /\
  exists n0' log', tracked s' c' n0' log'.
Proof.
  revert s c n0 log. induction xs as [|x xs IH]; intros s c n0 log Htr Hxs Hw.
  { split_and!; [done| |done|eauto].
    by rewrite as_uint_small by apply (Client.valid_count _ (tracked_client _ _ _ _ Htr)). }
  apply Forall_cons in Hxs as [Hx Hxs]. cbn [exec_all]. destruct x as [t reset r|f now now'].
  - destruct Hx as [Ht Hd]. change (events_due (_ :: xs)) with (S (events_due xs)) in Hw.
    destruct (tracked_event _ _ _ _ _ _ _ Htr Ht Hd) as (n0' & log' & Htr' & Hl).
    cbn [exec]. specialize (IH _ _ _ _ Htr' Hxs).
    destruct (exec_all _ xs) as [[s' c'] got]. apply IH. lia.
  - destruct Hx as [Hnow Hnow']. change (events_due (_ :: xs)) with (events_due xs) in Hw.
    pose proof (tracked_first _ _ _ _ Htr).
    destruct (exchange_tracked s c n0 log f now now' Htr ltac:(lia) Hnow Hnow')
      as (c1 & got1 & -> & Htr1 & Hgot).
    specialize (IH _ _ _ _ Htr1 Hxs Hw). destruct (exec_all _ xs) as [[s' c'] got].
    destruct got1 as [v|]; [|by subst c1].
    destruct Hgot as [Hv [delta ->]], IH as (Hpos & Hcount & Hrec & Hex).
    change (option_list (Some v) ++ got) with (v :: got).
    destruct v as [e o|ee|a b]; [|done|].
    + split; [by split; [apply Hv|]|]. split; [|done]. rewrite Hcount.
      cbn [count_since]. apply count_since_mod. cbn. unfold wrapping_add, as_uint. by rewrite Zmod_mod.
    + split; [by split; [apply Hv|split; [apply Hv|]]|done].
Qed.

End resets.

Section properties.

Context {Q : CircularQueue} {F : SerdeFormat} {P : Postcard}.
Context {QL : CircularQueueLaws} {L : PostcardLaws}.

(** C6: whatever is lost, however events, exchanges and resets of the server
    interleave, and whatever offset the server restarts from: between two
    recoveries the client gets events of ascending offsets only; it is sent a
    recovery only when its offset is outside the server's range; its
    position, its count and its recovery target are those of the events it
    got: the offset of the last one (or the start of a recovery), their number
    since the last recovery, and the end of that recovery's range. *)
Theorem delivery_across_resets (r : Z) (xs : list step) :
  0 <= r < Z.of_nat MAX_EVENTS -> Forall step_draws_ok xs ->
  Z.of_nat MAX_EVENTS + Z.of_nat (events_due xs) <= 2 ^ 32 ->
  let '(s', c', got) := exec_all (start_of r) xs in
  follows None got (Client.last_event_offset c') /\
  Client.event_count c' = as_uint 32 (count_since 0 got) /\
  Client.recovery_event_offset c' = recovering None got /\
  exists n0 log, holds s' n0 log /\ Client.valid c'.
Proof.
  intros Hr Hxs Hw. unfold start_of.
  assert (tracked (init_server r) Client.init r []) as Htr.
  { split; [by apply holds_init|constructor|apply Client.valid_init_client|lia]. }
  pose proof (exec_all_tracked xs _ _ _ _ Htr Hxs Hw) as Hex.
  destruct (exec_all _ xs) as [[s' c'] got]. destruct Hex as (? & ? & ? & n0 & log & []).
  split_and!; [done..|]. by exists n0, log.
Qed.

End properties.

(** ** Examples and witness *)

Section witnesses.

Import ListQueue PostcardRef.

(** Two events, and a reset that the client notices: it gets the range from
    the new first offset, and then what comes after that offset. *)
Definition reset_noticed : list step :=
  [EventDue 10 1 0; EventDue 20 1 0; Exchange Delivered 21 21; Exchange Delivered 31 31;
   EventDue 40 0 2; EventDue 50 1 0; EventDue 60 1 0; Exchange Delivered 61 61;
   Exchange Delivered 71 71].

Lemma delivery_across_resets_witness :
  let '(s', c', got) := exec_all (start_of 7) reset_noticed in
  (follows None got (Client.last_event_offset c') /\
   Client.event_count c' = as_uint 32 (count_since 0 got) /\
   Client.recovery_event_offset c' = recovering None got /\
   exists n0 log, holds s' n0 log /\ Client.valid c') /\
  got = [Logged SomeEvent 7; Logged SomeEvent 8; Recovery 2 3; Logged SomeEvent 3].
Proof.
  split; [|by vm_compute].
  apply (delivery_across_resets 7 reset_noticed); [unfold MAX_EVENTS; lia| |].
  - repeat constructor; unfold instant, MAX_EVENTS; lia.
  - vm_compute. discriminate.
Defined.

(** A reset that the client does not notice: the server restarts at 5, and
    when the client asks for what comes after 7, the new events 5, 6 and 7
    are passed over; no recovery is sent. *)
Definition reset_unnoticed : list step :=
  [EventDue 10 1 0; Exchange Delivered 11 11; EventDue 20 0 5; EventDue 30 1 0;
   EventDue 40 1 0; EventDue 50 1 0; EventDue 60 1 0; Exchange Delivered 61 61].

Example reset_loses_events :
  (exec_all (start_of 7) reset_unnoticed).2 = [Logged SomeEvent 7; Logged SomeEvent 8] /\
  map entry_offset (iter (events (exec_all (start_of 7) reset_unnoticed).1.1)) = [8; 7; 6; 5].
Proof. by vm_compute. Qed.

End witnesses.
