(* ===== verification/AppNetwork.v ===== *)
(** * The example server and client over a network that does more than lose

    Replies may be late, duplicated and reordered, and anyone may send the
    server requests: the states of the network as a step relation, and what
    holds of all of them. *)

From S2P Require Import Prelude Serde PostcardRef Platform AppProtocol AppServer.
From S2P Require Import AppClient AppSystem.

Section network.

Context {Q : CircularQueue} {F : SerdeFormat} {P : Postcard}.

(** The server, the client, the replies that were ever sent, the events the
    client got (the latest first), and all states the server was in. *)
Record network := {
  net_server : Server;
  net_client : Client.t;
  net_replies : list (list Z);
  net_got : list (EventOf Event NoEE);
  net_past : list Server;
}.

Definition net_start (r : Z) : network :=
  {| net_server := init_server r; net_client := Client.init; net_replies := [];
     net_got := []; net_past := [init_server r] |}.

Inductive net_step : network -> network -> Prop :=
  (** The server receives a datagram, whoever sent it, and replies. *)
  | net_serve s c replies got past datagram now now' reply :
      instant now -> instant now' -> on_datagram s datagram now now' = Some reply ->
      net_step {| net_server := s; net_client := c; net_replies := replies;
                  net_got := got; net_past := past |}
               {| net_server := s; net_client := c; net_replies := reply :: replies;
                  net_got := got; net_past := past |}
  (** The client receives a reply that was sent at some time, maybe again. *)
  | net_receive s c replies got past reply :
      reply ∈ replies ->
      net_step {| net_server := s; net_client := c; net_replies := replies;
                  net_got := got; net_past := past |}
               {| net_server := s; net_client := Client.receive c (Some reply);
                  net_replies := replies;
                  net_got := option_list (Client.receive_reply (Some reply) ≫= event) ++ got;
                  net_past := past |}
  (** An event is due at the server. *)
  | net_event s c replies got past t reset r :
      instant t -> draws_ok (t, reset, r) ->
      net_step {| net_server := s; net_client := c; net_replies := replies;
                  net_got := got; net_past := past |}
               {| net_server := on_event s t reset r; net_client := c;
                  net_replies := replies; net_got := got;
                  net_past := on_event s t reset r :: past |}.

Inductive net_reachable (r : Z) : network -> Prop :=
  | net_reachable_start : net_reachable r (net_start r)
  | net_reachable_step n n' : net_reachable r n -> net_step n n' -> net_reachable r n'.

(** A server state that an event comes from: the event was in its history, or
    it is the range the server announced. *)
Definition sent_by (v : EventOf Event NoEE) (s : Server) : Prop :=
  match v with
  | Logged e o => exists t, (e, o, t) ∈ iter (events s)
  | Recovery a b => start s = Some a /\ end_ s = Some b
  | Ephemeral _ => False
  end.

Definition genuine (past : list Server) (v : EventOf Event NoEE) : Prop := Exists (sent_by v) past.

Lemma genuine_cons s past v : genuine past v -> genuine (s :: past) v.
Proof. by right. Qed.

(** The server holds the end of a log of events at countable times. *)
Definition server_ok (s : Server) : Prop := exists n0 log, holds s n0 log /\ timed log.

Context {QL : CircularQueueLaws} {L : PostcardLaws}.

Lemma server_ok_event s t reset r :
  instant t -> draws_ok (t, reset, r) -> server_ok s -> server_ok (on_event s t reset r).
Proof.
  intros Ht [Hreset Hr] (n0 & log & Hs & Hlog). destruct (decide (reset = 0)) as [->|Hne].
  - exists r, []. split; [by eapply holds_reset|constructor].
  - eexists n0, _. split; [by apply holds_push|by constructor].
Qed.

Lemma server_ok_init r : 0 <= r < Z.of_nat MAX_EVENTS -> server_ok (init_server r).
Proof. intros Hr. exists r, []. split; [by apply holds_init|constructor]. Qed.

(** Any reply of the server is read as one whose event comes from it. *)
Lemma on_datagram_genuine s datagram now now' reply :
  server_ok s -> instant now -> instant now' ->
  on_datagram s datagram now now' = Some reply ->
  exists r, Client.receive_reply (Some reply) = Some r /\
    forall v, event r = Some v -> sent_by v s.
Proof.
  intros (n0 & log & Hs & Hlog) Hnow Hnow'. unfold on_datagram.
  destruct (from_bytes _ _) as [request|]; [|done]. intros Hreply.
  exists (reply_to s request now now'). split.
  - rewrite <- Hreply. apply receive_sent_reply. by eapply reply_to_wire.
  - intros v Hv. unfold reply_to in Hv.
    destruct (find_event s request now) as [[e t]|] eqn:He; [|done].
    cbn in Hv. injection Hv as ->.
    apply find_event_inv in He as [(x & Hx & He)|(a & b & Ha & Hb & -> & _)]; [|done].
    destruct x as [[e o] t']. injection He as -> _. by exists t'.
Qed.

Record net_invariant (n : network) : Prop := {
  inv_server : server_ok (net_server n);
  inv_client : Client.valid (net_client n);
  inv_past : net_server n ∈ net_past n;
  inv_replies : Forall (fun d => exists r, Client.receive_reply (Some d) = Some r /\
    forall v, event r = Some v -> genuine (net_past n) v) (net_replies n);
  inv_got : Forall (genuine (net_past n)) (net_got n);
}.

Lemma net_invariant_start r : 0 <= r < Z.of_nat MAX_EVENTS -> net_invariant (net_start r).
Proof.
  intros Hr. split; cbn; [by apply server_ok_init|apply Client.valid_init_client| |constructor..].
  apply list_elem_of_here.
Qed.

Lemma net_invariant_step n n' : net_step n n' -> net_invariant n -> net_invariant n'.
Proof.
  intros Hstep [Hs Hc Hp Hr Hg].
  destruct Hstep as [s c replies got past datagram now now' reply Hnow Hnow' Hreply
                    |s c replies got past reply Hin
                    |s c replies got past t reset r Ht Hd]; cbn in *.
  - split; cbn; try done. constructor; [|done].
    destruct (on_datagram_genuine _ _ _ _ _ Hs Hnow Hnow' Hreply) as (r & Hread & Hev).
    exists r. split; [done|]. intros v Hv. apply Exists_exists. eauto.
  - split; cbn; try done; [by apply Client.receive_valid|].
    rewrite Forall_forall in Hr. destruct (Hr reply Hin) as (r & -> & Hev).
    cbn [mbind option_bind]. destruct (event r) as [v|] eqn:Hv; [|done].
    constructor; [by apply Hev|done].
  - split; cbn; [by apply server_ok_event|done|apply list_elem_of_here| |].
    + eapply Forall_impl; [exact Hr|]. intros d (r' & Hread & Hev). exists r'.
      split; [done|]. intros v Hv. by apply genuine_cons, Hev.
    + eapply Forall_impl; [exact Hg|]. intros v. apply genuine_cons.
Qed.

(** C8: whatever requests reach the server, and however late, often and out
    of order its replies arrive, every event the client gets was in the
    server's history with this offset, or is a range the server announced,
    at some time, and the server's and the client's states stay well formed. *)
Theorem got_events_are_genuine (r : Z) (n : network) :
  0 <= r < Z.of_nat MAX_EVENTS -> net_reachable r n ->
  Forall (genuine (net_past n)) (net_got n) /\
  server_ok (net_server n) /\ Client.valid (net_client n).
Proof.
  intros Hr Hn. enough (net_invariant n) as [? ? ? ? ?] by done.
  induction Hn as [|n n' _ IH Hstep]; [by apply net_invariant_start|].
  by eapply net_invariant_step.
Qed.

End network.

(** ** Examples and witness *)

Section witnesses.

Import ListQueue PostcardRef.

(** A server with a single event. *)
Definition one_event : Server := on_event (init_server 7) 5 1 0.

(** The reply to the client's first request. *)
Definition first_reply : list Z :=
  default [] (Client.send Client.init ≫= fun d => on_datagram one_event d 10 10).

(** When the first reply is late, the client repeats its request, and then
    handles both replies: it counts the one event twice. *)
Example late_reply_delivers_twice :
  Client.receive (Client.receive Client.init (Some first_reply)) (Some first_reply) =
  {| Client.last_event_offset := Some 7; Client.event_count := 2;
     Client.init_mode := true; Client.recovery_event_offset := None |}.
Proof. by vm_compute. Qed.

Lemma first_reply_sent :
  on_datagram one_event (default [] (Client.send Client.init)) 10 10 = Some first_reply.
Proof. by vm_compute. Qed.

(** The network after that event and its reply, and [k] receptions of it. *)
Fixpoint late_network (k : nat) : network :=
  match k with
  | O => {| net_server := one_event; net_client := Client.init; net_replies := [first_reply];
            net_got := []; net_past := [one_event; init_server 7] |}
  | S k =>
      let n := late_network k in
      {| net_server := one_event; net_client := Client.receive (net_client n) (Some first_reply);
         net_replies := [first_reply];
         net_got := option_list (Client.receive_reply (Some first_reply) ≫= event) ++ net_got n;
         net_past := [one_event; init_server 7] |}
  end.

Lemma late_network_reachable k : net_reachable 7 (late_network k).
Proof.
  induction k as [|k IH].
  - eapply net_reachable_step; [eapply net_reachable_step; [apply net_reachable_start|]|].
    + apply (net_event _ _ _ _ _ 5 1 0); [by split|]. unfold draws_ok, MAX_EVENTS. lia.
    + apply (net_serve one_event Client.init [] [] [one_event; init_server 7]
               (default [] (Client.send Client.init)) 10 10 first_reply);
        [by split|by split|apply first_reply_sent].
  - apply (net_reachable_step 7 (late_network k)); [done|]. cbn [late_network].
    destruct k; apply net_receive, list_elem_of_here.
Qed.

Lemma got_events_are_genuine_witness :
  (Forall (genuine (net_past (late_network 2))) (net_got (late_network 2)) /\
   server_ok (net_server (late_network 2)) /\ Client.valid (net_client (late_network 2))) /\
  net_got (late_network 2) = [Logged SomeEvent 7; Logged SomeEvent 7].
Proof.
  split; [|by vm_compute].
  apply (got_events_are_genuine 7 (late_network 2)); [unfold MAX_EVENTS; lia|].
  apply late_network_reachable.
Defined.

End witnesses.
