(* ===== verification/DiscoveryRun.v ===== *)
(** * The discovery example: [data/examples/discovery/main.rs]

    The client's and the servers' tasks, a round of the two, and the
    addresses the rounds assign. *)

From S2P Require Import Prelude Serde PostcardRef Platform DataLink Discovery.

Section tasks.

Context {F : SerdeFormat} {P : Postcard} {V : HeaplessVec} {A : Aead}.

(** [AesCcm::new] of the key ["0000000000000000"]. *)
Definition demo_cipher : cipher := cipher_new (replicate 16 0x30).

(** [[0u8; MIN_PACKET_SIZE]]. *)
Definition packet_buf : list Z := replicate (Z.to_nat MIN_PACKET_SIZE) 0.

(** ** [mod client] *)

Definition client_header (frame_counter : Z) : Header :=
  {| version := 0; source := Client; DataLink.server_address := 0; server_port := 0;
     frame_counter := frame_counter |}.

Definition create_client_request (cipher : cipher) (identify : Identify.t)
    (frame_counter : Z) (datagram_buf : list Z) : outcome (list Z) :=
  payload ← unwrap (to_vec (Z.to_nat MIN_PAYLOAD_SIZE) (serialize identify));
  to_datagram cipher (client_header frame_counter) payload datagram_buf.

Definition from_server (h : Header) : bool :=
  bool_decide (DataLink.server_address h = 0x00) && bool_decide (server_port h = 0x00)
  && bool_decide (source h = Server).

Definition process_server_reply (cipher : cipher) (datagram_buf : list Z)
  : option Identified.t :=
  '(_, b) ← ok (from_datagram datagram_buf from_server cipher);
  ok (from_bytes deserialize (as_slice b)).

(** The receiving loop: [replies] are the datagrams received within the time
    window; the counters are of type [i32]. *)
Fixpoint count_replies (cipher : cipher) (replies : list (list Z))
    (addresses : list Z) (finished : bool) : outcome (list Z * bool) :=
  match replies with
  | [] => mret (addresses, finished)
  | r :: replies =>
      match process_server_reply cipher r with
      | Some identified =>
          let a := Identified.server_address identified in
          count ← index addresses a;
          count ← checked_add 31 count 1;
          addresses ← index_set addresses a count;
          count_replies cipher replies addresses finished
      | None => count_replies cipher replies addresses false
      end
  end.

(** The loop over the counters, from [address] on. *)
Fixpoint merge_counts (address : Z) (addresses : list Z) (identify : Identify.t)
    (finished : bool) : outcome (Identify.t * bool) :=
  match addresses with
  | [] => mret (identify, finished)
  | count :: addresses =>
      if bool_decide (count = 1) then
        identify ← Identify.set_address identify (as_uint 8 address);
        merge_counts (address + 1) addresses identify finished
      else if bool_decide (count > 1) then
        merge_counts (address + 1) addresses identify false
      else merge_counts (address + 1) addresses identify finished
  end.

(** The number of servers found, as printed. *)
Definition count_found (identify : Identify.t) : outcome Z :=
  a ← AddressesIter.for_each ITER_FUEL (fun _ (e : bool) a => mret (if e then a + 1 else a)) 0
        (Identify.iter identify) 0;
  mret (a - 1).

(** [client::task]: [received] is [None] when the request cannot be sent.
    The result, the bit field afterwards and the number found. *)
Definition client_task (identify : Identify.t) (frame_counter : Z)
    (received : option (list (list Z))) : outcome (bool * Identify.t * option Z) :=
  let cipher := demo_cipher in
  _ ← create_client_request cipher identify frame_counter packet_buf;
  match received with
  | None => mret (true, identify, None)
  | Some replies =>
      '(addresses, finished) ←
        count_replies cipher replies (replicate (Z.to_nat MAX_ADDRESSES) 0) true;
      '(identify, finished) ← merge_counts 0 addresses identify finished;
      found ← count_found identify;
      mret (finished, identify, Some found)
  end.

(** ** [mod server] *)

Definition server_header (frame_counter : Z) : Header :=
  {| version := 0; source := Server; DataLink.server_address := 0; server_port := 0;
     frame_counter := frame_counter |}.

Definition from_client (h : Header) : bool :=
  bool_decide (DataLink.server_address h = 0x00) && bool_decide (server_port h = 0x00)
  && bool_decide (source h = Client).

Definition process_client_request (cipher : cipher) (datagram_buf : list Z)
  : option Identify.t :=
  '(_, b) ← ok (from_datagram datagram_buf from_client cipher);
  ok (from_bytes deserialize (as_slice b)).

Context {rng : Type} {R : RngCore rng}.

Definition try_create_server_reply (cipher : cipher) (identify : Identify.t)
    (frame_counter : Z) (g : rng) (datagram_buf : list Z)
  : outcome (option (Identified.t * list Z) * rng) :=
  '(identified, g) ← Identified.with_random_address (Identify.iter identify) g 2;
  match identified with
  | Some identified =>
      payload ← unwrap (to_vec (Z.to_nat MIN_PAYLOAD_SIZE) (serialize identified));
      datagram_buf ← to_datagram cipher (server_header frame_counter) payload datagram_buf;
      mret (Some (identified, datagram_buf), g)
  | None => mret (None, g)
  end.

(** [server::task]: [received] is the datagram received, or [None] for an
    error of the channel.  The address and the random generator afterwards,
    and the datagram sent. *)
Definition server_task (frame_counter : Z) (server_address : option Z) (g : rng)
    (received : option (list Z)) : outcome (option Z * rng * option (list Z)) :=
  let cipher := demo_cipher in
  match received ≫= process_client_request cipher with
  | Some identify =>
      unknown ← match server_address with
                | Some sa => is_set ← Identify.is_address_set identify sa; mret (negb is_set)
                | None => mret true
                end;
      if (unknown : bool) then
        '(reply, g) ← try_create_server_reply cipher identify frame_counter g packet_buf;
        match reply with
        | Some (identified, datagram_buf) =>
            mret (Some (Identified.server_address identified), g, Some datagram_buf)
        | None => mret (server_address, g, None)
        end
      else mret (server_address, g, None)
  | None => mret (server_address, g, None)
  end.

(** ** [main] *)

(** The state of a server's loop. *)
Record node := {
  node_counter : Z;
  node_address : option Z;
  node_rng : rng;
}.

Definition init_node (g : rng) : node :=
  {| node_counter := 0; node_address := None; node_rng := g |}.

(** One turn of a server's loop. *)
Definition node_turn (received : option (list Z)) (n : node)
  : outcome (node * option (list Z)) :=
  '(sa, g, sent) ← server_task (node_counter n) (node_address n) (node_rng n) received;
  mret ({| node_counter := wrapping_add 16 (node_counter n) 1;
           node_address := sa; node_rng := g |}, sent).

(** The same datagram received by all servers. *)
Fixpoint nodes_turn (received : option (list Z)) (ns : list node)
  : outcome (list node * list (option (list Z))) :=
  match ns with
  | [] => mret ([], [])
  | n :: ns =>
      '(n, sent) ← node_turn received n;
      '(ns, sents) ← nodes_turn received ns;
      mret (n :: ns, sent :: sents)
  end.

(** The bit field before the loop. *)
Definition init_identify : outcome Identify.t :=
  Identify.set_address {| Identify.addresses := replicate (Z.to_nat MIN_PAYLOAD_SIZE) 0 |} 0.

(** A turn of the client's loop, and the servers it reaches; [air] is what
    becomes of the replies on their way.  Whether the loop ends, the bit
    field and the servers afterwards. *)
Definition round (air : list (list Z) -> list (list Z)) (identify : Identify.t)
    (frame_counter : Z) (ns : list node) : outcome (bool * Identify.t * list node) :=
  request ← create_client_request demo_cipher identify frame_counter packet_buf;
  '(ns, replies) ← nodes_turn (Some request) ns;
  '(finished, identify, _) ←
    client_task identify frame_counter (Some (air (omap (fun r => r) replies)));
  mret (finished, identify, ns).

(** The loop, for at most [fuel] rounds, on an air that loses nothing. *)
Fixpoint rounds (fuel : nat) (identify : Identify.t) (frame_counter : Z) (ns : list node)
  : outcome (bool * Identify.t * list node) :=
  match fuel with
  | O => mret (false, identify, ns)
  | S fuel =>
      '(finished, identify, ns) ← round (fun rs => rs) identify frame_counter ns;
      if (finished : bool) then mret (true, identify, ns)
      else rounds fuel identify (wrapping_add 16 frame_counter 1) ns
  end.

End tasks.

Arguments node _ : clear implicits.

(** ** What each side reads *)

Section messages.

Context {F : SerdeFormat} {P : Postcard} {L : PostcardLaws}.
Context {V : HeaplessVec} {VL : HeaplessVecLaws} {A : Aead} {AL : AeadLaws}.

Lemma client_header_typed fc : uint 16 fc -> header_typed (client_header fc).
Proof. done. Qed.

Lemma server_header_typed fc : uint 16 fc -> header_typed (server_header fc).
Proof. done. Qed.

(** What a server reads of the request is the client's bit field. *)
Lemma request_read identify fc :
  Identify.typed identify -> uint 16 fc ->
  exists buf, create_client_request demo_cipher identify fc packet_buf = Done buf /\
              process_client_request demo_cipher buf = Some identify.
Proof.
  intros [Hl _] Hfc. unfold create_client_request, process_client_request.
  rewrite to_vec_encode by (cbn [wire_ok encode identify_encoding]; lia).
  cbn [unwrap mbind outcome_bind].
  destruct (packet_roundtrip demo_cipher (client_header fc) (encode identify) from_client packet_buf)
    as (buf & v & Hto & Hfrom & Hv & _); try done.
  { cbn [encode identify_encoding]. by rewrite Hl. }
  exists buf. split; [done|]. rewrite Hfrom. cbn [ok mbind option_bind].
  rewrite Hv, from_bytes_encode_end by done. done.
Qed.

(** What the client reads of a server's reply is the server's choice. *)
Lemma reply_read (r : Identified.t) fc :
  uint 16 fc ->
  exists buf,
    (payload ← unwrap (to_vec (Z.to_nat MIN_PAYLOAD_SIZE) (serialize r));
     to_datagram demo_cipher (server_header fc) payload packet_buf) = Done buf /\
    process_server_reply demo_cipher buf = Some r /\
    process_client_request demo_cipher buf = None.
Proof.
  intros Hfc. unfold process_server_reply, process_client_request.
  assert (length (encode r) <= 32)%nat as Hl by (cbn; lia).
  rewrite to_vec_encode by done. cbn [unwrap mbind outcome_bind].
  destruct (packet_roundtrip demo_cipher (server_header fc) (encode r) from_server packet_buf)
    as (buf & v & Hto & Hfrom & Hv & _); try done.
  destruct (packet_roundtrip demo_cipher (server_header fc) (encode r) (fun _ => true) packet_buf)
    as (buf' & v' & Hto' & Hfrom' & _ & _); try done.
  rewrite Hto in Hto'. apply done_inj in Hto' as <-.
  exists buf. split; [done|]. rewrite Hfrom. cbn [ok mbind option_bind].
  rewrite Hv, from_bytes_encode_end by done. split; [done|].
  unfold from_datagram in *.
  destruct (from_bytes deserialize buf) as [fr|]; [|done].
  cbn [map_err mbind result_bind] in *. destruct (Header.parse (header fr)) as [h|]; [|done].
  cbn [map_err mbind result_bind negb] in *.
  assert (h = server_header fc) as ->.
  { destruct (extend_from_slice _ _) as [? ?]. destruct (decrypt_in_place _ _ _ _) as [[[]|] ?];
      [|done]. by injection Hfrom'. }
  done.
Qed.

End messages.

(** ** The client's task *)

(** The address each reply asks for, if it can be read. *)
Definition asked (r : option Identified.t) (a : Z) : bool :=
  match r with Some r => bool_decide (Identified.server_address r = a) | None => false end.

(** The number of replies that ask for an address. *)
Definition asks (rs : list (option Identified.t)) (a : Z) : nat :=
  length (filter (fun r => asked r a) rs).

Definition readable (rs : list (option Identified.t)) : bool :=
  forallb (fun r => bool_decide (is_Some r)) rs.

(** The addresses read are of type [u8]. *)
Definition asks_typed (rs : list (option Identified.t)) : Prop :=
  Forall (fun r => forall i, r = Some i -> uint 8 (Identified.server_address i)) rs.

Section client_lemmas.

Context {F : SerdeFormat} {P : Postcard} {V : HeaplessVec} {A : Aead}.

Lemma asks_cons r rs a : asks (r :: rs) a = (Nat.b2n (asked r a) + asks rs a)%nat.
Proof. unfold asks. rewrite filter_cons. destruct (asked r a); by case_decide. Qed.

Lemma count_replies_spec c replies counts finished :
  let rs := map (process_server_reply c) replies in
  asks_typed rs -> length counts = 256%nat ->
  (forall a, 0 <= a < 256 ->
     0 <= counts !!! Z.to_nat a /\
     counts !!! Z.to_nat a + Z.of_nat (length replies) < 2 ^ 31) ->
  exists counts',
    count_replies c replies counts finished = Done (counts', finished && readable rs) /\
    length counts' = 256%nat /\
    forall a, 0 <= a < 256 ->
      counts' !!! Z.to_nat a = counts !!! Z.to_nat a + Z.of_nat (asks rs a).
Proof.
  revert counts finished. induction replies as [|r replies IH];
    intros counts finished rs Hrs Hl Hc; subst rs.
  - exists counts. cbn. rewrite andb_true_r. split_and!; [done..|]. intros a _. lia.
  - cbn [map count_replies] in *. apply Forall_cons in Hrs as [Hr Hrs].
    cbn [readable forallb].
    destruct (process_server_reply c r) as [i|] eqn:Hi.
    + specialize (Hr i eq_refl). set (b := Identified.server_address i) in *.
      assert (0 <= b < 256) as Hb by exact Hr.
      rewrite index_total by lia. cbn [mbind outcome_bind].
      destruct (Hc b Hb) as [Hb0 Hb1]. cbn [length] in Hb1, Hc.
      unfold checked_add. rewrite decide_True by lia. cbn [mbind outcome_bind].
      rewrite index_set_total by lia. cbn [mbind outcome_bind].
      assert (forall a, 0 <= a < 256 ->
        <[Z.to_nat b := counts !!! Z.to_nat b + 1]> counts !!! Z.to_nat a =
        counts !!! Z.to_nat a + Z.b2z (bool_decide (b = a))) as Hins.
      { intros a Ha. case_bool_decide as Hab; subst.
        - by rewrite list_lookup_total_insert_eq by lia.
        - rewrite list_lookup_total_insert_ne by lia. cbn. lia. }
      destruct (IH (<[Z.to_nat b := counts !!! Z.to_nat b + 1]> counts) finished)
        as (counts' & -> & Hl' & Hc'); [done|by rewrite length_insert| |].
      { intros a Ha. rewrite Hins by done. destruct (Hc a Ha).
        destruct (bool_decide _); cbn; lia. }
      exists counts'. rewrite (bool_decide_eq_true_2 (is_Some (Some i))) by done.
      split_and!; [done..|]. intros a Ha. rewrite Hc', Hins, asks_cons by done. cbn [asked].
      fold b. destruct (bool_decide _); cbn; lia.
    + destruct (IH counts false) as (counts' & -> & Hl' & Hc'); [done|done| |].
      { intros a Ha. specialize (Hc a Ha). cbn [length] in Hc. lia. }
      exists counts'. rewrite (bool_decide_eq_false_2 (is_Some None)) by (by intros [? ?]).
      cbn [andb]. rewrite andb_false_r. by split_and!.
Qed.

Lemma merge_counts_spec counts lo identify finished :
  Identify.typed identify -> 0 <= lo -> lo + Z.of_nat (length counts) <= 256 ->
  exists identify',
    merge_counts lo counts identify finished =
      Done (identify', finished && forallb (fun n => bool_decide (n <= 1)) counts) /\
    Identify.typed identify' /\
    forall a, a ∈ known identify' <->
      a ∈ known identify \/ (lo <= a /\ counts !! Z.to_nat (a - lo) = Some 1).
Proof.
  revert lo identify finished. induction counts as [|n counts IH];
    intros lo identify finished Hid Hlo Hl.
  { exists identify. cbn. rewrite andb_true_r. split_and!; [done..|]. intros a.
    split; [by left|by intros [?|[_ ?]]]. }
  cbn [merge_counts forallb length] in *.
  assert (forall a, lo <= a -> (n :: counts) !! Z.to_nat (a - lo) = Some 1 <->
                    (a = lo /\ n = 1) \/ (lo + 1 <= a /\ counts !! Z.to_nat (a - (lo + 1)) = Some 1))
    as Hlook.
  { intros a Ha. destruct (decide (a = lo)) as [->|].
    - replace (Z.to_nat (lo - lo)) with 0%nat by lia. cbn. split.
      + intros [= ->]. by left.
      + intros [[_ ->]|[? _]]; [done|lia].
    - replace (Z.to_nat (a - lo)) with (S (Z.to_nat (a - (lo + 1)))) by lia.
      cbn. intuition lia. }
  destruct (decide (n = 1)) as [->|Hn1].
  - rewrite (bool_decide_eq_true_2 (1 = 1)), (bool_decide_eq_true_2 (1 <= 1)) by lia.
    rewrite as_uint_small by (unfold uint; lia).
    destruct (set_address_known identify lo Hid) as (id1 & -> & Hid1 & Hk1);
      [unfold uint; lia|]. cbn [mbind outcome_bind].
    destruct (IH (lo + 1) id1 finished Hid1) as (id' & -> & Hid' & Hk'); [lia..|].
    exists id'. split_and!; [done|done|]. intros a. rewrite Hk', Hk1, elem_of_union, elem_of_singleton.
    pose proof (Hlook a) as Ha. clear -Ha. destruct (decide (lo <= a)); intuition lia.
  - rewrite (bool_decide_eq_false_2 (n = 1)) by done.
    assert (forall id', (forall a, a ∈ known id' <->
        a ∈ known identify \/ (lo + 1 <= a /\ counts !! Z.to_nat (a - (lo + 1)) = Some 1)) ->
      forall a, a ∈ known id' <->
        a ∈ known identify \/ (lo <= a /\ (n :: counts) !! Z.to_nat (a - lo) = Some 1)) as Hstep.
    { intros id' Hk a. rewrite Hk. pose proof (Hlook a) as Ha. clear -Ha Hn1.
      destruct (decide (lo <= a)); intuition lia. }
    destruct (decide (n > 1)) as [Hn|Hn].
    + rewrite (bool_decide_eq_true_2 (n > 1)), (bool_decide_eq_false_2 (n <= 1)) by lia.
      destruct (IH (lo + 1) identify false Hid) as (id' & -> & Hid' & Hk'); [lia..|].
      exists id'. cbn [andb]. rewrite andb_false_r. split_and!; [done|done|]. by apply Hstep.
    + rewrite (bool_decide_eq_false_2 (n > 1)), (bool_decide_eq_true_2 (n <= 1)) by lia.
      destruct (IH (lo + 1) identify finished Hid) as (id' & -> & Hid' & Hk'); [lia..|].
      exists id'. split_and!; [done|done|]. by apply Hstep.
Qed.

Lemma visit_count f l n :
  visit (fun _ (e : bool) a => mret (if e then a + 1 else a)) f l n =
  Done (n + Z.of_nat (length (filter (fun a => f a = true) l))).
Proof.
  revert n. induction l as [|a l IH]; intros n; cbn [visit].
  { cbn. f_equal. lia. }
  cbn [mret outcome_ret mbind outcome_bind]. rewrite IH, filter_cons.
  destruct (f a); case_decide; try done; cbn [length]; f_equal; lia.
Qed.

Lemma count_found_spec identify :
  Identify.typed identify -> count_found identify = Done (Z.of_nat (size (known identify)) - 1).
Proof.
  intros Hid. unfold count_found. rewrite for_each_iter, visit_count by done.
  cbn [mbind outcome_bind mret outcome_ret]. unfold known.
  by rewrite size_list_to_set by apply NoDup_filter, NoDup_seqZ.
Qed.

End client_lemmas.

(** ** The tasks as relations *)

(** The client has recorded the server's address. *)
Definition settled {rng} (identify : Identify.t) (n : node rng) : bool :=
  match node_address n with
  | Some a => bool_decide (a ∈ known identify)
  | None => false
  end.

Definition node_typed {rng} (n : node rng) : Prop :=
  uint 16 (node_counter n) /\ forall a, node_address n = Some a -> uint 8 a.

Section specs.

Context {F : SerdeFormat} {P : Postcard} {L : PostcardLaws}.
Context {V : HeaplessVec} {VL : HeaplessVecLaws} {A : Aead} {AL : AeadLaws}.
Context {rng : Type} {R : RngCore rng} {RL : RngCoreLaws rng}.

(** What a request with this bit field does to a server: nothing if the
    client knows its address or knows them all, and else the server takes a
    new address, one the client does not know, and asks for it. *)
Definition node_result (identify : Identify.t) (n n' : node rng) (sent : option (list Z))
  : Prop :=
  if settled identify n || bool_decide (free_addresses identify = [])
  then node_address n' = node_address n /\ sent = None
  else exists a reply,
    uint 8 a /\ (a ∉ known identify) /\ node_address n' = Some a /\ sent = Some reply /\
    process_server_reply demo_cipher reply =
      Some {| Identified.server_address := a; Identified.server_ports := 2 |} /\
    a = choice identify (node_rng n).

Lemma client_task_lemma identify fc replies :
  let rs := map (process_server_reply demo_cipher) replies in
  Identify.typed identify -> uint 16 fc -> asks_typed rs ->
  Z.of_nat (length replies) < 2 ^ 31 ->
  exists finished identify',
    client_task identify fc (Some replies) =
      Done (finished, identify', Some (Z.of_nat (size (known identify')) - 1)) /\
    Identify.typed identify' /\
    (forall a, a ∈ known identify' <-> a ∈ known identify \/ asks rs a = 1%nat) /\
    (finished = true <-> readable rs = true /\ forall a, (asks rs a <= 1)%nat).
Proof.
  intros rs Hid Hfc Hrs Hlen. unfold client_task.
  destruct (request_read identify fc Hid Hfc) as (buf & -> & _). cbn [mbind outcome_bind].
  destruct (count_replies_spec demo_cipher replies (replicate (Z.to_nat MAX_ADDRESSES) 0) true)
    as (counts & -> & Hl & Hc); [done|by rewrite length_replicate| |].
  { intros a Ha. rewrite lookup_total_replicate_2 by (unfold MAX_ADDRESSES; lia). lia. }
  fold rs in Hc |- *. cbn [mbind outcome_bind].
  destruct (merge_counts_spec counts 0 identify (true && readable rs) Hid)
    as (id' & -> & Hid' & Hk'); [lia..|].
  cbn [mbind outcome_bind]. rewrite count_found_spec by done.
  cbn [mbind outcome_bind mret outcome_ret].
  assert (forall a, 0 <= a < 256 -> counts !! Z.to_nat a = Some (Z.of_nat (asks rs a))) as Hcount.
  { intros a Ha. specialize (Hc a Ha).
    rewrite lookup_total_replicate_2 in Hc by (unfold MAX_ADDRESSES; lia).
    rewrite list_lookup_lookup_total_lt by lia. f_equal. lia. }
  assert (forall a, ~ 0 <= a < 256 -> asks rs a = 0%nat) as Hout.
  { intros a Ha. unfold asks, asks_typed in *. clear -Hrs Ha.
    induction Hrs as [|r rs Hr _ IH]; [done|]. rewrite filter_cons, decide_False; [done|].
    destruct r as [r|]; cbn; [|tauto]. specialize (Hr r eq_refl).
    rewrite bool_decide_eq_false_2; [tauto|]. intros <-. apply Ha, Hr. }
  eexists _, id'. split_and!; [done|done| |].
  - intros a. rewrite Hk', Z.sub_0_r. destruct (decide (0 <= a < 256)) as [Ha|Ha].
    + rewrite Hcount by done. split; (intros [?|Hs]; [by left|right]).
      * destruct Hs as [_ [= Hs]]. lia.
      * split; [lia|]. rewrite Hs. done.
    + rewrite Hout by done. split; (intros [?|Hs]; [by left|right]); [|done].
      destruct Hs as [Ha0 Hs]. apply lookup_lt_Some in Hs. lia.
  - cbn [andb]. rewrite andb_true_iff, forallb_forall. split; intros [Hr Hall]; (split; [done|]).
    + intros a. destruct (decide (0 <= a < 256)) as [Ha|Ha]; [|rewrite Hout by done; lia].
      specialize (Hcount a Ha). apply list_elem_of_lookup_2, list_elem_of_In in Hcount.
      apply Hall in Hcount. apply bool_decide_eq_true_1 in Hcount. lia.
    + intros m Hm. apply list_elem_of_In, list_elem_of_lookup in Hm as [i Hi].
      pose proof (lookup_lt_Some _ _ _ Hi) as Hlt. specialize (Hcount (Z.of_nat i)).
      rewrite Nat2Z.id, Hi in Hcount. specialize (Hall (Z.of_nat i)).
      apply bool_decide_eq_true_2. assert (Some m = Some (Z.of_nat (asks rs (Z.of_nat i)))) as [= ->].
      { apply Hcount. lia. }
      lia.
Qed.

Lemma try_create_server_reply_spec identify fc (g : rng) :
  Identify.typed identify -> uint 16 fc ->
  exists res g',
    try_create_server_reply demo_cipher identify fc g packet_buf = Done (res, g') /\
    match res with
    | Some (r, reply) =>
        uint 8 (Identified.server_address r) /\
        (Identified.server_address r ∉ known identify) /\ Identified.server_ports r = 2 /\
        process_server_reply demo_cipher reply = Some r /\
        Identified.server_address r = choice identify g
    | None => free_addresses identify = []
    end.
Proof.
  intros Hid Hfc. unfold try_create_server_reply.
  destruct (with_random_address_free identify g 2 Hid) as (res & g' & -> & Hres).
  cbn [mbind outcome_bind]. destruct res as [r|].
  - destruct Hres as (Hr & Hk & Hp & Hc). destruct (reply_read r fc Hfc) as (buf & Hbuf & Hread & _).
    destruct (unwrap (to_vec (Z.to_nat MIN_PAYLOAD_SIZE) (serialize r))) as [payload|]; [|done].
    cbn [mbind outcome_bind] in Hbuf |- *. rewrite Hbuf. cbn [mbind outcome_bind mret outcome_ret].
    by exists (Some (r, buf)), g'.
  - exists None, g'. split; [done|]. destruct (free_addresses identify) as [|a l] eqn:Hf; [done|].
    exfalso. assert (a ∈ free_addresses identify) as Ha by (rewrite Hf; apply list_elem_of_here).
    apply elem_of_free in Ha as [Ha Hn]. by apply Hn, Hres.
Qed.

Lemma node_turn_spec identify fc buf n :
  Identify.typed identify -> uint 16 fc -> node_typed n ->
  create_client_request demo_cipher identify fc packet_buf = Done buf ->
  exists n' sent, node_turn (Some buf) n = Done (n', sent) /\
    node_typed n' /\ node_result identify n n' sent.
Proof.
  intros Hid Hfc [Hnc Hna] Hbuf.
  destruct (request_read identify fc Hid Hfc) as (buf' & Hbuf' & Hread).
  rewrite Hbuf in Hbuf'. apply done_inj in Hbuf' as <-.
  unfold node_turn, server_task, node_result, settled. cbn [mbind option_bind]. rewrite Hread.
  assert (uint 16 (wrapping_add 16 (node_counter n) 1)) as Hnext by (apply as_uint_range; lia).
  assert (exists b, match node_address n with
            | Some sa => is_set ← Identify.is_address_set identify sa; mret (negb is_set)
            | None => mret true
            end = Done (negb b) /\
            b = match node_address n with
                | Some a => bool_decide (a ∈ known identify) | None => false end) as (b & -> & <-).
  { destruct (node_address n) as [sa|]; [|by exists false].
    rewrite is_address_set_elem by auto. by eexists. }
  cbn [mbind outcome_bind]. destruct b; cbn [negb orb].
  { cbn. eexists _, _. split; [done|]. split; [by split|done]. }
  destruct (try_create_server_reply_spec identify (node_counter n) (node_rng n) Hid Hnc)
    as (res & g' & -> & Hres). cbn [mbind outcome_bind].
  destruct res as [[r reply]|]; cbn [mbind outcome_bind mret outcome_ret].
  - destruct Hres as (Hr & Hk & Hp & Hread' & Hc). eexists _, _. split; [done|].
    split; [by split; [|intros a [= <-]]|].
    rewrite bool_decide_eq_false_2.
    + exists (Identified.server_address r), reply. split_and!; try done.
      rewrite Hread'. destruct r. cbn in Hp. by rewrite Hp.
    + intros Hf. assert (Identified.server_address r ∈ free_addresses identify) as Hin
        by by apply elem_of_free.
      rewrite Hf in Hin. by apply not_elem_of_nil in Hin.
  - eexists _, _. split; [done|]. split; [by split|]. by rewrite bool_decide_eq_true_2.
Qed.

Lemma nodes_turn_spec identify fc buf ns :
  Identify.typed identify -> uint 16 fc -> Forall node_typed ns ->
  create_client_request demo_cipher identify fc packet_buf = Done buf ->
  exists ns' sents, nodes_turn (Some buf) ns = Done (ns', sents) /\
    Forall node_typed ns' /\ length ns' = length ns /\ length sents = length ns /\
    forall i n, ns !! i = Some n -> exists n' sent,
      ns' !! i = Some n' /\ sents !! i = Some sent /\ node_result identify n n' sent.
Proof.
  intros Hid Hfc Hns Hbuf. induction Hns as [|n ns Hn _ IH].
  - exists [], []. split_and!; [done..|]. intros i n Hi. done.
  - destruct (node_turn_spec identify fc buf n Hid Hfc Hn Hbuf) as (n' & sent & Hturn & Hn' & Hres).
    destruct IH as (ns' & sents & Hturns & Hns' & Hl & Hl' & Hall).
    exists (n' :: ns'), (sent :: sents). cbn [nodes_turn]. rewrite Hturn.
    cbn [mbind outcome_bind]. rewrite Hturns. cbn [mbind outcome_bind].
    split_and!; [done|by constructor|cbn; lia|cbn; lia|].
    intros [|i] m Hi; cbn in Hi |- *; [|by apply Hall]. injection Hi as <-. eauto.
Qed.

End specs.

(** ** Counting the replies of the servers *)

Section counting.

Context {F : SerdeFormat} {P : Postcard} {V : HeaplessVec} {A : Aead}.

(** What each server asks for. *)
Definition wishes (sents : list (option (list Z))) : list (option Identified.t) :=
  map (fun sent => sent ≫= process_server_reply demo_cipher) sents.

Lemma asks_wishes sents a :
  asks (map (process_server_reply demo_cipher) (omap (fun r => r) sents)) a =
  asks (wishes sents) a.
Proof.
  induction sents as [|[reply|] sents IH]; [done| |].
  - change (wishes (Some reply :: sents))
      with (process_server_reply demo_cipher reply :: wishes sents).
    cbn [omap list_omap map]. rewrite !asks_cons, IH. done.
  - change (wishes (None :: sents)) with (None :: wishes sents).
    rewrite asks_cons. exact IH.
Qed.

Lemma asks_one rs i r : rs !! i = Some (Some r) -> (1 <= asks rs (Identified.server_address r))%nat.
Proof.
  intros Hi. revert i Hi. induction rs as [|r' rs IH]; intros [|i] Hi; try done;
    rewrite asks_cons; cbn in Hi.
  - injection Hi as ->. cbn. rewrite bool_decide_eq_true_2 by done. cbn. lia.
  - specialize (IH i Hi). lia.
Qed.

Lemma asks_two rs i j r r' :
  i <> j -> rs !! i = Some (Some r) -> rs !! j = Some (Some r') ->
  Identified.server_address r = Identified.server_address r' ->
  (2 <= asks rs (Identified.server_address r))%nat.
Proof.
  revert i j. induction rs as [|x rs IH]; intros i j Hij Hi Hj Hr; [done|].
  rewrite asks_cons. destruct i as [|i], j as [|j]; cbn in Hi, Hj; [done| | |].
  - injection Hi as ->. apply asks_one in Hj. rewrite <- Hr in Hj. cbn.
    rewrite bool_decide_eq_true_2 by done. cbn. lia.
  - injection Hj as ->. apply asks_one in Hi. cbn.
    rewrite bool_decide_eq_true_2 by done. cbn. lia.
  - specialize (IH i j ltac:(congruence) Hi Hj Hr). lia.
Qed.

Lemma asks_inv rs a :
  (1 <= asks rs a)%nat -> exists i r, rs !! i = Some (Some r) /\ Identified.server_address r = a.
Proof.
  induction rs as [|x rs IH]; [cbn; lia|]. rewrite asks_cons. destruct x as [x|]; cbn [asked].
  - case_bool_decide as Ha; [by exists 0%nat, x|]. cbn. intros H.
    destruct (IH H) as (i & r & Hi & Hr). by exists (S i), r.
  - intros H. destruct (IH H) as (i & r & Hi & Hr). by exists (S i), r.
Qed.

Lemma wishes_lookup sents i r :
  wishes sents !! i = Some (Some r) ->
  exists reply, sents !! i = Some (Some reply) /\
                process_server_reply demo_cipher reply = Some r.
Proof.
  unfold wishes. rewrite list_lookup_fmap. destruct (sents !! i) as [[reply|]|]; [|done..].
  cbn. intros [= Hr]. eauto.
Qed.

End counting.

(** ** The addresses assigned *)

Section addresses.

Context {F : SerdeFormat} {P : Postcard} {L : PostcardLaws}.
Context {V : HeaplessVec} {VL : HeaplessVecLaws} {A : Aead} {AL : AeadLaws}.
Context {rng : Type} {R : RngCore rng} {RL : RngCoreLaws rng}.

(** The client's bit field says which addresses are taken, no two servers
    share one of these, and the client's own address is among them. *)
Record allotted (identify : Identify.t) (ns : list (node rng)) : Prop := {
  allotted_typed : Identify.typed identify;
  allotted_nodes : Forall node_typed ns;
  allotted_client : 0 ∈ known identify;
  allotted_nonzero i n : ns !! i = Some n -> node_address n <> Some 0;
  allotted_distinct i j n m a :
    ns !! i = Some n -> ns !! j = Some m ->
    node_address n = Some a -> node_address m = Some a -> a ∈ known identify -> i = j;
  allotted_known a :
    a ∈ known identify -> a = 0 \/ exists i n, ns !! i = Some n /\ node_address n = Some a;
}.

Lemma omap_length_le {X Y} (f : X -> option Y) l : (length (omap f l) <= length l)%nat.
Proof. induction l as [|x l IH]; cbn; [done|]. destruct (f x); cbn; lia. Qed.

(** With at most 255 servers there is an address for every one. *)
Lemma free_for_unsettled identify ns k n :
  allotted identify ns -> (length ns <= 255)%nat ->
  ns !! k = Some n -> settled identify n = false -> free_addresses identify <> [].
Proof.
  intros Ha Hl Hk Hn Hf. pose proof (free_plus_known identify) as Hsize. rewrite Hf in Hsize.
  assert (elements (known identify) ⊆+ 0 :: omap node_address (delete k ns)) as Hsub.
  { apply NoDup_submseteq; [apply NoDup_elements|]. intros a Hin. apply elem_of_elements in Hin.
    apply elem_of_cons.
    destruct (allotted_known _ _ Ha a Hin) as [->|(i & m & Hi & Hm)]; [by left|right].
    apply list_elem_of_omap. exists m. split; [|done].
    assert (i <> k) as Hik.
    { intros ->. rewrite Hk in Hi. injection Hi as <-. unfold settled in Hn. rewrite Hm in Hn.
      by apply bool_decide_eq_false_1 in Hn. }
    apply list_elem_of_lookup. destruct (decide (i < k)%nat).
    - exists i. by rewrite list_lookup_delete_lt.
    - exists (pred i). rewrite list_lookup_delete_ge by lia.
      by replace (S (pred i)) with i by lia. }
  apply submseteq_length in Hsub. cbn [length] in Hsub, Hsize.
  pose proof (omap_length_le node_address (delete k ns)) as Homap.
  rewrite length_delete in Homap by eauto.
  unfold size, set_size in Hsize. cbn in Hsize. lia.
Qed.

(** ** A turn of all servers *)

(** What becomes of a server: it has received the request, or it has missed it
    and never had an address. *)
Definition turn_result (identify : Identify.t) (n n' : node rng) (sent : option (list Z))
  : Prop :=
  node_result identify n n' sent \/
  (node_address n = None /\ node_address n' = None /\ sent = None).

Lemma turn_results identify (ns ns' : list (node rng)) (sents : list (option (list Z))) :
  (forall i n, ns !! i = Some n -> exists n' sent,
     ns' !! i = Some n' /\ sents !! i = Some sent /\ node_result identify n n' sent) ->
  forall i n, ns !! i = Some n -> exists n' sent,
    ns' !! i = Some n' /\ sents !! i = Some sent /\ turn_result identify n n' sent.
Proof.
  intros Hall i n Hi. destruct (Hall i n Hi) as (n' & sent & ? & ? & ?). exists n', sent.
  split_and!; [done..|by left].
Qed.

Section turn.

Variables (identify : Identify.t) (ns ns' : list (node rng)) (sents : list (option (list Z))).
Hypothesis Ha : allotted identify ns.
Hypothesis Hl : length ns' = length ns.
Hypothesis Hls : length sents = length ns.
Hypothesis Hall : forall i n, ns !! i = Some n -> exists n' sent,
  ns' !! i = Some n' /\ sents !! i = Some sent /\ turn_result identify n n' sent.

Lemma turn_inv i n' :
  ns' !! i = Some n' -> exists n sent,
    ns !! i = Some n /\ sents !! i = Some sent /\ turn_result identify n n' sent.
Proof.
  intros Hi. pose proof (lookup_lt_Some _ _ _ Hi) as Hlt.
  destruct (lookup_lt_is_Some_2 ns i ltac:(lia)) as [n Hn].
  destruct (Hall i n Hn) as (m & sent & Hm & Hs & Hres). rewrite Hi in Hm.
  injection Hm as <-. eauto.
Qed.

(** A server has the address it asks for, and the client does not know it. *)
Lemma turn_wish i r :
  wishes sents !! i = Some (Some r) -> exists n',
    ns' !! i = Some n' /\ node_address n' = Some (Identified.server_address r) /\
    uint 8 (Identified.server_address r) /\ (Identified.server_address r ∉ known identify).
Proof.
  intros Hi. apply wishes_lookup in Hi as (reply & Hi & Hr).
  pose proof (lookup_lt_Some _ _ _ Hi) as Hlt.
  destruct (lookup_lt_is_Some_2 ns i ltac:(lia)) as [n Hn].
  destruct (Hall i n Hn) as (n' & sent & Hn' & Hs & Hres). rewrite Hi in Hs.
  injection Hs as <-. destruct Hres as [Hres|(_ & _ & ?)]; [|done]. unfold node_result in Hres.
  destruct (_ || _); [by destruct Hres|].
  destruct Hres as (a & reply' & Ha8 & Hk & Haddr & [= <-] & Hread & _).
  rewrite Hr in Hread. injection Hread as ->. by exists n'.
Qed.

(** A server that holds an address the client does not know asks for it. *)
Lemma turn_asks i n' a :
  ns' !! i = Some n' -> node_address n' = Some a -> a ∉ known identify ->
  exists r, wishes sents !! i = Some (Some r) /\ Identified.server_address r = a.
Proof.
  intros Hi Haddr Hk. destruct (turn_inv i n' Hi) as (n & sent & Hn & Hs & Hres).
  destruct Hres as [Hres|(_ & ? & _)]; [|congruence].
  unfold node_result in Hres. destruct (settled identify n) eqn:Hset; cbn [orb] in Hres.
  { destruct Hres as [Heq _]. unfold settled in Hset. rewrite <- Heq, Haddr in Hset.
    by apply bool_decide_eq_true_1 in Hset. }
  case_bool_decide as Hf.
  - destruct Hres as [Heq _]. exfalso.
    assert (node_typed n) as [_ Ht].
    { eapply Forall_lookup_1; [apply (allotted_nodes _ _ Ha)|done]. }
    assert (a ∈ free_addresses identify) as Hin.
    { apply elem_of_free. split; [|done]. apply Ht. by rewrite <- Heq. }
    rewrite Hf in Hin. by apply not_elem_of_nil in Hin.
  - destruct Hres as (b & reply & _ & _ & Hb & -> & Hread & _). rewrite Haddr in Hb.
    injection Hb as <-. eexists. unfold wishes. rewrite list_lookup_fmap, Hs.
    cbn. by rewrite Hread.
Qed.

(** A server that holds an address the client knows had it before. *)
Lemma turn_kept i n' a :
  ns' !! i = Some n' -> node_address n' = Some a -> a ∈ known identify ->
  exists n, ns !! i = Some n /\ node_address n = Some a.
Proof.
  intros Hi Haddr Hk. destruct (turn_inv i n' Hi) as (n & sent & Hn & _ & Hres).
  exists n. split; [done|]. destruct Hres as [Hres|(_ & ? & _)]; [|congruence].
  unfold node_result in Hres.
  destruct (_ || _); [destruct Hres; congruence|].
  destruct Hres as (b & reply & _ & Hb & Hb' & _). congruence.
Qed.

Lemma turn_settled i n a :
  ns !! i = Some n -> node_address n = Some a -> a ∈ known identify ->
  exists n', ns' !! i = Some n' /\ node_address n' = Some a.
Proof.
  intros Hi Haddr Hk. destruct (Hall i n Hi) as (n' & sent & Hn' & _ & Hres).
  exists n'. split; [done|]. destruct Hres as [Hres|(? & _ & _)]; [|congruence].
  unfold node_result, settled in Hres. rewrite Haddr in Hres.
  rewrite bool_decide_eq_true_2 in Hres by done. destruct Hres. congruence.
Qed.

Lemma turn_allotted identify' :
  Identify.typed identify' -> Forall node_typed ns' ->
  (forall a, a ∈ known identify -> a ∈ known identify') ->
  (forall a, a ∈ known identify' -> a ∈ known identify \/ asks (wishes sents) a = 1%nat) ->
  allotted identify' ns'.
Proof.
  intros Hid' Hns' Hold' Hk'. split; [done|done| | | |].
  - apply Hold'. apply (allotted_client _ _ Ha).
  - intros i n' Hi Haddr. pose proof (allotted_client _ _ Ha) as H0.
    destruct (turn_kept i n' 0 Hi Haddr H0) as (n & Hn & Hn0).
    by apply (allotted_nonzero _ _ Ha i n Hn).
  - intros i j n' m' a Hi Hj Hn Hm Hin.
    destruct (decide (a ∈ known identify)) as [Hold|Hnew].
    + destruct (turn_kept i n' a Hi Hn Hold) as (n & Hn1 & Hn2).
      destruct (turn_kept j m' a Hj Hm Hold) as (m & Hm1 & Hm2).
      by apply (allotted_distinct _ _ Ha i j n m a).
    + destruct (turn_asks i n' a Hi Hn Hnew) as (r & Hr & <-).
      destruct (turn_asks j m' _ Hj Hm Hnew) as (r' & Hr' & Heq).
      destruct (decide (i = j)) as [|Hij]; [done|]. exfalso.
      pose proof (asks_two _ i j r r' Hij Hr Hr' (eq_sym Heq)).
      apply Hk' in Hin as [Hin|Hin]; [done|lia].
  - intros a Hin. apply Hk' in Hin as [Hin|Hin].
    + destruct (allotted_known _ _ Ha a Hin) as [->|(i & n & Hi & Hn)]; [by left|right].
      destruct (turn_settled i n a Hi Hn Hin) as (n' & ? & ?). eauto.
    + destruct (asks_inv (wishes sents) a ltac:(lia)) as (i & r & Hi & <-).
      destruct (turn_wish i r Hi) as (n' & ? & ? & _). right. eauto.
Qed.

(** When every server receives the request, and no two ask for the same
    address, all get theirs. *)
Lemma turn_all_settled identify' :
  (forall i n, ns !! i = Some n -> exists n' sent,
    ns' !! i = Some n' /\ sents !! i = Some sent /\ node_result identify n n' sent) ->
  (length ns <= 255)%nat ->
  (forall a, a ∈ known identify' <-> a ∈ known identify \/ asks (wishes sents) a = 1%nat) ->
  (forall a, (asks (wishes sents) a <= 1)%nat) ->
  Forall (fun n => settled identify' n = true) ns'.
Proof.
  intros Hheard H255 Hk' Hone. apply Forall_lookup_2. intros i n' Hi.
  destruct (turn_inv i n' Hi) as (n & _ & Hn & _).
  destruct (Hheard i n Hn) as (m & sent & Hm & Hs & Hres). rewrite Hi in Hm. injection Hm as <-.
  assert (exists a, node_address n' = Some a) as [a Haddr].
  { unfold node_result in Hres. destruct (settled identify n) eqn:Hset; cbn [orb] in Hres.
    - destruct Hres as [-> _]. unfold settled in Hset. destruct (node_address n); [eauto|done].
    - rewrite bool_decide_eq_false_2 in Hres by (by eapply free_for_unsettled).
      destruct Hres as (a & _ & _ & _ & ? & _). eauto. }
  unfold settled. rewrite Haddr. apply bool_decide_eq_true_2, Hk'.
  destruct (decide (a ∈ known identify)) as [|Hnew]; [by left|right].
  destruct (turn_asks i n' a Hi Haddr Hnew) as (r & Hr & <-).
  apply asks_one in Hr. specialize (Hone (Identified.server_address r)). lia.
Qed.

End turn.

End addresses.

(** ** Rounds *)

Section round_lemmas.

Context {F : SerdeFormat} {P : Postcard} {L : PostcardLaws}.
Context {V : HeaplessVec} {VL : HeaplessVecLaws} {A : Aead} {AL : AeadLaws}.
Context {rng : Type} {R : RngCore rng} {RL : RngCoreLaws rng}.

(** The replies of the servers can all be read. *)
Lemma sents_readable identify (ns ns' : list (node rng)) sents :
  length sents = length ns ->
  (forall i n, ns !! i = Some n -> exists n' sent,
    ns' !! i = Some n' /\ sents !! i = Some sent /\ turn_result identify n n' sent) ->
  let rs := map (process_server_reply demo_cipher) (omap (fun r => r) sents) in
  asks_typed rs /\ readable rs = true.
Proof.
  intros Hl Hall rs.
  assert (Forall (fun r => exists i, r = Some i /\ uint 8 (Identified.server_address i)) rs) as Hrs.
  { apply Forall_map, Forall_forall. intros reply Hr.
    apply list_elem_of_omap in Hr as (? & Hr & ->). apply list_elem_of_lookup in Hr as [i Hi].
    pose proof (lookup_lt_Some _ _ _ Hi).
    destruct (lookup_lt_is_Some_2 ns i ltac:(lia)) as [n Hn].
    destruct (Hall i n Hn) as (n' & sent & _ & Hs & Hres). rewrite Hi in Hs. injection Hs as <-.
    destruct Hres as [Hres|(_ & _ & ?)]; [|done].
    unfold node_result in Hres. destruct (_ || _); [by destruct Hres|].
    destruct Hres as (a & reply' & Ha & _ & _ & [= <-] & -> & _). by eexists. }
  split.
  - eapply Forall_impl; [exact Hrs|]. intros r (i & -> & Hi) j [= <-]. done.
  - unfold readable. apply forallb_forall. intros r Hr. apply list_elem_of_In in Hr.
    rewrite Forall_forall in Hrs. destruct (Hrs r Hr) as (i & -> & _). done.
Qed.

Lemma omap_id_length {X} (l : list (option X)) : (length (omap (fun r => r) l) <= length l)%nat.
Proof. apply omap_length_le. Qed.

(** What the client reads of the datagrams that reach it. *)
Definition read_replies (rs : list (list Z)) : list (option Identified.t) :=
  map (process_server_reply demo_cipher) rs.

(** Losses that hide no collision: a reply that gets through alone was sent
    alone.  The air may lose, garble, repeat and reorder replies otherwise. *)
Record fair (air : list (list Z) -> list (list Z)) : Prop := {
  fair_length rs :
    Z.of_nat (length rs) < 2 ^ 31 -> Z.of_nat (length (air rs)) < 2 ^ 31;
  fair_typed rs : asks_typed (read_replies rs) -> asks_typed (read_replies (air rs));
  fair_alone rs a :
    asks (read_replies (air rs)) a = 1%nat -> asks (read_replies rs) a = 1%nat;
}.

Lemma fair_lossless : fair (fun rs => rs).
Proof. by split. Qed.

(** The client's part of a round, whatever becomes of the replies; what the
    servers ask for is [wishes sents]. *)
Lemma client_after_turn air identify fc (ns ns' : list (node rng)) sents :
  fair air -> allotted identify ns -> uint 16 fc -> Z.of_nat (length ns) < 2 ^ 31 ->
  Forall node_typed ns' -> length ns' = length ns -> length sents = length ns ->
  (forall i n, ns !! i = Some n -> exists n' sent,
     ns' !! i = Some n' /\ sents !! i = Some sent /\ turn_result identify n n' sent) ->
  let got := read_replies (air (omap (fun r => r) sents)) in
  exists finished identify' found,
    client_task identify fc (Some (air (omap (fun r => r) sents))) =
      Done (finished, identify', found) /\
    allotted identify' ns' /\
    (forall a, a ∈ known identify' <-> a ∈ known identify \/ asks got a = 1%nat) /\
    (finished = true <-> readable got = true /\ forall a, (asks got a <= 1)%nat).
Proof.
  intros Hair Ha Hfc Hlen Hns' Hl Hls Hall got.
  destruct (sents_readable identify ns ns' sents Hls Hall) as [Htyped _].
  pose proof (omap_id_length sents).
  destruct (client_task_lemma identify fc (air (omap (fun r => r) sents)) (allotted_typed _ _ Ha)
              Hfc (fair_typed _ Hair _ Htyped))
    as (finished & identify' & -> & Hid' & Hk' & Hfin); [apply (fair_length _ Hair); lia|].
  exists finished, identify'. eexists. split; [done|]. split_and!; [|done..].
  eapply turn_allotted; [done..| |].
  - intros a Hin. apply Hk'. by left.
  - intros a [Hin|Hone]%Hk'; [by left|right]. rewrite <- asks_wishes. by apply (fair_alone _ Hair).
Qed.

Lemma round_general air identify fc (ns : list (node rng)) :
  fair air -> allotted identify ns -> uint 16 fc -> Z.of_nat (length ns) < 2 ^ 31 ->
  exists finished identify' ns' sents,
    round air identify fc ns = Done (finished, identify', ns') /\
    allotted identify' ns' /\ length ns' = length ns /\ length sents = length ns /\
    (forall i n, ns !! i = Some n -> exists n' sent,
       ns' !! i = Some n' /\ sents !! i = Some sent /\ node_result identify n n' sent) /\
    let got := read_replies (air (omap (fun r => r) sents)) in
    (forall a, a ∈ known identify' <-> a ∈ known identify \/ asks got a = 1%nat) /\
    (finished = true <-> readable got = true /\ forall a, (asks got a <= 1)%nat).
Proof.
  intros Hair Ha Hfc Hlen. unfold round.
  destruct (request_read identify fc (allotted_typed _ _ Ha) Hfc) as (buf & Hbuf & _).
  rewrite Hbuf. cbn [mbind outcome_bind].
  destruct (nodes_turn_spec identify fc buf ns (allotted_typed _ _ Ha) Hfc
              (allotted_nodes _ _ Ha) Hbuf) as (ns' & sents & -> & Hns' & Hl & Hls & Hall).
  cbn [mbind outcome_bind].
  destruct (client_after_turn air identify fc ns ns' sents)
    as (finished & identify' & found & -> & Ha' & Hk & Hfin); try done.
  { by apply turn_results. }
  cbn [mbind outcome_bind mret outcome_ret]. by exists finished, identify', ns', sents.
Qed.

Lemma round_lemma identify fc (ns : list (node rng)) :
  allotted identify ns -> uint 16 fc -> Z.of_nat (length ns) < 2 ^ 31 ->
  exists finished identify' ns',
    round (fun rs => rs) identify fc ns = Done (finished, identify', ns') /\
    allotted identify' ns' /\ length ns' = length ns /\
    (finished = true -> (length ns <= 255)%nat ->
     Forall (fun n => settled identify' n = true) ns').
Proof.
  intros Ha Hfc Hlen.
  destruct (round_general _ identify fc ns fair_lossless Ha Hfc Hlen)
    as (finished & identify' & ns' & sents & Hround & Ha' & Hl & Hls & Hall & Hk & Hfin).
  exists finished, identify', ns'. split_and!; [done..|]. intros Hf H255.
  apply (turn_all_settled identify ns ns' sents Ha Hl Hls (turn_results _ _ _ _ Hall) identify' Hall);
    [done| |].
  - intros a. rewrite <- asks_wishes. apply Hk.
  - apply Hfin in Hf as [_ Hone]. intros a. rewrite <- asks_wishes. apply Hone.
Qed.

Lemma rounds_lemma fuel identify fc (ns : list (node rng)) :
  allotted identify ns -> uint 16 fc -> (length ns <= 255)%nat ->
  exists finished identify' ns',
    rounds fuel identify fc ns = Done (finished, identify', ns') /\
    allotted identify' ns' /\ length ns' = length ns /\
    (finished = true -> Forall (fun n => settled identify' n = true) ns').
Proof.
  revert identify fc ns. induction fuel as [|fuel IH]; intros identify fc ns Ha Hfc Hlen.
  { by exists false, identify, ns. }
  cbn [rounds]. destruct (round_lemma identify fc ns Ha Hfc ltac:(lia))
    as ([] & identify' & ns' & -> & Ha' & Hl & Hset); cbn [mbind outcome_bind].
  - exists true, identify', ns'. split_and!; auto.
  - destruct (IH identify' (wrapping_add 16 fc 1) ns' Ha') as (f & id2 & ns2 & -> & ? & ? & ?);
      [apply as_uint_range; lia|lia|].
    exists f, id2, ns2. split_and!; auto. lia.
Qed.

Lemma init_identify_spec :
  exists identify, init_identify = Done identify /\ Identify.typed identify /\
                   known identify = {[0]}.
Proof.
  set (zeros := {| Identify.addresses := replicate (Z.to_nat MIN_PAYLOAD_SIZE) 0 |}).
  assert (Identify.typed zeros) as Hz by (split; [done|by apply Forall_replicate]).
  destruct (set_address_known zeros 0 Hz) as (id & Hid & Ht & Hk); [done|].
  exists id. split_and!; [done|done|]. rewrite Hk.
  assert (known zeros = ∅) as -> by (vm_compute; reflexivity). set_solver.
Qed.

Lemma allotted_init identify (gs : list rng) :
  init_identify = Done identify -> allotted identify (map init_node gs).
Proof.
  intros Hinit. destruct init_identify_spec as (id & Hid & Ht & Hk).
  rewrite Hinit in Hid. apply done_inj in Hid as <-.
  assert (forall i (n : node rng), map init_node gs !! i = Some n -> node_address n = None) as Hnone.
  { intros i n Hi. rewrite list_lookup_fmap in Hi. destruct (gs !! i); [|done].
    by injection Hi as <-. }
  split; [done| | | | |].
  - apply Forall_map, Forall_forall. intros g _. by split.
  - rewrite Hk. by apply elem_of_singleton.
  - intros i n Hi. by rewrite (Hnone i n Hi).
  - intros i j n m a Hi _ Hn. by rewrite (Hnone i n Hi) in Hn.
  - intros a. rewrite Hk, elem_of_singleton. by left.
Qed.

End round_lemmas.

(** ** Properties *)

Section properties.

Context {F : SerdeFormat} {P : Postcard} {L : PostcardLaws}.
Context {V : HeaplessVec} {VL : HeaplessVecLaws} {A : Aead} {AL : AeadLaws}.
Context {rng : Type} {R : RngCore rng} {RL : RngCoreLaws rng}.

(** C22: whatever the client receives within its window, its turn does not
    panic; it adds to the known addresses exactly those that one reply asks
    for, and forgets none; it reports that discovery is finished exactly when
    every reply could be read and no two asked for the same address. *)
Theorem client_task_merges (identify : Identify.t) (fc : Z) (replies : list (list Z)) :
  let rs := map (process_server_reply demo_cipher) replies in
  Identify.typed identify -> uint 16 fc -> asks_typed rs ->
  Z.of_nat (length replies) < 2 ^ 31 ->
  exists finished identify',
    client_task identify fc (Some replies) =
      Done (finished, identify', Some (Z.of_nat (size (known identify')) - 1)) /\
    Identify.typed identify' /\
    (forall a, a ∈ known identify' <-> a ∈ known identify \/ asks rs a = 1%nat) /\
    (finished = true <-> readable rs = true /\ forall a, (asks rs a <= 1)%nat).
Proof. apply client_task_lemma. Qed.

(** C23: a server that receives the client's request stays silent and keeps
    its address when the client knows it, or when there is no address left;
    else it takes a new one that the client does not know, and sends a reply
    that the client reads as a wish for exactly this address. *)
Theorem server_turn_replies (identify : Identify.t) (fc : Z) (buf : list Z) (n : node rng) :
  Identify.typed identify -> uint 16 fc -> node_typed n ->
  create_client_request demo_cipher identify fc packet_buf = Done buf ->
  exists n' sent, node_turn (Some buf) n = Done (n', sent) /\
    node_typed n' /\ node_result identify n n' sent.
Proof. apply node_turn_spec. Qed.

(** C4: from a start with up to 255 servers, as long as no reply is lost,
    any number of rounds runs without a panic and never lets two servers hold
    the same known address; when the client's loop ends, all servers have
    an address, known to the client, their own, and not the client's. *)
Theorem discovery_assigns (fuel : nat) (identify : Identify.t) (gs : list rng) :
  init_identify = Done identify -> (length gs <= 255)%nat ->
  exists finished identify' ns',
    rounds fuel identify 0 (map init_node gs) = Done (finished, identify', ns') /\
    length ns' = length gs /\
    (forall i j n m a, ns' !! i = Some n -> ns' !! j = Some m ->
       node_address n = Some a -> node_address m = Some a -> a ∈ known identify' -> i = j) /\
    (finished = true -> forall i n, ns' !! i = Some n ->
       exists a, node_address n = Some a /\ a <> 0 /\ uint 8 a /\ a ∈ known identify').
Proof.
  intros Hinit Hlen.
  destruct (rounds_lemma fuel identify 0 (map init_node gs))
    as (finished & identify' & ns' & Hrounds & Ha & Hl & Hset);
    [by apply allotted_init|done|by rewrite length_map|].
  rewrite length_map in Hl. exists finished, identify', ns'. split_and!; [done..| |].
  - apply (allotted_distinct _ _ Ha).
  - intros Hf i n Hi. specialize (Hset Hf). rewrite Forall_lookup in Hset.
    specialize (Hset i n Hi). unfold settled in Hset.
    destruct (node_address n) as [a|] eqn:Hn; [|done]. apply bool_decide_eq_true_1 in Hset.
    exists a. split_and!; [done| | |done].
    + intros ->. by apply (allotted_nonzero _ _ Ha i n Hi).
    + pose proof (allotted_nodes _ _ Ha) as Ht. rewrite Forall_lookup in Ht.
      by apply (Ht i n Hi).
Qed.

(** The servers hear each other's replies too, and ignore them. *)
Lemma server_ignores_replies (r : Identified.t) (fc : Z) (buf : list Z) (n : node rng) :
  uint 16 fc ->
  (payload ← unwrap (to_vec (Z.to_nat MIN_PAYLOAD_SIZE) (serialize r));
   to_datagram demo_cipher (server_header fc) payload packet_buf) = Done buf ->
  node_turn (Some buf) n =
  Done ({| node_counter := wrapping_add 16 (node_counter n) 1;
           node_address := node_address n; node_rng := node_rng n |}, None).
Proof.
  intros Hfc Hbuf. destruct (reply_read r fc Hfc) as (buf' & Hbuf' & _ & Hnone).
  rewrite Hbuf in Hbuf'. apply done_inj in Hbuf' as <-.
  unfold node_turn, server_task. cbn [mbind option_bind]. by rewrite Hnone.
Qed.

End properties.

(** ** Examples and witnesses *)

Section witnesses.

Import PostcardRef ListVec ChecksumAead ConstRng.

(** The bit field of a client that knows its own address. *)
Definition client_identify : Identify.t := {| Identify.addresses := 1 :: replicate 31 0 |}.

Lemma client_identify_init : init_identify = Done client_identify.
Proof. by vm_compute. Qed.

Lemma client_identify_typed : Identify.typed client_identify.
Proof.
  destruct init_identify_spec as (id & Hid & Ht & _). rewrite client_identify_init in Hid.
  by apply done_inj in Hid as <-.
Qed.

(** Servers that draw the same number in every round never get an address;
    the one that draws another does at once. *)
Example stuck_servers :
  ('(finished, identify, ns) ← rounds 3 client_identify 0 (map init_node [5; 7; 5]);
   mret (finished, elements (known identify), map node_address ns)) =
  Done (false, [8; 0], [Some 6; Some 8; Some 6]).
Proof. by vm_compute. Qed.

(** When one of two replies for the same address is lost, both servers keep
    the address, and the client takes discovery for finished. *)
Example lost_reply_duplicates :
  ('(finished, identify, ns) ←
     round (fun rs => take 1 rs) client_identify 0 (map init_node [5; 5]);
   mret (finished, elements (known identify), map node_address ns)) =
  Done (true, [6; 0], [Some 6; Some 6]).
Proof. by vm_compute. Qed.

(** A reply as a server sends it. *)
Definition example_reply : list Z :=
  match try_create_server_reply demo_cipher client_identify 3 5 packet_buf with
  | Done (Some (_, reply), _) => reply
  | _ => []
  end.

(** It, and a datagram that cannot be read. *)
Definition example_replies : list (list Z) := [example_reply; replicate 42 0].

Lemma example_replies_read :
  map (process_server_reply demo_cipher) example_replies =
  [Some {| Identified.server_address := 6; Identified.server_ports := 2 |}; None].
Proof. by vm_compute. Qed.

Lemma client_task_merges_witness :
  exists finished identify',
    client_task client_identify 7 (Some example_replies) =
      Done (finished, identify', Some (Z.of_nat (size (known identify')) - 1)) /\
    Identify.typed identify' /\
    (forall a, a ∈ known identify' <-> a ∈ known client_identify \/
       asks (map (process_server_reply demo_cipher) example_replies) a = 1%nat) /\
    (finished = true <->
       readable (map (process_server_reply demo_cipher) example_replies) = true /\
       forall a, (asks (map (process_server_reply demo_cipher)
                          example_replies) a <= 1)%nat).
Proof.
  apply (client_task_merges client_identify 7 example_replies
           client_identify_typed); [by split| |done].
  rewrite example_replies_read. constructor; [intros i [= <-]; by split|].
  by constructor.
Defined.

Lemma server_turn_replies_witness :
  exists buf n' sent,
    node_turn (Some buf) (init_node 5) = Done (n', sent) /\ node_typed n' /\
    node_result client_identify (init_node 5) n' sent /\ node_address n' = Some 6.
Proof.
  destruct (request_read client_identify 3 client_identify_typed) as (buf & Hbuf & _);
    [by split|].
  exists buf.
  destruct (server_turn_replies client_identify 3 buf (init_node 5) client_identify_typed)
    as (n' & sent & Hturn & Hn & Hres); [by split|by split|done|].
  exists n', sent. split_and!; [done..|].
  assert (buf = match create_client_request demo_cipher client_identify 3 packet_buf with
                | Done b => b | Panic => [] end) as Hb by (by rewrite Hbuf).
  rewrite Hb in Hturn. clear -Hturn. vm_compute in Hturn. by injection Hturn as <- _.
Defined.

Lemma discovery_assigns_witness :
  exists finished identify' ns',
    rounds 3 client_identify 0 (map init_node [5; 7; 300]) = Done (finished, identify', ns') /\
    length ns' = 3%nat /\
    (forall i j n m a, ns' !! i = Some n -> ns' !! j = Some m ->
       node_address n = Some a -> node_address m = Some a -> a ∈ known identify' -> i = j) /\
    (finished = true -> forall i n, ns' !! i = Some n ->
       exists a, node_address n = Some a /\ a <> 0 /\ uint 8 a /\ a ∈ known identify').
Proof.
  apply (discovery_assigns 3 client_identify [5; 7; 300] client_identify_init). cbn. lia.
Defined.

End witnesses.
