(* ===== verification/DiscoveryLoss.v ===== *)
(** * Discovery over an air that loses datagrams, and its progress

    The loops of the discovery example's [main] as a step relation, in which
    servers miss requests and hear other datagrams, and replies are lost,
    garbled, repeated or reordered; and which servers a round without losses
    settles. *)

From S2P Require Import Prelude Serde PostcardRef Platform DataLink Discovery DiscoveryRun.

Section loop.

Context {F : SerdeFormat} {P : Postcard} {V : HeaplessVec} {A : Aead}.
Context {rng : Type} {R : RngCore rng}.

(** The servers that receive the request take a turn.  A server listens only
    within [server::task], and one that is not listening misses it. *)
Fixpoint nodes_hear (hears : list bool) (request : list Z) (ns : list (node rng))
  : outcome (list (node rng) * list (option (list Z))) :=
  match ns, hears with
  | n :: ns, true :: hears =>
      '(n, sent) ← node_turn (Some request) n;
      '(ns, sents) ← nodes_hear hears request ns;
      mret (n :: ns, sent :: sents)
  | n :: ns, _ =>
      '(ns, sents) ← nodes_hear (tail hears) request ns;
      mret (n :: ns, None :: sents)
  | [], _ => mret ([], [])
  end.

(** A turn of the client's loop, and the servers it reaches. *)
Definition round_heard (air : list (list Z) -> list (list Z)) (hears : list bool)
    (identify : Identify.t) (frame_counter : Z) (ns : list (node rng))
  : outcome (bool * Identify.t * list (node rng)) :=
  request ← create_client_request demo_cipher identify frame_counter packet_buf;
  '(ns, replies) ← nodes_hear hears request ns;
  '(finished, identify, _) ←
    client_task identify frame_counter (Some (air (omap (fun r => r) replies)));
  mret (finished, identify, ns).

Lemma nodes_hear_all request ns :
  nodes_hear (replicate (length ns) true) request ns = nodes_turn (Some request) ns.
Proof.
  induction ns as [|n ns IH]; [done|]. cbn [length replicate nodes_hear nodes_turn].
  destruct (node_turn _ n) as [[n' sent]|]; [|done]. cbn [mbind outcome_bind]. by rewrite IH.
Qed.

(** The rounds of [DiscoveryRun] are those in which no server misses the
    request. *)
Lemma round_heard_all air identify fc ns :
  round_heard air (replicate (length ns) true) identify fc ns = round air identify fc ns.
Proof.
  unfold round_heard, round.
  destruct (create_client_request _ _ _ _); [|done]. cbn [mbind outcome_bind].
  by rewrite nodes_hear_all.
Qed.

End loop.

(** Only a server without an address, or one whose address the client knows,
    misses a request. *)
Definition spared {rng} (hears : list bool) (identify : Identify.t) (ns : list (node rng))
  : Prop :=
  forall i n, ns !! i = Some n ->
    hears !! i = Some true \/ settled identify n = true \/ node_address n = None.

(** ** [main] as a step relation *)

(** The variables of the client's loop, whether it has ended, and the
    servers. *)
Module Main.

Record t {rng : Type} := {
  identify : Identify.t;
  frame_counter : Z;
  finished : bool;
  nodes : list (node rng);
}.
Arguments t : clear implicits.

Definition start {rng} (identify : Identify.t) (gs : list rng) : t rng :=
  {| identify := identify; frame_counter := 0; finished := false;
     nodes := map init_node gs |}.

Section steps.

Context {F : SerdeFormat} {P : Postcard} {V : HeaplessVec} {A : Aead}.
Context {rng : Type} {R : RngCore rng}.

(** The client's loop takes a turn, or a server does on another datagram, as
    the reply of another server, or on an error of the channel. *)
Inductive step : t rng -> t rng -> Prop :=
  | step_round air hears id fc ns finished' id' ns' :
      fair air -> spared hears id ns ->
      round_heard air hears id fc ns = Done (finished', id', ns') ->
      step {| identify := id; frame_counter := fc; finished := false; nodes := ns |}
           {| identify := id'; frame_counter := wrapping_add 16 fc 1;
              finished := finished'; nodes := ns' |}
  | step_other received i n n' sent st :
      nodes st !! i = Some n ->
      received ≫= process_client_request demo_cipher = None ->
      node_turn received n = Done (n', sent) ->
      step st {| identify := identify st; frame_counter := frame_counter st;
                 finished := finished st; nodes := <[i := n']> (nodes st) |}.

End steps.

End Main.

(** ** Who asks for an address *)

Lemma asks_other rs i r :
  rs !! i = Some (Some r) -> (2 <= asks rs (Identified.server_address r))%nat ->
  exists j r', j <> i /\ rs !! j = Some (Some r') /\
    Identified.server_address r' = Identified.server_address r.
Proof.
  revert i. induction rs as [|x rs IH]; intros [|i] Hi Htwo; try done;
    rewrite asks_cons in Htwo; cbn in Hi.
  - injection Hi as ->. cbn [asked] in Htwo. rewrite bool_decide_eq_true_2 in Htwo by done.
    destruct (asks_inv rs (Identified.server_address r)) as (j & r' & Hj & Hr');
      [cbn in Htwo; lia|]. by exists (S j), r'.
  - destruct (decide (2 <= asks rs (Identified.server_address r))%nat) as [H2|H2].
    + destruct (IH i Hi H2) as (j & r' & Hij & Hj & Hr'). exists (S j), r'.
      split_and!; [congruence|done|done].
    + destruct x as [x|]; [|cbn in Htwo; lia]. cbn [asked] in Htwo.
      case_bool_decide as Hx; [|cbn in Htwo; lia]. by exists 0%nat, x.
Qed.

#[export] Instance asks_proper : Proper ((≡ₚ) ==> (=) ==> (=)) asks.
Proof. intros rs rs' Hp a _ <-. unfold asks. by rewrite Hp. Qed.

Section airs.

Context {F : SerdeFormat} {P : Postcard} {V : HeaplessVec} {A : Aead}.

(** Replies out of order hide nothing. *)
Lemma fair_reordered air : (forall rs, air rs ≡ₚ rs) -> fair air.
Proof.
  intros Hair. assert (forall rs, read_replies (air rs) ≡ₚ read_replies rs) as Hread.
  { intros rs. unfold read_replies. by rewrite Hair. }
  split; intros rs.
  - by rewrite Hair.
  - unfold asks_typed. by rewrite Hread.
  - intros a. by rewrite Hread.
Qed.

(** Nor does it when no reply can be read. *)
Lemma fair_garbled ds :
  Z.of_nat (length ds) < 2 ^ 31 ->
  Forall (fun d => process_server_reply demo_cipher d = None) ds -> fair (fun _ => ds).
Proof.
  intros Hl Hds. assert (Forall (fun r => r = None) (read_replies ds)) as Hnone.
  { by apply Forall_map. }
  split; intros rs; [done| |].
  - intros _. eapply Forall_impl; [exact Hnone|]. by intros ? -> ?.
  - intros a Hone. exfalso. destruct (asks_inv (read_replies ds) a) as (i & r & Hi & _); [lia|].
    rewrite Forall_lookup in Hnone. by specialize (Hnone _ _ Hi).
Qed.

End airs.

Section lossy.

Context {F : SerdeFormat} {P : Postcard} {L : PostcardLaws}.
Context {V : HeaplessVec} {VL : HeaplessVecLaws} {A : Aead} {AL : AeadLaws}.
Context {rng : Type} {R : RngCore rng} {RL : RngCoreLaws rng}.

(** What becomes of the servers in a round that some of them miss. *)
Lemma nodes_hear_spec hears identify fc buf (ns : list (node rng)) :
  Identify.typed identify -> uint 16 fc -> Forall node_typed ns ->
  create_client_request demo_cipher identify fc packet_buf = Done buf ->
  spared hears identify ns ->
  exists ns' sents, nodes_hear hears buf ns = Done (ns', sents) /\
    Forall node_typed ns' /\ length ns' = length ns /\ length sents = length ns /\
    forall i n, ns !! i = Some n -> exists n' sent,
      ns' !! i = Some n' /\ sents !! i = Some sent /\ turn_result identify n n' sent.
Proof.
  intros Hid Hfc Hns Hbuf. revert hears. induction Hns as [|n ns Hn _ IH]; intros hears Hsp.
  { exists [], []. destruct hears as [|[] ?]; by split_and!. }
  destruct (IH (tail hears)) as (ns' & sents & Hturns & Hns' & Hl & Hl' & Hall).
  { intros i m Hi. specialize (Hsp (S i) m Hi). by destruct hears. }
  assert (exists n' sent,
    nodes_hear hears buf (n :: ns) = Done (n' :: ns', sent :: sents) /\
    node_typed n' /\ turn_result identify n n' sent) as (n' & sent & -> & Hn' & Hres).
  { specialize (Hsp 0%nat n eq_refl). cbn [nodes_hear].
    destruct hears as [|[] hears]; cbn [tail] in Hturns.
    2: { destruct (node_turn_spec identify fc buf n Hid Hfc Hn Hbuf)
           as (n' & sent & -> & Hn' & Hres).
         cbn [mbind outcome_bind]. rewrite Hturns. cbn [mbind outcome_bind mret outcome_ret].
         exists n', sent. split_and!; [done|done|by left]. }
    all: cbn [tail]; rewrite Hturns; cbn [mbind outcome_bind mret outcome_ret];
      exists n, None; split_and!; [done|done|];
      destruct Hsp as [?|[Hset|?]]; [done|left|by right];
      unfold node_result; by rewrite Hset. }
  exists (n' :: ns'), (sent :: sents).
  split_and!; [done|by constructor|cbn; lia|cbn; lia|].
  intros [|i] m Hi; cbn in Hi |- *; [|by apply Hall]. injection Hi as <-. eauto.
Qed.

Lemma round_heard_lemma air hears identify fc (ns : list (node rng)) :
  fair air -> spared hears identify ns -> allotted identify ns -> uint 16 fc ->
  Z.of_nat (length ns) < 2 ^ 31 ->
  exists finished identify' ns',
    round_heard air hears identify fc ns = Done (finished, identify', ns') /\
    allotted identify' ns' /\ length ns' = length ns /\
    (forall a, a ∈ known identify -> a ∈ known identify').
Proof.
  intros Hair Hsp Ha Hfc Hlen. unfold round_heard.
  destruct (request_read identify fc (allotted_typed _ _ Ha) Hfc) as (buf & Hbuf & _).
  rewrite Hbuf. cbn [mbind outcome_bind].
  destruct (nodes_hear_spec hears identify fc buf ns (allotted_typed _ _ Ha) Hfc
              (allotted_nodes _ _ Ha) Hbuf Hsp) as (ns' & sents & -> & Hns' & Hl & Hls & Hall).
  cbn [mbind outcome_bind].
  destruct (client_after_turn air identify fc ns ns' sents)
    as (finished & identify' & found & -> & Ha' & Hk & _); try done.
  cbn [mbind outcome_bind mret outcome_ret]. exists finished, identify', ns'.
  split_and!; [done..|]. intros a Hin. apply Hk. by left.
Qed.

(** A turn on a datagram that is not a request changes the counter only. *)
Lemma node_turn_other received (n : node rng) :
  received ≫= process_client_request demo_cipher = None ->
  node_turn received n =
  Done ({| node_counter := wrapping_add 16 (node_counter n) 1;
           node_address := node_address n; node_rng := node_rng n |}, None).
Proof. intros Hnone. unfold node_turn, server_task. by rewrite Hnone. Qed.

Lemma allotted_address identify (ns : list (node rng)) i n n' :
  allotted identify ns -> ns !! i = Some n -> node_typed n' ->
  node_address n' = node_address n -> allotted identify (<[i := n']> ns).
Proof.
  intros Ha Hi Hn' Heq.
  assert (forall j m, <[i := n']> ns !! j = Some m ->
    exists m', ns !! j = Some m' /\ node_address m = node_address m') as Hold.
  { intros j m [(-> & <- & _)|[_ Hj]]%list_lookup_insert_Some; eauto. }
  destruct Ha as [Hid Hns H0 Hnz Hd Hk]. split; [done|by apply Forall_insert|done|..].
  - intros j m (m' & Hj & ->)%Hold. by apply (Hnz j).
  - intros j k m l a (m' & Hj & ->)%Hold (l' & Hl & ->)%Hold. by apply Hd.
  - intros a [?|(j & m & Hj & Hm)]%Hk; [by left|right].
    destruct (decide (i = j)) as [<-|Hij].
    + exists i, n'. rewrite list_lookup_insert_eq by by eapply lookup_lt_Some.
      split; [done|]. congruence.
    + exists j, m. by rewrite list_lookup_insert_ne.
Qed.

(** What every state that can be reached has. *)
Definition main_inv (l : nat) (st : Main.t rng) : Prop :=
  allotted (Main.identify st) (Main.nodes st) /\ uint 16 (Main.frame_counter st) /\
  length (Main.nodes st) = l.

Lemma step_inv l st st' :
  Z.of_nat l < 2 ^ 31 -> Main.step st st' -> main_inv l st -> main_inv l st'.
Proof.
  intros Hlen Hst. destruct Hst as [air hears id fc ns f id' ns' Hair Hsp Hround
                                   |received i n n' sent st Hi Hnone Hturn];
    intros (Ha & Hfc & Hl); cbn in *.
  - destruct (round_heard_lemma air hears id fc ns)
      as (? & ? & ? & Hround' & Ha' & Hl' & _); [done..|lia|].
    rewrite Hround in Hround'. apply done_inj in Hround' as [= <- <- <-].
    split_and!; cbn; [done|apply as_uint_range; lia|lia].
  - rewrite node_turn_other in Hturn by done. apply done_inj in Hturn as [= <- <-].
    pose proof (allotted_nodes _ _ Ha) as Hns. rewrite Forall_lookup in Hns.
    destruct (Hns i n Hi) as [_ Hna].
    split_and!; cbn; [|done|by rewrite length_insert].
    apply (allotted_address _ _ i n); [done|done| |done].
    split; [apply as_uint_range; lia|done].
Qed.

Lemma reachable_inv l st st' :
  Z.of_nat l < 2 ^ 31 -> rtc Main.step st st' -> main_inv l st -> main_inv l st'.
Proof. intros Hlen. induction 1; eauto using step_inv. Qed.

(** The address a server asks for in a round. *)
Lemma node_wish identify (n n' : node rng) sent :
  node_result identify n n' sent -> free_addresses identify <> [] ->
  sent ≫= process_server_reply demo_cipher =
    if settled identify n then None
    else Some {| Identified.server_address := choice identify (node_rng n);
                 Identified.server_ports := 2 |}.
Proof.
  intros Hres Hf. unfold node_result in Hres. rewrite (bool_decide_eq_false_2 _ Hf) in Hres.
  rewrite orb_false_r in Hres. destruct (settled identify n); [by destruct Hres as [_ ->]|].
  destruct Hres as (a & reply & _ & _ & _ & -> & Hread & ->). exact Hread.
Qed.

(** ** Which servers a round settles *)

Section settling.

Variables (identify identify' : Identify.t) (ns ns' : list (node rng)).
Variables (sents : list (option (list Z))).
Hypothesis Ha : allotted identify ns.
Hypothesis H255 : (length ns <= 255)%nat.
Hypothesis Hl : length ns' = length ns.
Hypothesis Hls : length sents = length ns.
Hypothesis Hall : forall i n, ns !! i = Some n -> exists n' sent,
  ns' !! i = Some n' /\ sents !! i = Some sent /\ node_result identify n n' sent.
Hypothesis Hk : forall a,
  a ∈ known identify' <-> a ∈ known identify \/ asks (wishes sents) a = 1%nat.

Definition wish_of (n : node rng) : Identified.t :=
  {| Identified.server_address := choice identify (node_rng n);
     Identified.server_ports := 2 |}.

Lemma unsettled_wish i n :
  ns !! i = Some n -> settled identify n = false ->
  wishes sents !! i = Some (Some (wish_of n)).
Proof.
  intros Hi Hset. destruct (Hall i n Hi) as (n' & sent & _ & Hs & Hres).
  pose proof (free_for_unsettled identify ns i n Ha H255 Hi Hset) as Hfree.
  pose proof (node_wish _ _ _ _ Hres Hfree) as Hwish. rewrite Hset in Hwish.
  unfold wishes. rewrite list_lookup_fmap, Hs. cbn. by rewrite Hwish.
Qed.

Lemma wish_unsettled i r :
  wishes sents !! i = Some (Some r) -> exists n,
    ns !! i = Some n /\ settled identify n = false /\ r = wish_of n.
Proof.
  intros Hi. pose proof (wishes_lookup _ _ _ Hi) as (reply & Hs & Hread).
  pose proof (lookup_lt_Some _ _ _ Hs) as Hlt.
  destruct (lookup_lt_is_Some_2 ns i ltac:(lia)) as [n Hn]. exists n. split; [done|].
  destruct (Hall i n Hn) as (n' & sent & _ & Hs' & Hres). rewrite Hs in Hs'.
  injection Hs' as <-. destruct (settled identify n) eqn:Hset.
  { unfold node_result in Hres. rewrite Hset in Hres. by destruct Hres. }
  split; [done|]. rewrite (unsettled_wish i n Hn Hset) in Hi. by injection Hi as <-.
Qed.

Lemma stays_settled n n' sent :
  node_result identify n n' sent -> settled identify n = true ->
  node_address n' = node_address n /\ settled identify' n' = true.
Proof.
  intros Hres Hset. unfold node_result in Hres. rewrite Hset in Hres.
  destruct Hres as [Haddr _]. split; [done|]. unfold settled in *. rewrite Haddr.
  destruct (node_address n); [|done]. apply bool_decide_eq_true_1 in Hset.
  apply bool_decide_eq_true_2, Hk. by left.
Qed.

(** The server is settled when no other asked for its address. *)
Lemma settles_alone i n n' :
  ns !! i = Some n -> ns' !! i = Some n' -> settled identify n = false ->
  settled identify' n' = true <->
  forall j m, j <> i -> ns !! j = Some m -> settled identify m = false ->
    choice identify (node_rng m) <> choice identify (node_rng n).
Proof.
  intros Hi Hi' Hset. pose proof (unsettled_wish i n Hi Hset) as Hwi.
  destruct (turn_wish identify ns ns' sents Hl Hls (turn_results _ _ _ _ Hall) i _ Hwi) as (m' & Hm' & Haddr & _ & Hnew).
  rewrite Hi' in Hm'. injection Hm' as <-. unfold settled at 1.
  rewrite Haddr, bool_decide_eq_true, Hk. pose proof (asks_one _ _ _ Hwi) as Hone. split.
  - intros [?|Hask] j m Hij Hj Hm Heq; [done|].
    pose proof (asks_two _ i j _ _ ltac:(done) Hwi (unsettled_wish j m Hj Hm) (eq_sym Heq)).
    lia.
  - intros Halone. right.
    destruct (decide (2 <= asks (wishes sents) (choice identify (node_rng n)))%nat) as [H2|];
      [exfalso|cbn in Hone |- *; lia].
    destruct (asks_other _ _ _ Hwi H2) as (j & r' & Hij & Hj & Hr').
    destruct (wish_unsettled j r' Hj) as (m & Hm & Hsm & ->). by apply (Halone j m Hij Hm Hsm).
Qed.

Lemma finished_settled :
  (forall a, (asks (wishes sents) a <= 1)%nat) <->
  Forall (fun n => settled identify' n = true) ns'.
Proof.
  split.
  - by apply (turn_all_settled identify ns ns' sents Ha Hl Hls (turn_results _ _ _ _ Hall) identify').
  - intros Hsettled a. destruct (decide (asks (wishes sents) a <= 1)%nat) as [|Hmany]; [done|].
    exfalso. destruct (asks_inv (wishes sents) a ltac:(lia)) as (i & r & Hi & <-).
    destruct (turn_wish identify ns ns' sents Hl Hls (turn_results _ _ _ _ Hall) i r Hi) as (n' & Hn' & Haddr & _ & Hnew).
    rewrite Forall_lookup in Hsettled. specialize (Hsettled i n' Hn').
    unfold settled in Hsettled. rewrite Haddr in Hsettled.
    apply bool_decide_eq_true_1, Hk in Hsettled as [?|?]; [done|lia].
Qed.

End settling.

End lossy.

(** ** Properties *)

Section properties.

Context {F : SerdeFormat} {P : Postcard} {L : PostcardLaws}.
Context {V : HeaplessVec} {VL : HeaplessVecLaws} {A : Aead} {AL : AeadLaws}.
Context {rng : Type} {R : RngCore rng} {RL : RngCoreLaws rng}.

(** C14: requests may be missed by servers that have no address yet or whose
    address the client knows; replies may be lost, garbled, repeated and
    reordered as long as the losses hide no collision (a reply that gets
    through alone was the only one for its address); and servers may be woken
    by other datagrams.  In every state that is reached, no two servers hold the
    same known address, none has the client's, every known address but the
    client's is some server's, and the next round does not panic. *)
Theorem discovery_with_losses (identify : Identify.t) (gs : list rng) (st : Main.t rng) :
  init_identify = Done identify -> Z.of_nat (length gs) < 2 ^ 31 ->
  rtc Main.step (Main.start identify gs) st ->
  let known := known (Main.identify st) in
  let ns := Main.nodes st in
  length ns = length gs /\
  (forall i j n m a, ns !! i = Some n -> ns !! j = Some m ->
     node_address n = Some a -> node_address m = Some a -> a ∈ known -> i = j) /\
  (forall i n, ns !! i = Some n -> node_address n <> Some 0) /\
  (forall a, a ∈ known -> a = 0 \/ exists i n, ns !! i = Some n /\ node_address n = Some a) /\
  (forall air hears, fair air -> spared hears (Main.identify st) ns ->
     round_heard air hears (Main.identify st) (Main.frame_counter st) ns <> Panic).
Proof.
  intros Hinit Hlen Hrtc.
  destruct (reachable_inv (length gs) _ st Hlen Hrtc) as (Ha & Hfc & Hl).
  { split_and!; cbn; [by apply allotted_init|done|apply length_map]. }
  split_and!; [done|apply (allotted_distinct _ _ Ha)|apply (allotted_nonzero _ _ Ha)
              |apply (allotted_known _ _ Ha)|].
  intros air hears Hair Hsp.
  destruct (round_heard_lemma air hears (Main.identify st) (Main.frame_counter st)
              (Main.nodes st)) as (? & ? & ? & -> & _); [done..|by rewrite Hl|done].
Qed.

(** C9: a round in which nothing is lost settles exactly the servers that were
    settled, which keep their addresses, and those whose choice of an address
    differs from that of every other unsettled server; and discovery is
    finished exactly when all servers are settled. *)
Theorem round_settles (identify : Identify.t) (fc : Z) (ns : list (node rng)) :
  allotted identify ns -> uint 16 fc -> (length ns <= 255)%nat ->
  exists finished identify' ns',
    round (fun rs => rs) identify fc ns = Done (finished, identify', ns') /\
    length ns' = length ns /\
    (forall i n, ns !! i = Some n -> exists n', ns' !! i = Some n' /\
       (settled identify n = true -> node_address n' = node_address n) /\
       (settled identify' n' = true <->
        settled identify n = true \/
        forall j m, j <> i -> ns !! j = Some m -> settled identify m = false ->
          choice identify (node_rng m) <> choice identify (node_rng n))) /\
    (finished = true <-> Forall (fun n => settled identify' n = true) ns').
Proof.
  intros Ha Hfc H255.
  destruct (round_general _ identify fc ns fair_lossless Ha Hfc ltac:(lia))
    as (finished & identify' & ns' & sents & Hround & Ha' & Hl & Hls & Hall & Hk & Hfin).
  setoid_rewrite asks_wishes in Hk. setoid_rewrite asks_wishes in Hfin.
  destruct (sents_readable identify ns ns' sents Hls (turn_results _ _ _ _ Hall)) as [_ Hread].
  exists finished, identify', ns'. split_and!; [done|done| |].
  - intros i n Hi. destruct (Hall i n Hi) as (n' & sent & Hn' & _ & Hres).
    exists n'. split; [done|]. destruct (settled identify n) eqn:Hset.
    + destruct (stays_settled identify identify' sents Hk n n' sent Hres Hset).
      split; [done|]. split; [by left|done].
    + split; [done|].
      rewrite (settles_alone identify identify' ns ns' sents Ha H255 Hl Hls Hall Hk i n n')
        by done.
      split; [by right|by intros [?|?]].
  - rewrite Hfin, <- (finished_settled identify identify' ns ns' sents) by done. tauto.
Qed.

End properties.

(** ** Examples and witnesses *)

Section witnesses.

Import PostcardRef ListVec ChecksumAead ConstRng.

(** Three servers, of which the second misses the first request; what the
    client receives in that round is noise.  The second server hears a reply of
    another.  In the next round all hear the request, and the replies come in
    the opposite order. *)
Lemma discovery_with_losses_witness :
  exists st,
    rtc Main.step (Main.start client_identify [5; 7; 300]) st /\
    Main.finished st = true /\
    map node_address (Main.nodes st) = [Some 6; Some 8; Some 46] /\
    forall i j n m a, Main.nodes st !! i = Some n -> Main.nodes st !! j = Some m ->
      node_address n = Some a -> node_address m = Some a ->
      a ∈ known (Main.identify st) -> i = j.
Proof.
  assert (exists st, rtc Main.step (Main.start client_identify [5; 7; 300]) st /\
    Main.finished st = true /\
    map node_address (Main.nodes st) = [Some 6; Some 8; Some 46]) as (st & Hst & Hf & Hn).
  { eexists. split.
    - eapply rtc_l; [apply (Main.step_round (fun _ => [replicate 42 0]) [true; false; true])|].
      { apply fair_garbled; [done|by repeat constructor]. }
      { intros [|[|[|i]]] n Hi; cbn in Hi |- *; try done; auto.
        injection Hi as <-. auto. }
      { vm_compute. reflexivity. }
      eapply rtc_l; [eapply (Main.step_other (Some example_reply) 1); [done|by vm_compute|]|].
      { vm_compute. reflexivity. }
      eapply rtc_l; [apply (Main.step_round reverse [true; true; true])|].
      { apply fair_reordered, reverse_Permutation. }
      { intros [|[|[|i]]] n Hi; cbn in Hi |- *; try done; auto. }
      { vm_compute. reflexivity. }
      apply rtc_refl.
    - by vm_compute. }
  exists st. split_and!; [done..|].
  by apply (discovery_with_losses client_identify [5; 7; 300] st client_identify_init).
Defined.

(** Of three servers, two choose the same address: the third is settled. *)
Lemma round_settles_witness :
  (exists finished identify' ns',
    round (fun rs => rs) client_identify 0 (map init_node [5; 7; 5]) =
      Done (finished, identify', ns') /\
    length ns' = 3%nat /\
    (forall i n, map init_node [5; 7; 5] !! i = Some n -> exists n', ns' !! i = Some n' /\
       (settled client_identify n = true -> node_address n' = node_address n) /\
       (settled identify' n' = true <->
        settled client_identify n = true \/
        forall j m, j <> i -> map init_node [5; 7; 5] !! j = Some m ->
          settled client_identify m = false ->
          choice client_identify (node_rng m) <> choice client_identify (node_rng n))) /\
    (finished = true <-> Forall (fun n => settled identify' n = true) ns')) /\
  ('(finished, identify, ns) ← round (fun rs => rs) client_identify 0 (map init_node [5; 7; 5]);
   mret (finished, map (settled identify) ns)) = Done (false, [false; true; false]).
Proof.
  split; [|by vm_compute].
  apply (round_settles client_identify 0 (map init_node [5; 7; 5])).
  - apply allotted_init, client_identify_init.
  - done.
  - cbn. lia.
Defined.

(** When nothing is received, the client takes discovery for finished. *)
Example silence_finishes :
  ('(finished, identify, ns) ←
     round (fun _ => []) client_identify 0 (map init_node [5; 7]);
   mret (finished, map (settled identify) ns)) = Done (true, [false; false]).
Proof. by vm_compute. Qed.

(** Lost requests: a server asks for an address, and its reply is garbled; in
    the next round it misses the request, and a server that missed the first
    request is given that address; in the third round the first server takes
    the address for its own. *)
Example lost_request_duplicates :
  ('(_, identify, ns) ←
     round_heard (fun _ => [replicate 42 0]) [true; false] client_identify 0
       (map init_node [5; 5]);
   '(_, identify, ns) ← round_heard (fun rs => rs) [false; true] identify 1 ns;
   '(finished, identify, ns) ← round_heard (fun rs => rs) [true; true] identify 2 ns;
   mret (finished, map (settled identify) ns, map node_address ns)) =
  Done (true, [true; true], [Some 6; Some 6]).
Proof. by vm_compute. Qed.

End witnesses.
