(* ===== verification/UpdateRun.v ===== *)
(** * The update example: [data/examples/update/main.rs]

    The client's loops over the servers and over the bytes of the update, and
    the server's loop, which follows an update or drops it. *)

From Stdlib Require Import Ascii String.
From S2P Require Import Prelude Serde PostcardRef Platform DataLink Discovery Update.

(** ** Constants *)

Definition MY_APP_PORT : Z := 2.
(** In milliseconds. *)
Definition SERVER_REQUEST_RECEIVE_TIME : Z := 12.
Definition UPDATE_PROCESSING_TIME : Z := 100.
Definition UPDATE_BYTES_SIZE : Z := MIN_PAYLOAD_SIZE - UPDATE_BYTES_OVERHEAD.
Definition UPDATE_BYTES_PROCESSING_THRESHOLD : Z := 4096.
(** [static UPDATE]. *)
Definition UPDATE : list Z := replicate (Z.to_nat (100 * 1024)) 0.

(** [&l[a..b]]: a panic out of range. *)
Definition slice {X} (l : list X) (a b : Z) : outcome (list X) :=
  if decide (0 <= a <= b /\ b <= Z.of_nat (length l))
  then Done (take (Z.to_nat (b - a)) (drop (Z.to_nat a) l)) else Panic.

Section example.

Context {F : SerdeFormat} {P : Postcard} {V : HeaplessVec} {A : Aead}.

(** ** [mod client] *)

Definition update_header (frame_counter : Z) : Header :=
  {| DataLink.version := 0; source := DataLink.Client; server_address := 0; server_port := 1;
     frame_counter := frame_counter |}.

Definition create_prepare_update_request (network_cipher : cipher) (p : PrepareForUpdate)
    (frame_counter : Z) (datagram_buf : list Z) : outcome (list Z) :=
  payload ← unwrap (to_vec (Z.to_nat MIN_PAYLOAD_SIZE) (serialize p));
  to_datagram network_cipher (update_header frame_counter) payload datagram_buf.

Definition create_update_request (update_cipher : cipher) (update : Update)
    (frame_counter : Z) (datagram_buf : list Z) : outcome (list Z) :=
  payload ← unwrap (to_vec (Z.to_nat MIN_PAYLOAD_SIZE) (serialize update));
  to_datagram update_cipher (update_header frame_counter) payload datagram_buf.

(** The announcement of an update. *)
Definition announcement (update_key : list Z) (update_len : Z) : PrepareForUpdate :=
  {| version := {| major := 1; minor := 2; patch := 3; pre := None |};
     server_ports := shl 8 1 MY_APP_PORT;
     update_key := {| key_bytes := update_key |};
     update_byte_len := as_uint 32 update_len;
     signed := false |}.

(** The channel: whether the [n]th send has a receiver. *)
Variable up : nat -> bool.

(** [prepare_servers_for_update]: each datagram sent, with the delay in
    milliseconds after it; the frame counter and the buffer afterwards, and
    the number of sends. *)
Fixpoint prepare_servers_for_update (n : nat) (servers : list (Z * list Z))
    (update_key : list Z) (update_len : Z) (frame_counter : Z) (datagram_buf : list Z)
  : outcome (list (list Z * Z) * Z * list Z * nat) :=
  match servers with
  | [] => mret ([], frame_counter, datagram_buf, n)
  | (_, server_network_key) :: servers =>
      datagram_buf ← create_prepare_update_request (cipher_new server_network_key)
        (announcement update_key update_len) frame_counter datagram_buf;
      '(sent, frame_counter', buf, n') ←
        prepare_servers_for_update (S n) servers update_key update_len
          (if up n then wrapping_add 16 frame_counter 1 else frame_counter) datagram_buf;
      mret (if up n then (datagram_buf, SERVER_REQUEST_RECEIVE_TIME) :: sent else sent,
            frame_counter', buf, n')
  end.

(** The loop of [update_servers] over [image]: each datagram sent, with the
    delay in milliseconds after it; the frame counter afterwards, and whether
    the loop came to its end (a failing send returns from the function). *)
Fixpoint update_loop (fuel : nat) (n : nat) (image : list Z) (update_cipher : cipher)
    (update_len update_byte_offset next_threshold_byte_offset frame_counter : Z)
    (datagram_buf : list Z) : outcome (list (list Z * Z) * Z * bool) :=
  match fuel with
  | O => Panic
  | S fuel =>
      if bool_decide (update_byte_offset < Z.of_nat (length image)) then
        let to_update_byte_offset :=
          (update_byte_offset + UPDATE_BYTES_SIZE) `min` next_threshold_byte_offset in
        update_bytes ← slice image update_byte_offset to_update_byte_offset;
        bytes ← unwrap (vec_from_slice (Z.to_nat UPDATE_BYTES_SIZE) update_bytes);
        let update := {| byte_offset := as_uint 32 update_byte_offset;
                         Update.update_bytes := as_slice bytes |} in
        datagram_buf ← create_update_request update_cipher update frame_counter datagram_buf;
        if up n then
          let flush := bool_decide (to_update_byte_offset = next_threshold_byte_offset) in
          let next_threshold_byte_offset :=
            if flush
            then (next_threshold_byte_offset + UPDATE_BYTES_PROCESSING_THRESHOLD) `min` update_len
            else next_threshold_byte_offset in
          let delay :=
            if flush then UPDATE_PROCESSING_TIME else SERVER_REQUEST_RECEIVE_TIME in
          '(sent, fc, completed) ← update_loop fuel (S n) image update_cipher update_len
            to_update_byte_offset next_threshold_byte_offset
            (wrapping_add 16 frame_counter 1) datagram_buf;
          mret ((datagram_buf, delay) :: sent, fc, completed)
        else mret ([], frame_counter, false)
      else mret ([], frame_counter, true)
  end.

(** [update_servers]: what the loop sends, the frame counter afterwards, and
    the time the function sleeps at its end. *)
Definition update_servers (n : nat) (image : list Z) (update_key : list Z) (update_len : Z)
    (frame_counter : Z) (datagram_buf : list Z) : outcome (list (list Z * Z) * Z * Z) :=
  '(sent, frame_counter, completed) ←
    update_loop (S (length image)) n image (cipher_new update_key) update_len 0
      (UPDATE_BYTES_PROCESSING_THRESHOLD `min` update_len) frame_counter datagram_buf;
  mret (sent, frame_counter, if completed : bool then UPDATE_PROCESSING_TIME else 0).

(** [client::task]: the announcements and the updates it sends, with the delay
    after each, and the time it sleeps at its end. *)
Definition client_task {rng} `{RngCore rng} (image : list Z) (servers : list (Z * list Z))
    (g : rng) : outcome (list (list Z * Z) * list (list Z * Z) * Z) :=
  '(update_key, _) ← fill_bytes g 16;
  let update_len := Z.of_nat (length image) in
  '(announced, frame_counter, datagram_buf, n) ←
    prepare_servers_for_update 0 servers update_key update_len 0
      (replicate (Z.to_nat MIN_PACKET_SIZE) 0);
  '(sent, _, rest) ← update_servers n image update_key update_len frame_counter datagram_buf;
  mret (announced, sent, rest).

(** ** [mod server] *)

Record UpdateInfo := {
  info_cipher : cipher;
  byte_len : Z;
  next_byte_offset : Z;
}.

(** What the server reports on its console. *)
Inductive report :=
  | Abandoning (offset len : Z)
  | ReceivedUpdate (offset len : Z)
  | LastFlush
  | Finished (n : Z)
  | Flush
  | Updating (from to : Version).

Definition from_client (h : Header) : bool :=
  bool_decide (server_address h = 0x00) && bool_decide (server_port h = 0x01)
  && bool_decide (source h = DataLink.Client).

Definition process_client_update_request (N : nat) (cipher : cipher) (datagram_buf : list Z)
  : option Update :=
  '(_, b) ← ok (from_datagram datagram_buf from_client cipher);
  ok (from_bytes (Update_deserialize N) (as_slice b)).

(** [process_active_update]: whether the update is over, the state of the
    update and what is reported. *)
Definition process_active_update (update_info : UpdateInfo) (update : Update)
  : bool * UpdateInfo * list report :=
  let len := Z.of_nat (length (update_bytes update)) in
  if bool_decide (byte_offset update <> next_byte_offset update_info) then
    (true, update_info, [Abandoning (byte_offset update) len])
  else
    let update_info :=
      {| info_cipher := info_cipher update_info; byte_len := byte_len update_info;
         next_byte_offset := next_byte_offset update_info + len |} in
    let received := ReceivedUpdate (byte_offset update) len in
    if bool_decide (next_byte_offset update_info = byte_len update_info) then
      (true, update_info, [received; LastFlush; Finished (next_byte_offset update_info)])
    else if bool_decide (next_byte_offset update_info mod UPDATE_BYTES_PROCESSING_THRESHOLD = 0)
    then (false, update_info, [received; Flush])
    else (false, update_info, [received]).

Definition process_client_prepare_for_update_request (cipher : cipher) (datagram_buf : list Z)
  : option PrepareForUpdate :=
  '(_, b) ← ok (from_datagram datagram_buf from_client cipher);
  ok (from_bytes deserialize (as_slice b)).

Definition activate_update_if_new_version (p : PrepareForUpdate) (current_version : Version)
  : option UpdateInfo :=
  if Version.gt (version p) current_version then
    Some {| info_cipher := cipher_new (key_bytes (update_key p));
            byte_len := update_byte_len p; next_byte_offset := 0 |}
  else None.

(** ["1.2.0".parse().unwrap()]. *)
Definition current_version : outcome Version := unwrap (Version.from_str (lit "1.2.0"%string)).

(** One turn of the server's loop: the active update and what is reported. *)
Definition server_turn (server_cipher : cipher) (current_version : Version)
    (active_update_info : option UpdateInfo) (datagram : list Z)
  : option UpdateInfo * list report :=
  match (update_info ← active_update_info;
         update ← process_client_update_request (Z.to_nat UPDATE_BYTES_SIZE)
                    (info_cipher update_info) datagram;
         Some (update_info, update)) with
  | Some (update_info, update) =>
      let '(over, update_info, reports) := process_active_update update_info update in
      (if over : bool then None else Some update_info, reports)
  | None =>
      match process_client_prepare_for_update_request server_cipher datagram with
      | Some p =>
          match activate_update_if_new_version p current_version with
          | Some new => (Some new, [Updating current_version (version p)])
          | None => (active_update_info, [])
          end
      | None => (active_update_info, [])
      end
  end.

(** The loop: the active update after the datagrams received, and all that
    is reported. *)
Fixpoint server_turns (server_cipher : cipher) (current_version : Version)
    (active_update_info : option UpdateInfo) (datagrams : list (list Z))
  : option UpdateInfo * list report :=
  match datagrams with
  | [] => (active_update_info, [])
  | d :: datagrams =>
      let '(active, reports) := server_turn server_cipher current_version active_update_info d in
      let '(active, reports') := server_turns server_cipher current_version active datagrams in
      (active, reports ++ reports')
  end.

(** [server::task]. *)
Definition server_task (server : Z * list Z) (datagrams : list (list Z))
  : outcome (option UpdateInfo * list report) :=
  let '(_, server_network_key) := server in
  current_version ← current_version;
  mret (server_turns (cipher_new server_network_key) current_version None datagrams).

End example.

(** ** Specifications *)

(** Whether a chunk that ends at [to] ends a flush period of an update of
    [len] bytes. *)
Definition ends_period (len to : Z) : bool :=
  bool_decide (to mod UPDATE_BYTES_PROCESSING_THRESHOLD = 0) || bool_decide (to = len).

(** The reports of a server that follows an update of [len] bytes. *)
Definition progress (len : Z) (us : list Update) : list report :=
  us ≫= fun u =>
    let n := Z.of_nat (length (update_bytes u)) in
    let to := byte_offset u + n in
    ReceivedUpdate (byte_offset u) n ::
    (if bool_decide (to = len) then [LastFlush; Finished to]
     else if ends_period len to then [Flush] else []).

(** The updates cover the bytes from [off] up to [len], in order, in chunks
    of [UPDATE_BYTES_SIZE] bytes that do not cross the end of a period; only
    the chunk that ends a period may be shorter. *)
Fixpoint chunks (len off : Z) (us : list Update) : Prop :=
  match us with
  | [] => off = len
  | u :: us =>
      let n := Z.of_nat (length (update_bytes u)) in
      byte_offset u = off /\ 0 < n <= UPDATE_BYTES_SIZE /\
      ((n = UPDATE_BYTES_SIZE \/ ends_period len (off + n) = true) /\
       off / UPDATE_BYTES_PROCESSING_THRESHOLD =
         (off + n - 1) / UPDATE_BYTES_PROCESSING_THRESHOLD) /\
      off + n <= len /\ chunks len (off + n) us
  end.

Section specifications.

Context {F : SerdeFormat} {P : Postcard} {V : HeaplessVec} {A : Aead}.

(** A datagram that carries an update under the [n]th frame counter. *)
Definition carries (c : cipher) (frame_counter : Z) (d : list Z) (u : Update) : Prop :=
  exists v, from_datagram d from_client c = Ok (update_header frame_counter, v) /\
    from_bytes (Update_deserialize (Z.to_nat UPDATE_BYTES_SIZE)) (as_slice v) = Ok u.

(** The datagrams sent carry the updates, under successive frame counters,
    and the client waits for the servers to flush at the end of a period. *)
Fixpoint transmits (c : cipher) (len fc : Z) (sent : list (list Z * Z)) (us : list Update)
  : Prop :=
  match sent, us with
  | [], [] => True
  | (d, delay) :: sent, u :: us =>
      carries c fc d u /\
      delay = (if ends_period len (byte_offset u + Z.of_nat (length (update_bytes u)))
               then UPDATE_PROCESSING_TIME else SERVER_REQUEST_RECEIVE_TIME) /\
      transmits c len (wrapping_add 16 fc 1) sent us
  | _, _ => False
  end.

Lemma carries_read c fc d u :
  carries c fc d u ->
  process_client_update_request (Z.to_nat UPDATE_BYTES_SIZE) c d = Some u.
Proof.
  intros (v & Hd & Hu). unfold process_client_update_request. rewrite Hd.
  cbn [ok mbind option_bind]. by rewrite Hu.
Qed.

End specifications.

Section client_lemmas.

Context {F : SerdeFormat} {P : Postcard} {L : PostcardLaws}.
Context {V : HeaplessVec} {VL : HeaplessVecLaws} {A : Aead} {AL : AeadLaws}.

Lemma update_request_carries c u fc buf :
  0 <= byte_offset u < 2 ^ 28 -> Z.of_nat (length (update_bytes u)) <= UPDATE_BYTES_SIZE ->
  uint 16 fc -> Z.of_nat (length buf) = MIN_PACKET_SIZE ->
  exists buf', create_update_request c u fc buf = Done buf' /\
    length buf' = length buf /\ carries c fc buf' u.
Proof.
  change UPDATE_BYTES_SIZE with 27. intros Ho Hl Hfc Hbuf.
  assert (wire_ok u) as Hu by (split; unfold uint; cbn in *; lia).
  assert (length (encode u) <= 32)%nat as Hlen.
  { rewrite update_length, (varint_small (Z.of_nat _)) by lia.
    pose proof (varint_length_le 3 (byte_offset u)) as Hv. cbn [length] in *. cbn in Hv. lia. }
  unfold create_update_request. rewrite to_vec_encode by done. cbn [unwrap mbind outcome_bind].
  destruct (packet_roundtrip c (update_header fc) (encode u) from_client buf)
    as (buf' & v & Hto & Hfrom & Hv & Hl'); try done.
  exists buf'. split_and!; [done|done|]. exists v. split; [done|].
  rewrite Hv, from_bytes_run, <- (app_nil_r (encode u)), Update_read; [done|done|].
  change (Z.to_nat UPDATE_BYTES_SIZE) with 27%nat. lia.
Qed.

Lemma slice_total {X} (l : list X) a b :
  0 <= a <= b -> b <= Z.of_nat (length l) ->
  slice l a b = Done (take (Z.to_nat (b - a)) (drop (Z.to_nat a) l)).
Proof. intros. unfold slice. by rewrite decide_True. Qed.

(** The end of the period that [off] is in. *)
Definition period_end (len off : Z) : Z :=
  ((off / UPDATE_BYTES_PROCESSING_THRESHOLD + 1) * UPDATE_BYTES_PROCESSING_THRESHOLD) `min` len.

Lemma period_step len off :
  0 <= off < len ->
  let thr := period_end len off in
  let to := (off + UPDATE_BYTES_SIZE) `min` thr in
  off < to /\ to <= off + UPDATE_BYTES_SIZE /\ to <= len /\
  off / UPDATE_BYTES_PROCESSING_THRESHOLD = (to - 1) / UPDATE_BYTES_PROCESSING_THRESHOLD /\
  bool_decide (to = thr) = ends_period len to /\
  (to < len ->
   (if bool_decide (to = thr)
    then (thr + UPDATE_BYTES_PROCESSING_THRESHOLD) `min` len else thr) = period_end len to).
Proof.
  intros Hoff thr to. subst to thr. change UPDATE_BYTES_SIZE with 27.
  unfold period_end, ends_period, UPDATE_BYTES_PROCESSING_THRESHOLD.
  set (thr := _ `min` len). set (to := _ `min` thr).
  assert (off < to <= off + 27 /\ to <= len) as Hto by (subst thr to; divmod).
  split_and!; [lia..|subst thr to; divmod| |].
  - apply eq_bool_prop_intro. rewrite orb_True, !bool_decide_spec. subst thr to.
    split; intros H; divmod.
  - intros Hlen. case_bool_decide as Heq; subst thr to; divmod.
Qed.

Lemma update_loop_spec c image fuel n off thr fc buf :
  let len := Z.of_nat (length image) in
  len <= 2 ^ 28 -> 0 <= off <= len -> (off < len -> thr = period_end len off) ->
  uint 16 fc -> Z.of_nat (length buf) = MIN_PACKET_SIZE -> len - off < Z.of_nat fuel ->
  exists sent fc' us,
    update_loop (fun _ => true) fuel n image c len off thr fc buf = Done (sent, fc', true) /\
    chunks len off us /\ transmits c len fc sent us /\
    us ≫= update_bytes = drop (Z.to_nat off) image.
Proof.
  intros len Hlen. revert n off thr fc buf.
  induction fuel as [|fuel IH]; intros n off thr fc buf Hoff Hthr Hfc Hbuf Hfuel; [lia|].
  cbn [update_loop]. fold len. case_bool_decide as Hlt.
  2: { exists [], fc, []. split_and!; [done|cbn; lia|done|]. symmetry. apply drop_ge. lia. }
  rewrite (Hthr Hlt).
  destruct (period_step len off) as (Hto1 & Hto2 & Hto3 & Hdiv & Hflush & Hnext); [lia|].
  set (thr0 := period_end len off) in *. set (to := (off + UPDATE_BYTES_SIZE) `min` thr0) in *.
  change UPDATE_BYTES_SIZE with 27 in Hto2.
  rewrite slice_total by (unfold len in *; lia). cbn [mbind outcome_bind].
  set (bs := take (Z.to_nat (to - off)) (drop (Z.to_nat off) image)).
  assert (Z.of_nat (length bs) = to - off) as Hbs.
  { subst bs. rewrite length_take, length_drop. unfold len in *. lia. }
  destruct (from_slice_fits (Z.to_nat UPDATE_BYTES_SIZE) bs) as (v & -> & Hv).
  { change (Z.to_nat UPDATE_BYTES_SIZE) with 27%nat. lia. }
  cbn [unwrap mbind outcome_bind]. rewrite Hv, as_uint_small by (unfold uint; lia).
  set (u := {| byte_offset := off; Update.update_bytes := bs |}).
  destruct (update_request_carries c u fc buf) as (buf' & -> & Hl' & Hc); try done;
    [cbn; lia|cbn; change UPDATE_BYTES_SIZE with 27; lia|]. cbn [mbind outcome_bind].
  destruct (IH (S n) to (if bool_decide (to = thr0)
      then (thr0 + UPDATE_BYTES_PROCESSING_THRESHOLD) `min` len else thr0)
      (wrapping_add 16 fc 1) buf') as (sent & fc' & us & -> & Hchunks & Htrans & Himage);
    [lia|done|apply as_uint_range; lia|by rewrite Hl'|lia|].
  cbn [mbind outcome_bind]. eexists _, fc', (u :: us). split; [done|].
  cbn [chunks transmits byte_offset Update.update_bytes]. subst u. cbn [byte_offset update_bytes].
  rewrite Hbs. replace (off + (to - off)) with to by lia. rewrite Hflush.
  assert (to - off = UPDATE_BYTES_SIZE \/ ends_period len to = true) as Hfull.
  { destruct (decide (to = thr0)) as [Heq|Hne]; [right|left; subst to; lia].
    rewrite <- Hflush. by apply bool_decide_eq_true_2. }
  change UPDATE_BYTES_SIZE with 27 in *.
  split_and!; [done|lia|lia|done|done|lia|done|done|done|done|].
  cbn [mbind list_bind]. change (bs ++ (us ≫= update_bytes) = drop (Z.to_nat off) image).
  rewrite Himage. subst bs. rewrite <- (take_drop (Z.to_nat (to - off)) (drop (Z.to_nat off) image)) at 2.
  rewrite drop_drop. do 2 f_equal. lia.
Qed.

Lemma update_servers_spec n image key fc buf :
  let len := Z.of_nat (length image) in
  len <= 2 ^ 28 -> uint 16 fc -> Z.of_nat (length buf) = MIN_PACKET_SIZE ->
  exists sent fc' us,
    update_servers (fun _ => true) n image key len fc buf =
      Done (sent, fc', UPDATE_PROCESSING_TIME) /\
    chunks len 0 us /\ transmits (cipher_new key) len fc sent us /\
    us ≫= update_bytes = image.
Proof.
  intros len Hlen Hfc Hbuf. unfold update_servers.
  destruct (update_loop_spec (cipher_new key) image (S (length image)) n 0
      (UPDATE_BYTES_PROCESSING_THRESHOLD `min` len) fc buf)
    as (sent & fc' & us & Hloop & Hspec); fold len; [lia|lia|done|done|done|lia|].
  fold len in Hloop, Hspec. rewrite Hloop. by exists sent, fc', us.
Qed.

End client_lemmas.

Section server_lemmas.

Context {F : SerdeFormat} {P : Postcard} {L : PostcardLaws}.
Context {V : HeaplessVec} {VL : HeaplessVecLaws} {A : Aead} {AL : AeadLaws}.

Lemma server_turns_app key v active ds ds' :
  server_turns key v active (ds ++ ds') =
  let '(active, reports) := server_turns key v active ds in
  let '(active, reports') := server_turns key v active ds' in
  (active, reports ++ reports').
Proof.
  revert active. induction ds as [|d ds IH]; intros active; cbn [server_turns app].
  { by destruct (server_turns key v active ds'). }
  destruct (server_turn key v active d) as [active1 r1]. rewrite IH.
  destruct (server_turns key v active1 ds) as [active2 r2].
  destruct (server_turns key v active2 ds') as [active3 r3]. by rewrite app_assoc.
Qed.

(** The datagram of an update reaches a server that has its key. *)
Lemma server_turn_update key v info fc d u :
  carries (info_cipher info) fc d u ->
  server_turn key v (Some info) d =
  let '(over, info, reports) := process_active_update info u in
  (if over : bool then None else Some info, reports).
Proof.
  intros Hc. unfold server_turn. cbn [mbind option_bind].
  by rewrite (carries_read _ _ _ _ Hc).
Qed.

Lemma process_expected info u :
  byte_offset u = next_byte_offset info ->
  let to := byte_offset u + Z.of_nat (length (update_bytes u)) in
  process_active_update info u =
  (bool_decide (to = byte_len info),
   {| info_cipher := info_cipher info; byte_len := byte_len info; next_byte_offset := to |},
   progress (byte_len info) [u]).
Proof.
  intros Hu to. unfold process_active_update, progress, ends_period. subst to.
  rewrite Hu. cbn [mbind list_bind next_byte_offset byte_len]. rewrite app_nil_r.
  rewrite bool_decide_eq_false_2 by auto. rewrite Hu.
  case_bool_decide; [done|]. rewrite orb_false_r. by case_bool_decide.
Qed.

(** A server that misses nothing follows the update, and drops the key when
    it has all of it. *)
Lemma server_follows key v c len off fc sent us :
  off < len -> chunks len off us -> transmits c len fc sent us ->
  server_turns key v
    (Some {| info_cipher := c; byte_len := len; next_byte_offset := off |}) (map fst sent) =
  (None, progress len us).
Proof.
  revert off fc sent. induction us as [|u us IH]; intros off fc sent Hoff Hch Htr.
  { cbn in Hch. lia. }
  destruct sent as [|[d delay] sent]; [by cbn in Htr|]. destruct Htr as (Hc & _ & Htr).
  destruct Hch as (Hu & Hn & _ & Hle & Hch). cbn [map fst server_turns].
  rewrite (server_turn_update _ _ _ fc d u), process_expected by done.
  cbn [byte_len info_cipher]. rewrite Hu. case_bool_decide as Hto.
  - rewrite <- Hto in Hch. destruct us as [|u' us].
    + destruct sent as [|[d2 delay2] sent]; [|by cbn in Htr]. cbn [map server_turns].
      by rewrite app_nil_r.
    + cbn [chunks] in Hch. destruct Hch as (_ & Hn' & _ & Hle' & _). lia.
  - rewrite (IH (off + Z.of_nat (length (update_bytes u))) _ _ ltac:(lia) Hch Htr). f_equal.
    unfold progress. cbn [mbind list_bind]. by rewrite app_nil_r.
Qed.

(** Datagrams that are not for a server without an active update. *)
Definition foreign (key : cipher) (d : list Z) : Prop :=
  process_client_prepare_for_update_request key d = None.

Lemma server_ignores key v ds :
  Forall (foreign key) ds -> server_turns key v None ds = (None, []).
Proof.
  induction 1 as [|d ds Hd _ IH]; [done|]. cbn [server_turns].
  unfold server_turn. cbn [mbind option_bind]. rewrite Hd. by rewrite IH.
Qed.

(** Up to a gap. *)
Lemma server_follows_part key v c len off fc sent us sent' us' :
  chunks len off (us ++ us') -> us' <> [] ->
  transmits c len fc (sent ++ sent') (us ++ us') -> length sent = length us ->
  server_turns key v
    (Some {| info_cipher := c; byte_len := len; next_byte_offset := off |}) (map fst sent) =
  (Some {| info_cipher := c; byte_len := len;
           next_byte_offset := off + Z.of_nat (length (us ≫= update_bytes)) |},
   progress len us).
Proof.
  revert off fc sent. induction us as [|u us IH]; intros off fc sent Hch Hne Htr Hlen.
  { destruct sent; [|done]. cbn. do 3 f_equal. lia. }
  destruct sent as [|[d delay] sent]; [by cbn in Htr|]. destruct Htr as (Hc & _ & Htr).
  destruct Hch as (Hu & Hn & _ & Hle & Hch). cbn [map fst server_turns].
  rewrite (server_turn_update _ _ _ fc d u), process_expected by done.
  cbn [byte_len info_cipher]. rewrite Hu, bool_decide_eq_false_2.
  - rewrite (IH _ _ _ Hch Hne Htr ltac:(by injection Hlen)). f_equal.
    + do 2 f_equal. cbn [mbind list_bind]. rewrite length_app. lia.
    + unfold progress. cbn [mbind list_bind]. by rewrite app_nil_r.
  - intros Hto. destruct (us ++ us') as [|u2 us2] eqn:Happ.
    { by apply app_nil in Happ as [_ ->]. }
    destruct Hch as (_ & Hn2 & _ & Hle2 & _). lia.
Qed.

Lemma chunks_app len off us us' :
  chunks len off (us ++ us') ->
  chunks len (off + Z.of_nat (length (us ≫= update_bytes))) us'.
Proof.
  revert off. induction us as [|u us IH]; intros off Hch; [cbn; by rewrite Z.add_0_r|].
  destruct Hch as (_ & _ & _ & _ & Hch). apply IH in Hch. cbn [mbind list_bind].
  rewrite length_app. by replace (off + Z.of_nat (_ + _)) with
    (off + Z.of_nat (length (update_bytes u)) + Z.of_nat (length (us ≫= update_bytes))) by lia.
Qed.

Lemma transmits_drop c len fc sent us sent' us' :
  length sent = length us -> transmits c len fc (sent ++ sent') (us ++ us') ->
  exists fc', transmits c len fc' sent' us'.
Proof.
  revert fc sent. induction us as [|u us IH]; intros fc [|[d delay] sent] Hlen Htr; try done.
  - by exists fc.
  - destruct Htr as (_ & _ & Htr). by apply (IH _ sent ltac:(by injection Hlen) Htr).
Qed.

(** What is sent to a server announces the update to it. *)
Lemma prepare_read key p fc buf :
  wire_ok p -> uint 16 fc -> Z.of_nat (length buf) = MIN_PACKET_SIZE ->
  exists buf', create_prepare_update_request key p fc buf = Done buf' /\
    length buf' = length buf /\
    process_client_prepare_for_update_request key buf' = Some p.
Proof.
  intros Hp Hfc Hbuf. pose proof (prepare_length p Hp) as Hl.
  unfold create_prepare_update_request, process_client_prepare_for_update_request.
  rewrite to_vec_encode by (done || change (Z.to_nat MIN_PAYLOAD_SIZE) with 32%nat; lia).
  cbn [unwrap mbind outcome_bind].
  destruct (packet_roundtrip key (update_header fc) (encode p) from_client buf)
    as (buf' & v & Hto & Hfrom & Hv & Hl'); try done; [lia|].
  exists buf'. split_and!; [done|done|]. rewrite Hfrom. cbn [ok mbind option_bind].
  by rewrite Hv, from_bytes_encode_end.
Qed.

(** The number of chunks: full ones, and those that end a period. *)
Lemma chunks_length len off us :
  0 <= off -> chunks len off us ->
  Z.of_nat (length us) <=
  (len - off) / UPDATE_BYTES_SIZE +
  (len / UPDATE_BYTES_PROCESSING_THRESHOLD - off / UPDATE_BYTES_PROCESSING_THRESHOLD) + 1.
Proof.
  change UPDATE_BYTES_SIZE with 27. change UPDATE_BYTES_PROCESSING_THRESHOLD with 4096.
  revert off. induction us as [|u us IH]; intros off Hoff Hch.
  { cbn in Hch |- *. subst. rewrite Z.sub_diag, Z.sub_diag. by vm_compute. }
  destruct Hch as (_ & Hn & [Hfull Hdiv] & Hle & Hch).
  set (n := Z.of_nat (length (update_bytes u))) in *.
  change UPDATE_BYTES_SIZE with 27 in *. change UPDATE_BYTES_PROCESSING_THRESHOLD with 4096 in *.
  assert (0 <= off + n) as Hto by lia. specialize (IH (off + n) Hto Hch).
  cbn [length]. destruct Hfull as [Hfull|Hends]; [divmod|].
  unfold ends_period in Hends. change UPDATE_BYTES_PROCESSING_THRESHOLD with 4096 in Hends.
  apply orb_true_iff in Hends as [Hends|Hends]; apply bool_decide_eq_true_1 in Hends; [divmod|].
  destruct us as [|u' us]; [cbn [length]; divmod|].
  destruct Hch as (_ & Hn' & _ & Hle' & _). lia.
Qed.

Lemma transmits_lookup c len fc sent us i d delay :
  transmits c len fc sent us -> uint 16 fc -> sent !! i = Some (d, delay) ->
  exists v, from_datagram d from_client c =
            Ok (update_header (as_uint 16 (fc + Z.of_nat i)), v).
Proof.
  revert fc us i. induction sent as [|[d0 delay0] sent IH]; intros fc [|u us] i Htr Hfc Hi;
    try (by cbn in Htr).
  destruct Htr as ((v & Hv & _) & _ & Htr). destruct i as [|i]; cbn in Hi.
  - injection Hi as -> ->. rewrite Z.add_0_r, as_uint_small by done. by exists v.
  - destruct (IH _ _ _ Htr (as_uint_range 16 _ ltac:(lia)) Hi) as (v' & Hv').
    exists v'. rewrite Hv'. do 3 f_equal. unfold as_uint, wrapping_add.
    rewrite Zplus_mod_idemp_l. f_equal. lia.
Qed.

Lemma transmits_length c len fc sent us :
  transmits c len fc sent us -> length sent = length us.
Proof.
  revert fc us. induction sent as [|[d delay] sent IH]; intros fc [|u us] Htr;
    try (by cbn in Htr).
  destruct Htr as (_ & _ & Htr). cbn. f_equal. by eapply IH.
Qed.

End server_lemmas.

(** ** Properties *)

Section properties.

Context {F : SerdeFormat} {P : Postcard} {L : PostcardLaws}.
Context {V : HeaplessVec} {VL : HeaplessVecLaws} {A : Aead} {AL : AeadLaws}.
Context {rng : Type} {R : RngCore rng} {RL : FillBytesLaws rng}.

(** The channel of the example always has a receiver. *)
Definition connected : nat -> bool := fun _ => true.

(** C15: for an update of up to 2^28 bytes, the client's loop ends without a
    panic; the datagrams it sends carry chunks of 27 bytes whose
    concatenation is the update, in order and without a gap, under successive
    frame counters; no chunk crosses the end of a 4096-byte period, only the
    chunk that ends a period is shorter; the client gives the servers the long
    delay exactly after the chunks that end a period or the update, and once
    more at the end. *)
Theorem update_servers_covers (n : nat) (image key : list Z) (fc : Z) (buf : list Z) :
  let len := Z.of_nat (length image) in
  len <= 2 ^ 28 -> uint 16 fc -> Z.of_nat (length buf) = MIN_PACKET_SIZE ->
  exists sent fc' us,
    update_servers connected n image key len fc buf =
      Done (sent, fc', UPDATE_PROCESSING_TIME) /\
    chunks len 0 us /\ transmits (cipher_new key) len fc sent us /\
    us ≫= update_bytes = image.
Proof. apply update_servers_spec. Qed.

(** C16: in an update of up to 1,700,000 bytes no two datagrams are sent under
    the same frame counter, so that no nonce is used twice with the update's
    key. *)
Theorem update_nonces_distinct (n : nat) (image key : list Z) (fc : Z) (buf : list Z) :
  let len := Z.of_nat (length image) in
  len <= 1700000 -> uint 16 fc -> Z.of_nat (length buf) = MIN_PACKET_SIZE ->
  exists sent fc',
    update_servers connected n image key len fc buf =
      Done (sent, fc', UPDATE_PROCESSING_TIME) /\
    forall i j d d', i <> j -> fst <$> sent !! i = Some d -> fst <$> sent !! j = Some d' ->
      exists h h' v v',
        from_datagram d from_client (cipher_new key) = Ok (h, v) /\
        from_datagram d' from_client (cipher_new key) = Ok (h', v') /\
        frame_counter h <> frame_counter h'.
Proof.
  intros len Hlen Hfc Hbuf.
  destruct (update_servers_spec n image key fc buf)
    as (sent & fc' & us & Hrun & Hch & Htr & _); fold len; [lia|done|done|].
  fold len in Hrun, Hch, Htr. exists sent, fc'. split; [exact Hrun|].
  pose proof (chunks_length _ _ _ (Z.le_refl 0) Hch) as Hus.
  pose proof (transmits_length _ _ _ _ _ Htr) as Hl.
  assert (Z.of_nat (length sent) <= 2 ^ 16) as Hsent.
  { change UPDATE_BYTES_SIZE with 27 in Hus.
    change UPDATE_BYTES_PROCESSING_THRESHOLD with 4096 in Hus. rewrite Hl. divmod. }
  intros i j d d' Hij Hi Hj.
  destruct (sent !! i) as [[d1 delay1]|] eqn:Hi1; [|done]. injection Hi as ->.
  destruct (sent !! j) as [[d2 delay2]|] eqn:Hj1; [|done]. injection Hj as ->.
  destruct (transmits_lookup _ _ _ _ _ _ _ _ Htr Hfc Hi1) as (v & Hv).
  destruct (transmits_lookup _ _ _ _ _ _ _ _ Htr Hfc Hj1) as (v' & Hv').
  eexists _, _, v, v'. split_and!; [exact Hv|exact Hv'|]. cbn [frame_counter update_header].
  apply lookup_lt_Some in Hi1, Hj1. unfold as_uint. divmod.
Qed.

(** A server whose version is below the announced one, and that misses
    none of the client's datagrams, reports the update to the new version,
    then every chunk in order with a flush after each period, and at the end
    that it is complete; then it has dropped the update's key. *)
Theorem update_end_to_end (image key : list Z) (address : Z) (g : rng) :
  let len := Z.of_nat (length image) in
  0 < len <= 2 ^ 28 ->
  exists announced sent rest us,
    client_task connected image [(address, key)] g = Done (announced, sent, rest) /\
    chunks len 0 us /\ us ≫= update_bytes = image /\
    server_task (address, key) (map fst (announced ++ sent)) =
    Done (None,
      Updating {| major := 1; minor := 2; patch := 0; pre := None |}
               {| major := 1; minor := 2; patch := 3; pre := None |} :: progress len us).
Proof.
  intros len Hlen. unfold client_task.
  destruct (fill_bytes_done g 16) as (update_key & g' & -> & Hkey & _).
  cbn [mbind outcome_bind]. fold len.
  set (p := announcement update_key len).
  assert (wire_ok p) as Hp.
  { split; [done|]. cbn. apply as_uint_range. lia. }
  cbn [prepare_servers_for_update]. change (connected 0) with true.
  destruct (prepare_read (cipher_new key) p 0 (replicate (Z.to_nat MIN_PACKET_SIZE) 0))
    as (d & Hd & Hl & Hread); [done|by split|done|].
  fold p. rewrite Hd. cbn [mbind outcome_bind mret outcome_ret].
  destruct (update_servers_spec 1 image update_key (wrapping_add 16 0 1) d)
    as (sent & fc' & us & Hsent & Hch & Htr & Himage); fold len;
    [lia|apply as_uint_range; lia|by rewrite Hl|].
  fold len in Hsent, Hch, Htr. change (fun _ : nat => true) with connected in Hsent.
  rewrite Hsent. cbn [mbind outcome_bind mret outcome_ret].
  exists [(d, SERVER_REQUEST_RECEIVE_TIME)], sent, UPDATE_PROCESSING_TIME, us.
  split_and!; [done..|].
  unfold server_task. replace current_version with
    (Done {| major := 1; minor := 2; patch := 0; pre := None |}) by (by vm_compute).
  cbn [mbind outcome_bind mret outcome_ret app map fst server_turns].
  unfold server_turn at 1. cbn [mbind option_bind]. rewrite Hread.
  assert (update_byte_len p = len) as Hplen by (apply as_uint_small; unfold uint; lia).
  change (activate_update_if_new_version p _) with
    (Some {| info_cipher := cipher_new update_key; byte_len := update_byte_len p;
             next_byte_offset := 0 |}).
  rewrite Hplen.
  rewrite (server_follows _ _ (cipher_new update_key) len 0 (wrapping_add 16 0 1) sent us);
    [done|lia|done|done].
Qed.

(** C11: a server that misses some of the update's datagrams follows the
    update up to the gap; the next datagram it gets makes it abandon the
    update, and from then on it ignores the rest (which is not an
    announcement with the server's own key): it never reports the update
    complete. *)
Theorem update_abandoned_on_gap (key : cipher) (v : Version) (c : cipher) (len fc : Z)
    (sent missed later : list (list Z * Z)) (d : list Z * Z)
    (us us_missed us_later : list Update) (u : Update) :
  chunks len 0 (us ++ us_missed ++ u :: us_later) ->
  transmits c len fc (sent ++ missed ++ d :: later) (us ++ us_missed ++ u :: us_later) ->
  length sent = length us -> length missed = length us_missed -> us_missed <> [] ->
  Forall (foreign key) (map fst later) ->
  server_turns key v
    (Some {| info_cipher := c; byte_len := len; next_byte_offset := 0 |})
    (map fst (sent ++ d :: later)) =
  (None, progress len us ++
         [Abandoning (byte_offset u) (Z.of_nat (length (update_bytes u)))]).
Proof.
  intros Hch Htr Hl Hl' Hne Hforeign. rewrite map_app, server_turns_app.
  erewrite server_follows_part; [|exact Hch| |exact Htr|exact Hl].
  2: { intros [-> ?]%app_nil. done. }
  destruct (transmits_drop _ _ _ _ _ _ _ Hl Htr) as [fc1 Htr1].
  destruct (transmits_drop _ _ _ _ _ _ _ Hl' Htr1) as [fc2 Htr2].
  destruct d as [d delay]. destruct Htr2 as (Hc & _).
  cbn [map fst server_turns].
  rewrite (server_turn_update _ _ _ fc2 d u) by done. unfold process_active_update.
  apply chunks_app in Hch. set (off := 0 + _) in Hch |- *.
  pose proof (chunks_app _ _ _ _ Hch) as (Hu & _).
  destruct us_missed as [|m us_missed]; [done|]. destruct Hch as (_ & Hm & _).
  cbn [next_byte_offset]. rewrite bool_decide_eq_true_2.
  - by rewrite server_ignores.
  - rewrite Hu. cbn [mbind list_bind]. rewrite length_app. lia.
Qed.

(** C28: an announcement made with a server's key is read by it as it was;
    an idle server starts an update of the announced length, with the
    announced key, exactly when the announced version is newer than its own,
    and else ignores it. *)
Theorem prepare_activates (key : cipher) (v : Version) (p : PrepareForUpdate) (fc : Z)
    (buf : list Z) :
  length (key_bytes (update_key p)) = 16%nat -> uint 32 (update_byte_len p) ->
  uint 16 fc -> Z.of_nat (length buf) = MIN_PACKET_SIZE ->
  version_typed v -> version_typed (version p) ->
  exists d, create_prepare_update_request key p fc buf = Done d /\
    server_turn key v None d =
    if rank v <? rank (version p)
    then (Some {| info_cipher := cipher_new (key_bytes (update_key p));
                  byte_len := update_byte_len p; next_byte_offset := 0 |},
          [Updating v (version p)])
    else (None, []).
Proof.
  intros Hk Hl Hfc Hbuf Hv Hpv.
  destruct (prepare_read key p fc buf) as (d & Hd & _ & Hread); [by split|done|done|].
  exists d. split; [done|]. unfold server_turn. cbn [mbind option_bind]. rewrite Hread.
  unfold activate_update_if_new_version, Version.gt, Version.partial_cmp.
  rewrite cmp_rank by done. rewrite Z.compare_antisym. unfold Z.ltb.
  by destruct (rank v ?= rank (version p)).
Qed.

End properties.

(** ** Witnesses *)

Section witnesses.

Import PostcardRef ListVec ChecksumAead ConstRng.

(** An update of 60 bytes, in three chunks. *)
Definition example_image : list Z := replicate 60 7.
Definition example_key : list Z := replicate 16 9.

Lemma update_servers_covers_witness :
  exists sent fc' us,
    update_servers connected 0 example_image example_key 60 3 (replicate 42 0) =
      Done (sent, fc', UPDATE_PROCESSING_TIME) /\
    chunks 60 0 us /\ transmits (cipher_new example_key) 60 3 sent us /\
    us ≫= update_bytes = example_image.
Proof. by apply (update_servers_covers 0 example_image example_key 3 (replicate 42 0)). Defined.

Lemma update_nonces_distinct_witness :
  exists sent fc',
    update_servers connected 0 example_image example_key 60 65535 (replicate 42 0) =
      Done (sent, fc', UPDATE_PROCESSING_TIME) /\
    forall i j d d', i <> j -> fst <$> sent !! i = Some d -> fst <$> sent !! j = Some d' ->
      exists h h' v v',
        from_datagram d from_client (cipher_new example_key) = Ok (h, v) /\
        from_datagram d' from_client (cipher_new example_key) = Ok (h', v') /\
        frame_counter h <> frame_counter h'.
Proof.
  by apply (update_nonces_distinct 0 example_image example_key 65535 (replicate 42 0)).
Defined.

Lemma update_end_to_end_witness :
  exists announced sent rest us,
    client_task connected example_image [(1, example_key)] 5 = Done (announced, sent, rest) /\
    chunks 60 0 us /\ us ≫= update_bytes = example_image /\
    server_task (1, example_key) (map fst (announced ++ sent)) =
    Done (None,
      Updating {| major := 1; minor := 2; patch := 0; pre := None |}
               {| major := 1; minor := 2; patch := 3; pre := None |} :: progress 60 us).
Proof. by apply (update_end_to_end example_image example_key 1 5). Defined.

Definition chunk (o : Z) (n : nat) : Update :=
  {| byte_offset := o; Update.update_bytes := replicate n 7 |}.

(** The datagram of a chunk. *)
Definition example_datagram (fc o : Z) (n : nat) : list Z :=
  match create_update_request (cipher_new example_key) (chunk o n) fc (replicate 42 0) with
  | Done d => d
  | Panic => []
  end.

Lemma example_carries fc o n :
  uint 16 fc -> 0 <= o < 2 ^ 28 -> Z.of_nat n <= 27 ->
  carries (cipher_new example_key) fc (example_datagram fc o n) (chunk o n).
Proof.
  intros Hfc Ho Hn. unfold example_datagram.
  destruct (update_request_carries (cipher_new example_key) (chunk o n) fc (replicate 42 0))
    as (d & -> & _ & Hc); [done|cbn; by rewrite length_replicate|done|done|done].
Qed.

(** The second of three chunks is missed. *)
Lemma update_abandoned_on_gap_witness :
  server_turns (cipher_new (replicate 16 1)) {| major := 1; minor := 2; patch := 0; pre := None |}
    (Some {| info_cipher := cipher_new example_key; byte_len := 60; next_byte_offset := 0 |})
    [example_datagram 3 0 27; example_datagram 5 54 6] =
  (None, [ReceivedUpdate 0 27; Abandoning 54 6]).
Proof.
  apply (update_abandoned_on_gap (cipher_new (replicate 16 1)) _ (cipher_new example_key) 60 3
           [(example_datagram 3 0 27, 12)] [(example_datagram 4 27 27, 12)] []
           (example_datagram 5 54 6, 100) [chunk 0 27] [chunk 27 27] [] (chunk 54 6)).
  - vm_compute. repeat split; first [discriminate | by left | by right].
  - repeat split; apply example_carries; by vm_compute.
  - done.
  - done.
  - done.
  - constructor.
Defined.

(** An announcement of 1.2.3 to a server at 1.2.0. *)
Lemma prepare_activates_witness :
  exists d,
    create_prepare_update_request (cipher_new example_key) example_prepare 3 (replicate 42 0) =
      Done d /\
    server_turn (cipher_new example_key) {| major := 1; minor := 2; patch := 0; pre := None |}
      None d =
    (Some {| info_cipher := cipher_new (replicate 16 7); byte_len := 102400;
             next_byte_offset := 0 |},
     [Updating {| major := 1; minor := 2; patch := 0; pre := None |} (v123 None)]).
Proof.
  apply (prepare_activates (cipher_new example_key)
           {| major := 1; minor := 2; patch := 0; pre := None |} example_prepare 3
           (replicate 42 0)); try done; by repeat split.
Defined.

(** The ports that an update is for play no part. *)
Example activate_ignores_ports :
  let p := example_prepare in
  let q := {| version := version p; server_ports := 0; update_key := update_key p;
              update_byte_len := update_byte_len p; signed := signed p |} in
  activate_update_if_new_version q {| major := 1; minor := 2; patch := 0; pre := None |} =
  activate_update_if_new_version p {| major := 1; minor := 2; patch := 0; pre := None |} /\
  activate_update_if_new_version q {| major := 1; minor := 2; patch := 0; pre := None |} <> None.
Proof. by split. Qed.

End witnesses.
