(* ===== verification/UpdateBroadcast.v ===== *)
(** * The update example with several servers, and its [main]

    The client announces the update to each server with the server's own key
    and then broadcasts it with the update's key: every server hears all
    datagrams, and can read some. *)

From Stdlib Require Import Ascii String.
From S2P Require Import Prelude Serde PostcardRef Platform DataLink Discovery Update UpdateRun.

Section broadcast.

Context {F : SerdeFormat} {P : Postcard} {V : HeaplessVec} {A : Aead}.

(** The chunk length of the example. *)
Definition CHUNK : nat := Z.to_nat UPDATE_BYTES_SIZE.

(** Whether a server with this key can read a datagram, as an announcement or
    as a part of an update with the cipher [c]. *)
Definition heard (key c : cipher) (d : list Z) : bool :=
  match process_client_update_request CHUNK c d,
        process_client_prepare_for_update_request key d with
  | None, None => false
  | _, _ => true
  end.

(** The cipher of an active update, if there is one. *)
Definition follows_key (c : cipher) (active : option UpdateInfo) : Prop :=
  forall info, active = Some info -> info_cipher info = c.

(** What a server reads as an announcement has the update's key. *)
Definition announces (key c : cipher) (d : list Z) : Prop :=
  forall p, process_client_prepare_for_update_request key d = Some p ->
    cipher_new (key_bytes (update_key p)) = c.

(** A datagram that it cannot read changes nothing. *)
Lemma unheard_turn key c v active d :
  heard key c d = false -> follows_key c active -> server_turn key v active d = (active, []).
Proof.
  unfold heard, server_turn. intros Hd Hc. fold CHUNK.
  destruct (process_client_update_request CHUNK c d) eqn:Hu; [done|].
  destruct (process_client_prepare_for_update_request key d) eqn:Hp; [done|].
  destruct active as [info|]; cbn [mbind option_bind]; [|done].
  by rewrite (Hc info eq_refl), Hu.
Qed.

Lemma unheard_turns key c v active ds :
  Forall (fun d => heard key c d = false) ds -> follows_key c active ->
  server_turns key v active ds = (active, []).
Proof.
  intros Hds Hc. induction Hds as [|d ds Hd _ IH]; [done|]. cbn [server_turns].
  rewrite (unheard_turn key c) by done. by rewrite IH.
Qed.

Lemma process_active_update_cipher info u :
  info_cipher (process_active_update info u).1.2 = info_cipher info.
Proof. unfold process_active_update. by repeat case_bool_decide. Qed.

Lemma server_turn_follows key c v active d :
  follows_key c active -> announces key c d -> follows_key c (server_turn key v active d).1.
Proof.
  intros Hc Hd. unfold server_turn. fold CHUNK. destruct (_ ≫= _) as [[info u]|] eqn:Hu.
  - destruct active as [info'|]; [|done]. cbn [mbind option_bind] in Hu.
    destruct (process_client_update_request _ _ d) as [u'|]; [|done].
    injection Hu as -> ->. pose proof (process_active_update_cipher info u) as Hi.
    destruct (process_active_update info u) as [[[] info1] r]; [done|].
    intros ? [= <-]. cbn in Hi |- *. rewrite Hi. by apply Hc.
  - destruct (process_client_prepare_for_update_request key d) as [p|] eqn:Hp; [|done].
    unfold activate_update_if_new_version. destruct (Version.gt _ _); [|done].
    intros ? [= <-]. by apply Hd.
Qed.

(** Nor do any number of them, wherever they come in. *)
Lemma server_turns_heard key c v active ds :
  follows_key c active -> Forall (announces key c) ds ->
  server_turns key v active ds =
  server_turns key v active (filter (fun d => heard key c d = true) ds).
Proof.
  intros Hc Hds. revert active Hc. induction Hds as [|d ds Hd _ IH]; intros active Hc; [done|].
  rewrite filter_cons. case_decide as Hh.
  - cbn [server_turns]. pose proof (server_turn_follows key c v active d Hc Hd) as Hc'.
    destruct (server_turn key v active d) as [active1 r1]. by rewrite (IH active1 Hc').
  - apply not_true_is_false in Hh. cbn [server_turns].
    rewrite (unheard_turn key c) by done. rewrite IH by done.
    by destruct (server_turns key v active _).
Qed.

(** ** [main] *)

Context {rng : Type} {R : RngCore rng}.

(** [main]: what the client's task sent, with its delays, and what the server's
    loop made of it, where the server misses nothing; all draws are from the
    thread's generator. *)
Definition main (g : rng)
  : outcome (list (list Z * Z) * list (list Z * Z) * Z * option UpdateInfo * list report) :=
  '(server_network_key, g) ← fill_bytes g 16;
  let servers := [(1, server_network_key)] in
  '(announced, sent, rest) ← client_task connected UPDATE servers g;
  '(active, reports) ← server_task (1, server_network_key) (map fst (announced ++ sent));
  mret (announced, sent, rest, active, reports).

End broadcast.

(** ** The chunks of an update *)

(** Their sizes, from the offset [off] on. *)
Fixpoint chunk_sizes (fuel : nat) (len off : Z) : list Z :=
  match fuel with
  | O => []
  | S fuel =>
      if bool_decide (off < len) then
        let n := (off + UPDATE_BYTES_SIZE) `min` period_end len off - off in
        n :: chunk_sizes fuel len (off + n)
      else []
  end.

(** The time that the client waits after chunks of these sizes. *)
Fixpoint send_time (len off : Z) (ns : list Z) : Z :=
  match ns with
  | [] => 0
  | n :: ns =>
      (if ends_period len (off + n) then UPDATE_PROCESSING_TIME
       else SERVER_REQUEST_RECEIVE_TIME) + send_time len (off + n) ns
  end.

(** All that the client sleeps: after each datagram, and at the end. *)
Definition total_delay (announced sent : list (list Z * Z)) (rest : Z) : Z :=
  foldr Z.add 0 (map snd announced) + foldr Z.add 0 (map snd sent) + rest.

Definition chunk_size (u : Update) : Z := Z.of_nat (length (update_bytes u)).

(** The size of a chunk is determined by its offset. *)
Lemma chunk_size_unique len off n :
  0 <= off -> 0 < n <= UPDATE_BYTES_SIZE -> off + n <= len ->
  n = UPDATE_BYTES_SIZE \/ ends_period len (off + n) = true ->
  off / UPDATE_BYTES_PROCESSING_THRESHOLD = (off + n - 1) / UPDATE_BYTES_PROCESSING_THRESHOLD ->
  n = (off + UPDATE_BYTES_SIZE) `min` period_end len off - off.
Proof.
  unfold ends_period, period_end. change UPDATE_BYTES_SIZE with 27.
  change UPDATE_BYTES_PROCESSING_THRESHOLD with 4096.
  intros Hoff Hn Hle Hfull Hdiv. rewrite orb_true_iff, !bool_decide_eq_true in Hfull.
  divmod.
Qed.

Lemma chunks_sizes fuel len off us :
  0 <= off -> len - off < Z.of_nat fuel -> chunks len off us ->
  map chunk_size us = chunk_sizes fuel len off.
Proof.
  revert off us. induction fuel as [|fuel IH]; intros off us Hoff Hf Hch.
  { destruct us as [|u us]; cbn in Hch; [lia|]. destruct Hch as (_ & ? & _ & ? & _). lia. }
  cbn [chunk_sizes]. destruct us as [|u us].
  { cbn in Hch. by rewrite bool_decide_eq_false_2 by lia. }
  destruct Hch as (_ & Hn & [Hfull Hdiv] & Hle & Hch). fold (chunk_size u) in *.
  rewrite bool_decide_eq_true_2 by lia. cbn [map].
  rewrite <- (chunk_size_unique len off (chunk_size u)) by done.
  f_equal. apply IH; [lia|lia|done].
Qed.

Lemma transmits_delays `{SerdeFormat, !Postcard, HeaplessVec, !Aead} c len off fc sent us :
  chunks len off us -> transmits c len fc sent us ->
  foldr Z.add 0 (map snd sent) = send_time len off (map chunk_size us).
Proof.
  revert off fc us. induction sent as [|[d delay] sent IH]; intros off fc [|u us] Hch Htr;
    try (by cbn in Htr).
  destruct Hch as (Hu & _ & _ & _ & Hch), Htr as (_ & Hd & Htr). cbn [map foldr snd send_time].
  rewrite Hd, Hu. fold (chunk_size u) in *. by rewrite (IH _ _ _ Hch Htr).
Qed.

(** ** The announcements *)

Section announcements.

Context {F : SerdeFormat} {P : Postcard} {L : PostcardLaws}.
Context {V : HeaplessVec} {VL : HeaplessVecLaws} {A : Aead} {AL : AeadLaws}.

(** Each server can read the one made with its key, and gets the time to do
    so. *)
Definition announced_to (key : list Z) (len : Z) (server : Z * list Z) (d : list Z * Z) : Prop :=
  process_client_prepare_for_update_request (cipher_new server.2) d.1 =
    Some (announcement key len) /\
  d.2 = SERVER_REQUEST_RECEIVE_TIME.

Lemma prepare_servers_spec n servers key len fc buf :
  length key = 16%nat -> uint 16 fc -> Z.of_nat (length buf) = MIN_PACKET_SIZE ->
  exists ds fc' buf' n',
    prepare_servers_for_update connected n servers key len fc buf = Done (ds, fc', buf', n') /\
    uint 16 fc' /\ Z.of_nat (length buf') = MIN_PACKET_SIZE /\
    Forall2 (announced_to key len) servers ds.
Proof.
  intros Hkey. revert n fc buf. induction servers as [|[a k] servers IH]; intros n fc buf Hfc Hbuf.
  { exists [], fc, buf, n. split_and!; [done..|constructor]. }
  cbn [prepare_servers_for_update].
  assert (wire_ok (announcement key len)) as Hp.
  { split; [done|]. cbn. apply as_uint_range. lia. }
  destruct (prepare_read (cipher_new k) (announcement key len) fc buf Hp Hfc Hbuf)
    as (d & -> & Hl & Hread). cbn [mbind outcome_bind]. change (connected n) with true.
  destruct (IH (S n) (wrapping_add 16 fc 1) d) as (ds & fc' & buf' & n' & -> & Hfc' & Hbuf' & Hds);
    [apply as_uint_range; lia|by rewrite Hl|].
  cbn [mbind outcome_bind]. exists ((d, SERVER_REQUEST_RECEIVE_TIME) :: ds), fc', buf', n'.
  split_and!; [done..|]. by constructor.
Qed.

(** What the client sends, to any number of servers. *)
Lemma client_task_spec {rng} `{RngCore rng} image servers (g g' : rng) update_key :
  let len := Z.of_nat (length image) in
  len <= 2 ^ 28 -> fill_bytes g 16 = Done (update_key, g') -> length update_key = 16%nat ->
  exists announced sent us fc,
    client_task connected image servers g = Done (announced, sent, UPDATE_PROCESSING_TIME) /\
    Forall2 (announced_to update_key len) servers announced /\
    chunks len 0 us /\ us ≫= update_bytes = image /\
    transmits (cipher_new update_key) len fc sent us.
Proof.
  intros len Hlen Hg Hkey. unfold client_task. rewrite Hg. cbn [mbind outcome_bind]. fold len.
  destruct (prepare_servers_spec 0 servers update_key len 0
      (replicate (Z.to_nat MIN_PACKET_SIZE) 0) Hkey)
    as (ds & fc & buf & n & -> & Hfc & Hbuf & Hds); [by split|done|].
  cbn [mbind outcome_bind].
  destruct (update_servers_spec n image update_key fc buf)
    as (sent & fc' & us & Hsent & Hch & Htr & Himage); fold len; [lia|done|done|].
  fold len in Hsent, Hch, Htr. change (fun _ : nat => true) with connected in Hsent.
  rewrite Hsent. cbn [mbind outcome_bind mret outcome_ret]. by exists ds, sent, us, fc.
Qed.

(** The version that the servers of the example have, and the one announced. *)
Definition old_version : Version := {| major := 1; minor := 2; patch := 0; pre := None |}.
Definition new_version : Version := {| major := 1; minor := 2; patch := 3; pre := None |}.

(** A server that hears its announcement, and then all parts of the update. *)
Lemma server_follows_announced k update_key len fc d sent us :
  0 < len <= 2 ^ 28 -> announced_to update_key len k d -> chunks len 0 us ->
  transmits (cipher_new update_key) len fc sent us ->
  server_turns (cipher_new k.2) old_version None (d.1 :: map fst sent) =
  (None, Updating old_version new_version :: progress len us).
Proof.
  intros Hlen [Hd _] Hch Htr. cbn [server_turns]. unfold server_turn at 1.
  cbn [mbind option_bind]. rewrite Hd.
  change (activate_update_if_new_version (announcement update_key len) old_version) with
    (Some {| info_cipher := cipher_new update_key; byte_len := as_uint 32 len;
             next_byte_offset := 0 |}).
  rewrite as_uint_small by (unfold uint; lia).
  by rewrite (server_follows _ _ (cipher_new update_key) len 0 fc sent us) by (done || lia).
Qed.

Lemma server_task_turns server ds :
  server_task server ds = Done (server_turns (cipher_new server.2) old_version None ds).
Proof.
  destruct server as [a k]. unfold server_task.
  by replace current_version with (Done old_version) by (by vm_compute).
Qed.

End announcements.

(** ** Properties *)

Section properties.

Context {F : SerdeFormat} {P : Postcard} {L : PostcardLaws}.
Context {V : HeaplessVec} {VL : HeaplessVecLaws} {A : Aead} {AL : AeadLaws}.
Context {rng : Type} {R : RngCore rng} {RL : FillBytesLaws rng}.

(** C5: the client announces an update of up to 2^28 bytes to every one of any
    number of servers, each with its own key, under one update key.  A server follows
    the update to its end if the datagrams that it can read are its own
    announcement and then all parts of the update, once each and in order;
    whatever it hears in between that it cannot read, as the announcements to
    other servers, makes no difference. *)
Theorem update_reaches_all (image : list Z) (servers : list (Z * list Z)) (g g' : rng)
    (update_key : list Z) :
  let len := Z.of_nat (length image) in
  let c := cipher_new update_key in
  0 < len <= 2 ^ 28 -> fill_bytes g 16 = Done (update_key, g') ->
  exists announced sent us,
    client_task connected image servers g = Done (announced, sent, UPDATE_PROCESSING_TIME) /\
    length announced = length servers /\ chunks len 0 us /\ us ≫= update_bytes = image /\
    forall i a k d ds,
      servers !! i = Some (a, k) -> fst <$> announced !! i = Some d ->
      Forall (announces (cipher_new k) c) ds ->
      filter (fun d => heard (cipher_new k) c d = true) ds = d :: map fst sent ->
      server_task (a, k) ds =
      Done (None, Updating old_version new_version :: progress len us).
Proof.
  intros len c Hlen Hg.
  assert (length update_key = 16%nat) as Hkey.
  { destruct (fill_bytes_done g 16) as (? & ? & Hg' & ? & _). rewrite Hg in Hg'.
    by injection Hg' as <- <-. }
  destruct (client_task_spec image servers g g' update_key ltac:(lia) Hg Hkey)
    as (announced & sent & us & fc & Hclient & Hann & Hch & Himage & Htr).
  exists announced, sent, us. split_and!; [done| |done|done|].
  { symmetry. by eapply Forall2_length. }
  intros i a k d ds Hi Hd Hds Hheard.
  apply fmap_Some in Hd as ([d' delay] & Hd & ->). rewrite server_task_turns. f_equal. cbn [snd].
  rewrite (server_turns_heard _ c), Hheard by done.
  apply (server_follows_announced (a, k) update_key len fc (d', delay)); [done| |done|done].
  by apply (Forall2_lookup_lr _ _ _ _ _ _ Hann Hi Hd).
Qed.

(** C18: the example as it is: its image of 102400 bytes is sent in 3800
    datagrams after one announcement; the client sleeps for 47.912 seconds in
    all, after its datagrams and at its end; nothing panics, and a server that
    misses nothing reports the new version, the progress of the update and its
    end. *)
Theorem update_main_completes (g : rng) :
  exists announced sent us,
    main g = Done (announced, sent, UPDATE_PROCESSING_TIME, None,
                   Updating old_version new_version :: progress (100 * 1024) us) /\
    length announced = 1%nat /\ length sent = 3800%nat /\
    total_delay announced sent UPDATE_PROCESSING_TIME = 47912 /\
    chunks (100 * 1024) 0 us /\ us ≫= update_bytes = UPDATE.
Proof.
  unfold main. destruct (fill_bytes_done g 16) as (key & g1 & -> & _ & _).
  cbn [mbind outcome_bind].
  destruct (fill_bytes_done g1 16) as (update_key & g2 & Hg & Hkey & _).
  assert (Z.of_nat (length UPDATE) = 102400) as Hlen.
  { unfold UPDATE. rewrite length_replicate. lia. }
  destruct (client_task_spec UPDATE [(1, key)] g1 g2 update_key)
    as (announced & sent & us & fc & -> & Hann & Hch & Himage & Htr);
    [by rewrite Hlen|done|done|].
  rewrite Hlen in Hann, Hch, Htr. cbn [mbind outcome_bind].
  apply Forall2_cons_inv_l in Hann as (d & ? & Hd & ->%Forall2_nil_inv_l & ->).
  pose proof Hd as [_ Hdelay]. rewrite server_task_turns. cbn [app map snd].
  pose proof (server_follows_announced (1, key) update_key 102400 fc d sent us
                ltac:(lia) Hd Hch Htr) as Hserver. cbn [snd] in Hserver. rewrite Hserver.
  cbn [mbind outcome_bind mret outcome_ret].
  pose proof (chunks_sizes (Z.to_nat 102401) 102400 0 us ltac:(lia) ltac:(lia) Hch) as Hsizes.
  exists [d], sent, us. split; [reflexivity|]. split; [reflexivity|].
  split; [|split; [|split; [exact Hch|exact Himage]]].
  - rewrite (transmits_length _ _ _ _ _ Htr), <- (length_map chunk_size), Hsizes. by vm_compute.
  - unfold total_delay. cbn [map foldr]. rewrite Hdelay, (transmits_delays _ _ _ _ _ _ Hch Htr), Hsizes. by vm_compute.
Qed.

End properties.

(** ** Witnesses *)

Section witnesses.

Import PostcardRef ListVec ChecksumAead ConstRng.

(** Two servers; the second also hears noise. *)
Definition two_servers : list (Z * list Z) := [(1, example_key); (2, replicate 16 3)].

Lemma update_reaches_all_witness :
  exists announced sent us,
    client_task connected example_image two_servers 5 =
      Done (announced, sent, UPDATE_PROCESSING_TIME) /\
    length announced = 2%nat /\ chunks 60 0 us /\
    server_task (2, replicate 16 3) (map fst announced ++ replicate 42 7 :: map fst sent) =
    Done (None, Updating old_version new_version :: progress 60 us).
Proof.
  destruct (update_reaches_all example_image two_servers 5 5 (replicate 16 5))
    as (announced & sent & us & Hclient & Hl & Hch & _ & Hserver); [done|done|].
  exists announced, sent, us. split_and!; [done..|].
  vm_compute in Hclient. injection Hclient as <- <-.
  eapply (Hserver 1%nat); [done|done| |by vm_compute].
  repeat constructor; intros p Hp; vm_compute in Hp; by inversion Hp.
Defined.

Lemma update_main_completes_witness :
  exists announced sent us,
    main 5 = Done (announced, sent, UPDATE_PROCESSING_TIME, None,
                   Updating old_version new_version :: progress (100 * 1024) us) /\
    length announced = 1%nat /\ length sent = 3800%nat /\
    total_delay announced sent UPDATE_PROCESSING_TIME = 47912 /\
    chunks (100 * 1024) 0 us /\ us ≫= update_bytes = UPDATE.
Proof. apply update_main_completes. Defined.

End witnesses.
