(* ===== verification/UnitTests.v ===== *)
(** * The crates' unit tests

    The [#[test]] functions of the two library crates, each as a computation
    that panics where an assertion fails, and the theorem that none does:
    those of the messages for every format that follows postcard's, those of
    the datagrams with AES-128 in CCM mode. *)

From Stdlib Require Import Ascii String.
From S2P Require Import Prelude Serde PostcardRef Platform AesCcm AppProtocol DataLink Discovery Update.

(** [assert_eq!], [assert!], and a byte string [b"..."]. *)
Definition assert_eq {T} `{EqDecision T} (l r : T) : outcome unit :=
  if decide (l = r) then Done tt else Panic.
Definition assert (b : bool) : outcome unit := if b then Done tt else Panic.
Definition byte_string (s : string) : list Z :=
  map (fun c => Z.of_nat (nat_of_ascii c)) (list_ascii_of_string s).

Lemma assert_eq_refl {T} `{EqDecision T} (x : T) : assert_eq x x = Done tt.
Proof. unfold assert_eq. by rewrite decide_True. Qed.

(** ** [app/src/lib.rs] *)

Module AppTests.
Import Tests.

(** The enum of [test_command_serialisation_with_no_command]. *)
Inductive Command2 := A2 | B2.
#[export] Instance Command2_eq_dec : EqDecision Command2.
Proof. solve_decision. Defined.
(** That of [test_event_serialisation_with_no_more_events]. *)
Inductive SomeEvents := SomeEvent | SomeOtherEvent.
#[export] Instance SomeEvents_eq_dec : EqDecision SomeEvents.
Proof. solve_decision. Defined.

Definition Command2_variant (c : Command2) : Z :=
  match c with A2 => 0 | B2 => 1 end.
Definition SomeEvents_variant (e : SomeEvents) : Z :=
  match e with SomeEvent => 0 | SomeOtherEvent => 1 end.

Section tests.
Context {F : SerdeFormat} {P : Postcard}.

#[export] Instance Command2_serialize : Serialize Command2 := fun c =>
  serialize_variant (Command2_variant c) mret.
#[export] Instance Command2_deserialize : Deserialize Command2 :=
  variant ← deserialize_variant;
  match variant with
  | 0 => mret A2
  | 1 => mret B2
  | _ => reader_fail de_error_custom
  end.
#[export] Instance SomeEvents_serialize : Serialize SomeEvents := fun e =>
  serialize_variant (SomeEvents_variant e) mret.
#[export] Instance SomeEvents_deserialize : Deserialize SomeEvents :=
  variant ← deserialize_variant;
  match variant with
  | 0 => mret SomeEvent
  | 1 => mret SomeOtherEvent
  | _ => reader_fail de_error_custom
  end.

Definition test_command_serialisation_with_a_command : outcome unit :=
  let request := {| last_event_offset := Some 9; command := Some C |} in
  let buf := replicate 32 0 in
  let '(serialised, _) := to_slice (serialize request) buf in
  serialised ← unwrap serialised;
  _ ← assert_eq serialised [1; 9; 2];
  value ← unwrap (from_bytes (deserialize (A:=CommandRequest Command)) serialised);
  assert_eq value {| last_event_offset := Some 9; command := Some C |}.

Definition test_command_serialisation_with_no_command : outcome unit :=
  let request : CommandRequest Command2 :=
    {| last_event_offset := None; command := None |} in
  let buf := replicate 32 0 in
  let '(serialised, _) := to_slice (serialize request) buf in
  serialised ← unwrap serialised;
  _ ← assert_eq serialised [0];
  value ← unwrap (from_bytes (deserialize (A:=CommandRequest Command2)) serialised);
  assert_eq value {| last_event_offset := None; command := None |}.

Definition test_event_serialisation : outcome unit :=
  let reply : EventReply (EventOf Event NoEE) :=
    event_reply (Some (Logged EventB 9, 0)) (fun _ : Z => 10) in
  let buf := replicate 32 0 in
  let '(serialised, _) := to_slice (serialize reply) buf in
  serialised ← unwrap serialised;
  _ ← assert_eq serialised [10; 0; 1; 9];
  value ← unwrap (from_bytes (deserialize (A:=EventReply (EventOf Event NoEE))) serialised);
  assert_eq value {| delta_ticks := 10; event := Some (Logged EventB 9) |}.

Definition test_event_serialisation_with_no_more_events : outcome unit :=
  let reply : EventReply (EventOf SomeEvents NoEE) :=
    event_reply None (fun _ : Z => 10) in
  let buf := replicate 32 0 in
  let '(serialised, _) := to_slice (serialize reply) buf in
  serialised ← unwrap serialised;
  _ ← assert_eq serialised [0];
  value ← unwrap (from_bytes (deserialize (A:=EventReply (EventOf SomeEvents NoEE))) serialised);
  assert_eq value {| delta_ticks := 0; event := None |}.

Definition test_event_serialisation_with_either : outcome unit :=
  let reply : EventReply (EventOf Event Telemetry) :=
    event_reply (Some (Logged EventB 9, 0)) (fun _ : Z => 10) in
  let buf := replicate 32 0 in
  let '(serialised, _) := to_slice (serialize reply) buf in
  serialised ← unwrap serialised;
  _ ← assert_eq serialised [10; 0; 1; 9];
  value ← unwrap (from_bytes (deserialize (A:=EventReply (EventOf Event Telemetry))) serialised);
  _ ← assert_eq value {| delta_ticks := 10; event := Some (Logged EventB 9) |};
  let reply : EventReply (EventOf Event Telemetry) :=
    event_reply (Some (Ephemeral TelemetryA, 0)) (fun _ : Z => 10) in
  let buf := replicate 32 0 in
  let '(serialised, _) := to_slice (serialize reply) buf in
  serialised ← unwrap serialised;
  _ ← assert_eq serialised [10; 1; 0];
  value ← unwrap (from_bytes (deserialize (A:=EventReply (EventOf Event Telemetry))) serialised);
  assert_eq value {| delta_ticks := 10; event := Some (Ephemeral TelemetryA) |}.
End tests.

Section encodings.
Context {F : SerdeFormat} {P : Postcard} {L : PostcardLaws}.

#[export] Program Instance Command2_encoding : Encoding Command2 := {|
  wire_ok _ := True;
  encode c := varint (Command2_variant c);
|}.
Next Obligation.
  intros c s _. open_instance; unfold Command2_serialize. wire_write.
Qed.
#[export] Instance Command2_wire : Wire Command2.
Proof.
  intros c r _. open_instance; unfold Command2_deserialize.
  destruct c; cbn [encode Command2_encoding]; wire_read.
Qed.
#[export] Instance Command2_eof : WireEof Command2.
Proof.
  destruct deserialize_variant_eof as (e & d & Hd). exists e, d.
  open_instance; unfold Command2_deserialize. by apply reader_bind_err.
Qed.
#[export] Program Instance SomeEvents_encoding : Encoding SomeEvents := {|
  wire_ok _ := True;
  encode c := varint (SomeEvents_variant c);
|}.
Next Obligation.
  intros c s _. open_instance; unfold SomeEvents_serialize. wire_write.
Qed.
#[export] Instance SomeEvents_wire : Wire SomeEvents.
Proof.
  intros c r _. open_instance; unfold SomeEvents_deserialize.
  destruct c; cbn [encode SomeEvents_encoding]; wire_read.
Qed.

(** What the tests do with a value: write it, look at the bytes, read it
    back. *)
Lemma written_and_read {T}
    `{EqDecision T, !Serialize T, !Deserialize T, !Encoding T, !WireEnd T}
    (v : T) (bs : list Z) :
  wire_ok v -> encode v = bs -> (length bs <= 32)%nat ->
  exists buf, to_slice (serialize v) (replicate 32 0) = (Ok bs, buf) /\
              from_bytes (deserialize (A:=T)) bs = Ok v.
Proof.
  intros Hv <- Hl. eexists. split; [by apply to_slice_encode|by apply from_bytes_encode_end].
Qed.
End encodings.

(** Runs a test up to the end of its next value. *)
Ltac run_value v bs :=
  let b := fresh "buf" in let Hread := fresh "Hread" in
  destruct (written_and_read v bs) as (b & -> & Hread);
  [ cbn; unfold uint; split_and?; first [done | intros ? [= <-]; cbn; unfold uint; try split; lia]
  | cbn; rewrite ?varint_small by lia; reflexivity
  | cbn; lia
  | cbn [unwrap mbind outcome_bind]; rewrite assert_eq_refl; cbn [mbind outcome_bind];
    rewrite Hread; cbn [unwrap mbind outcome_bind] ].

Section theorems.
Context {F : SerdeFormat} {P : Postcard} {L : PostcardLaws}.

Lemma command_with_a_command_passes :
  test_command_serialisation_with_a_command = Done tt.
Proof.
  unfold test_command_serialisation_with_a_command.
  run_value {| last_event_offset := Some 9; command := Some C |} [1; 9; 2].
  apply assert_eq_refl.
Qed.

Lemma command_with_no_command_passes :
  test_command_serialisation_with_no_command = Done tt.
Proof.
  unfold test_command_serialisation_with_no_command.
  run_value {| last_event_offset := None; command := None (A:=Command2) |} [0].
  apply assert_eq_refl.
Qed.

Lemma event_serialisation_passes : test_event_serialisation = Done tt.
Proof.
  unfold test_event_serialisation. cbn [event_reply].
  run_value {| delta_ticks := 10; event := Some (Logged (EE:=NoEE) EventB 9) |} [10; 0; 1; 9].
  apply assert_eq_refl.
Qed.

Lemma no_more_events_passes : test_event_serialisation_with_no_more_events = Done tt.
Proof.
  unfold test_event_serialisation_with_no_more_events. cbn [event_reply].
  run_value {| delta_ticks := 0; event := None (A:=EventOf SomeEvents NoEE) |} [0].
  apply assert_eq_refl.
Qed.

Lemma with_either_passes : test_event_serialisation_with_either = Done tt.
Proof.
  unfold test_event_serialisation_with_either. cbn [event_reply].
  run_value {| delta_ticks := 10; event := Some (Logged (EE:=Telemetry) EventB 9) |}
    [10; 0; 1; 9].
  rewrite assert_eq_refl. cbn [mbind outcome_bind].
  run_value {| delta_ticks := 10; event := Some (Ephemeral (E:=Event) TelemetryA) |} [10; 1; 0].
  apply assert_eq_refl.
Qed.
End theorems.
End AppTests.

(** ** [data/src/lib.rs] *)

Module DataTests.

Section tests.
Context {F : SerdeFormat} {P : Postcard} {V : HeaplessVec} {A : Aead}.

Definition key : list Z := byte_string "0123456789ABCDEF".

Definition test_datagram_serialisation : outcome unit :=
  let cipher := cipher_new key in
  let header := {| DataLink.version := 0; source := Server; server_address := 255;
                   server_port := 7; frame_counter := 1 |} in
  let payload_buf := byte_string "some data" in
  let datagram_buf := replicate 32 0 in
  datagram_buf ← to_datagram cipher header payload_buf datagram_buf;
  assert_eq datagram_buf
    [0; 1; 63; 252; 13; 145; 171; 66; 62; 129; 223; 68; 168; 6; 69; 126; 97; 64; 0; 0;
     0; 0; 0; 0; 0; 0; 0; 0; 0; 0; 0; 0].

(** The filter of [test_datagram_deserialisation]. *)
Definition wanted (h : Header) : bool :=
  bool_decide (source h = Server) && bool_decide (server_address h = 255)
  && bool_decide (server_port h = 7).

Definition test_datagram_deserialisation : outcome unit :=
  let cipher := cipher_new key in
  let datagram_buf :=
    [0; 1; 63; 252; 13; 145; 171; 66; 62; 129; 223; 68; 168; 6; 69; 126; 97; 64; 0; 0; 0; 0;
     0; 0; 0; 0; 0; 0; 0; 0; 0; 0] in
  '(header, payload_buf) ← unwrap (from_datagram datagram_buf wanted cipher);
  _ ← assert_eq header
        {| DataLink.version := 0; source := Server; server_address := 255;
           server_port := 7; frame_counter := 1 |};
  assert_eq (as_slice payload_buf) (byte_string "some data").
End tests.

Section theorems.
Context {F : SerdeFormat} {P : Postcard} {L : PostcardLaws}.
Context {V : HeaplessVec} {VL : HeaplessVecLaws}.
Import AesCcm.

Definition frame : DataFrame :=
  sealed_frame (cipher_new key) (0, 1, 63, 252) (byte_string "some data").

(** What AES-128 in CCM mode makes of the tests' payload. *)
Lemma frame_encoded :
  encode_frame frame = [0; 1; 63; 252; 13; 145; 171; 66; 62; 129; 223; 68; 168; 6; 69; 126; 97; 64].
Proof.
  assert (encrypted_payload frame =
          [145; 171; 66; 62; 129; 223; 68; 168; 6; 69; 126; 97; 64]) as Hp by by vm_compute.
  unfold encode_frame. rewrite Hp. change (header frame) with (0, 1, 63, 252).
  generalize frame. intros _. cbn [length Z.of_nat]. rewrite varint_small by lia. reflexivity.
Qed.

Lemma datagram_serialisation_passes : test_datagram_serialisation = Done tt.
Proof.
  unfold test_datagram_serialisation. rewrite to_datagram_done.
  - change (Header.to_packed _) with (0, 1, 63, 252). fold frame. rewrite frame_encoded.
    apply assert_eq_refl.
  - by split.
  - change (length (byte_string "some data")) with 9%nat. unfold frame_size, MIC_SIZE.
    rewrite varint_small by (cbn; lia). cbn. lia.
Qed.

Lemma datagram_deserialisation_passes : test_datagram_deserialisation = Done tt.
Proof.
  unfold test_datagram_deserialisation.
  destruct (from_datagram_sealed (cipher_new key) (0, 1, 63, 252) (byte_string "some data")
      (replicate 14 0) wanted {| DataLink.version := 0; source := Server;
        server_address := 255; server_port := 7; frame_counter := 1 |}) as (v & Hv & Hd);
    [by split|done|done|].
  revert v Hv Hd. fold frame.
  assert (encode_frame frame ++ replicate 14 0 =
    [0; 1; 63; 252; 13; 145; 171; 66; 62; 129; 223; 68; 168; 6; 69; 126; 97; 64;
     0; 0; 0; 0; 0; 0; 0; 0; 0; 0; 0; 0; 0; 0]) as -> by by rewrite frame_encoded.
  intros v Hv ->. cbn [unwrap mbind outcome_bind]. rewrite assert_eq_refl, Hv.
  apply assert_eq_refl.
Qed.
End theorems.
End DataTests.

(** ** [data/src/discovery.rs] *)

Module DiscoveryTests.

Record RngFixture := { return_val : Z }.

(** A [todo!()] is a panic. *)
#[export] Instance fixture_rng : RngCore RngFixture := {|
  next_u32 self := (return_val self, self);
  next_u64 self := Panic;
  fill_bytes self n := Panic;
  try_fill_bytes self n := Panic;
|}.

Definition unset : Identify.t :=
  {| Identify.addresses := replicate (Z.to_nat MIN_PAYLOAD_SIZE) 0 |}.

(** [for address in from..MAX_ADDRESSES { identify.set_address(address as u8); }]. *)
Definition set_from (from : Z) (identify : Identify.t) : outcome Identify.t :=
  foldl (fun identify address =>
           identify ← identify; Identify.set_address identify (as_uint 8 address))
    (Done identify) (seqZ from (MAX_ADDRESSES - from)).

Definition test_set_get_bits : outcome unit :=
  let identify := unset in
  identify ← Identify.set_address identify 1;
  identify ← Identify.set_address identify 9;
  byte ← index (Identify.addresses identify) 0;
  _ ← assert_eq byte 2;
  byte ← index (Identify.addresses identify) 1;
  _ ← assert_eq byte 2;
  b ← Identify.is_address_set identify 1;
  _ ← assert b;
  b ← Identify.is_address_set identify 9;
  _ ← assert b;
  b ← Identify.is_address_set identify 10;
  assert (negb b).

Definition test_identified_with_none_free : outcome unit :=
  let identify := unset in
  identify ← set_from 0 identify;
  let rng_fixture := {| return_val := 1 |} in
  '(identified, _) ← Identified.with_random_address (Identify.iter identify) rng_fixture 2;
  assert_eq identified None.

Definition test_identified_with_one_free : outcome unit :=
  let identify := unset in
  identify ← set_from 2 identify;
  let rng_fixture := {| return_val := 1 |} in
  '(identified, _) ← Identified.with_random_address (Identify.iter identify) rng_fixture 2;
  assert_eq identified
    (Some {| Identified.server_address := 1; Identified.server_ports := 2 |}).

Definition test_identified_with_three_free : outcome unit :=
  let identify := unset in
  identify ← Identify.set_address identify 0;
  identify ← set_from 4 identify;
  let rng_fixture := {| return_val := 2 |} in
  '(identified, _) ← Identified.with_random_address (Identify.iter identify) rng_fixture 2;
  assert_eq identified
    (Some {| Identified.server_address := 3; Identified.server_ports := 2 |}).

Definition test_identified_with_all_but_first_free : outcome unit :=
  let identify := unset in
  identify ← Identify.set_address identify 0;
  let rng_fixture := {| return_val := 254 |} in
  '(identified, _) ← Identified.with_random_address (Identify.iter identify) rng_fixture 2;
  assert_eq identified
    (Some {| Identified.server_address := 255; Identified.server_ports := 2 |}).

(** [iter.enumerate().skip(skip).find(|(_, is_set)| *is_set)], from item [n]. *)
Fixpoint enumerate_skip_find (fuel : nat) (skip n : Z) (iter : AddressesIter.t)
  : outcome (option (Z * bool)) :=
  match fuel with
  | O => Panic
  | S fuel =>
      '(item, iter) ← AddressesIter.next iter;
      match item with
      | None => mret None
      | Some is_set =>
          if bool_decide (skip <= n) && is_set then mret (Some (n, is_set))
          else enumerate_skip_find fuel skip (n + 1) iter
      end
  end.

Definition test_iter_with_skip : outcome unit :=
  let identify := unset in
  identify ← Identify.set_address identify 0;
  identify ← Identify.set_address identify 3;
  found ← enumerate_skip_find ITER_FUEL 1 0 (Identify.iter identify);
  assert_eq found (Some (3, true)).

End DiscoveryTests.

(** ** [data/src/update.rs] *)

Module UpdateTests.

(** [s.parse::<Version>().unwrap()]. *)
Definition parsed (s : string) : outcome Version := unwrap (Version.from_str (lit s)).

(** The versions that [test_parse_versions] expects. *)
Definition expected (pre : option PreRelease) : Version :=
  {| major := 1; minor := 2; patch := 3; pre := pre |}.

Definition test_parse_versions : outcome unit :=
  v ← parsed "1.2.3"; _ ← assert_eq v (expected None);
  v ← parsed "1.2.3-alpha.1"; _ ← assert_eq v (expected (Some (Alpha 1)));
  v ← parsed "1.2.3-beta.1"; _ ← assert_eq v (expected (Some (Beta 1)));
  v ← parsed "1.2.3-beta.1+some-additional-ident"; _ ← assert_eq v (expected (Some (Beta 1)));
  v ← parsed "1.2.3+some-additional-ident"; assert_eq v (expected None).

Definition test_compare_versions : outcome unit :=
  u ← parsed "1.0.0"; v ← parsed "1.0.0"; _ ← assert (bool_decide (u = v));
  u ← parsed "1.0.0"; v ← parsed "2.0.0"; _ ← assert (Version.lt u v);
  u ← parsed "1.1.0"; v ← parsed "1.2.0"; _ ← assert (Version.lt u v);
  u ← parsed "1.1.1"; v ← parsed "1.1.2"; _ ← assert (Version.lt u v);
  u ← parsed "1.0.0-alpha.1"; v ← parsed "1.0.0"; _ ← assert (Version.lt u v);
  u ← parsed "1.0.0-beta.1"; v ← parsed "1.0.0"; _ ← assert (Version.lt u v);
  u ← parsed "1.0.0-alpha.1"; v ← parsed "1.0.0-beta.1"; _ ← assert (Version.lt u v);
  u ← parsed "1.0.0-alpha.1"; v ← parsed "1.0.0-alpha.2"; assert (Version.lt u v).

Definition display_versions : outcome unit :=
  v ← parsed "1.2.3"; _ ← assert_eq (Version.fmt v) (lit "1.2.3");
  v ← parsed "1.2.3-alpha.4"; _ ← assert_eq (Version.fmt v) (lit "1.2.3-alpha.4");
  v ← parsed "1.2.3-beta.4"; assert_eq (Version.fmt v) (lit "1.2.3-beta.4").

End UpdateTests.

(** ** Properties *)

Section properties.
Context {F : SerdeFormat} {P : Postcard} {L : PostcardLaws}.
Context {V : HeaplessVec} {VL : HeaplessVecLaws}.
Import AppTests DataTests DiscoveryTests UpdateTests AesCcm.

(** C17: no assertion of the crates' tests of messages and datagrams fails,
    with any serialiser that follows postcard's format, any vector that
    follows heapless's, and AES-128 in CCM mode as the cipher. *)
Theorem wire_tests_pass :
  test_command_serialisation_with_a_command = Done tt /\
  test_command_serialisation_with_no_command = Done tt /\
  test_event_serialisation = Done tt /\
  test_event_serialisation_with_no_more_events = Done tt /\
  test_event_serialisation_with_either = Done tt /\
  test_datagram_serialisation = Done tt /\
  test_datagram_deserialisation = Done tt.
Proof.
  split_and!; [apply command_with_a_command_passes|apply command_with_no_command_passes
    |apply event_serialisation_passes|apply no_more_events_passes|apply with_either_passes
    |apply datagram_serialisation_passes|apply datagram_deserialisation_passes].
Qed.
End properties.

Section plain_properties.
Import DiscoveryTests UpdateTests.

(** No assertion of the tests of addresses and versions fails. *)
Theorem plain_tests_pass :
  test_set_get_bits = Done tt /\
  test_identified_with_none_free = Done tt /\
  test_identified_with_one_free = Done tt /\
  test_identified_with_three_free = Done tt /\
  test_identified_with_all_but_first_free = Done tt /\
  test_iter_with_skip = Done tt /\
  test_parse_versions = Done tt /\
  test_compare_versions = Done tt /\
  display_versions = Done tt.
Proof. by vm_compute. Qed.
End plain_properties.

(** ** Witnesses *)

Section witnesses.
Import AppTests DataTests AesCcm PostcardRef ListVec.

Lemma wire_tests_pass_witness :
  test_command_serialisation_with_a_command = Done tt /\
  test_command_serialisation_with_no_command = Done tt /\
  test_event_serialisation = Done tt /\
  test_event_serialisation_with_no_more_events = Done tt /\
  test_event_serialisation_with_either = Done tt /\
  test_datagram_serialisation = Done tt /\
  test_datagram_deserialisation = Done tt.
Proof. apply wire_tests_pass. Defined.
End witnesses.
