(* ===== verification/DiscoveryAnalysis.v ===== *)
(** * The analysis of discovery: [data/examples/discovery_analysis/main.rs]

    The simulation of the number of discovery rounds, in IEEE 754 binary64
    arithmetic. *)

From Stdlib Require Import Ascii String SpecFloat.
From S2P Require Import Prelude Update VersionText.

(** ** [f64] *)

Definition f64 : Type := spec_float.
Definition fmul : f64 -> f64 -> f64 := SFmul 53 1024.
Definition fsub : f64 -> f64 -> f64 := SFsub 53 1024.
Definition fdiv : f64 -> f64 -> f64 := SFdiv 53 1024.
(** [x as f64], for an [i32]. *)
Definition as_f64 (x : Z) : f64 := binary_normalize 53 1024 x 0 false.

(** [x.round() as i32]: to the nearest integer, halves away from zero; the
    cast saturates, and takes what is not a number to 0. *)
Definition round_as_i32 (x : f64) : Z :=
  match x with
  | S754_zero _ | S754_nan => 0
  | S754_infinity s => if s then - 2 ^ 31 else 2 ^ 31 - 1
  | S754_finite s m e =>
      let n := if decide (0 <= e) then Z.pos m * 2 ^ e
               else (2 * Z.pos m + 2 ^ (- e)) / (2 * 2 ^ (- e)) in
      if s then Z.max (- 2 ^ 31) (- n) else Z.min (2 ^ 31 - 1) n
  end.

(** An [i32] result in a build with overflow checks. *)
Definition checked_i32 (x : Z) : outcome Z :=
  if decide (- 2 ^ 31 <= x < 2 ^ 31) then Done x else Panic.

Section simulation.

(** [f64::powi]: the precision of its result is not specified. *)
Variable powi : f64 -> Z -> f64.

(** The loop of [round] over [i] in [1..n]: the probability of no collision. *)
Fixpoint no_collision (fuel : nat) (i n m : Z) (p_bar : f64) : f64 :=
  match fuel with
  | O => p_bar
  | S fuel =>
      if bool_decide (i < n)
      then no_collision fuel (i + 1) n m
             (fmul p_bar (fsub (as_f64 1) (fdiv (as_f64 i) (as_f64 m))))
      else p_bar
  end.

(** [round]: what is printed (the probability of a collision and the
    expected successes), and the result. *)
Definition round (n m : Z) : outcome (f64 * f64 * Z) :=
  let p_bar := no_collision (Z.to_nat (n - 1)) 1 n m (as_f64 1) in
  let p := fsub (as_f64 1) p_bar in
  k ← checked_i32 (n - 1);
  let e := fmul (as_f64 n)
             (powi (fsub (as_f64 1) (fdiv (as_f64 1) (as_f64 m))) k) in
  mret (p, e, round_as_i32 e).

(** [simulate], for at most [fuel] rounds; [None] when they do not suffice. *)
Fixpoint simulate (fuel : nat) (i stations slots addresses : Z) : outcome (option Z) :=
  if bool_decide (stations > 0) then
    match fuel with
    | O => mret None
    | S fuel =>
        '(_, _, received) ← round stations slots;
        '(_, _, assigned) ← round received addresses;
        stations ← checked_i32 (stations - assigned);
        addresses ← checked_i32 (addresses - assigned);
        i ← checked_i32 (i + 1);
        simulate fuel i stations slots addresses
    end
  else r ← checked_i32 (i - 1); mret (Some r).

(** [help]: prints the usage. *)
Definition help (name : str) : Z := 0.

(** The digits of an [i32], most significant first; an overflow is an error. *)
Fixpoint parse_i32_digits (sign acc : Z) (s : str) : result ParseIntError Z :=
  match s with
  | [] => Ok acc
  | c :: s =>
      d ← ok_or (to_digit c) Build_ParseIntError;
      let acc := acc * 10 + sign * d in
      if decide (- 2 ^ 31 <= acc < 2 ^ 31) then parse_i32_digits sign acc s
      else Err Build_ParseIntError
  end.

(** [s.parse::<i32>()]: an optional sign and at least one digit. *)
Definition parse_i32 (s : str) : result ParseIntError Z :=
  let '(sign, digits) :=
    match s with
    | c :: r => if decide (c = "-"%char) then (-1, r)
                else if decide (c = "+"%char) then (1, r) else (1, s)
    | [] => (1, [])
    end in
  match digits with
  | [] => Err Build_ParseIntError
  | _ => parse_i32_digits sign 0 digits
  end.

(** [main], by the arguments, the name of the program first: what the function
    that it calls returns. *)
Definition main (fuel : nat) (args : list str) : outcome (option Z) :=
  match args with
  | [] => Panic
  | [_] => simulate fuel 1 128 400 255
  | [name; a] =>
      if bool_decide (a = lit "--help"%string) then mret (Some (help name))
      else
        stations ← unwrap (parse_i32 a);
        simulate fuel 1 stations 400 255
  | [_; a; b] =>
      stations ← unwrap (parse_i32 a);
      slots ← unwrap (parse_i32 b);
      simulate fuel 1 stations slots 255
  | [_; a; b; c] =>
      stations ← unwrap (parse_i32 a);
      slots ← unwrap (parse_i32 b);
      addresses ← unwrap (parse_i32 c);
      simulate fuel 1 stations slots addresses
  | name :: _ => mret (Some (help name))
  end.

End simulation.

(** Powers by repeated squaring, as the usual run-time library computes
    them. *)
Fixpoint powi_pos (a : f64) (b : positive) (r : f64) : f64 :=
  match b with
  | xH => fmul r a
  | xO b => powi_pos (fmul a a) b r
  | xI b => powi_pos (fmul a a) b (fmul r a)
  end.
Definition powi_squaring (a : f64) (b : Z) : f64 :=
  match b with
  | Z0 => as_f64 1
  | Zpos b => powi_pos a b (as_f64 1)
  | Zneg b => fdiv (as_f64 1) (powi_pos a b (as_f64 1))
  end.

(** ** Lemmas *)

Lemma checked_i32_ok x : - 2 ^ 31 <= x < 2 ^ 31 -> checked_i32 x = Done x.
Proof. intros. unfold checked_i32. by rewrite decide_True. Qed.

(** A product with zero is rounded to 0, even if it is not a number. *)
Lemma round_mul_zero_r x s : round_as_i32 (fmul x (S754_zero s)) = 0.
Proof. by destruct x as [| [] | |]. Qed.

Lemma round_mul_zero_l x s : round_as_i32 (fmul (S754_zero s) x) = 0.
Proof. by destruct x as [| [] | |]. Qed.

#[export] Instance f64_eq_dec : EqDecision f64.
Proof. unfold f64. solve_decision. Defined.

Section stuck.

Variable powi : f64 -> Z -> f64.
Hypothesis powi_zero : forall k, 0 < k < 2 ^ 31 -> powi (S754_zero false) k = S754_zero false.

(** With one slot, two stations or more always collide. *)
Lemma round_single_slot n :
  2 <= n < 2 ^ 31 -> exists p e, round powi n 1 = Done (p, e, 0).
Proof.
  intros Hn. unfold round. rewrite checked_i32_ok by lia. cbn [mbind outcome_bind].
  change (fsub (as_f64 1) (fdiv (as_f64 1) (as_f64 1))) with (S754_zero false).
  rewrite powi_zero by lia. rewrite round_mul_zero_r. by eexists _, _.
Qed.

Lemma round_none m : exists p e, round powi 0 m = Done (p, e, 0).
Proof.
  unfold round. rewrite checked_i32_ok by lia. cbn [mbind outcome_bind].
  change (as_f64 0) with (S754_zero false). rewrite round_mul_zero_l. by eexists _, _.
Qed.

Lemma single_slot_stuck fuel i stations addresses :
  2 <= stations < 2 ^ 31 -> - 2 ^ 31 <= addresses < 2 ^ 31 ->
  0 <= i -> i + Z.of_nat fuel < 2 ^ 31 ->
  simulate powi fuel i stations 1 addresses = Done None.
Proof.
  intros Hs Ha. revert i. induction fuel as [|fuel IH]; intros i Hi Hfuel; cbn [simulate];
    rewrite bool_decide_eq_true_2 by lia; [done|].
  destruct (round_single_slot stations Hs) as (p & e & ->). cbn [mbind outcome_bind].
  destruct (round_none addresses) as (p' & e' & ->). cbn [mbind outcome_bind].
  rewrite !Z.sub_0_r, !checked_i32_ok by lia. cbn [mbind outcome_bind]. apply IH; lia.
Qed.

End stuck.

(** ** The arguments *)









(** ** Properties *)


(** With a single time slot, two or more stations are never discovered:
    whatever the number of addresses, the simulation does not end within
    2^31 - 2 rounds (where the count of rounds overflows). *)
Theorem single_slot_never_ends (powi : f64 -> Z -> f64) (fuel : nat)
    (stations addresses : Z) :
  (forall k, 0 < k < 2 ^ 31 -> powi (S754_zero false) k = S754_zero false) ->
  2 <= stations < 2 ^ 31 -> - 2 ^ 31 <= addresses < 2 ^ 31 ->
  Z.of_nat fuel <= 2 ^ 31 - 2 ->
  simulate powi fuel 1 stations 1 addresses = Done None.
Proof.
  intros Hpowi Hs Ha Hfuel. apply single_slot_stuck; [done|done|done|lia|lia].
Qed.

(** ** Examples and witnesses *)

(** The numbers of rounds that the README lists, when powers are computed by
    repeated squaring. *)
Example readme_rounds :
  map (fun args => main powi_squaring 20 (map lit ("discovery_analysis"%string :: args)))
    [["8"]; ["32"]; ["64"]; ["128"]; ["196"]; ["255"]]%string =
  map (fun n => Done (Some n)) [1; 2; 3; 4; 6; 12].
Proof. by vm_compute. Qed.


Lemma single_slot_never_ends_witness :
  simulate (fun x k => if bool_decide (x = S754_zero false) then x else powi_squaring x k)
    1000 1 3 1 255 = Done None.
Proof.
  apply (single_slot_never_ends
           (fun x k => if bool_decide (x = S754_zero false) then x else powi_squaring x k)
           1000 3 255); [|lia..].
  intros k _. by rewrite bool_decide_eq_true_2.
Defined.
